(** * gochain: segmented key/value table and journaled state database

    A shallow embedding of [ethdb.Table] / [ethdb.SegmentSet] (package
    [ethdb]) and of [state.StateDB] (package [state]), with the properties
    the specification states about them.

    Conventions of the embedding.
    - A Go [string] and a Go [[]byte] key are Rocq [string]s (sequences of
      8-bit characters); Go's [<] on strings is [String.ltb], the bytewise
      lexicographic order.
    - A Go [[]byte] value that may be [nil] is an [option string]; [None]
      is the nil slice.
    - A Go [map] is a [gmap]; a pointer receiver is explicit state passing.
    - A [*types.Log] is an address in a memory of log objects carried
      beside the [StateDB]: [AddLog] writes through the address and the
      logs keep addresses, so a log object that is added twice is shared.
    - Locks are not modelled: every method runs to completion on its own.
      A semaphore acquisition that can never be granted, and a Go panic,
      are outcomes of their own ([Blocked], [Panicked]). *)

From Stdlib Require Import ZArith String Ascii List Lia.
From stdpp Require Import base option list gmap strings sorting.

Local Open Scope Z_scope.

(** ** Outcomes and the state-passing monad *)

Inductive outcome (A : Type) : Type :=
  | Done (a : A)
  | Blocked
  | Panicked.
Arguments Done {A} a.
Arguments Blocked {A}.
Arguments Panicked {A}.

Definition M (S A : Type) : Type := S → outcome (A * S).

Definition ret {S A} (a : A) : M S A := λ s, Done (a, s).

Definition bind {S A B} (m : M S A) (k : A → M S B) : M S B :=
  λ s, match m s with
       | Done (a, s') => k a s'
       | Blocked => Blocked
       | Panicked => Panicked
       end.

Definition get {S} : M S S := λ s, Done (s, s).
Definition modify {S} (f : S → S) : M S unit := λ s, Done (tt, f s).
Definition block {S A} : M S A := λ _, Blocked.
Definition panic {S A} : M S A := λ _, Panicked.

(** The final state and the result of a completed run. *)
Definition run_state {S A} (m : M S A) (s : S) : S :=
  match m s with Done (_, s') => s' | _ => s end.
Definition run_value {S A} (m : M S A) (s : S) : option A :=
  match m s with Done (a, _) => Some a | _ => None end.

Declare Scope go_scope.
Delimit Scope go_scope with go.
Notation "x <- m ;; k" := (bind m (λ x, k))
  (at level 100, m at next level, right associativity) : go_scope.
Notation "m ;;; k" := (bind m (λ _, k))
  (at level 100, right associativity) : go_scope.

(** ** Strings as ordered names *)

Definition str_lt (a b : string) : bool := String.ltb a b.
Definition str_le (a b : string) : bool := negb (String.ltb b a).

(** ** What a program preserves *)

(** [preserves R m]: every completed run of [m] relates its initial and
    final states by [R]. *)
Definition preserves {S A} (R : S → S → Prop) (m : M S A) : Prop :=
  ∀ s a s', m s = Done (a, s') → R s s'.

Module Ethdb.

Local Open Scope go_scope.

(** *** Errors and byte slices *)

(** Errors are compared by identity in the source ([err == ErrNotFound]):
    the sentinels are constructors, any other error carries its message. *)
Inductive error :=
  | ErrNotFound
  | ErrImmutableSegment
  | ErrInvalidSegmentType
  | ErrSegmentTypeUnknown
  | ErrNotExist
  | ErrCanceled
  | ErrOther (msg : string).

#[global] Instance error_eq_dec : EqDecision error.
Proof. solve_decision. Defined.

(** Go's [(T, error)] results whose value is meaningful only without error. *)
Inductive result (A : Type) : Type :=
  | Ok (a : A)
  | Err (e : error).
Arguments Ok {A} a.
Arguments Err {A} e.

Definition slice := option string.

Definition slice_data (s : slice) : string := default EmptyString s.

(** [bytes.Equal]: a nil slice equals an empty one. *)
Definition bytes_Equal (a b : slice) : bool :=
  bool_decide (slice_data a = slice_data b).

(** [context.Context]: only whether it is already cancelled matters. *)
Inductive Context := Background | Cancelled.

(** *** Segments *)

(** An immutable segment, as the [Segment] interface with its optional
    capabilities; every method is a field, as in [mock.Segment]. *)
Record Segment := mkSegment {
  seg_Name : string;
  seg_Path : string;
  seg_Has : string → bool * option error;
  seg_Get : string → slice * option error;
  seg_Iterator : list (string * string);
  seg_Close : option error;
  (* [Open() error], when the dynamic type has it *)
  seg_Open : option (option error);
  (* [Purge() error], when the dynamic type has it *)
  seg_Purge : option (option error);
  (* [Put]/[Delete], when the dynamic type is a [MutableSegment] *)
  seg_Delete : option (string → option error);
}.

(** Modelled from the spec: [LDBSegment] (its file is not part of the
    sources): a mutable segment over one partition, a key/value store with
    [Has], [Get], [Put], [Delete]; a read of a missing key is not-found. *)
Record LDBSegment := mkLDBSegment {
  ldb_Name : string;
  ldb_Path : string;
  ldb_data : gmap string string;
}.

Definition NewLDBSegment (name path : string) (data : gmap string string) : LDBSegment :=
  mkLDBSegment name path data.

Definition ldb_Has (s : LDBSegment) (key : string) : bool * option error :=
  (bool_decide (is_Some (ldb_data s !! key)), None).

Definition ldb_Get (s : LDBSegment) (key : string) : slice * option error :=
  match ldb_data s !! key with
  | Some v => (Some v, None)
  | None => (None, Some ErrNotFound)
  end.

Definition ldb_Put (s : LDBSegment) (key : string) (value : slice) : LDBSegment :=
  mkLDBSegment (ldb_Name s) (ldb_Path s) (<[key := slice_data value]> (ldb_data s)).

Definition ldb_Delete (s : LDBSegment) (key : string) : LDBSegment :=
  mkLDBSegment (ldb_Name s) (ldb_Path s) (delete key (ldb_data s)).

(** What [Table.AcquireSegment] hands out: a [Segment] interface value whose
    dynamic type is [*LDBSegment] or something else. *)
Inductive AnySegment :=
  | IsLDB (s : LDBSegment)
  | IsSeg (s : Segment).

(** Calls that leave the process, in the order they are made. *)
Inductive event :=
  | EvOpen (name : string)
  | EvClose (name : string)
  | EvPurge (name : string)
  | EvLdbOpen (name : string)
  | EvLdbClose (name : string)
  | EvLdbPut (name key : string) (value : slice)
  | EvLdbDelete (name key : string)
  | EvSegDelete (name key : string)
  | EvCompact (name : string)
  | EvUncompact (name : string).

(** *** SegmentSet *)

Record SegmentSet := mkSegmentSet {
  ss_segments : gmap string Segment;      (* all segments *)
  ss_size : nat;                          (* semaphore size and LRU capacity *)
  ss_cur : nat;                           (* semaphore: permits held *)
  ss_cache : list (string * Segment);     (* opened segments, most recent first *)
  ss_trace : list event;
}.

Definition set_segments (f : gmap string Segment → gmap string Segment) (ss : SegmentSet) :=
  mkSegmentSet (f (ss_segments ss)) (ss_size ss) (ss_cur ss) (ss_cache ss) (ss_trace ss).
Definition set_cur (f : nat → nat) (ss : SegmentSet) :=
  mkSegmentSet (ss_segments ss) (ss_size ss) (f (ss_cur ss)) (ss_cache ss) (ss_trace ss).
Definition set_cache (f : list (string * Segment) → list (string * Segment)) (ss : SegmentSet) :=
  mkSegmentSet (ss_segments ss) (ss_size ss) (ss_cur ss) (f (ss_cache ss)) (ss_trace ss).
Definition emit (e : event) (ss : SegmentSet) :=
  mkSegmentSet (ss_segments ss) (ss_size ss) (ss_cur ss) (ss_cache ss) (ss_trace ss ++ [e]).

Definition NewSegmentSet (maxOpenCount : Z) : SegmentSet :=
  let maxOpenCount := if maxOpenCount <? 1 then 1 else maxOpenCount in
  mkSegmentSet ∅ (Z.to_nat maxOpenCount) 0 [] [].

(** [semaphore.Weighted], weight 1. [Acquire] succeeds at once when a permit
    is free; otherwise it waits for a release or for [ctx]: with a cancelled
    context it fails, with a live one nothing in a sequential run can wake
    it. [Release] panics when nothing is held. *)
Definition sem_Acquire (ctx : Context) : M SegmentSet (option error) :=
  λ ss, if bool_decide (ss_cur ss < ss_size ss)%nat
        then Done (None, set_cur S ss)
        else match ctx with
             | Cancelled => Done (Some ErrCanceled, ss)
             | Background => Blocked
             end.

Definition sem_Release : M SegmentSet unit :=
  λ ss, match ss_cur ss with
        | O => Panicked
        | S n => Done (tt, set_cur (λ _, n) ss)
        end.

(** [SegmentSet.onEvicted]: the callback of the LRU. *)
Definition onEvicted (key : string) : M SegmentSet unit :=
  ss <- get;;
  match ss_segments ss !! key with
  | None => ret tt
  | Some s =>
    match seg_Purge s with
    | Some _ => modify (emit (EvPurge (seg_Name s)))
    | None => modify (emit (EvClose (seg_Name s)))
    end
  end.

(** The LRU cache ([lru.Cache] of hashicorp/golang-lru) over [ss_cache]. *)
Fixpoint cache_find (name : string) (c : list (string * Segment)) : option Segment :=
  match c with
  | [] => None
  | (k, v) :: c' => if bool_decide (k = name) then Some v else cache_find name c'
  end.

Definition cache_drop (name : string) (c : list (string * Segment)) : list (string * Segment) :=
  filter (λ kv, kv.1 ≠ name) c.

Definition cache_Get (name : string) : M SegmentSet (option Segment) :=
  ss <- get;;
  match cache_find name (ss_cache ss) with
  | Some s => modify (set_cache (λ c, (name, s) :: cache_drop name c));;; ret (Some s)
  | None => ret None
  end.

Definition cache_Add (name : string) (s : Segment) : M SegmentSet unit :=
  ss <- get;;
  match cache_find name (ss_cache ss) with
  | Some _ => modify (set_cache (λ c, (name, s) :: cache_drop name c))
  | None =>
    modify (set_cache (λ c, (name, s) :: c));;;
    ss <- get;;
    if bool_decide (ss_size ss < length (ss_cache ss))%nat
    then match last (ss_cache ss) with
         | Some (k, _) =>
           modify (set_cache (λ c, take (length c - 1) c));;; onEvicted k
         | None => ret tt
         end
    else ret tt
  end.

Definition cache_Remove (name : string) : M SegmentSet unit :=
  ss <- get;;
  match cache_find name (ss_cache ss) with
  | Some _ => modify (set_cache (cache_drop name));;; onEvicted name
  | None => ret tt
  end.

Fixpoint evict_all (keys : list string) : M SegmentSet unit :=
  match keys with
  | [] => ret tt
  | k :: keys' => onEvicted k;;; evict_all keys'
  end.

Definition cache_Purge : M SegmentSet unit :=
  ss <- get;;
  evict_all (ss_cache ss).*1;;;
  modify (set_cache (λ _, [])).

Definition Len (ss : SegmentSet) : nat := size (ss_segments ss).

Definition Add (s : Segment) : M SegmentSet unit :=
  modify (set_segments (λ m, <[seg_Name s := s]> m)).

Definition Contains (name : string) (ss : SegmentSet) : bool :=
  bool_decide (is_Some (ss_segments ss !! name)).

Definition Remove (ctx : Context) (name : string) : M SegmentSet unit :=
  modify (set_segments (delete name));;;
  r <- sem_Acquire ctx;;
  match r with
  | Some _ => ret tt (* cache Purge will Remove this segment *)
  | None => cache_Remove name;;; sem_Release
  end.

Definition Acquire (name : string) : M SegmentSet (option Segment * option error) :=
  sem_Acquire Background;;;
  c <- cache_Get name;;
  match c with
  | Some s => ret (Some s, None)
  | None =>
    ss <- get;;
    match ss_segments ss !! name with
    | None => sem_Release;;; ret (None, None)
    | Some s =>
      match seg_Open s with
      | Some r =>
        modify (emit (EvOpen (seg_Name s)));;;
        match r with
        | Some err => sem_Release;;; ret (None, Some err)
        | None => cache_Add name s;;; ret (Some s, None)
        end
      | None => cache_Add name s;;; ret (Some s, None)
      end
    end
  end.

Definition Release : M SegmentSet unit := sem_Release.

Definition ss_Close : M SegmentSet unit :=
  modify (set_segments (λ _, ∅));;;
  cache_Purge.

(** *** The world outside the table *)

Inductive SegmentType := SegmentLDB1 | SegmentETH1 | SegmentNone.

(** The file system and the LevelDB library, as the table sees them.
    [os_Stat_since path] is [os.Stat(path)] followed by
    [time.Since(fi.ModTime())], in nanoseconds; [LDBSegment_Open name path]
    is [NewLDBSegment(name, path).Open()], giving the stored pairs;
    [LDBSegment_write name] is the error, if any, with which LevelDB refuses
    a write to the segment [name]. *)
Record Env := mkEnv {
  os_MkdirAll : string → option error;
  SegmentFileType : string → SegmentType * option error;
  os_Stat_since : string → result Z;
  LDBSegment_Open : string → string → result (gmap string string);
  LDBSegment_write : string → option error;
}.

Definition filepath_Join (dir name : string) : string :=
  (dir ++ "/" ++ name)%string.

(** *** Table *)

Record Table := mkTable {
  active : string;                          (* active segment name *)
  ldbSegments : gmap string LDBSegment;     (* writable segments *)
  segments : SegmentSet;                    (* all segments *)
  Name : string;
  Path : string;
  Partitioner : string → string;
  MinMutableSegmentCount : Z;
  MinCompactionAge : Z;
  MaxOpenSegmentCount : Z;
  (* SegmentOpener *)
  ListSegmentNames : string → string → result (list string);
  OpenSegment : string → string → string → result Segment;
  (* SegmentCompactor *)
  CompactSegment : Context → string → LDBSegment → result Segment;
  UncompactSegment : Context → string → option Segment → result LDBSegment;
  trace : list event;
}.

Definition set_active (a : string) (t : Table) : Table :=
  mkTable a (ldbSegments t) (segments t) (Name t) (Path t) (Partitioner t)
    (MinMutableSegmentCount t) (MinCompactionAge t) (MaxOpenSegmentCount t)
    (ListSegmentNames t) (OpenSegment t) (CompactSegment t) (UncompactSegment t)
    (trace t).
Definition set_ldbSegments (f : gmap string LDBSegment → gmap string LDBSegment) (t : Table) : Table :=
  mkTable (active t) (f (ldbSegments t)) (segments t) (Name t) (Path t) (Partitioner t)
    (MinMutableSegmentCount t) (MinCompactionAge t) (MaxOpenSegmentCount t)
    (ListSegmentNames t) (OpenSegment t) (CompactSegment t) (UncompactSegment t)
    (trace t).
Definition set_set (ss : SegmentSet) (t : Table) : Table :=
  mkTable (active t) (ldbSegments t) ss (Name t) (Path t) (Partitioner t)
    (MinMutableSegmentCount t) (MinCompactionAge t) (MaxOpenSegmentCount t)
    (ListSegmentNames t) (OpenSegment t) (CompactSegment t) (UncompactSegment t)
    (trace t).
Definition log_event (e : event) (t : Table) : Table :=
  mkTable (active t) (ldbSegments t) (segments t) (Name t) (Path t) (Partitioner t)
    (MinMutableSegmentCount t) (MinCompactionAge t) (MaxOpenSegmentCount t)
    (ListSegmentNames t) (OpenSegment t) (CompactSegment t) (UncompactSegment t)
    (trace t ++ [e]).

(** A method of [t.segments] run on the table. *)
Definition on_set {A} (m : M SegmentSet A) : M Table A :=
  λ t, match m (segments t) with
       | Done (a, ss) => Done (a, set_set ss t)
       | Blocked => Blocked
       | Panicked => Panicked
       end.

Definition universe (t : Table) : gmap string Segment := ss_segments (segments t).

Definition SegmentPath (t : Table) (name : string) : string :=
  filepath_Join (Path t) name.

Definition ActiveSegmentName (t : Table) : string := active t.

Definition ActiveSegment (t : Table) : option LDBSegment := ldbSegments t !! active t.

(** [Table.Close]. *)
Definition Close : M Table unit :=
  modify (λ t, foldl (λ t kv, log_event (EvLdbClose (ldb_Name kv.2)) t) t
                 (map_to_list (ldbSegments t)));;;
  on_set ss_Close.

(** [Table.Open]: the loop over the listed names. *)
Fixpoint open_loop (env : Env) (names : list string) : M Table (option error) :=
  match names with
  | [] => ret None
  | name :: names' =>
    t <- get;;
    let path := filepath_Join (Path t) name in
    (* Determine the segment file type. *)
    let typ := (SegmentFileType env path).1 in
    let err := (SegmentFileType env path).2 in
    if bool_decide (err = Some ErrInvalidSegmentType) then open_loop env names'
    else if bool_decide (err ≠ None ∧ err ≠ Some ErrNotExist) then ret err
    else
      (* Open appropriate segment type. *)
      let set_active_if_highest : M Table (option error) :=
        (* Set as active if it has the highest lexicographical name. *)
        modify (λ t, if str_lt (active t) name then set_active name t else t);;;
        open_loop env names' in
      match typ with
      | SegmentLDB1 =>
        match LDBSegment_Open env name path with
        | Err e => Close;;; ret (Some e)
        | Ok data =>
          modify (log_event (EvLdbOpen name));;;
          modify (set_ldbSegments (λ m, <[name := NewLDBSegment name path data]> m));;;
          set_active_if_highest
        end
      | _ =>
        match OpenSegment t (Name t) name path with
        | Err e =>
          if bool_decide (e = ErrSegmentTypeUnknown) then open_loop env names'
          else ret (Some e)
        | Ok segment => on_set (Add segment);;; set_active_if_highest
        end
      end
  end.

Definition Open (env : Env) : M Table (option error) :=
  modify (set_ldbSegments (λ _, ∅));;;
  t <- get;;
  modify (set_set (NewSegmentSet (MaxOpenSegmentCount t)));;;
  match os_MkdirAll env (Path t) with
  | Some err => ret (Some err)
  | None =>
    match ListSegmentNames t (Path t) (Name t) with
    | Err err => ret (Some err)
    | Ok names => open_loop env names
    end
  end.

(** [Table.AcquireSegment] and [Table.ReleaseSegment]. *)
Definition AcquireSegment (name : string) : M Table (option AnySegment * option error) :=
  t <- get;;
  match ldbSegments t !! name with
  | Some s => ret (Some (IsLDB s), None)
  | None =>
    r <- on_set (Acquire name);;
    ret (IsSeg <$> r.1, r.2)
  end.

Definition ReleaseSegment (s : AnySegment) : M Table unit :=
  match s with
  | IsLDB _ => ret tt
  | IsSeg _ => on_set Release
  end.

(** [Table.ldbSegmentSlice]: the mutable segments sorted by name. *)
Definition name_le (a b : LDBSegment) : Prop := str_le (ldb_Name a) (ldb_Name b) = true.

#[global] Instance name_le_dec : RelDecision name_le.
Proof. intros a b. unfold name_le. apply _. Defined.

Definition ldbSegmentSlice (t : Table) : list LDBSegment :=
  merge_sort name_le (map_to_list (ldbSegments t)).*2.

(** [Table.compact]: the loop over the segments to compact. *)
Fixpoint compact_loop (env : Env) (ctx : Context) (l : list LDBSegment)
    : M Table (option error) :=
  match l with
  | [] => ret None
  | ldbSegment :: l' =>
    t <- get;;
    match os_Stat_since env (ldb_Path ldbSegment) with
    | Err err => ret (Some err)
    | Ok since =>
      if since <? MinCompactionAge t then compact_loop env ctx l'
      else
        match CompactSegment t ctx (Name t) ldbSegment with
        | Err err => ret (Some err)
        | Ok newSegment =>
          (on_set (Add newSegment);;;
           modify (set_ldbSegments (delete (ldb_Name ldbSegment)));;;
           modify (log_event (EvCompact (ldb_Name ldbSegment))));;;
          compact_loop env ctx l'
        end
    end
  end.

Definition compact (env : Env) (ctx : Context) : M Table (option error) :=
  t <- get;;
  (* Retrieve LDB segments. Exit if too few mutable segments. *)
  let ldbSegmentSlice := ldbSegmentSlice t in
  let n := Z.of_nat (length ldbSegmentSlice) in
  if n <? MinMutableSegmentCount t then ret None
  else if MinMutableSegmentCount t <? 0 then panic (* slice bounds out of range *)
  else compact_loop env ctx (take (Z.to_nat (n - MinMutableSegmentCount t)) ldbSegmentSlice).

Definition Compact (env : Env) (ctx : Context) : M Table (option error) :=
  compact env ctx.

(** [Table.uncompact]; the deferred [Release] runs on every path after the
    successful [Acquire]. *)
Definition uncompact (ctx : Context) (name : string) : M Table (result LDBSegment) :=
  r <- on_set (Acquire name);;
  match r.2 with
  | Some err => ret (Err err)
  | None =>
    t <- get;;
    match UncompactSegment t ctx (Name t) r.1 with
    | Err err => on_set Release;;; ret (Err err)
    | Ok ldbSegment =>
      modify (set_ldbSegments (λ m, <[name := ldbSegment]> m));;;
      on_set (Remove ctx name);;;
      modify (log_event (EvUncompact name));;;
      on_set Release;;;
      ret (Ok ldbSegment)
    end
  end.

(** [Table.CreateSegmentIfNotExists]. *)
Definition CreateSegmentIfNotExists (env : Env) (ctx : Context) (name : string)
    : M Table (result LDBSegment) :=
  t <- get;;
  match ldbSegments t !! name with
  | Some s => ret (Ok s)
  | None =>
    (* Uncompact segment if it has already become compacted. *)
    if Contains name (segments t) then uncompact ctx name
    (* Ensure segment name can become active. *)
    else if str_lt name (active t) then ret (Err ErrImmutableSegment)
    else
      (* Create new mutable segment. *)
      match LDBSegment_Open env name (SegmentPath t name) with
      | Err err => ret (Err err)
      | Ok data =>
        let ldbSegment := NewLDBSegment name (SegmentPath t name) data in
        modify (log_event (EvLdbOpen name));;;
        modify (set_ldbSegments (λ m, <[name := ldbSegment]> m));;;
        (* Set as active segment. *)
        modify (set_active name);;;
        (* Compact under lock. *)
        r <- compact env ctx;;
        match r with
        | Some err => ret (Err err)
        | None => ret (Ok ldbSegment)
        end
      end
  end.

(** The methods of the segment an [AcquireSegment] returned. *)
Definition any_Has (s : AnySegment) (key : string) : bool * option error :=
  match s with IsLDB s => ldb_Has s key | IsSeg s => seg_Has s key end.

Definition any_Get (s : AnySegment) (key : string) : slice * option error :=
  match s with IsLDB s => ldb_Get s key | IsSeg s => seg_Get s key end.

(** [Table.Has]. *)
Definition Has (key : string) : M Table (bool * option error) :=
  t <- get;;
  let name := Partitioner t key in
  r <- AcquireSegment name;;
  match r.2, r.1 with
  | Some err, _ => ret (false, Some err)
  | None, None => ret (false, Some ErrNotFound)
  | None, Some s => ReleaseSegment s;;; ret (any_Has s key)
  end.

(** [Table.Get]. *)
Definition Get (key : string) : M Table (slice * option error) :=
  t <- get;;
  let name := Partitioner t key in
  r <- AcquireSegment name;;
  match r.2, r.1 with
  | Some err, _ => ret (None, Some err)
  | None, None => ret (None, None)
  | None, Some s => ReleaseSegment s;;; ret (any_Get s key)
  end.

(** A call on the [*LDBSegment] that [CreateSegmentIfNotExists] returned
    for [name]. The object is the one installed under [name] when there is
    one; when compaction has already taken it out of the table, the call
    reaches an object the table no longer refers to. *)
Definition on_ldb (name : string) (f : LDBSegment → LDBSegment) (e : event) : M Table unit :=
  modify (set_ldbSegments (λ m, match m !! name with
                                 | Some s => <[name := f s]> m
                                 | None => m
                                 end));;;
  modify (log_event e).

(** [Table.Put]. *)
Definition Put (env : Env) (key : string) (value : slice) : M Table (option error) :=
  (* Ignore if value is the same. *)
  r <- Get key;;
  if bool_decide (r.2 ≠ None ∧ r.2 ≠ Some ErrNotFound) then ret r.2
  else if bytes_Equal r.1 value then ret None
  else
    t <- get;;
    let name := Partitioner t key in
    s <- CreateSegmentIfNotExists env Background name;;
    match s with
    | Err err => ret (Some err)
    | Ok _ =>
      match LDBSegment_write env name with
      | Some err => ret (Some err)
      | None =>
        on_ldb name (λ s, ldb_Put s key value) (EvLdbPut name key value);;;
        ret None
      end
    end.

(** [Table.Delete]. *)
Definition Delete (env : Env) (key : string) : M Table (option error) :=
  t <- get;;
  let name := Partitioner t key in
  r <- AcquireSegment name;;
  match r.2, r.1 with
  | Some err, _ => ret (Some err)
  | None, None => ret None
  | None, Some (IsLDB _) =>
    match LDBSegment_write env name with
    | Some err => ret (Some err)
    | None =>
      on_ldb name (λ s, ldb_Delete s key) (EvLdbDelete name key);;;
      ret None
    end
  | None, Some (IsSeg s) =>
    match seg_Delete s with
    | Some del =>
      modify (log_event (EvSegDelete (seg_Name s) key));;;
      on_set Release;;;
      ret (del key)
    | None => on_set Release;;; ret (Some ErrImmutableSegment)
    end
  end.

(** *** tableBatch *)

(** Modelled from the spec: [ldbSegmentBatch] (its file is not part of the
    sources): the puts and deletes queued for one mutable segment, applied
    in order by [Write] and dropped by [Reset]. *)
Inductive batch_op :=
  | BPut (key : string) (value : slice)
  | BDelete (key : string).

Definition apply_batch_op (s : LDBSegment) (o : batch_op) : LDBSegment :=
  match o with
  | BPut key value => ldb_Put s key value
  | BDelete key => ldb_Delete s key
  end.

Record tableBatch := mkTableBatch {
  batches : gmap string (list batch_op);
  size : Z;
}.

Definition NewBatch : tableBatch := mkTableBatch ∅ 0.

Definition str_len (v : slice) : Z := Z.of_nat (String.length (slice_data v)).

(** Queue [o] in the sub-batch of [name], creating the sub-batch if needed. *)
Definition queue (name : string) (o : batch_op) (b : tableBatch) : tableBatch :=
  mkTableBatch (<[name := default [] (batches b !! name) ++ [o]]> (batches b)) (size b).

Definition on_table {A} (m : M Table A) : M (Table * tableBatch) A :=
  λ st, match m st.1 with
        | Done (a, t) => Done (a, (t, st.2))
        | Blocked => Blocked
        | Panicked => Panicked
        end.

Definition on_batch (f : tableBatch → tableBatch) : M (Table * tableBatch) unit :=
  modify (λ st, (st.1, f st.2)).

(** [tableBatch.Put]. *)
Definition batch_Put (env : Env) (key : string) (value : slice)
    : M (Table * tableBatch) (option error) :=
  (* Ignore if value is the same. *)
  r <- on_table (Get key);;
  if bool_decide (r.2 ≠ None ∧ r.2 ≠ Some ErrNotFound) then ret r.2
  else if bytes_Equal r.1 value then ret None
  else
    st <- get;;
    let name := Partitioner st.1 key in
    s <- on_table (CreateSegmentIfNotExists env Background name);;
    match s with
    | Err err => ret (Some err)
    | Ok _ =>
      on_batch (queue name (BPut key value));;;
      on_batch (λ b, mkTableBatch (batches b) (size b + str_len value));;;
      ret None
    end.

(** [tableBatch.Delete]. *)
Definition batch_Delete (env : Env) (key : string)
    : M (Table * tableBatch) (option error) :=
  (* Ignore if value doesn't exist. *)
  r <- on_table (Get key);;
  if bool_decide (r.2 = Some ErrNotFound) then ret None
  else if bool_decide (r.2 ≠ None) then ret r.2
  else
    st <- get;;
    let name := Partitioner st.1 key in
    s <- on_table (CreateSegmentIfNotExists env Background name);;
    match s with
    | Err err => ret (Some err)
    | Ok _ => on_batch (queue name (BDelete key));;; ret None
    end.

(** [tableBatch.Write]: the sub-batches in turn, stopping at the first
    error. A sub-batch writes to the segment installed under its name. *)
Fixpoint write_loop (env : Env) (l : list (string * list batch_op))
    : M Table (option error) :=
  match l with
  | [] => ret None
  | (name, ops) :: l' =>
    match LDBSegment_write env name with
    | Some err => ret (Some err)
    | None =>
      modify (set_ldbSegments (λ m, match m !! name with
                                     | Some s => <[name := foldl apply_batch_op s ops]> m
                                     | None => m
                                     end));;;
      write_loop env l'
    end
  end.

Definition batch_Write (env : Env) : M (Table * tableBatch) (option error) :=
  st <- get;;
  on_table (write_loop env (map_to_list (batches st.2))).

Definition batch_ValueSize (b : tableBatch) : Z := size b.

Definition batch_Reset (b : tableBatch) : tableBatch :=
  mkTableBatch ((λ _, []) <$> batches b) 0.

(** *** Operation sequences *)

Inductive op :=
  | OpOpen
  | OpClose
  | OpHas (key : string)
  | OpGet (key : string)
  | OpPut (key : string) (value : slice)
  | OpDelete (key : string)
  | OpCompact (ctx : Context)
  | OpCreateSegmentIfNotExists (ctx : Context) (name : string)
  | OpNewBatch
  | OpBatchPut (key : string) (value : slice)
  | OpBatchDelete (key : string)
  | OpBatchWrite
  | OpBatchReset.

Definition discard {S A} (m : M S A) : M S unit := m;;; ret tt.

(** One operation, in the file system [env] it finds. *)
Definition step (env : Env) (o : op) : M (Table * tableBatch) unit :=
  match o with
  | OpOpen => discard (on_table (Open env))
  | OpClose => on_table Close
  | OpHas key => discard (on_table (Has key))
  | OpGet key => discard (on_table (Get key))
  | OpPut key value => discard (on_table (Put env key value))
  | OpDelete key => discard (on_table (Delete env key))
  | OpCompact ctx => discard (on_table (Compact env ctx))
  | OpCreateSegmentIfNotExists ctx name =>
    discard (on_table (CreateSegmentIfNotExists env ctx name))
  | OpNewBatch => on_batch (λ _, NewBatch)
  | OpBatchPut key value => discard (batch_Put env key value)
  | OpBatchDelete key => discard (batch_Delete env key)
  | OpBatchWrite => discard (batch_Write env)
  | OpBatchReset => on_batch batch_Reset
  end.

Fixpoint run (l : list (Env * op)) : M (Table * tableBatch) unit :=
  match l with
  | [] => ret tt
  | (env, o) :: l' => step env o;;; run l'
  end.

(** Sample segments for the examples. *)
Definition plain_segment (name : string) : Segment :=
  mkSegment name name (λ _, (false, None)) (λ _, (None, None)) [] None None None None.

Definition file_segment (name : string) (open : option error) : Segment :=
  mkSegment name name (λ _, (false, None)) (λ _, (None, None)) [] None (Some open) None None.

(** The immutable image of a mutable segment, and back. *)
Definition compacted (s : LDBSegment) : Segment :=
  mkSegment (ldb_Name s) (ldb_Path s)
    (λ key, (bool_decide (is_Some (ldb_data s !! key)), None))
    (λ key, (ldb_data s !! key, None))
    (map_to_list (ldb_data s)) None (Some None) None None.

Definition uncompacted (name : string) (s : option Segment) : result LDBSegment :=
  match s with
  | Some s => Ok (mkLDBSegment name (seg_Path s) (list_to_map (seg_Iterator s)))
  | None => Err (ErrOther "no segment")
  end.

(** A file system where everything succeeds and every directory is an old
    LevelDB directory without content. *)
Definition quiet_env : Env :=
  mkEnv (λ _, None) (λ _, (SegmentLDB1, None)) (λ _, Ok 1000) (λ _ _, Ok ∅) (λ _, None).

(** Keys are partitioned by their first byte. *)
Definition first_byte (key : string) : string :=
  match key with
  | EmptyString => EmptyString
  | String c _ => String c EmptyString
  end.

Definition sample_table (minMutable minAge maxOpen : Z) : Table :=
  mkTable EmptyString ∅ (NewSegmentSet maxOpen) "t" "/db" first_byte
    minMutable minAge maxOpen
    (λ _ _, Ok []) (λ _ name _, Ok (plain_segment name))
    (λ _ _ s, Ok (compacted s)) (λ _ _ s, uncompacted (default EmptyString (seg_Name <$> s)) s)
    [].

(** Two partitions are written, the older one is compacted, read, and
    written again. *)
Definition sample_ops : list (Env * op) :=
  [(quiet_env, OpPut "1a" (Some "a"%string));
   (quiet_env, OpPut "2b" (Some "b"%string));
   (quiet_env, OpCompact Background);
   (quiet_env, OpGet "1a");
   (quiet_env, OpPut "1a" (Some "a2"%string))].

Definition final_of (l : list (Env * op)) (st : Table * tableBatch) : Table * tableBatch :=
  match run l st with
  | Done (_, st') => st'
  | _ => st
  end.


(** A file system where the file of segment 1 is old, the file of segment
    2 is young and the file of segment 3 cannot be examined. *)
Definition aging_env : Env :=
  mkEnv (λ _, None) (λ _, (SegmentLDB1, None))
    (λ path, if String.eqb path "/db/1" then Ok 5000
             else if String.eqb path "/db/2" then Ok 10
             else if String.eqb path "/db/3" then Err (ErrOther "stat")
             else Ok 5000)
    (λ _ _, Ok ∅) (λ _, None).

(** Four partitions are written. *)
Definition four_puts : list (Env * op) :=
  [(quiet_env, OpPut "1a" (Some "a"%string));
   (quiet_env, OpPut "2b" (Some "b"%string));
   (quiet_env, OpPut "3c" (Some "c"%string));
   (quiet_env, OpPut "4d" (Some "d"%string))].

(** A table whose compactor files every segment under the name 2. *)
Definition misnaming_compactor : Table :=
  mkTable EmptyString ∅ (NewSegmentSet 4) "t" "/db" first_byte 1 0 4
    (λ _ _, Ok []) (λ _ name _, Ok (plain_segment name))
    (λ _ _ _, Ok (plain_segment "2"))
    (λ _ _ s, uncompacted (default EmptyString (seg_Name <$> s)) s)
    [].

(** A table whose opener files every segment under the name 1, and a
    directory with a mutable file 1 and an immutable file 2. *)
Definition misnaming_opener : Table :=
  mkTable EmptyString ∅ (NewSegmentSet 4) "t" "/db" first_byte 1 0 4
    (λ _ _, Ok ["1"; "2"]%string) (λ _ _ _, Ok (plain_segment "1"))
    (λ _ _ s, Ok (compacted s))
    (λ _ _ s, uncompacted (default EmptyString (seg_Name <$> s)) s)
    [].

Definition two_files_env : Env :=
  mkEnv (λ _, None)
    (λ path, if String.eqb path "/db/1" then (SegmentLDB1, None) else (SegmentETH1, None))
    (λ _, Ok 1000) (λ _ _, Ok ∅) (λ _, None).

(** A table that holds the name 1 in both tiers. *)
Definition overlapping_table : Table :=
  run_state (on_set (Add (plain_segment "1")))
    (set_ldbSegments (λ _, {[ "1"%string := mkLDBSegment "1" "/db/1" ∅ ]})
       (sample_table 1 0 4)).

(** A table with a mutable segment above the active name. *)
Definition stray_table : Table :=
  set_ldbSegments (λ _, {[ "9"%string := mkLDBSegment "9" "/db/9" ∅ ]})
    (sample_table 1 0 4).




(** *** Relations between the states before and after an operation *)

(** The universe and the capacity of a segment set are untouched. *)
Definition same_universe (ss ss' : SegmentSet) : Prop :=
  ss_segments ss' = ss_segments ss ∧ ss_size ss' = ss_size ss.

(** The universe does not grow. *)
Definition universe_shrinks (ss ss' : SegmentSet) : Prop :=
  dom (ss_segments ss') ⊆ dom (ss_segments ss).

(** The fields of a table that no method assigns. *)
Definition config (t : Table) :=
  (Name t, Path t, Partitioner t, MinMutableSegmentCount t, MinCompactionAge t,
   MaxOpenSegmentCount t, ListSegmentNames t, OpenSegment t, CompactSegment t,
   UncompactSegment t).

(** No name is both a mutable segment and in the universe. *)
Definition tiers_disjoint (t : Table) : Prop :=
  dom (ldbSegments t) ## dom (universe t).

(** The contract of the pluggable opener and compactor: the segment they
    return carries the name of the segment they were asked for. *)
Definition opener_keeps_names (t : Table) : Prop :=
  ∀ table name path s, OpenSegment t table name path = Ok s → seg_Name s = name.

Definition compactor_keeps_names (t : Table) : Prop :=
  ∀ ctx table ldb s, CompactSegment t ctx table ldb = Ok s → seg_Name s = ldb_Name ldb.

(** What every operation guarantees between the table before and after. *)
Definition table_step (t t' : Table) : Prop :=
  config t' = config t
  ∧ str_le (active t) (active t') = true
  ∧ (opener_keeps_names t → compactor_keeps_names t →
     tiers_disjoint t → tiers_disjoint t').

Definition system_step (st st' : Table * tableBatch) : Prop :=
  table_step st.1 st'.1.

(** A read: only the segment set changes, and not its universe. *)
Definition table_read (t t' : Table) : Prop :=
  ∃ ss', t' = set_set ss' t ∧ same_universe (segments t) ss'.

(** *** Compaction, in the words of the specification *)

(** What becomes of one mutable segment: it is too young and skipped, it is
    compacted into a new immutable segment, or an error occurs. *)
Inductive verdict :=
  | Young
  | Compacts (newSegment : Segment)
  | Fails (err : error).

Definition compaction_verdict (env : Env) (ctx : Context) (t : Table) (s : LDBSegment)
    : verdict :=
  match os_Stat_since env (ldb_Path s) with
  | Err err => Fails err
  | Ok since =>
    if since <? MinCompactionAge t then Young
    else match CompactSegment t ctx (Name t) s with
         | Ok newSegment => Compacts newSegment
         | Err err => Fails err
         end
  end.

(** Every segment except the newest [MinMutableSegmentCount] ones, oldest
    name first. *)
Definition compaction_candidates (t : Table) : list LDBSegment :=
  let sorted := ldbSegmentSlice t in
  take (length sorted - Z.to_nat (MinMutableSegmentCount t)) sorted.

(** The first error, and the segments handled before it. *)
Fixpoint first_failure (vs : list (LDBSegment * verdict)) : option error :=
  match vs with
  | [] => None
  | (_, Fails err) :: _ => Some err
  | _ :: vs' => first_failure vs'
  end.

Fixpoint before_failure (vs : list (LDBSegment * verdict)) : list (LDBSegment * verdict) :=
  match vs with
  | [] => []
  | (_, Fails _) :: _ => []
  | sv :: vs' => sv :: before_failure vs'
  end.

Definition drop_compacted (m : gmap string LDBSegment) (sv : LDBSegment * verdict) :=
  match sv.2 with
  | Compacts _ => delete (ldb_Name sv.1) m
  | _ => m
  end.

Definition add_compacted (u : gmap string Segment) (sv : LDBSegment * verdict) :=
  match sv.2 with
  | Compacts newSegment => <[seg_Name newSegment := newSegment]> u
  | _ => u
  end.

Record compaction_result := mkCompactionResult {
  cr_error : option error;
  cr_ldbSegments : gmap string LDBSegment;
  cr_universe : gmap string Segment;
}.

Definition compact_spec (env : Env) (ctx : Context) (t : Table) : compaction_result :=
  let vs := (λ s, (s, compaction_verdict env ctx t s)) <$> compaction_candidates t in
  mkCompactionResult
    (first_failure vs)
    (foldl drop_compacted (ldbSegments t) (before_failure vs))
    (foldl add_compacted (universe t) (before_failure vs)).

(** Every mutable segment is filed under its own name, and no name is
    above [active]. *)
Definition names_in_order (t : Table) : Prop :=
  ∀ k s, ldbSegments t !! k = Some s → ldb_Name s = k ∧ str_le k (active t) = true.

(** The loop invariant of [Table.Open]: a name is filed by the type of the
    file that carries it. *)
Definition filed_by_type (env : Env) (t : Table) : Prop :=
  (∀ n, n ∈ dom (ldbSegments t) →
        (SegmentFileType env (filepath_Join (Path t) n)).1 = SegmentLDB1)
  ∧ (∀ n, n ∈ dom (universe t) →
          (SegmentFileType env (filepath_Join (Path t) n)).1 ≠ SegmentLDB1).

(** What one round of the loop of [Open] guarantees. *)
Definition open_round (env : Env) (t t' : Table) : Prop :=
  config t' = config t ∧ str_le (active t) (active t') = true
  ∧ (opener_keeps_names t → filed_by_type env t → filed_by_type env t').

(** *** Sequences of operations on a segment set *)

Inductive set_op :=
  | SAdd (s : Segment)
  | SRemove (ctx : Context) (name : string)
  | SAcquire (name : string)
  | SRelease
  | SClose.

Definition set_step (o : set_op) : M SegmentSet unit :=
  match o with
  | SAdd s => Add s
  | SRemove ctx name => Remove ctx name
  | SAcquire name => Acquire name;;; ret tt
  | SRelease => Release
  | SClose => ss_Close
  end.

Fixpoint set_run (l : list set_op) : M SegmentSet unit :=
  match l with
  | [] => ret tt
  | o :: l' => set_step o;;; set_run l'
  end.

(** The opened cache holds no name twice and no more entries than its
    capacity, and no more permits are held than the semaphore has. *)
Definition set_ok (ss : SegmentSet) : Prop :=
  NoDup (ss_cache ss).*1
  ∧ (length (ss_cache ss) ≤ ss_size ss)%nat
  ∧ (ss_cur ss ≤ ss_size ss)%nat
  ∧ (0 < ss_size ss)%nat.

Definition keeps_set_ok (ss ss' : SegmentSet) : Prop :=
  ss_size ss' = ss_size ss ∧ (set_ok ss → set_ok ss').

(** What the eviction callback does to the segment filed under [key]. *)
Definition eviction_calls (u : gmap string Segment) (key : string) : list event :=
  match u !! key with
  | None => []
  | Some s => match seg_Purge s with
              | Some _ => [EvPurge (seg_Name s)]
              | None => [EvClose (seg_Name s)]
              end
  end.

(** *** Segments filed under their own names *)

(** The contract of the pluggable compactor, the other way round: the
    mutable segment made from a segment carries that segment's name. *)
Definition uncompactor_keeps_names (t : Table) : Prop :=
  ∀ ctx table s ldb,
    UncompactSegment t ctx table (Some s) = Ok ldb → ldb_Name ldb = seg_Name s.

Definition contracts (t : Table) : Prop :=
  opener_keeps_names t ∧ compactor_keeps_names t ∧ uncompactor_keeps_names t.

(** Every segment of the universe is filed under its own name, and no name
    is above [active]. *)
Definition universe_named (t : Table) : Prop :=
  ∀ k s, universe t !! k = Some s → seg_Name s = k ∧ str_le k (active t) = true.

(** Every opened segment is cached under its own name. *)
Definition cache_keyed (ss : SegmentSet) : Prop :=
  ∀ k s, (k, s) ∈ ss_cache ss → seg_Name s = k.

Definition well_named (t : Table) : Prop :=
  names_in_order t ∧ universe_named t ∧ cache_keyed (segments t).

Definition named_step (t t' : Table) : Prop :=
  config t' = config t ∧ (contracts t → well_named t → well_named t').

(** The same between two states of a table and a batch. *)
Definition named_system_step (st st' : Table * tableBatch) : Prop :=
  named_step st.1 st'.1.

End Ethdb.

(** * The journaled state database (package [state]) *)

Module State.

Local Open Scope go_scope.

Definition Address := string.
Definition Hash := string.

(** Go's [uint64]/[uint] and [int] arithmetic wraps around. *)
Definition uint64 (x : Z) : Z := x mod 2 ^ 64.
Definition int64 (x : Z) : Z := (x + 2 ^ 63) mod 2 ^ 64 - 2 ^ 63.

Record Account := mkAccount {
  Nonce : Z;
  Balance : Z;
  Root : Hash;
  CodeHash : Hash;
}.

Record Log := mkLog {
  log_Address : Address;
  log_Topics : list Hash;
  log_Data : string;
  log_BlockNumber : Z;
  log_TxHash : Hash;
  log_TxIndex : Z;
  log_BlockHash : Hash;
  log_Index : Z;
  log_Removed : bool;
}.

(** A [*types.Log]: the address of a log object in the memory that the
    callers of [AddLog] and the [StateDB] share. *)
Definition LogPtr := positive.

(** The collaborators the core consumes: the hash function, the account
    trie (a lookup followed by the decoding of the account record, [None]
    when there is nothing or nothing decodable), the storage tries and the
    code store. *)
Record Database := mkDatabase {
  Keccak256Hash : string → Hash;
  trie_TryGet : Address → option Account;
  storage_TryGet : Hash → Hash → Hash → Hash;
  ContractCode : Hash → Hash → option string;
}.

Definition emptyCode (d : Database) : Hash := Keccak256Hash d EmptyString.

(** Modelled from the spec: [stateObject] (its file is not part of the
    sources): the per-account working copy of section 4.5. *)
Record stateObject := mkStateObject {
  address : Address;
  addrHash : Hash;
  data : Account;
  code : option string;
  dirtyCode : bool;
  originStorage : gmap Hash Hash;
  dirtyStorage : gmap Hash Hash;
  suicided : bool;
  deleted : bool;
  touched : bool;
}.

Definition set_data (f : Account → Account) (s : stateObject) : stateObject :=
  mkStateObject (address s) (addrHash s) (f (data s)) (code s) (dirtyCode s)
    (originStorage s) (dirtyStorage s) (suicided s) (deleted s) (touched s).

Definition setBalance (amount : Z) (s : stateObject) : stateObject :=
  set_data (λ a, mkAccount (Nonce a) amount (Root a) (CodeHash a)) s.

Definition setNonce (nonce : Z) (s : stateObject) : stateObject :=
  set_data (λ a, mkAccount nonce (Balance a) (Root a) (CodeHash a)) s.

Definition setCode (codeHash : Hash) (c : option string) (s : stateObject) : stateObject :=
  mkStateObject (address s) (addrHash s)
    (mkAccount (Nonce (data s)) (Balance (data s)) (Root (data s)) codeHash)
    c true (originStorage s) (dirtyStorage s) (suicided s) (deleted s) (touched s).

Definition setState (key value : Hash) (s : stateObject) : stateObject :=
  mkStateObject (address s) (addrHash s) (data s) (code s) (dirtyCode s)
    (originStorage s) (<[key := value]> (dirtyStorage s))
    (suicided s) (deleted s) (touched s).

Definition set_originStorage (key value : Hash) (s : stateObject) : stateObject :=
  mkStateObject (address s) (addrHash s) (data s) (code s) (dirtyCode s)
    (<[key := value]> (originStorage s)) (dirtyStorage s)
    (suicided s) (deleted s) (touched s).

Definition set_code (c : option string) (s : stateObject) : stateObject :=
  mkStateObject (address s) (addrHash s) (data s) c (dirtyCode s)
    (originStorage s) (dirtyStorage s) (suicided s) (deleted s) (touched s).

Definition set_suicided (b : bool) (s : stateObject) : stateObject :=
  mkStateObject (address s) (addrHash s) (data s) (code s) (dirtyCode s)
    (originStorage s) (dirtyStorage s) b (deleted s) (touched s).

Definition markSuicided (s : stateObject) : stateObject := set_suicided true s.

Definition empty (d : Database) (s : stateObject) : bool :=
  bool_decide (Nonce (data s) = 0 ∧ Balance (data s) = 0 ∧ CodeHash (data s) = emptyCode d).

(** [newObject]: a missing code hash is the hash of the empty code. *)
Definition newObject (d : Database) (addr : Address) (a : Account) : stateObject :=
  let a := if bool_decide (CodeHash a = EmptyString)
           then mkAccount (Nonce a) (Balance a) (Root a) (emptyCode d) else a in
  mkStateObject addr (Keccak256Hash d addr) a None false ∅ ∅ false false false.

(** What [Code] and [GetState] return, without their caching. *)
Definition code_of (d : Database) (s : stateObject) : option string :=
  match code s with
  | Some c => Some c
  | None =>
    if bool_decide (CodeHash (data s) = emptyCode d) then None
    else ContractCode d (addrHash s) (CodeHash (data s))
  end.

Definition committed_of (d : Database) (s : stateObject) (key : Hash) : Hash :=
  match originStorage s !! key with
  | Some v => v
  | None => storage_TryGet d (addrHash s) (Root (data s)) key
  end.

Definition state_of (d : Database) (s : stateObject) (key : Hash) : Hash :=
  match dirtyStorage s !! key with
  | Some v => v
  | None => committed_of d s key
  end.

(** Modelled from the spec: the journal (its file is not part of the
    sources): the change records of section 4.4. *)
Inductive journalEntry :=
  | createObjectChange (account : Address)
  | resetObjectChange (prev : stateObject)
  | suicideChange (account : Address) (prev : bool) (prevbalance : Z)
  | balanceChange (account : Address) (prev : Z)
  | nonceChange (account : Address) (prev : Z)
  | storageChange (account : Address) (key prevalue : Hash)
  | codeChange (account : Address) (prevhash : Hash) (prevcode : option string)
  | refundChange (prev : Z)
  | addLogChange (txhash : Hash)
  | addPreimageChange (hash : Hash)
  | touchChange (account : Address).

Definition dirtied (e : journalEntry) : option Address :=
  match e with
  | createObjectChange a | suicideChange a _ _ | balanceChange a _
  | nonceChange a _ | storageChange a _ _ | codeChange a _ _ | touchChange a => Some a
  | resetObjectChange _ | refundChange _ | addLogChange _ | addPreimageChange _ => None
  end.

Record journal := mkJournal {
  entries : list journalEntry;
  dirties : gset Address;
}.

Definition newJournal : journal := mkJournal [] ∅.

Definition dirties_of (es : list journalEntry) : gset Address :=
  list_to_set (omap dirtied es).

Definition journal_append (e : journalEntry) (j : journal) : journal :=
  mkJournal (entries j ++ [e])
    (match dirtied e with Some a => {[a]} ∪ dirties j | None => dirties j end).

Definition journal_length (j : journal) : nat := length (entries j).

Record revision := mkRevision {
  id : Z;
  journalIndex : nat;
}.

Record StateDB := mkStateDB {
  db : Database;
  stateObjects : gmap Address stateObject;
  stateObjectsDirty : gset Address;
  refund : Z;
  thash : Hash;
  bhash : Hash;
  txIndex : Z;
  logs : gmap Hash (list LogPtr);
  logSize : Z;
  preimages : gmap Hash string;
  journal_ : journal;
  validRevisions : list revision;
  nextRevisionId : Z;
}.

Definition set_stateObjects (f : gmap Address stateObject → gmap Address stateObject)
    (s : StateDB) : StateDB :=
  mkStateDB (db s) (f (stateObjects s)) (stateObjectsDirty s) (refund s) (thash s)
    (bhash s) (txIndex s) (logs s) (logSize s) (preimages s) (journal_ s)
    (validRevisions s) (nextRevisionId s).
Definition set_stateObjectsDirty (f : gset Address → gset Address) (s : StateDB) : StateDB :=
  mkStateDB (db s) (stateObjects s) (f (stateObjectsDirty s)) (refund s) (thash s)
    (bhash s) (txIndex s) (logs s) (logSize s) (preimages s) (journal_ s)
    (validRevisions s) (nextRevisionId s).
Definition set_refund (r : Z) (s : StateDB) : StateDB :=
  mkStateDB (db s) (stateObjects s) (stateObjectsDirty s) r (thash s)
    (bhash s) (txIndex s) (logs s) (logSize s) (preimages s) (journal_ s)
    (validRevisions s) (nextRevisionId s).
Definition set_tx (th bh : Hash) (ti : Z) (s : StateDB) : StateDB :=
  mkStateDB (db s) (stateObjects s) (stateObjectsDirty s) (refund s) th
    bh ti (logs s) (logSize s) (preimages s) (journal_ s)
    (validRevisions s) (nextRevisionId s).
Definition set_logs (f : gmap Hash (list LogPtr) → gmap Hash (list LogPtr)) (n : Z)
    (s : StateDB) : StateDB :=
  mkStateDB (db s) (stateObjects s) (stateObjectsDirty s) (refund s) (thash s)
    (bhash s) (txIndex s) (f (logs s)) n (preimages s) (journal_ s)
    (validRevisions s) (nextRevisionId s).
Definition set_preimages (f : gmap Hash string → gmap Hash string) (s : StateDB) : StateDB :=
  mkStateDB (db s) (stateObjects s) (stateObjectsDirty s) (refund s) (thash s)
    (bhash s) (txIndex s) (logs s) (logSize s) (f (preimages s)) (journal_ s)
    (validRevisions s) (nextRevisionId s).
Definition set_journal (f : journal → journal) (s : StateDB) : StateDB :=
  mkStateDB (db s) (stateObjects s) (stateObjectsDirty s) (refund s) (thash s)
    (bhash s) (txIndex s) (logs s) (logSize s) (preimages s) (f (journal_ s))
    (validRevisions s) (nextRevisionId s).
Definition set_revisions (revs : list revision) (next : Z) (s : StateDB) : StateDB :=
  mkStateDB (db s) (stateObjects s) (stateObjectsDirty s) (refund s) (thash s)
    (bhash s) (txIndex s) (logs s) (logSize s) (preimages s) (journal_ s)
    revs next.

Definition append (e : journalEntry) : M StateDB unit :=
  modify (set_journal (journal_append e)).

(** *** State objects in the live set *)

Definition setStateObject (object : stateObject) : M StateDB unit :=
  modify (set_stateObjects (λ m, <[address object := object]> m)).

(** [StateDB.getStateObject]. *)
Definition getStateObject (addr : Address) : M StateDB (option stateObject) :=
  s <- get;;
  (* Prefer 'live' objects. *)
  match stateObjects s !! addr with
  | Some obj => if deleted obj then ret None else ret (Some obj)
  | None =>
    (* Load the object from the database. *)
    match trie_TryGet (db s) addr with
    | None => ret None
    | Some data =>
      (* Insert into the live set. *)
      let obj := newObject (db s) addr data in
      setStateObject obj;;; ret (Some obj)
    end
  end.

(** The object a pointer obtained from the live set under [addr] refers
    to, and an assignment through that pointer; a nil pointer panics. *)
Definition deref (addr : Address) : M StateDB stateObject :=
  s <- get;;
  match stateObjects s !! addr with
  | Some obj => ret obj
  | None => panic
  end.

Definition assign (addr : Address) (f : stateObject → stateObject) : M StateDB unit :=
  obj <- deref addr;;
  modify (set_stateObjects (λ m, <[addr := f obj]> m)).

(** [StateDB.createObject]. *)
Definition createObject (addr : Address) : M StateDB (stateObject * option stateObject) :=
  prev <- getStateObject addr;;
  s <- get;;
  let newobj := setNonce 0 (newObject (db s) addr (mkAccount 0 0 EmptyString EmptyString)) in
  match prev with
  | None => append (createObjectChange addr)
  | Some p => append (resetObjectChange p)
  end;;;
  setStateObject newobj;;;
  ret (newobj, prev).

(** [StateDB.GetOrNewStateObject]. *)
Definition GetOrNewStateObject (addr : Address) : M StateDB (option stateObject) :=
  stateObject <- getStateObject addr;;
  match stateObject with
  | Some obj => if deleted obj then r <- createObject addr;; ret (Some r.1)
                else ret (Some obj)
  | None => r <- createObject addr;; ret (Some r.1)
  end.

(** [StateDB.CreateAccount]. *)
Definition CreateAccount (addr : Address) : M StateDB unit :=
  r <- createObject addr;;
  match r.2 with
  | Some prev => assign addr (setBalance (Balance (data prev)))
  | None => ret tt
  end.

(** *** The methods of a state object, through its pointer *)

(** Modelled from the spec: [stateObject.Code]: the cached code if any,
    else nothing for the empty code hash, else the code loaded from the
    database and cached. *)
Definition so_Code (addr : Address) : M StateDB (option string) :=
  obj <- deref addr;;
  s <- get;;
  match code obj with
  | Some c => ret (Some c)
  | None =>
    if bool_decide (CodeHash (data obj) = emptyCode (db s)) then ret None
    else
      let c := ContractCode (db s) (addrHash obj) (CodeHash (data obj)) in
      assign addr (set_code c);;; ret c
  end.

(** Modelled from the spec: [GetCommittedState]: the cached origin value,
    else the value loaded from the storage trie and cached. *)
Definition so_GetCommittedState (addr : Address) (key : Hash) : M StateDB Hash :=
  obj <- deref addr;;
  s <- get;;
  match originStorage obj !! key with
  | Some v => ret v
  | None =>
    let v := storage_TryGet (db s) (addrHash obj) (Root (data obj)) key in
    assign addr (set_originStorage key v);;; ret v
  end.

(** Modelled from the spec: [GetState]: the dirty value if present, else
    the committed one. *)
Definition so_GetState (addr : Address) (key : Hash) : M StateDB Hash :=
  obj <- deref addr;;
  match dirtyStorage obj !! key with
  | Some v => ret v
  | None => so_GetCommittedState addr key
  end.

(** Modelled from the spec: the journaling mutators of section 4.5. *)
Definition so_SetBalance (addr : Address) (amount : Z) : M StateDB unit :=
  obj <- deref addr;;
  append (balanceChange addr (Balance (data obj)));;;
  assign addr (setBalance amount).

Definition so_AddBalance (addr : Address) (amount : Z) : M StateDB unit :=
  obj <- deref addr;;
  so_SetBalance addr (Balance (data obj) + amount).

Definition so_SubBalance (addr : Address) (amount : Z) : M StateDB unit :=
  obj <- deref addr;;
  so_SetBalance addr (Balance (data obj) - amount).

Definition so_SetNonce (addr : Address) (nonce : Z) : M StateDB unit :=
  obj <- deref addr;;
  append (nonceChange addr (Nonce (data obj)));;;
  assign addr (setNonce nonce).

Definition so_SetCode (addr : Address) (codeHash : Hash) (c : option string)
    : M StateDB unit :=
  prevcode <- so_Code addr;;
  obj <- deref addr;;
  append (codeChange addr (CodeHash (data obj)) prevcode);;;
  assign addr (setCode codeHash c).

Definition so_SetState (addr : Address) (key value : Hash) : M StateDB unit :=
  prev <- so_GetState addr key;;
  append (storageChange addr key prev);;;
  assign addr (setState key value).

(** *** Logs, preimages, refund *)

(** The [StateDB] together with the log objects its [logs] point to. The
    objects are the callers': [AddLog] is given a pointer, writes through
    it and keeps it. An address that holds no object stands for a nil
    pointer. *)
Record World := mkWorld {
  statedb : StateDB;
  memory : gmap LogPtr Log;
}.

(** A method of the [StateDB] that reads and writes no log object. *)
Definition on_db {A} (m : M StateDB A) : M World A :=
  λ w, match m (statedb w) with
       | Done (a, s) => Done (a, mkWorld s (memory w))
       | Blocked => Blocked
       | Panicked => Panicked
       end.

Definition set_memory (f : gmap LogPtr Log → gmap LogPtr Log) (w : World) : World :=
  mkWorld (statedb w) (f (memory w)).

(** The four assignments of [AddLog] to the fields of the log:
    [TxHash], [BlockHash], [TxIndex] (converted to [uint]) and [Index]. *)
Definition stamp (s : StateDB) (log : Log) : Log :=
  mkLog (log_Address log) (log_Topics log) (log_Data log) (log_BlockNumber log)
    (thash s) (uint64 (txIndex s)) (bhash s) (logSize s) (log_Removed log).

(** [StateDB.AddLog]: after the journal entry, the log object is stamped
    in place through the pointer (a nil pointer panics there), and the
    pointer itself is appended to the logs of the current transaction. *)
Definition AddLog (log : LogPtr) : M World unit :=
  w <- get;;
  let s := statedb w in
  on_db (append (addLogChange (thash s)));;;
  match memory w !! log with
  | None => panic (* nil pointer dereference *)
  | Some l =>
    modify (set_memory (λ m, <[log := stamp s l]> m));;;
    on_db (modify (set_logs (λ m, <[thash s := default [] (m !! thash s) ++ [log]]> m)
                     (uint64 (logSize s + 1))))
  end.

(** [StateDB.GetLogs]: the pointers kept for the transaction [hash]. *)
Definition GetLogs (hash : Hash) (s : StateDB) : list LogPtr :=
  default [] (logs s !! hash).

(** [StateDB.AddPreimage]. *)
Definition AddPreimage (hash : Hash) (preimage : string) : M StateDB unit :=
  s <- get;;
  match preimages s !! hash with
  | Some _ => ret tt
  | None =>
    append (addPreimageChange hash);;;
    modify (set_preimages (λ m, <[hash := preimage]> m))
  end.

Definition Preimages (s : StateDB) : gmap Hash string := preimages s.

(** [StateDB.AddRefund]. *)
Definition AddRefund (gas : Z) : M StateDB unit :=
  s <- get;;
  append (refundChange (refund s));;;
  modify (set_refund (uint64 (refund s + gas))).

(** [StateDB.SubRefund]. *)
Definition SubRefund (gas : Z) : M StateDB unit :=
  s <- get;;
  append (refundChange (refund s));;;
  if refund s <? gas then panic (* Refund counter below zero *)
  else modify (set_refund (refund s - gas)).

Definition GetRefund (s : StateDB) : Z := refund s.

(** *** Getters *)

Definition GetBalance (addr : Address) : M StateDB Z :=
  stateObject <- getStateObject addr;;
  match stateObject with
  | Some obj => ret (Balance (data obj))
  | None => ret 0
  end.

Definition GetNonce (addr : Address) : M StateDB Z :=
  stateObject <- getStateObject addr;;
  match stateObject with
  | Some obj => ret (Nonce (data obj))
  | None => ret 0
  end.

Definition GetCode (addr : Address) : M StateDB (option string) :=
  stateObject <- getStateObject addr;;
  match stateObject with
  | Some _ => so_Code addr
  | None => ret None
  end.

Definition GetState (a : Address) (b : Hash) : M StateDB Hash :=
  stateObject <- getStateObject a;;
  match stateObject with
  | Some _ => so_GetState a b
  | None => ret EmptyString
  end.

Definition HasSuicided (addr : Address) : M StateDB bool :=
  stateObject <- getStateObject addr;;
  match stateObject with
  | Some obj => ret (suicided obj)
  | None => ret false
  end.

(** *** Setters *)

Definition AddBalance (addr : Address) (amount : Z) : M StateDB unit :=
  stateObject <- GetOrNewStateObject addr;;
  match stateObject with
  | Some _ => so_AddBalance addr amount
  | None => ret tt
  end.

Definition SubBalance (addr : Address) (amount : Z) : M StateDB unit :=
  stateObject <- GetOrNewStateObject addr;;
  match stateObject with
  | Some _ => so_SubBalance addr amount
  | None => ret tt
  end.

Definition SetBalance (addr : Address) (amount : Z) : M StateDB unit :=
  stateObject <- GetOrNewStateObject addr;;
  match stateObject with
  | Some _ => so_SetBalance addr amount
  | None => ret tt
  end.

Definition SetNonce (addr : Address) (nonce : Z) : M StateDB unit :=
  stateObject <- GetOrNewStateObject addr;;
  match stateObject with
  | Some _ => so_SetNonce addr nonce
  | None => ret tt
  end.

Definition SetCode (addr : Address) (c : option string) : M StateDB unit :=
  stateObject <- GetOrNewStateObject addr;;
  s <- get;;
  match stateObject with
  | Some _ => so_SetCode addr (Keccak256Hash (db s) (default EmptyString c)) c
  | None => ret tt
  end.

Definition SetState (addr : Address) (key value : Hash) : M StateDB unit :=
  stateObject <- GetOrNewStateObject addr;;
  match stateObject with
  | Some _ => so_SetState addr key value
  | None => ret tt
  end.

(** [StateDB.Suicide]. *)
Definition Suicide (addr : Address) : M StateDB bool :=
  stateObject <- getStateObject addr;;
  match stateObject with
  | None => ret false
  | Some obj =>
    append (suicideChange addr (suicided obj) (Balance (data obj)));;;
    assign addr markSuicided;;;
    assign addr (setBalance 0);;;
    ret true
  end.

(** [StateDB.Prepare]. *)
Definition Prepare (th bh : Hash) (ti : Z) : M StateDB unit :=
  modify (set_tx th bh ti).

(** [StateDB.clearJournalAndRefund]. *)
Definition clearJournalAndRefund : M StateDB unit :=
  modify (set_journal (λ _, newJournal));;;
  modify (λ s, set_revisions [] (nextRevisionId s) s);;;
  modify (set_refund 0).

(** *** Snapshots *)

(** Modelled from the spec: how each change record reverses itself. The
    records of an account reach it through [getStateObject]; a touch only
    counts in the dirty set, which [journal_revert] rebuilds. *)
Definition on_object (addr : Address) (f : stateObject → stateObject) : M StateDB unit :=
  obj <- getStateObject addr;;
  match obj with
  | Some _ => assign addr f
  | None => panic
  end.

Definition revert_entry (e : journalEntry) : M StateDB unit :=
  match e with
  | createObjectChange account =>
    modify (set_stateObjects (delete account));;;
    modify (set_stateObjectsDirty (λ d, d ∖ {[account]}))
  | resetObjectChange prev => setStateObject prev
  | suicideChange account prev prevbalance =>
    obj <- getStateObject account;;
    match obj with
    | Some _ => assign account (set_suicided prev);;; assign account (setBalance prevbalance)
    | None => ret tt
    end
  | balanceChange account prev => on_object account (setBalance prev)
  | nonceChange account prev => on_object account (setNonce prev)
  | storageChange account key prevalue => on_object account (setState key prevalue)
  | codeChange account prevhash prevcode => on_object account (setCode prevhash prevcode)
  | refundChange prev => modify (set_refund prev)
  | addLogChange txhash =>
    s <- get;;
    match default [] (logs s !! txhash) with
    | [] => panic (* slice bounds out of range *)
    | l => modify (set_logs (λ m, <[txhash := removelast l]> m) (uint64 (logSize s - 1)))
    end
  | addPreimageChange hash => modify (set_preimages (delete hash))
  | touchChange _ => ret tt
  end.

(** The entries, newest first. *)
Fixpoint revert_entries (es : list journalEntry) : M StateDB unit :=
  match es with
  | [] => ret tt
  | e :: es' => revert_entry e;;; revert_entries es'
  end.

(** Modelled from the spec: [journal.revert(db, snapshot)] pops entries back
    to [snapshot], reverting each, and rebuilds the dirty set from what
    remains. *)
Definition journal_revert (snapshot : nat) : M StateDB unit :=
  s <- get;;
  let es := entries (journal_ s) in
  if bool_decide (length es < snapshot)%nat then panic (* slice bounds out of range *)
  else
    revert_entries (reverse (drop snapshot es));;;
    modify (set_journal (λ _, mkJournal (take snapshot es) (dirties_of (take snapshot es)))).

(** [sort.Search] of the Go library: binary search for the least index in
    [0, n) at which [f] holds, [n] when there is none. *)
Fixpoint search_loop (fuel : nat) (f : nat → bool) (i j : nat) : nat :=
  match fuel with
  | O => i
  | S fuel' =>
    if bool_decide (i < j)%nat then
      let h := ((i + j) / 2)%nat in
      if negb (f h) then search_loop fuel' f (h + 1) j
      else search_loop fuel' f i h
    else i
  end.

Definition sort_Search (n : nat) (f : nat → bool) : nat := search_loop n f 0 n.

(** [StateDB.Snapshot]. *)
Definition Snapshot : M StateDB Z :=
  s <- get;;
  let id := nextRevisionId s in
  modify (λ s, set_revisions (validRevisions s) (int64 (nextRevisionId s + 1)) s);;;
  modify (λ s, set_revisions
                 (validRevisions s ++ [mkRevision id (journal_length (journal_ s))])
                 (nextRevisionId s) s);;;
  ret id.

(** The predicate [RevertToSnapshot] searches with:
    [validRevisions[i].id >= revid]. *)
Definition at_least (revs : list revision) (revid : Z) (i : nat) : bool :=
  match revs !! i with
  | Some r => bool_decide (revid ≤ id r)
  | None => false
  end.

(** [StateDB.RevertToSnapshot]. *)
Definition RevertToSnapshot (revid : Z) : M StateDB unit :=
  s <- get;;
  (* Find the snapshot in the stack of valid snapshots. *)
  let idx := sort_Search (length (validRevisions s)) (at_least (validRevisions s) revid) in
  match validRevisions s !! idx with
  | None => panic (* revision id cannot be reverted *)
  | Some r =>
    if bool_decide (id r ≠ revid) then panic
    else
      let snapshot := journalIndex r in
      (* Replay the journal to undo changes and remove invalidated snapshots *)
      journal_revert snapshot;;;
      modify (λ s, set_revisions (take idx (validRevisions s)) (nextRevisionId s) s)
  end.

(** *** Sequences of state changes *)

Inductive mutation :=
  | MAddBalance (addr : Address) (amount : Z)
  | MSubBalance (addr : Address) (amount : Z)
  | MSetBalance (addr : Address) (amount : Z)
  | MSetNonce (addr : Address) (nonce : Z)
  | MSetCode (addr : Address) (c : option string)
  | MSetState (addr : Address) (key value : Hash)
  | MSuicide (addr : Address)
  | MCreateAccount (addr : Address)
  | MAddLog (log : LogPtr)
  | MAddPreimage (hash : Hash) (preimage : string)
  | MAddRefund (gas : Z)
  | MSubRefund (gas : Z)
  | MPrepare (th bh : Hash) (ti : Z)
  | MGetBalance (addr : Address)
  | MGetNonce (addr : Address)
  | MGetCode (addr : Address)
  | MGetState (addr : Address) (key : Hash)
  | MSnapshot
  | MRevertToSnapshot (revid : Z).

Definition apply (m : mutation) : M World unit :=
  match m with
  | MAddBalance addr amount => on_db (AddBalance addr amount)
  | MSubBalance addr amount => on_db (SubBalance addr amount)
  | MSetBalance addr amount => on_db (SetBalance addr amount)
  | MSetNonce addr nonce => on_db (SetNonce addr nonce)
  | MSetCode addr c => on_db (SetCode addr c)
  | MSetState addr key value => on_db (SetState addr key value)
  | MSuicide addr => on_db (Suicide addr;;; ret tt)
  | MCreateAccount addr => on_db (CreateAccount addr)
  | MAddLog log => AddLog log
  | MAddPreimage hash preimage => on_db (AddPreimage hash preimage)
  | MAddRefund gas => on_db (AddRefund gas)
  | MSubRefund gas => on_db (SubRefund gas)
  | MPrepare th bh ti => on_db (Prepare th bh ti)
  | MGetBalance addr => on_db (GetBalance addr;;; ret tt)
  | MGetNonce addr => on_db (GetNonce addr;;; ret tt)
  | MGetCode addr => on_db (GetCode addr;;; ret tt)
  | MGetState addr key => on_db (GetState addr key;;; ret tt)
  | MSnapshot => on_db (Snapshot;;; ret tt)
  | MRevertToSnapshot revid => on_db (RevertToSnapshot revid)
  end.

Fixpoint apply_all (ms : list mutation) : M World unit :=
  match ms with
  | [] => ret tt
  | m :: ms' => apply m;;; apply_all ms'
  end.

(** What a change does to the [StateDB] alone; of [AddLog], the journal
    entry and the pointer kept. *)
Definition record_log (log : LogPtr) : M StateDB unit :=
  s <- get;;
  append (addLogChange (thash s));;;
  modify (set_logs (λ m, <[thash s := default [] (m !! thash s) ++ [log]]> m)
            (uint64 (logSize s + 1))).

Definition apply_db (m : mutation) : M StateDB unit :=
  match m with
  | MAddBalance addr amount => AddBalance addr amount
  | MSubBalance addr amount => SubBalance addr amount
  | MSetBalance addr amount => SetBalance addr amount
  | MSetNonce addr nonce => SetNonce addr nonce
  | MSetCode addr c => SetCode addr c
  | MSetState addr key value => SetState addr key value
  | MSuicide addr => Suicide addr;;; ret tt
  | MCreateAccount addr => CreateAccount addr
  | MAddLog log => record_log log
  | MAddPreimage hash preimage => AddPreimage hash preimage
  | MAddRefund gas => AddRefund gas
  | MSubRefund gas => SubRefund gas
  | MPrepare th bh ti => Prepare th bh ti
  | MGetBalance addr => GetBalance addr;;; ret tt
  | MGetNonce addr => GetNonce addr;;; ret tt
  | MGetCode addr => GetCode addr;;; ret tt
  | MGetState addr key => GetState addr key;;; ret tt
  | MSnapshot => Snapshot;;; ret tt
  | MRevertToSnapshot revid => RevertToSnapshot revid
  end.

Fixpoint apply_db_all (ms : list mutation) : M StateDB unit :=
  match ms with
  | [] => ret tt
  | m :: ms' => apply_db m;;; apply_db_all ms'
  end.

(** *** What a caller can observe, and when two states agree on it *)

(** The object [getStateObject] returns for [addr], without the caching
    of a loaded object in the live set. *)
Definition live (s : StateDB) (addr : Address) : option stateObject :=
  match stateObjects s !! addr with
  | Some obj => if deleted obj then None else Some obj
  | None => newObject (db s) addr <$> trie_TryGet (db s) addr
  end.

Definition balance_of (s : StateDB) (addr : Address) : Z :=
  match live s addr with Some obj => Balance (data obj) | None => 0 end.

Definition nonce_of (s : StateDB) (addr : Address) : Z :=
  match live s addr with Some obj => Nonce (data obj) | None => 0 end.

Definition code_at (s : StateDB) (addr : Address) : option string :=
  match live s addr with Some obj => code_of (db s) obj | None => None end.

Definition storage_at (s : StateDB) (addr : Address) (key : Hash) : Hash :=
  match live s addr with Some obj => state_of (db s) obj key | None => EmptyString end.

(** Balances, nonces, code, storage slots, the refund counter, the
    pointers [GetLogs] returns and the preimages are the same in both
    states. *)
Definition same_db_observations (s s' : StateDB) : Prop :=
  (∀ addr, balance_of s' addr = balance_of s addr)
  ∧ (∀ addr, nonce_of s' addr = nonce_of s addr)
  ∧ (∀ addr, code_at s' addr = code_at s addr)
  ∧ (∀ addr key, storage_at s' addr key = storage_at s addr key)
  ∧ GetRefund s' = GetRefund s
  ∧ (∀ hash, GetLogs hash s' = GetLogs hash s)
  ∧ Preimages s' = Preimages s.

(** The logs of a transaction as a caller reads them: the objects behind
    the pointers [GetLogs] returns. *)
Definition read_logs (hash : Hash) (w : World) : list (option Log) :=
  (λ p, memory w !! p) <$> GetLogs hash (statedb w).

(** The same, and the logs read the same, field by field. *)
Definition same_observations (w w' : World) : Prop :=
  same_db_observations (statedb w) (statedb w')
  ∧ ∀ hash, read_logs hash w' = read_logs hash w.

(** Two working copies of an account that no getter and no change record
    can tell apart. *)
Definition obj_equiv (d : Database) (o1 o2 : stateObject) : Prop :=
  addrHash o1 = addrHash o2
  ∧ Nonce (data o1) = Nonce (data o2)
  ∧ Balance (data o1) = Balance (data o2)
  ∧ code_of d o1 = code_of d o2
  ∧ (∀ key, state_of d o1 key = state_of d o2 key)
  ∧ suicided o1 = suicided o2.

Definition db_equiv (s1 s2 : StateDB) : Prop :=
  db s1 = db s2
  ∧ (∀ addr, option_Forall2 (obj_equiv (db s1)) (live s1 addr) (live s2 addr))
  ∧ refund s1 = refund s2
  ∧ (∀ hash, GetLogs hash s1 = GetLogs hash s2)
  ∧ preimages s1 = preimages s2.

(** *** Well-formed states *)

(** A live object sits under its own address, and an object deleted from
    the trie has no record there. *)
Definition wf_objects (s : StateDB) : Prop :=
  ∀ addr obj, stateObjects s !! addr = Some obj →
    address obj = addr ∧ (deleted obj = true → trie_TryGet (db s) addr = None).

(** The valid revisions carry increasing ids below the next id, and
    journal lengths within the journal. *)
Definition wf_revisions (s : StateDB) : Prop :=
  StronglySorted Z.lt (id <$> validRevisions s)
  ∧ Forall (λ r, id r < nextRevisionId s) (validRevisions s)
  ∧ 0 ≤ nextRevisionId s.

Definition wf (s : StateDB) : Prop := wf_objects s ∧ wf_revisions s.

Definition good_entry (e : journalEntry) : Prop :=
  match e with
  | resetObjectChange prev => deleted prev = false
  | _ => True
  end.

(** A step that only appends to the journal records from which it can be
    undone. *)
Definition journaled (s s' : StateDB) : Prop :=
  db s' = db s
  ∧ validRevisions s' = validRevisions s
  ∧ nextRevisionId s' = nextRevisionId s
  ∧ ∃ es, entries (journal_ s') = entries (journal_ s) ++ es
          ∧ Forall good_entry es
          ∧ (wf_objects s →
             wf_objects s'
             ∧ ∃ u, revert_entries (reverse es) s' = Done (tt, u) ∧ db_equiv u s).

(** The state after [getStateObject addr]: a loaded object is cached. *)
Definition load (addr : Address) (s : StateDB) : StateDB :=
  match stateObjects s !! addr with
  | Some _ => s
  | None =>
    match trie_TryGet (db s) addr with
    | Some a => set_stateObjects (λ m, <[addr := newObject (db s) addr a]> m) s
    | None => s
    end
  end.

(** An update of a working copy that getters cannot split. *)
Definition respectful (f : stateObject → stateObject) : Prop :=
  (∀ o, deleted (f o) = deleted o ∧ address (f o) = address o)
  ∧ ∀ d o1 o2, obj_equiv d o1 o2 → obj_equiv d (f o1) (f o2).

(** The states between a snapshot of [s0] and the revert to it: the
    snapshot is still valid, later snapshots point into the journal behind
    it, and the records appended since take the state back to [s0]. *)
Record since_snapshot (s0 s : StateDB) : Prop := mkSince {
  since_db : db s = db s0;
  since_wf : wf_objects s;
  since_next : nextRevisionId s0 < nextRevisionId s;
  since_revs :
    ∃ later,
      validRevisions s
      = validRevisions s0
        ++ mkRevision (nextRevisionId s0) (length (entries (journal_ s0))) :: later
      ∧ Forall (λ r, (length (entries (journal_ s0)) ≤ journalIndex r
                      ∧ journalIndex r ≤ length (entries (journal_ s)))%nat) later
      ∧ StronglySorted le (journalIndex <$> later);
  since_sorted : StronglySorted Z.lt (id <$> validRevisions s);
  since_below : Forall (λ r, id r < nextRevisionId s) (validRevisions s);
  since_undo :
    ∃ es, entries (journal_ s) = entries (journal_ s0) ++ es
          ∧ Forall good_entry es
          ∧ ∃ u, revert_entries (reverse es) s = Done (tt, u) ∧ db_equiv u s0;
}.

(** The record [createObject] appends. *)
Definition creation_entry (addr : Address) (prev : option stateObject) : journalEntry :=
  match prev with
  | None => createObjectChange addr
  | Some p => resetObjectChange p
  end.

(** The object [createObject] installs. *)
Definition fresh_object (d : Database) (addr : Address) : stateObject :=
  setNonce 0 (newObject d addr (mkAccount 0 0 EmptyString EmptyString)).

(** Reverting records touches neither the journal nor the revisions. *)
Definition same_frame (s s' : StateDB) : Prop :=
  db s' = db s ∧ journal_ s' = journal_ s
  ∧ validRevisions s' = validRevisions s ∧ nextRevisionId s' = nextRevisionId s.

(** Ids of the snapshots a sequence of changes reverts to. *)
Definition reverted_ids (ms : list mutation) : list Z :=
  omap (λ m, match m with MRevertToSnapshot revid => Some revid | _ => None end) ms.

(** The log pointers a sequence of changes passes to [AddLog]. *)
Definition added_logs (ms : list mutation) : list LogPtr :=
  omap (λ m, match m with MAddLog log => Some log | _ => None end) ms.

(** The pointers kept in the logs, under any transaction hash. *)
Definition recorded (s : StateDB) (p : LogPtr) : Prop :=
  ∃ hash, p ∈ GetLogs hash s.

(** The memory is the same at every address outside [ps]. *)
Definition memory_kept (ps : list LogPtr) (w w' : World) : Prop :=
  ∀ p, p ∉ ps → memory w' !! p = memory w !! p.

(** A sample database and state for the examples. *)
Definition sample_db : Database :=
  mkDatabase (λ x, x)
    (λ addr, if bool_decide (addr = "alice"%string)
             then Some (mkAccount 1 100 EmptyString EmptyString) else None)
    (λ _ _ _, EmptyString) (λ _ _, None).

Definition sample_state : StateDB :=
  mkStateDB sample_db ∅ ∅ 0 "tx1" "b1" 0 ∅ 0 ∅ newJournal [] 0.

Definition sample_log : Log :=
  mkLog "alice" [] "data" 7 EmptyString 0 EmptyString 0 false.

(** Two log objects, at the addresses 1 and 2. *)
Definition sample_world : World :=
  mkWorld sample_state {[ 1%positive := sample_log; 2%positive := sample_log ]}.

Definition sample_mutations : list mutation :=
  [MAddBalance "alice" 50; MSetState "alice" "k" "v"; MSnapshot;
   MSetCode "bob" (Some "code"%string); MAddLog 1%positive; MSuicide "alice";
   MRevertToSnapshot 1; MAddRefund 5; MAddPreimage "h" "p"; MAddLog 2%positive;
   MCreateAccount "alice"].

(** The state in which the log object at address 1 has been added under
    the transaction [tx1], and the changes that add the same object again
    under the transaction [tx2]. *)
Definition logged_world : World :=
  run_state (AddLog 1%positive) sample_world.

Definition relogging : list mutation :=
  [MPrepare "tx2" "b2" 1; MAddLog 1%positive].

(** *** Further getters *)

(** [StateDB.Exist]: also true for suicided accounts. *)
Definition Exist (addr : Address) : M StateDB bool :=
  so <- getStateObject addr;;
  match so with
  | Some _ => ret true
  | None => ret false
  end.

(** [StateDB.Empty]: no object, or an empty one. *)
Definition Empty (addr : Address) : M StateDB bool :=
  so <- getStateObject addr;;
  s <- get;;
  match so with
  | Some obj => ret (empty (db s) obj)
  | None => ret true
  end.

(** [StateDB.GetCodeHash]. *)
Definition GetCodeHash (addr : Address) : M StateDB Hash :=
  stateObject <- getStateObject addr;;
  match stateObject with
  | Some obj => ret (CodeHash (data obj))
  | None => ret EmptyString
  end.

(** [StateDB.GetCommittedState]. *)
Definition GetCommittedState (addr : Address) (hash : Hash) : M StateDB Hash :=
  stateObject <- getStateObject addr;;
  match stateObject with
  | Some _ => so_GetCommittedState addr hash
  | None => ret EmptyString
  end.

End State.

(** * Properties *)

(** ** The monad and the order on names *)

Lemma bind_Done {S A B} (m : M S A) (k : A → M S B) s a s' :
  m s = Done (a, s') → bind m k s = k a s'.
Proof. unfold bind. by intros ->. Qed.

Lemma bind_get {S B} (k : S → M S B) s : bind get k s = k s s.
Proof. reflexivity. Qed.

Lemma bind_modify {S B} (f : S → S) (k : unit → M S B) s :
  bind (modify f) k s = k tt (f s).
Proof. reflexivity. Qed.

Lemma bind_ret {S A B} (a : A) (k : A → M S B) s : bind (ret a) k s = k a s.
Proof. reflexivity. Qed.

Lemma bind_assoc {S A B C} (m : M S A) (k : A → M S B) (h : B → M S C) s :
  bind (bind m k) h s = bind m (λ a, bind (k a) h) s.
Proof. unfold bind. by destruct (m s) as [[a s']| |]. Qed.

Lemma run_Done {S A} (m : M S A) (s : S) (a : A) :
  run_value m s = Some a → m s = Done (a, run_state m s).
Proof.
  unfold run_value, run_state. destruct (m s) as [[a' s']| |]; [|done..].
  by intros [= ->].
Qed.

(** One step of symbolic execution of a monadic program applied to a state. *)
Ltac go_step :=
  first [ rewrite bind_get | rewrite bind_modify | rewrite bind_ret ];
  cbv beta.

Section StringOrder.

Lemma ascii_compare_refl (c : ascii) : Ascii.compare c c = Eq.
Proof. unfold Ascii.compare. apply N.compare_refl. Qed.

Lemma ascii_compare_lt_trans (a b c : ascii) :
  Ascii.compare a b = Lt → Ascii.compare b c = Lt → Ascii.compare a c = Lt.
Proof.
  unfold Ascii.compare. rewrite !N.compare_lt_iff. apply N.lt_trans.
Qed.

Lemma string_compare_refl (s : string) : String.compare s s = Eq.
Proof.
  induction s as [|c s IH]; [done|]. simpl. by rewrite ascii_compare_refl.
Qed.

Lemma string_compare_lt_trans (a b c : string) :
  String.compare a b = Lt → String.compare b c = Lt → String.compare a c = Lt.
Proof.
  revert b c. induction a as [|x a IH]; intros [|y b] [|z c]; simpl; try done.
  destruct (Ascii.compare x y) eqn:Hxy; try done.
  - apply Ascii.compare_eq_iff in Hxy. subst y.
    destruct (Ascii.compare x z); try done. apply IH.
  - intros _. destruct (Ascii.compare y z) eqn:Hyz; try done.
    + apply Ascii.compare_eq_iff in Hyz. subst z. by rewrite Hxy.
    + intros _. by rewrite (ascii_compare_lt_trans _ _ _ Hxy Hyz).
Qed.

Lemma str_lt_spec (a b : string) : str_lt a b = true ↔ String.compare a b = Lt.
Proof. unfold str_lt, String.ltb. by destruct (String.compare a b). Qed.

Lemma str_le_spec (a b : string) :
  str_le a b = true ↔ String.compare a b = Lt ∨ a = b.
Proof.
  unfold str_le, String.ltb. rewrite (String.compare_antisym b a).
  destruct (String.compare a b) eqn:Hab; simpl; split.
  - intros _. right. by apply String.compare_eq_iff.
  - done.
  - intros _. by left.
  - done.
  - done.
  - intros [?| ->]; [done|]. by rewrite string_compare_refl in Hab.
Qed.

Lemma str_le_refl (a : string) : str_le a a = true.
Proof. apply str_le_spec. by right. Qed.

Lemma str_le_trans (a b c : string) :
  str_le a b = true → str_le b c = true → str_le a c = true.
Proof.
  rewrite !str_le_spec. intros [Hab| ->] [Hbc| ->]; eauto.
  left. eapply string_compare_lt_trans; eauto.
Qed.

Lemma str_lt_le (a b : string) : str_lt a b = true → str_le a b = true.
Proof. rewrite str_lt_spec, str_le_spec. by left. Qed.

Lemma str_lt_irrefl (a : string) : str_lt a a = false.
Proof. unfold str_lt, String.ltb. by rewrite string_compare_refl. Qed.

Lemma str_le_total (a b : string) : str_le a b = true ∨ str_le b a = true.
Proof.
  rewrite !str_le_spec.
  destruct (String.compare a b) eqn:Hab.
  - left. right. by apply String.compare_eq_iff.
  - by left; left.
  - right. left. rewrite String.compare_antisym, Hab. done.
Qed.

Lemma str_le_antisym (a b : string) :
  str_le a b = true → str_le b a = true → a = b.
Proof.
  intros [Hab| ->]%str_le_spec [Hba|Heq]%str_le_spec; try done.
  rewrite String.compare_antisym, Hab in Hba. done.
Qed.

Lemma str_lt_le_trans (a b c : string) :
  str_lt a b = true → str_le b c = true → str_lt a c = true.
Proof.
  rewrite !str_lt_spec, str_le_spec. intros Hab [Hbc| ->]; [|done].
  eapply string_compare_lt_trans; eauto.
Qed.

Lemma str_le_not_lt (a b : string) : str_le a b = true ↔ str_lt b a = false.
Proof. unfold str_le, str_lt. by destruct (String.ltb b a). Qed.

End StringOrder.

Section Preserves.
Context {S : Type} (R : S → S → Prop) `{!PreOrder R}.

Lemma preserves_ret {A} (a : A) : preserves R (ret a).
Proof. intros s a' s' [= _ <-]. reflexivity. Qed.

Lemma preserves_get : preserves R get.
Proof. intros s a' s' [= _ <-]. reflexivity. Qed.

Lemma preserves_modify (f : S → S) : (∀ s, R s (f s)) → preserves R (modify f).
Proof. intros Hf s a' s' [= _ <-]. apply Hf. Qed.

Lemma preserves_bind {A B} (m : M S A) (k : A → M S B) :
  preserves R m → (∀ a, preserves R (k a)) → preserves R (bind m k).
Proof.
  intros Hm Hk s b s'. unfold bind.
  destruct (m s) as [[a s1]| |] eqn:Hms; [|done..].
  intros Hks. etrans; [by eapply Hm | by eapply Hk].
Qed.

Lemma preserves_panic {A} : preserves R (@panic S A).
Proof. by intros s a s'. Qed.

End Preserves.

Module EthdbFacts.
Import Ethdb.
Local Open Scope go_scope.

(** ** Properties of the segment set *)

Section SegmentSetFacts.

Implicit Types (ss : SegmentSet) (name : string) (s : Segment).

Lemma cache_find_drop_ne name k (c : list (string * Segment)) :
  k ≠ name → cache_find name (cache_drop k c) = cache_find name c.
Proof.
  intros Hne. induction c as [|[k' v] c IH]; [done|].
  unfold cache_drop in *. rewrite filter_cons. simpl.
  destruct (decide (k' ≠ k)) as [Hk|Hk]; simpl.
  - by rewrite IH.
  - apply dec_stable in Hk. subst k'.
    rewrite bool_decide_eq_false_2; [apply IH | done].
Qed.

Lemma cache_find_take name (c : list (string * Segment)) v n :
  cache_find name (take (S n) ((name, v) :: c)) = Some v.
Proof. simpl. by rewrite bool_decide_eq_true_2. Qed.

(** [onEvicted] only appends to the trace. *)
Lemma onEvicted_frame key ss :
  ∃ tr, onEvicted key ss =
        Done (tt, mkSegmentSet (ss_segments ss) (ss_size ss) (ss_cur ss) (ss_cache ss)
                    (ss_trace ss ++ tr)).
Proof.
  unfold onEvicted, bind, get, ret, modify, emit.
  destruct (ss_segments ss !! key) as [s|].
  - destruct (seg_Purge s); eexists; reflexivity.
  - exists []. rewrite app_nil_r. by destruct ss.
Qed.

(** [cache.Add] of a name that is not cached puts it in front, keeps the
    universe and the semaphore, and keeps the entry when the capacity is
    at least one. *)
Lemma cache_Add_fresh name s ss :
  cache_find name (ss_cache ss) = None →
  (0 < ss_size ss)%nat →
  ∃ ss', cache_Add name s ss = Done (tt, ss')
         ∧ ss_segments ss' = ss_segments ss
         ∧ ss_size ss' = ss_size ss
         ∧ ss_cur ss' = ss_cur ss
         ∧ cache_find name (ss_cache ss') = Some s
         ∧ (length (ss_cache ss') ≤ max (ss_size ss) (length (ss_cache ss)))%nat.
Proof.
  intros Hfind Hsize.
  unfold cache_Add, bind, get, ret, modify. rewrite Hfind. simpl.
  case_bool_decide as Hlen.
  - destruct (last ((name, s) :: ss_cache ss)) as [[k v]|] eqn:Hlast.
    + destruct (onEvicted_frame k
        (set_cache (λ c, take (length c - 1) c) (set_cache (λ c, (name, s) :: c) ss)))
        as [tr ->].
      eexists. split; [reflexivity|]. simpl.
      repeat split; try done.
      * destruct (ss_cache ss) as [|p c]; simpl in *; [lia|].
        by rewrite bool_decide_eq_true_2.
      * rewrite length_take. simpl. lia.
    + eexists. split; [reflexivity|]. simpl.
      rewrite bool_decide_eq_true_2 by done. repeat split; try done.
      by apply last_None in Hlast.
  - eexists. split; [reflexivity|]. simpl.
    rewrite bool_decide_eq_true_2 by done. repeat split; try done. lia.
Qed.

End SegmentSetFacts.

(** C4: [SegmentSet.Acquire] first takes one permit of the semaphore (and
    cannot proceed when none is free). With a permit: a cached name is
    returned with the permit held; a name absent from the universe gives
    [(nil, nil)] with the permit released and the set unchanged; a segment
    whose [Open] fails gives the error with the permit released; otherwise
    the segment is inserted into the LRU cache and returned with the permit
    held. *)
Theorem Acquire_cases (ss : SegmentSet) (name : string) :
  (ss_size ss ≤ ss_cur ss → Acquire name ss = Blocked)%nat ∧
  ((ss_cur ss < ss_size ss)%nat →
   match cache_find name (ss_cache ss) with
   | Some s =>
     ∃ ss', Acquire name ss = Done ((Some s, None), ss')
            ∧ ss_cur ss' = S (ss_cur ss)
            ∧ cache_find name (ss_cache ss') = Some s
            ∧ ss_segments ss' = ss_segments ss
            ∧ ss_trace ss' = ss_trace ss
   | None =>
     match ss_segments ss !! name with
     | None => Acquire name ss = Done ((None, None), ss)
     | Some s =>
       match seg_Open s with
       | Some (Some err) =>
         ∃ ss', Acquire name ss = Done ((None, Some err), ss')
                ∧ ss_cur ss' = ss_cur ss
                ∧ ss_cache ss' = ss_cache ss
                ∧ ss_segments ss' = ss_segments ss
       | _ =>
         ∃ ss', Acquire name ss = Done ((Some s, None), ss')
                ∧ ss_cur ss' = S (ss_cur ss)
                ∧ cache_find name (ss_cache ss') = Some s
                ∧ ss_segments ss' = ss_segments ss
       end
     end
   end).
Proof.
  split.
  - intros Hfull. unfold Acquire, bind, sem_Acquire.
    rewrite bool_decide_eq_false_2; [done | lia].
  - intros Hfree.
    assert (Hsem : sem_Acquire Background ss = Done (None, set_cur S ss)).
    { unfold sem_Acquire. by rewrite bool_decide_eq_true_2. }
    unfold Acquire. rewrite (bind_Done _ _ _ _ _ Hsem).
    destruct (cache_find name (ss_cache ss)) as [s|] eqn:Hc.
    + assert (Hget : cache_Get name (set_cur S ss)
                     = Done (Some s, set_cache (λ c, (name, s) :: cache_drop name c)
                                       (set_cur S ss))).
      { unfold cache_Get, bind, get, modify, ret. simpl. by rewrite Hc. }
      rewrite (bind_Done _ _ _ _ _ Hget).
      eexists. split; [reflexivity|]. simpl.
      by rewrite bool_decide_eq_true_2.
    + assert (Hget : cache_Get name (set_cur S ss) = Done (None, set_cur S ss)).
      { unfold cache_Get, bind, get, modify, ret. simpl. by rewrite Hc. }
      rewrite (bind_Done _ _ _ _ _ Hget).
      go_step.
      change (ss_segments (set_cur S ss)) with (ss_segments ss).
      destruct (ss_segments ss !! name) as [s|] eqn:Hs.
      * assert (Hadd : ∀ ss0, ss_cur ss0 = S (ss_cur ss) → ss_cache ss0 = ss_cache ss →
                  ss_segments ss0 = ss_segments ss → ss_size ss0 = ss_size ss →
                  ∃ ss', (cache_Add name s;;; ret (Some s, None)) ss0
                         = Done ((Some s, @None error), ss')
                         ∧ ss_cur ss' = S (ss_cur ss)
                         ∧ cache_find name (ss_cache ss') = Some s
                         ∧ ss_segments ss' = ss_segments ss).
        { intros ss0 H1 H2 H3 H4.
          destruct (cache_Add_fresh name s ss0) as (ss' & Hrun & Hu & _ & Hcur & Hf & _).
          - by rewrite H2.
          - lia.
          - exists ss'. rewrite (bind_Done _ _ _ _ _ Hrun). unfold ret.
            split; [done|]. split; [congruence|]. split; [done|]. congruence. }
        destruct (seg_Open s) as [[err|]|].
        -- go_step. unfold bind, sem_Release, ret. simpl.
           eexists. split; [reflexivity|]. done.
        -- go_step. apply Hadd; done.
        -- apply Hadd; done.
      * unfold bind, sem_Release, ret. simpl. by destruct ss.
Qed.

Lemma Acquire_cases_witness :
  let ss := mkSegmentSet {[ "01"%string := file_segment "01" None ]} 2 0 [] [] in
  ∃ ss', Acquire "01" ss = Done ((Some (file_segment "01" None), None), ss')
         ∧ ss_cur ss' = 1%nat
         ∧ cache_find "01" (ss_cache ss') = Some (file_segment "01" None)
         ∧ ss_segments ss' = ss_segments ss.
Proof.
  intros ss.
  exact (proj2 (Acquire_cases ss "01") ltac:(simpl; lia)).
Defined.

(** The outcomes of [Acquire], for the lemmas on reads below. *)
Lemma Acquire_outcomes (ss : SegmentSet) (name : string) :
  (ss_size ss ≤ ss_cur ss → Acquire name ss = Blocked)%nat ∧
  ((ss_cur ss < ss_size ss)%nat →
   match cache_find name (ss_cache ss) with
   | Some s =>
     ∃ ss', Acquire name ss = Done ((Some s, None), ss')
            ∧ ss_cur ss' = S (ss_cur ss)
            ∧ cache_find name (ss_cache ss') = Some s
            ∧ ss_segments ss' = ss_segments ss
            ∧ ss_trace ss' = ss_trace ss
   | None =>
     match ss_segments ss !! name with
     | None => Acquire name ss = Done ((None, None), ss)
     | Some s =>
       match seg_Open s with
       | Some (Some err) =>
         ∃ ss', Acquire name ss = Done ((None, Some err), ss')
                ∧ ss_cur ss' = ss_cur ss
                ∧ ss_cache ss' = ss_cache ss
                ∧ ss_segments ss' = ss_segments ss
       | _ =>
         ∃ ss', Acquire name ss = Done ((Some s, None), ss')
                ∧ ss_cur ss' = S (ss_cur ss)
                ∧ cache_find name (ss_cache ss') = Some s
                ∧ ss_segments ss' = ss_segments ss
       end
     end
   end).
Proof.
  split.
  - intros Hfull. unfold Acquire, bind, sem_Acquire.
    rewrite bool_decide_eq_false_2; [done | lia].
  - intros Hfree.
    assert (Hsem : sem_Acquire Background ss = Done (None, set_cur S ss)).
    { unfold sem_Acquire. by rewrite bool_decide_eq_true_2. }
    unfold Acquire. rewrite (bind_Done _ _ _ _ _ Hsem).
    destruct (cache_find name (ss_cache ss)) as [s|] eqn:Hc.
    + assert (Hget : cache_Get name (set_cur S ss)
                     = Done (Some s, set_cache (λ c, (name, s) :: cache_drop name c)
                                       (set_cur S ss))).
      { unfold cache_Get, bind, get, modify, ret. simpl. by rewrite Hc. }
      rewrite (bind_Done _ _ _ _ _ Hget).
      eexists. split; [reflexivity|]. simpl.
      by rewrite bool_decide_eq_true_2.
    + assert (Hget : cache_Get name (set_cur S ss) = Done (None, set_cur S ss)).
      { unfold cache_Get, bind, get, modify, ret. simpl. by rewrite Hc. }
      rewrite (bind_Done _ _ _ _ _ Hget).
      go_step.
      change (ss_segments (set_cur S ss)) with (ss_segments ss).
      destruct (ss_segments ss !! name) as [s|] eqn:Hs.
      * assert (Hadd : ∀ ss0, ss_cur ss0 = S (ss_cur ss) → ss_cache ss0 = ss_cache ss →
                  ss_segments ss0 = ss_segments ss → ss_size ss0 = ss_size ss →
                  ∃ ss', (cache_Add name s;;; ret (Some s, None)) ss0
                         = Done ((Some s, @None error), ss')
                         ∧ ss_cur ss' = S (ss_cur ss)
                         ∧ cache_find name (ss_cache ss') = Some s
                         ∧ ss_segments ss' = ss_segments ss).
        { intros ss0 H1 H2 H3 H4.
          destruct (cache_Add_fresh name s ss0) as (ss' & Hrun & Hu & _ & Hcur & Hf & _).
          - by rewrite H2.
          - lia.
          - exists ss'. rewrite (bind_Done _ _ _ _ _ Hrun). unfold ret.
            split; [done|]. split; [congruence|]. split; [done|]. congruence. }
        destruct (seg_Open s) as [[err|]|].
        -- go_step. unfold bind, sem_Release, ret. simpl.
           eexists. split; [reflexivity|]. done.
        -- go_step. apply Hadd; done.
        -- apply Hadd; done.
      * unfold bind, sem_Release, ret. simpl. by destruct ss.
Qed.

(** ** What the operations leave alone *)

#[global] Instance same_universe_preorder : PreOrder same_universe.
Proof.
  split.
  - by intros ss.
  - intros a b c [H1 H2] [H3 H4]. split; congruence.
Qed.

#[global] Instance universe_shrinks_preorder : PreOrder universe_shrinks.
Proof.
  split.
  - intros ss. unfold universe_shrinks. set_solver.
  - intros a b c H1 H2. unfold universe_shrinks in *. set_solver.
Qed.

Lemma same_universe_shrinks {A} (m : M SegmentSet A) :
  preserves same_universe m → preserves universe_shrinks m.
Proof. intros H ss a ss' Hrun. destruct (H _ _ _ Hrun) as [Hu _]. red. by rewrite Hu. Qed.

Create HintDb frame discriminated.

Ltac frame :=
  repeat first
    [ progress eauto with frame nocore
    | (apply preserves_ret; apply _) | (apply preserves_get; apply _)
    | apply preserves_panic
    | apply preserves_bind; [apply _ | | intros ?]
    | (apply preserves_modify; intros ?; first [done | by split | reflexivity])
    | match goal with
      | |- preserves _ (match ?x with _ => _ end) => destruct x
      | |- preserves _ (if ?x then _ else _) => destruct x
      end ].

Section SegmentSetFrames.

Lemma sem_Acquire_same ctx : preserves same_universe (sem_Acquire ctx).
Proof.
  intros ss a ss'. unfold sem_Acquire.
  case_bool_decide; [by intros [= _ <-]|]. destruct ctx; [done|]. by intros [= _ <-].
Qed.

Lemma sem_Release_same : preserves same_universe sem_Release.
Proof.
  intros ss a ss'. unfold sem_Release. destruct (ss_cur ss); [done|]. by intros [= _ <-].
Qed.

Lemma onEvicted_same key : preserves same_universe (onEvicted key).
Proof.
  intros ss a ss'. destruct (onEvicted_frame key ss) as [tr ->]. by intros [= _ <-].
Qed.

Hint Resolve sem_Acquire_same sem_Release_same onEvicted_same : frame.

Lemma cache_Get_same name : preserves same_universe (cache_Get name).
Proof. unfold cache_Get. frame. Qed.

Lemma cache_Add_same name s : preserves same_universe (cache_Add name s).
Proof. unfold cache_Add. frame. Qed.

Lemma cache_Remove_same name : preserves same_universe (cache_Remove name).
Proof. unfold cache_Remove. frame. Qed.

Lemma evict_all_same keys : preserves same_universe (evict_all keys).
Proof. induction keys; simpl; frame. Qed.

Hint Resolve cache_Get_same cache_Add_same cache_Remove_same evict_all_same : frame.

Lemma cache_Purge_same : preserves same_universe cache_Purge.
Proof. unfold cache_Purge. frame. Qed.

Lemma Acquire_same name : preserves same_universe (Acquire name).
Proof. unfold Acquire. frame. Qed.

Lemma Release_same : preserves same_universe Release.
Proof. apply sem_Release_same. Qed.

Lemma Remove_shrinks ctx name : preserves universe_shrinks (Remove ctx name).
Proof.
  unfold Remove. apply preserves_bind; [apply _| |intros ?].
  - apply preserves_modify. intros ss. unfold universe_shrinks. simpl.
    rewrite dom_delete_L. apply subseteq_difference_l. done.
  - apply same_universe_shrinks.
    apply preserves_bind; [apply _|apply sem_Acquire_same|intros [e|]].
    + apply preserves_ret; apply _.
    + apply preserves_bind; [apply _|apply cache_Remove_same|intros ?].
      apply sem_Release_same.
Qed.

Lemma ss_Close_shrinks : preserves universe_shrinks ss_Close.
Proof.
  unfold ss_Close. apply preserves_bind; [apply _| |intros ?].
  - apply preserves_modify. intros ss. unfold universe_shrinks. simpl.
    rewrite dom_empty_L. set_solver.
  - apply same_universe_shrinks, cache_Purge_same.
Qed.

End SegmentSetFrames.

#[global] Hint Resolve sem_Acquire_same sem_Release_same onEvicted_same
  cache_Get_same cache_Add_same cache_Remove_same evict_all_same
  cache_Purge_same Acquire_same Release_same : frame.

(** ** What the table operations leave alone *)

#[global] Instance table_step_preorder : PreOrder table_step.
Proof.
  split.
  - intros t. split; [done|]. split; [apply str_le_refl | done].
  - intros a b c (Hc1 & Ha1 & Hd1) (Hc2 & Ha2 & Hd2).
    split; [congruence|]. split; [by eapply str_le_trans|].
    intros Ho Hk Hd. apply Hd2; [| |by apply Hd1].
    + unfold opener_keeps_names in *. unfold config in Hc1.
      injection Hc1 as _ _ _ _ _ _ _ -> _ _. done.
    + unfold compactor_keeps_names in *. unfold config in Hc1.
      injection Hc1 as _ _ _ _ _ _ _ _ -> _. done.
Qed.

#[global] Instance system_step_preorder : PreOrder system_step.
Proof.
  split.
  - intros st. unfold system_step. reflexivity.
  - intros a b c. unfold system_step. apply transitivity.
Qed.

#[global] Instance table_read_preorder : PreOrder table_read.
Proof.
  split.
  - intros t. exists (segments t). split; [by destruct t | reflexivity].
  - intros a b c (ss1 & -> & H1) (ss2 & -> & H2).
    exists ss2. split; [done|]. etrans; [exact H1 | exact H2].
Qed.

Lemma table_read_step (t t' : Table) : table_read t t' → table_step t t'.
Proof.
  intros (ss' & -> & Hu & _).
  split; [done|]. split; [apply str_le_refl|].
  intros _ _ Hd. unfold tiers_disjoint, universe in *. simpl. by rewrite Hu.
Qed.

Lemma read_preserves_step {A} (m : M Table A) :
  preserves table_read m → preserves table_step m.
Proof. intros H t a t' Hrun. by eapply table_read_step, H. Qed.

Lemma on_set_run {A} (m : M SegmentSet A) (t : Table) a t' :
  on_set m t = Done (a, t') →
  ∃ ss', m (segments t) = Done (a, ss') ∧ t' = set_set ss' t.
Proof.
  unfold on_set. destruct (m (segments t)) as [[a' ss']| |]; [|done..].
  intros [= <- <-]. eauto.
Qed.

Lemma on_set_read {A} (m : M SegmentSet A) :
  preserves same_universe m → preserves table_read (on_set m).
Proof.
  intros Hm t a t' (ss' & Hrun & ->)%on_set_run.
  exists ss'. split; [done|]. by eapply Hm.
Qed.

Lemma on_set_shrinks {A} (m : M SegmentSet A) :
  preserves universe_shrinks m → preserves table_step (on_set m).
Proof.
  intros Hm t a t' (ss' & Hrun & ->)%on_set_run.
  split; [done|]. split; [apply str_le_refl|].
  intros _ _ Hd. apply Hm in Hrun.
  unfold tiers_disjoint, universe, universe_shrinks in *. simpl. set_solver.
Qed.

Lemma log_event_step e : preserves table_step (modify (log_event e)).
Proof.
  apply preserves_modify. intros t.
  split; [done|]. split; [apply str_le_refl | done].
Qed.

Lemma log_event_read_free (t : Table) e : config (log_event e t) = config t.
Proof. done. Qed.

(** Rewriting or dropping mutable segments keeps the tiers apart. *)
Lemma set_ldbSegments_step f :
  (∀ m : gmap string LDBSegment, dom (f m) ⊆ dom m) →
  preserves table_step (modify (set_ldbSegments f)).
Proof.
  intros Hf. apply preserves_modify. intros t.
  split; [done|]. split; [apply str_le_refl|].
  intros _ _ Hd. unfold tiers_disjoint, universe in *. simpl.
  specialize (Hf (ldbSegments t)). set_solver.
Qed.

Lemma on_ldb_step name f e : preserves table_step (on_ldb name f e).
Proof.
  unfold on_ldb. apply preserves_bind; [apply _| |intros _; apply log_event_step].
  apply set_ldbSegments_step. intros m.
  destruct (m !! name) eqn:Hm; [|done].
  rewrite dom_insert_L. apply elem_of_dom_2 in Hm. set_solver.
Qed.

#[global] Hint Resolve log_event_step on_ldb_step on_set_read : frame.

Section TableFrames.

Lemma AcquireSegment_read name : preserves table_read (AcquireSegment name).
Proof.
  unfold AcquireSegment. frame.
Qed.

Lemma ReleaseSegment_read s : preserves table_read (ReleaseSegment s).
Proof.
  destruct s; simpl; [apply preserves_ret; apply _|].
  apply on_set_read, Release_same.
Qed.

Hint Resolve AcquireSegment_read ReleaseSegment_read : frame.

Lemma Has_read key : preserves table_read (Has key).
Proof. unfold Has. frame. Qed.

Lemma Get_read key : preserves table_read (Get key).
Proof. unfold Get. frame. Qed.

Lemma Close_step : preserves table_step Close.
Proof.
  unfold Close. apply preserves_bind; [apply _| |intros _].
  - apply preserves_modify. intros t.
    generalize (map_to_list (ldbSegments t)). intros l.
    assert (H : ∀ t0, table_step t t0 →
              table_step t (foldl (λ t kv, log_event (EvLdbClose (ldb_Name kv.2)) t) t0 l)).
    { induction l as [|kv l IH]; intros t0 Ht0; [done|]. simpl. apply IH.
      etrans; [exact Ht0|]. split; [done|]. split; [apply str_le_refl|done]. }
    apply H. reflexivity.
  - apply on_set_shrinks, ss_Close_shrinks.
Qed.

(** [Remove] takes the name out of the universe, whatever the semaphore
    and the cache do. *)
Lemma Remove_universe ctx name ss a ss' :
  Remove ctx name ss = Done (a, ss') →
  ss_segments ss' = delete name (ss_segments ss).
Proof.
  unfold Remove. rewrite bind_modify. intros Hrun.
  assert (Hp : preserves same_universe
            (r <- sem_Acquire ctx;;
             match r with
             | Some _ => ret ()
             | None => cache_Remove name;;; sem_Release
             end)) by frame.
  apply Hp in Hrun. destruct Hrun as [Hu _]. by rewrite Hu.
Qed.

(** One compaction: the new segment enters the universe and the mutable
    one leaves the table. *)
Lemma compact_one_step (t : Table) ctx (ldbSegment : LDBSegment) newSegment a t' :
  CompactSegment t ctx (Name t) ldbSegment = Ok newSegment →
  (on_set (Add newSegment);;;
   modify (set_ldbSegments (delete (ldb_Name ldbSegment)));;;
   modify (log_event (EvCompact (ldb_Name ldbSegment)))) t = Done (a, t') →
  table_step t t'.
Proof.
  intros Hc. unfold bind, on_set, Add, modify. simpl. intros [= _ <-].
  split; [done|]. split; [apply str_le_refl|].
  intros _ Hk Hd. rewrite (Hk _ _ _ _ Hc).
  unfold tiers_disjoint, universe in *. simpl.
  rewrite dom_insert_L, dom_delete_L. set_solver.
Qed.

Lemma compact_loop_step env ctx l : preserves table_step (compact_loop env ctx l).
Proof.
  induction l as [|ldbSegment l IH]; simpl; [apply preserves_ret; apply _|].
  intros t a t'. rewrite bind_get.
  destruct (os_Stat_since env (ldb_Path ldbSegment)) as [since|err];
    [|by intros [= _ <-]].
  destruct (since <? MinCompactionAge t); [apply IH|].
  destruct (CompactSegment t ctx (Name t) ldbSegment) as [newSegment|err] eqn:Hc;
    [|by intros [= _ <-]].
  unfold bind at 1.
  destruct ((on_set (Add newSegment);;;
             modify (set_ldbSegments (delete (ldb_Name ldbSegment)));;;
             modify (log_event (EvCompact (ldb_Name ldbSegment)))) t)
    as [[u t1]| |] eqn:Hone; [|done..].
  intros Hrest. etrans; [by eapply compact_one_step | by eapply IH].
Qed.

Lemma compact_step env ctx : preserves table_step (compact env ctx).
Proof.
  unfold compact. intros t a t'. rewrite bind_get.
  destruct (_ <? MinMutableSegmentCount t); [by intros [= _ <-]|].
  destruct (MinMutableSegmentCount t <? 0); [done|].
  apply compact_loop_step.
Qed.

Lemma uncompact_step ctx name : preserves table_step (uncompact ctx name).
Proof.
  unfold uncompact. intros t a t'. unfold bind at 1.
  destruct (on_set (Acquire name) t) as [[r t1]| |] eqn:Hacq; [|done..].
  assert (H1 : table_step t t1).
  { eapply read_preserves_step; [apply on_set_read, Acquire_same | exact Hacq]. }
  destruct r.2 as [err|]; [by intros [= _ <-]|].
  rewrite bind_get.
  destruct (UncompactSegment t1 ctx (Name t1) r.1) as [ldbSegment|err].
  - rewrite bind_modify.
    unfold bind at 1.
    destruct (on_set (Remove ctx name) _) as [[u t2]| |] eqn:Hrem; [|done..].
    apply on_set_run in Hrem as (ss' & Hrem & ->).
    apply Remove_universe in Hrem.
    intros Hrest. etrans; [exact H1|]. etrans; [|eapply (preserves_bind table_step); [| |exact Hrest]].
    + split; [done|]. split; [apply str_le_refl|].
      intros _ _ Hd. unfold tiers_disjoint, universe in *. simpl in *.
      rewrite Hrem, dom_insert_L, dom_delete_L. set_solver.
    + apply log_event_step.
    + intros ?. cbv beta.
      apply preserves_bind; [apply _| |intros ?; apply preserves_ret; apply _].
      apply on_set_shrinks, same_universe_shrinks, Release_same.
  - intros Hrest. etrans; [exact H1|].
    eapply (preserves_bind table_step); [| |exact Hrest].
    + apply on_set_shrinks, same_universe_shrinks, Release_same.
    + intros ?. apply preserves_ret; apply _.
Qed.

Lemma CreateSegmentIfNotExists_step env ctx name :
  preserves table_step (CreateSegmentIfNotExists env ctx name).
Proof.
  unfold CreateSegmentIfNotExists. intros t a t'. rewrite bind_get.
  destruct (ldbSegments t !! name) as [s|] eqn:Hldb; [by intros [= _ <-]|].
  unfold Contains. case_bool_decide as Hcont; [apply uncompact_step|].
  destruct (str_lt name (active t)) eqn:Hlt; [by intros [= _ <-]|].
  destruct (LDBSegment_Open env name (SegmentPath t name)) as [data|err];
    [|by intros [= _ <-]].
  rewrite !bind_modify. intros Hrest.
  etrans; [|eapply (preserves_bind table_step); [apply compact_step| |exact Hrest]].
  - split; [done|]. split; [by apply str_le_not_lt|].
    intros _ _ Hd. unfold tiers_disjoint, universe in *. simpl.
    rewrite dom_insert_L.
    assert (name ∉ dom (ss_segments (segments t))).
    { rewrite elem_of_dom. done. }
    set_solver.
  - intros [e|]; apply preserves_ret; apply _.
Qed.

(** *** Compaction against its specification *)

#[global] Instance name_le_total : Total name_le.
Proof. intros a b. apply str_le_total. Qed.

#[global] Instance name_le_trans : Transitive name_le.
Proof. intros a b c. apply str_le_trans. Qed.

Lemma ldbSegmentSlice_sorted t : StronglySorted name_le (ldbSegmentSlice t).
Proof. apply StronglySorted_merge_sort; apply _. Qed.

Lemma ldbSegmentSlice_perm t :
  ldbSegmentSlice t ≡ₚ (map_to_list (ldbSegments t)).*2.
Proof. apply merge_sort_Permutation. Qed.

Lemma compaction_verdict_config env ctx t t' s :
  config t' = config t →
  compaction_verdict env ctx t' s = compaction_verdict env ctx t s.
Proof.
  unfold config, compaction_verdict. intros [= Hn _ _ _ Ha _ _ _ Hc _].
  by rewrite Hn, Ha, Hc.
Qed.

(** The loop of [compact] over [l], in one formula. *)
Lemma compact_loop_spec env ctx l t :
  let vs := (λ s, (s, compaction_verdict env ctx t s)) <$> l in
  ∃ t', compact_loop env ctx l t = Done (first_failure vs, t')
        ∧ config t' = config t
        ∧ active t' = active t
        ∧ ldbSegments t' = foldl drop_compacted (ldbSegments t) (before_failure vs)
        ∧ universe t' = foldl add_compacted (universe t) (before_failure vs).
Proof.
  revert t. induction l as [|s l IH]; intros t; simpl.
  { by exists t. }
  rewrite bind_get.
  assert (Hvs : ∀ t1, config t1 = config t →
            (λ s0, (s0, compaction_verdict env ctx t1 s0)) <$> l
            = (λ s0, (s0, compaction_verdict env ctx t s0)) <$> l).
  { intros t1 Hc. apply list_fmap_ext. intros _ s0 _.
    by rewrite (compaction_verdict_config env ctx t t1). }
  destruct (compaction_verdict env ctx t s) as [|newSeg|err0] eqn:Hv;
    unfold compaction_verdict in Hv;
    destruct (os_Stat_since env (ldb_Path s)) as [since|err];
    try destruct (since <? MinCompactionAge t);
    try destruct (CompactSegment t ctx (Name t) s) as [newSeg'|err'];
    simplify_eq; try (by exists t); try (by apply IH).
  lazymatch goal with |- context [Add ?n] => rename n into newSegment end.
  set (t1 := log_event (EvCompact (ldb_Name s))
                 (set_ldbSegments (delete (ldb_Name s))
                    (set_set (set_segments (λ m, <[seg_Name newSegment := newSegment]> m)
                                (segments t)) t))).
    assert (Hone : (on_set (Add newSegment);;;
                    modify (set_ldbSegments (delete (ldb_Name s)));;;
                    modify (log_event (EvCompact (ldb_Name s)))) t = Done (tt, t1)) by done.
    rewrite (bind_Done _ _ _ _ _ Hone).
    destruct (IH t1) as (t' & Hrun & Hc & Ha & Hl & Hu).
    rewrite (Hvs t1 eq_refl) in Hrun, Hl, Hu.
    exists t'. split; [exact Hrun|]. split; [by rewrite Hc|]. split; [by rewrite Ha|].
    split; [exact Hl | exact Hu].
Qed.

Lemma compact_loop_frame env ctx l t r t' :
  compact_loop env ctx l t = Done (r, t') →
  config t' = config t ∧ active t' = active t.
Proof.
  destruct (compact_loop_spec env ctx l t) as (t'' & -> & Hc & Ha & _).
  by intros [= _ <-].
Qed.

Lemma compact_frame env ctx t r t' :
  compact env ctx t = Done (r, t') →
  config t' = config t ∧ active t' = active t.
Proof.
  unfold compact. rewrite bind_get.
  destruct (_ <? MinMutableSegmentCount t); [by intros [= _ <-]|].
  destruct (MinMutableSegmentCount t <? 0); [done|].
  apply compact_loop_frame.
Qed.

Lemma on_set_fields {A} (m : M SegmentSet A) t a t' :
  on_set m t = Done (a, t') →
  config t' = config t ∧ active t' = active t
  ∧ ldbSegments t' = ldbSegments t ∧ trace t' = trace t.
Proof. by intros (ss' & _ & ->)%on_set_run. Qed.

(** A completed uncompaction installs the mutable segment under the name
    and takes the name out of the universe. *)
Lemma uncompact_run ctx name t ldb t' :
  uncompact ctx name t = Done (Ok ldb, t') →
  ldbSegments t' = <[name := ldb]> (ldbSegments t)
  ∧ universe t' = delete name (universe t)
  ∧ active t' = active t
  ∧ config t' = config t.
Proof.
  unfold uncompact. unfold bind at 1.
  destruct (on_set (Acquire name) t) as [[r t1]| |] eqn:Hacq; [|done..].
  apply on_set_run in Hacq as (ss1 & Hacq & ->).
  destruct (Acquire_same _ _ _ _ Hacq) as [Hu1 _].
  destruct r.2 as [err|]; [by intros [= _ <-]|].
  rewrite bind_get.
  destruct (UncompactSegment _ ctx _ r.1) as [ldbSegment|err].
  - rewrite bind_modify. unfold bind at 1.
    destruct (on_set (Remove ctx name) _) as [[u t2]| |] eqn:Hrem; [|done..].
    apply on_set_run in Hrem as (ss2 & Hrem & ->).
    apply Remove_universe in Hrem.
    rewrite bind_modify. unfold bind at 1.
    destruct (on_set Release _) as [[u' t3]| |] eqn:Hrel; [|done..].
    apply on_set_run in Hrel as (ss3 & Hrel & ->).
    destruct (Release_same _ _ _ Hrel) as [Hu3 _].
    intros [= <- <-]. unfold universe. simpl in *.
    rewrite Hu3, Hrem, Hu1. done.
  - unfold bind. destruct (on_set Release _) as [[u' t3]| |]; done.
Qed.

Lemma Close_run (t : Table) a t' :
  Close t = Done (a, t') →
  config t' = config t ∧ active t' = active t
  ∧ ldbSegments t' = ldbSegments t ∧ universe t' = ∅.
Proof.
  unfold Close. rewrite bind_modify.
  set (t0 := foldl _ t _).
  assert (H0 : config t0 = config t ∧ active t0 = active t
               ∧ ldbSegments t0 = ldbSegments t).
  { subst t0. generalize (map_to_list (ldbSegments t)). intros l.
    assert (H : ∀ t1, config t1 = config t ∧ active t1 = active t
                      ∧ ldbSegments t1 = ldbSegments t →
              let t2 := foldl (λ t kv, log_event (EvLdbClose (ldb_Name kv.2)) t) t1 l in
              config t2 = config t ∧ active t2 = active t
              ∧ ldbSegments t2 = ldbSegments t).
    { induction l as [|kv l IH]; intros t1 Ht1; [done|]. simpl. apply IH.
      destruct Ht1 as (?&?&?). done. }
    by apply H. }
  destruct H0 as (Hc & Ha & Hl).
  intros (ss' & Hrun & ->)%on_set_run.
  split; [done|]. split; [done|]. split; [done|].
  unfold universe. simpl.
  unfold ss_Close in Hrun. rewrite bind_modify in Hrun.
  destruct (cache_Purge_same _ _ _ Hrun) as [Hu _]. by rewrite Hu.
Qed.

Lemma filed_by_type_disjoint env t : filed_by_type env t → tiers_disjoint t.
Proof.
  intros [Hl Hu]. unfold tiers_disjoint. intros n Hn1 Hn2.
  by apply (Hu n Hn2), Hl.
Qed.

Lemma opener_keeps_names_config t t' :
  config t' = config t → opener_keeps_names t → opener_keeps_names t'.
Proof.
  unfold opener_keeps_names, config. intros Hc.
  injection Hc as _ _ _ _ _ _ _ -> _ _. done.
Qed.

Lemma Path_config t t' : config t' = config t → Path t' = Path t.
Proof. unfold config. by intros [= _ -> _ _ _ _ _ _ _ _]. Qed.

Instance open_round_preorder env : PreOrder (open_round env).
Proof.
  split.
  - intros t. split; [done|]. split; [apply str_le_refl|done].
  - intros a b c (Hc1 & Ha1 & Hi1) (Hc2 & Ha2 & Hi2).
    split; [congruence|]. split; [by eapply str_le_trans|].
    intros Ho Hi. apply Hi2; [by eapply opener_keeps_names_config|by apply Hi1].
Qed.

Lemma open_loop_run env names : preserves (open_round env) (open_loop env names).
Proof.
  induction names as [|name names IH]; intros t a t'; simpl.
  { intros [= _ <-]. reflexivity. }
  rewrite bind_get.
  case_bool_decide as Hinvalid; [by apply IH|].
  case_bool_decide as Herr; [intros [= _ <-]; reflexivity|].
  assert (Hnext : ∀ t1, open_round env t t1 →
            (modify (λ t, if str_lt (active t) name then set_active name t else t);;;
             open_loop env names) t1 = Done (a, t') →
            open_round env t t').
  { intros t1 H1. rewrite bind_modify. intros Hrun%IH.
    etrans; [exact H1|]. etrans; [|exact Hrun].
    destruct (str_lt (active t1) name) eqn:Hlt.
    - split; [done|]. split; [by apply str_lt_le|done].
    - reflexivity. }
  destruct ((SegmentFileType env (filepath_Join (Path t) name)).1) eqn:Htyp.
  - destruct (LDBSegment_Open env name (filepath_Join (Path t) name)) as [data|e].
    + rewrite !bind_modify. apply Hnext.
      split; [done|]. split; [apply str_le_refl|].
      intros _ [Hl Hu]. split; simpl; [|exact Hu].
      intros n. rewrite dom_insert_L, elem_of_union, elem_of_singleton.
      intros [->|Hn]; [done|by apply Hl].
    + unfold bind at 1. destruct (Close t) as [[u t1]| |] eqn:Hclose; [|done..].
      apply Close_run in Hclose as (Hc & Ha & Hl1 & Hu1).
      intros [= _ <-]. split; [done|]. split; [rewrite Ha; apply str_le_refl|].
      intros _ [Hl Hu]. split.
      * rewrite Hl1, (Path_config _ _ Hc). exact Hl.
      * rewrite Hu1. intros n. rewrite dom_empty_L. by intros ?%not_elem_of_empty.
  - destruct (OpenSegment t (Name t) name (filepath_Join (Path t) name)) as [segment|e] eqn:Hopen.
    + unfold bind at 1, on_set, Add, modify. simpl. apply Hnext.
      split; [done|]. split; [apply str_le_refl|].
      intros Hop [Hl Hu].
      split; [exact Hl|]. unfold universe. simpl.
      intros n. rewrite dom_insert_L, elem_of_union, elem_of_singleton.
      intros [->|Hn]; [|by apply Hu].
      rewrite (Hop _ _ _ _ Hopen), Htyp. done.
    + case_bool_decide; [by apply IH|]. intros [= _ <-]. reflexivity.
  - destruct (OpenSegment t (Name t) name (filepath_Join (Path t) name)) as [segment|e] eqn:Hopen.
    + unfold bind at 1, on_set, Add, modify. simpl. apply Hnext.
      split; [done|]. split; [apply str_le_refl|].
      intros Hop [Hl Hu].
      split; [exact Hl|]. unfold universe. simpl.
      intros n. rewrite dom_insert_L, elem_of_union, elem_of_singleton.
      intros [->|Hn]; [|by apply Hu].
      rewrite (Hop _ _ _ _ Hopen), Htyp. done.
    + case_bool_decide; [by apply IH|]. intros [= _ <-]. reflexivity.
Qed.

(** [Open] files every listed name in one tier only, whatever the table
    held before. *)
Lemma Open_run env t a t' :
  Open env t = Done (a, t') →
  config t' = config t ∧ str_le (active t) (active t') = true
  ∧ (opener_keeps_names t → tiers_disjoint t').
Proof.
  unfold Open. rewrite bind_modify, bind_get, bind_modify.
  set (t0 := set_set _ _).
  assert (Hi : filed_by_type env t0).
  { split; intros n; simpl; unfold universe; simpl;
      rewrite dom_empty_L; by intros ?%not_elem_of_empty. }
  change (Path (set_ldbSegments (λ _, ∅) t)) with (Path t0).
  change (ListSegmentNames (set_ldbSegments (λ _, ∅) t)) with (ListSegmentNames t0).
  change (Name (set_ldbSegments (λ _, ∅) t)) with (Name t0).
  assert (Hbase : config t0 = config t ∧ str_le (active t) (active t0) = true
                  ∧ (opener_keeps_names t → tiers_disjoint t0)).
  { split; [done|]. split; [apply str_le_refl|].
    intros _. by eapply filed_by_type_disjoint. }
  destruct (os_MkdirAll env (Path t0)); [by intros [= _ <-]|].
  destruct (ListSegmentNames t0 (Path t0) (Name t0)) as [names|e];
    [|by intros [= _ <-]].
  intros (Hc & Ha & Hd)%open_loop_run.
  split; [by rewrite Hc|]. split; [done|].
  intros Hop. eapply filed_by_type_disjoint, Hd; done.
Qed.

Lemma Open_step env : preserves table_step (Open env).
Proof.
  intros t a t' (Hc & Ha & Hd)%Open_run.
  split; [done|]. split; [done|]. intros Hop _ _. by apply Hd.
Qed.

Lemma Put_step env key value : preserves table_step (Put env key value).
Proof.
  unfold Put.
  apply preserves_bind; [apply _|apply read_preserves_step, Get_read|intros r].
  case_bool_decide; [apply preserves_ret; apply _|].
  destruct (bytes_Equal r.1 value); [apply preserves_ret; apply _|].
  apply preserves_bind; [apply _|apply preserves_get; apply _|intros t].
  apply preserves_bind; [apply _|apply CreateSegmentIfNotExists_step|intros [s|e]].
  - destruct (LDBSegment_write env _); [apply preserves_ret; apply _|].
    apply preserves_bind; [apply _|apply on_ldb_step|intros ?].
    apply preserves_ret; apply _.
  - apply preserves_ret; apply _.
Qed.

Lemma Delete_step env key : preserves table_step (Delete env key).
Proof.
  unfold Delete.
  apply preserves_bind; [apply _|apply preserves_get; apply _|intros t].
  apply preserves_bind; [apply _|apply read_preserves_step, AcquireSegment_read|intros r].
  destruct r.2; [apply preserves_ret; apply _|].
  destruct r.1 as [[s|s]|]; [| |apply preserves_ret; apply _].
  - destruct (LDBSegment_write env _); [apply preserves_ret; apply _|].
    apply preserves_bind; [apply _|apply on_ldb_step|intros ?].
    apply preserves_ret; apply _.
  - destruct (seg_Delete s).
    + apply preserves_bind; [apply _|apply log_event_step|intros ?].
      apply preserves_bind; [apply _| |intros ?; apply preserves_ret; apply _].
      apply on_set_shrinks, same_universe_shrinks, Release_same.
    + apply preserves_bind; [apply _| |intros ?; apply preserves_ret; apply _].
      apply on_set_shrinks, same_universe_shrinks, Release_same.
Qed.

Lemma on_table_step {A} (m : M Table A) :
  preserves table_step m → preserves system_step (on_table m).
Proof.
  intros Hm st a st'. unfold on_table.
  destruct (m st.1) as [[a' t']| |] eqn:Hrun; [|done..].
  intros [= _ <-]. unfold system_step. simpl. by eapply Hm.
Qed.

Lemma on_batch_step f : preserves system_step (on_batch f).
Proof.
  apply preserves_modify. intros st. unfold system_step. simpl. reflexivity.
Qed.

Lemma write_loop_step env l : preserves table_step (write_loop env l).
Proof.
  induction l as [|[name ops] l IH]; simpl; [apply preserves_ret; apply _|].
  destruct (LDBSegment_write env name); [apply preserves_ret; apply _|].
  apply preserves_bind; [apply _| |intros ?; apply IH].
  apply set_ldbSegments_step. intros m.
  destruct (m !! name) eqn:Hm; [|done].
  rewrite dom_insert_L. apply elem_of_dom_2 in Hm. set_solver.
Qed.

Lemma batch_Put_step env key value : preserves system_step (batch_Put env key value).
Proof.
  unfold batch_Put.
  apply preserves_bind;
    [apply _|apply on_table_step, read_preserves_step, Get_read|intros r].
  case_bool_decide; [apply preserves_ret; apply _|].
  destruct (bytes_Equal r.1 value); [apply preserves_ret; apply _|].
  apply preserves_bind; [apply _|apply preserves_get; apply _|intros st].
  apply preserves_bind;
    [apply _|apply on_table_step, CreateSegmentIfNotExists_step|intros [s|e]].
  - apply preserves_bind; [apply _|apply on_batch_step|intros ?].
    apply preserves_bind; [apply _|apply on_batch_step|intros ?].
    apply preserves_ret; apply _.
  - apply preserves_ret; apply _.
Qed.

Lemma batch_Delete_step env key : preserves system_step (batch_Delete env key).
Proof.
  unfold batch_Delete.
  apply preserves_bind;
    [apply _|apply on_table_step, read_preserves_step, Get_read|intros r].
  case_bool_decide; [apply preserves_ret; apply _|].
  case_bool_decide; [apply preserves_ret; apply _|].
  apply preserves_bind; [apply _|apply preserves_get; apply _|intros st].
  apply preserves_bind;
    [apply _|apply on_table_step, CreateSegmentIfNotExists_step|intros [s|e]].
  - apply preserves_bind; [apply _|apply on_batch_step|intros ?].
    apply preserves_ret; apply _.
  - apply preserves_ret; apply _.
Qed.

Lemma batch_Write_step env : preserves system_step (batch_Write env).
Proof.
  unfold batch_Write.
  apply preserves_bind; [apply _|apply preserves_get; apply _|intros st].
  apply on_table_step, write_loop_step.
Qed.

Lemma discard_preserves {S A} (R : S → S → Prop) `{!PreOrder R} (m : M S A) :
  preserves R m → preserves R (discard m).
Proof.
  intros Hm. unfold discard.
  apply preserves_bind; [apply _|exact Hm|intros ?; apply preserves_ret; apply _].
Qed.

(** Every operation, in any file system, is a [system_step]. *)
Lemma step_system_step env o : preserves system_step (step env o).
Proof.
  destruct o; simpl;
    try (apply discard_preserves; [apply _|]);
    try (apply on_table_step);
    try apply on_batch_step.
  - apply Open_step.
  - apply Close_step.
  - apply read_preserves_step, Has_read.
  - apply read_preserves_step, Get_read.
  - apply Put_step.
  - apply Delete_step.
  - apply compact_step.
  - apply CreateSegmentIfNotExists_step.
  - apply batch_Put_step.
  - apply batch_Delete_step.
  - apply batch_Write_step.
Qed.

Lemma run_system_step l : preserves system_step (run l).
Proof.
  induction l as [|[env o] l IH]; simpl; [apply preserves_ret; apply _|].
  apply preserves_bind; [apply _|apply step_system_step|intros ?; apply IH].
Qed.

End TableFrames.

#[global] Hint Resolve AcquireSegment_read ReleaseSegment_read Has_read Get_read : frame.

(** ** Creation of segments and compaction *)

(** C5: compaction works on the mutable segments sorted by name ascending;
    for every segment except the newest [MinMutableSegmentCount] ones, in
    that order, a segment whose file is younger than [MinCompactionAge] is
    skipped, any other is compacted into an immutable segment that is added
    to the universe while its entry is deleted from [ldbSegments]; the
    first error stops the loop and is the result. ([MinMutableSegmentCount]
    is a count: with a negative one the slice expression panics.) *)
Theorem compact_meets_spec (env : Env) (ctx : Context) (t : Table) :
  0 ≤ MinMutableSegmentCount t →
  StronglySorted name_le (ldbSegmentSlice t)
  ∧ ldbSegmentSlice t ≡ₚ (map_to_list (ldbSegments t)).*2
  ∧ ∃ t', compact env ctx t = Done (cr_error (compact_spec env ctx t), t')
          ∧ ldbSegments t' = cr_ldbSegments (compact_spec env ctx t)
          ∧ universe t' = cr_universe (compact_spec env ctx t)
          ∧ active t' = active t.
Proof.
  intros Hmin.
  split; [apply ldbSegmentSlice_sorted|]. split; [apply ldbSegmentSlice_perm|].
  unfold compact, compact_spec, compaction_candidates. rewrite bind_get. simpl.
  destruct (Z.ltb_spec (Z.of_nat (length (ldbSegmentSlice t))) (MinMutableSegmentCount t))
    as [Hlt|Hge].
  - replace (length (ldbSegmentSlice t) - Z.to_nat (MinMutableSegmentCount t))%nat
      with 0%nat by lia.
    simpl. by exists t.
  - destruct (Z.ltb_spec (MinMutableSegmentCount t) 0) as [?|_]; [lia|].
    replace (Z.to_nat (Z.of_nat (length (ldbSegmentSlice t)) - MinMutableSegmentCount t))
      with (length (ldbSegmentSlice t) - Z.to_nat (MinMutableSegmentCount t))%nat by lia.
    destruct (compact_loop_spec env ctx
                (take (length (ldbSegmentSlice t) - Z.to_nat (MinMutableSegmentCount t))
                   (ldbSegmentSlice t)) t) as (t' & Hrun & _ & Ha & Hl & Hu).
    by exists t'.
Qed.

Lemma compact_meets_spec_witness :
  let t := (final_of four_puts (sample_table 1 2000 4, NewBatch)).1 in
  ldb_Name <$> ldbSegmentSlice t = ["1"; "2"; "3"; "4"]%string
  ∧ ldb_Name <$> compaction_candidates t = ["1"; "2"; "3"]%string
  ∧ ∃ t', compact aging_env Background t = Done (Some (ErrOther "stat"), t')
      ∧ ldbSegments t' !! "1"%string = None
      ∧ is_Some (ldbSegments t' !! "2"%string)
      ∧ is_Some (ldbSegments t' !! "3"%string)
      ∧ is_Some (ldbSegments t' !! "4"%string)
      ∧ is_Some (universe t' !! "1"%string)
      ∧ universe t' !! "2"%string = None
      ∧ universe t' !! "3"%string = None
      ∧ active t' = "4"%string.
Proof.
  intros t.
  split; [vm_compute; reflexivity|].
  split; [vm_compute; reflexivity|].
  destruct (compact_meets_spec aging_env Background t ltac:(vm_compute; discriminate))
    as (_ & _ & t' & Hrun & Hl & Hu & Ha).
  exists t'.
  assert (He : cr_error (compact_spec aging_env Background t) = Some (ErrOther "stat"))
    by (vm_compute; reflexivity).
  rewrite He in Hrun. split; [exact Hrun|].
  rewrite Hl, Hu, Ha.
  repeat split; vm_compute; eauto.
Defined.

(** ** The two tiers and the active name over a table's lifetime *)

(** C6, as the code has it: over every sequence of operations (Open,
    Close, Has, Get, Put, Delete, Compact, CreateSegmentIfNotExists and the
    batch operations), each in the file system it finds, a table whose
    opener and compactor return segments under the name asked for, and
    whose tiers are disjoint, has disjoint tiers after every operation that
    completes: no name is both in [ldbSegments] and in the universe of the
    segment set. *)
Theorem tiers_stay_disjoint (l : list (Env * op)) (st st' : Table * tableBatch) :
  opener_keeps_names st.1 →
  compactor_keeps_names st.1 →
  tiers_disjoint st.1 →
  run l st = Done (tt, st') →
  tiers_disjoint st'.1.
Proof.
  intros Hop Hk Hd Hrun.
  destruct (run_system_step l _ _ _ Hrun) as (_ & _ & H). by apply H.
Qed.

Lemma tiers_stay_disjoint_witness :
  tiers_disjoint (final_of sample_ops (sample_table 1 0 4, NewBatch)).1.
Proof.
  apply (tiers_stay_disjoint sample_ops (sample_table 1 0 4, NewBatch)).
  - intros table name path s [= <-]. reflexivity.
  - intros ctx table ldb s [= <-]. reflexivity.
  - unfold tiers_disjoint. simpl. rewrite dom_empty_L. apply disjoint_empty_l.
  - vm_compute. reflexivity.
Defined.

(** C6 as stated fails: the names of the universe are the ones the opener
    and the compactor give to the segments they return. With a compactor
    that returns segments under another name, two writes leave the name 2
    in both tiers; with an opener that does, [Open] leaves the name 1 in
    both tiers; and a table that starts with a name in both tiers has it
    there after no operation at all. *)
Lemma misnamed_segment_in_both_tiers :
  ¬ (∀ (l : list (Env * op)) (st st' : Table * tableBatch),
       opener_keeps_names st.1 →
       tiers_disjoint st.1 →
       run l st = Done (tt, st') →
       tiers_disjoint st'.1)
  ∧ ¬ (∀ (l : list (Env * op)) (st st' : Table * tableBatch),
       compactor_keeps_names st.1 →
       tiers_disjoint st.1 →
       run l st = Done (tt, st') →
       tiers_disjoint st'.1)
  ∧ ¬ (∀ (l : list (Env * op)) (st st' : Table * tableBatch),
       opener_keeps_names st.1 →
       compactor_keeps_names st.1 →
       run l st = Done (tt, st') →
       tiers_disjoint st'.1).
Proof.
  split; [|split].
  - intros H.
    pose (l := [(quiet_env, OpPut "1a" (Some "a"%string));
                (quiet_env, OpPut "2b" (Some "b"%string))]).
    pose (st := (misnaming_compactor, NewBatch)).
    assert (Hd : tiers_disjoint (final_of l st).1).
    { apply (H l st).
      - intros table name path s [= <-]. reflexivity.
      - unfold tiers_disjoint. simpl. rewrite dom_empty_L. apply disjoint_empty_l.
      - vm_compute. reflexivity. }
    apply (Hd "2"%string); apply elem_of_dom.
    + assert (Hl : ldb_Name <$> ldbSegments (final_of l st).1 !! "2"%string = Some "2"%string)
        by (vm_compute; reflexivity).
      destruct (ldbSegments (final_of l st).1 !! "2"%string); [eauto|discriminate].
    + assert (Hu : seg_Name <$> universe (final_of l st).1 !! "2"%string = Some "2"%string)
        by (vm_compute; reflexivity).
      destruct (universe (final_of l st).1 !! "2"%string); [eauto|discriminate].
  - intros H.
    pose (l := [(two_files_env, OpOpen)]).
    pose (st := (misnaming_opener, NewBatch)).
    assert (Hd : tiers_disjoint (final_of l st).1).
    { apply (H l st).
      - intros ctx table ldb s [= <-]. reflexivity.
      - unfold tiers_disjoint. simpl. rewrite dom_empty_L. apply disjoint_empty_l.
      - vm_compute. reflexivity. }
    apply (Hd "1"%string); apply elem_of_dom.
    + assert (Hl : ldb_Name <$> ldbSegments (final_of l st).1 !! "1"%string = Some "1"%string)
        by (vm_compute; reflexivity).
      destruct (ldbSegments (final_of l st).1 !! "1"%string); [eauto|discriminate].
    + assert (Hu : seg_Name <$> universe (final_of l st).1 !! "1"%string = Some "1"%string)
        by (vm_compute; reflexivity).
      destruct (universe (final_of l st).1 !! "1"%string); [eauto|discriminate].
  - intros H.
    assert (Hd : tiers_disjoint overlapping_table).
    { apply (H [] (overlapping_table, NewBatch) (overlapping_table, NewBatch)).
      - intros table name path s [= <-]. reflexivity.
      - intros ctx table ldb s [= <-]. reflexivity.
      - reflexivity. }
    apply (Hd "1"%string); apply elem_of_dom.
    + assert (Hl : ldb_Name <$> ldbSegments overlapping_table !! "1"%string
                   = Some "1"%string)
        by (vm_compute; reflexivity).
      destruct (ldbSegments overlapping_table !! "1"%string); [eauto|discriminate].
    + assert (Hu : seg_Name <$> universe overlapping_table !! "1"%string
                   = Some "1"%string)
        by (vm_compute; reflexivity).
      destruct (universe overlapping_table !! "1"%string); [eauto|discriminate].
Qed.

(** C7: over every sequence of operations that completes, the active
    segment name never decreases in the lexicographic order. *)
Theorem active_never_decreases (l : list (Env * op)) (st st' : Table * tableBatch) :
  run l st = Done (tt, st') →
  str_le (active st.1) (active st'.1) = true.
Proof.
  intros Hrun. by destruct (run_system_step l _ _ _ Hrun) as (_ & H & _).
Qed.

Lemma active_never_decreases_witness :
  str_le (active (sample_table 1 0 4))
         (active (final_of sample_ops (sample_table 1 0 4, NewBatch)).1) = true.
Proof.
  apply (active_never_decreases sample_ops (sample_table 1 0 4, NewBatch)).
  vm_compute. reflexivity.
Defined.

(** ** Reads of a missing segment *)

Lemma set_set_id (t : Table) : set_set (segments t) t = t.
Proof. by destruct t. Qed.

Lemma on_set_Done {A} (m : M SegmentSet A) (t : Table) a ss :
  m (segments t) = Done (a, ss) → on_set m t = Done (a, set_set ss t).
Proof. unfold on_set. by intros ->. Qed.





(** ** Writes that write nothing *)

Lemma table_read_fields t t' :
  table_read t t' →
  trace t' = trace t ∧ ldbSegments t' = ldbSegments t
  ∧ universe t' = universe t ∧ active t' = active t ∧ config t' = config t.
Proof. intros (ss' & -> & Hu & _). unfold universe. simpl. by rewrite Hu. Qed.

(** A read can be repeated: acquiring a name again, once the permit of the
    first acquisition is back, gives the same segment or the same error. *)
Lemma Acquire_again name ss r ss1 :
  Acquire name ss = Done (r, ss1) →
  (r.1 = None ∧ ∃ ss3, Acquire name ss1 = Done (r, ss3))
  ∨ (∃ s, r = (Some s, None)
          ∧ ∀ ss2, Release ss1 = Done (tt, ss2) →
                   ∃ ss3 ss4, Acquire name ss2 = Done (r, ss3)
                              ∧ Release ss3 = Done (tt, ss4)).
Proof.
  intros Hrun.
  destruct (Acquire_outcomes ss name) as [Hfull Hfree].
  destruct (decide (ss_cur ss < ss_size ss)%nat) as [Hlt|Hge];
    [|rewrite Hfull in Hrun by lia; done].
  destruct (Acquire_same _ _ _ _ Hrun) as [Hu Hsz].
  specialize (Hfree Hlt).
  assert (Hhit : ∀ s, r = (Some s, None) → ss_cur ss1 = S (ss_cur ss) →
            cache_find name (ss_cache ss1) = Some s →
            ∀ ss2, Release ss1 = Done (tt, ss2) →
                   ∃ ss3 ss4, Acquire name ss2 = Done (r, ss3)
                              ∧ Release ss3 = Done (tt, ss4)).
  { intros s -> Hcur Hc ss2. unfold Release, sem_Release. rewrite Hcur.
    intros [= <-].
    destruct (Acquire_outcomes (set_cur (λ _, ss_cur ss) ss1) name) as [_ Hagain].
    simpl in Hagain. rewrite Hc in Hagain.
    destruct Hagain as (ss3 & Hrun3 & Hcur3 & _); [lia|].
    exists ss3. rewrite Hrun3. unfold sem_Release. rewrite Hcur3. eauto. }
  destruct (cache_find name (ss_cache ss)) as [s|] eqn:Hc.
  - destruct Hfree as (ss' & Hrun' & Hcur & Hc' & _).
    rewrite Hrun in Hrun'. injection Hrun' as -> ->.
    right. exists s. split; [done|]. by apply (Hhit s).
  - destruct (ss_segments ss !! name) as [s|] eqn:Hs.
    + destruct (seg_Open s) as [[err|]|] eqn:Hopen.
      * destruct Hfree as (ss' & Hrun' & Hcur & Hc' & _).
        rewrite Hrun in Hrun'. injection Hrun' as -> ->.
        left. split; [done|].
        destruct (Acquire_outcomes ss' name) as [_ Hagain].
        rewrite Hc', Hc, Hu, Hs, Hopen in Hagain.
        destruct Hagain as (ss3 & Hrun3 & _); [lia|]. eauto.
      * destruct Hfree as (ss' & Hrun' & Hcur & Hc' & _).
        rewrite Hrun in Hrun'. injection Hrun' as -> ->.
        right. exists s. split; [done|]. by apply (Hhit s).
      * destruct Hfree as (ss' & Hrun' & Hcur & Hc' & _).
        rewrite Hrun in Hrun'. injection Hrun' as -> ->.
        right. exists s. split; [done|]. by apply (Hhit s).
    + rewrite Hrun in Hfree. injection Hfree as -> ->.
      left. split; [done|]. eauto.
Qed.

Lemma Partitioner_config t t' : config t' = config t → Partitioner t' = Partitioner t.
Proof. unfold config. by intros [= _ _ -> _ _ _ _ _ _ _]. Qed.

Lemma AcquireSegment_cases name t :
  AcquireSegment name t =
  match ldbSegments t !! name with
  | Some s => Done ((Some (IsLDB s), None), t)
  | None =>
    match Acquire name (segments t) with
    | Done (r, ss) => Done ((IsSeg <$> r.1, r.2), set_set ss t)
    | Blocked => Blocked
    | Panicked => Panicked
    end
  end.
Proof.
  unfold AcquireSegment. rewrite bind_get.
  destruct (ldbSegments t !! name); [done|].
  unfold bind, on_set. by destruct (Acquire name (segments t)) as [[r ss]| |].
Qed.

Lemma Get_again key t r t1 :
  Get key t = Done (r, t1) → ∃ t2, Get key t1 = Done (r, t2).
Proof.
  unfold Get. rewrite !bind_get. unfold bind at 1 3.
  rewrite (AcquireSegment_cases _ t).
  destruct (ldbSegments t !! Partitioner t key) as [s|] eqn:Hldb.
  { simpl. rewrite bind_ret. intros [= <- <-].
    rewrite AcquireSegment_cases, Hldb. simpl. rewrite bind_ret. eauto. }
  destruct (Acquire (Partitioner t key) (segments t)) as [[ra ss1]| |] eqn:Hacq;
    [|done..].
  destruct (Acquire_again _ _ _ _ Hacq) as [(Hnone & ss3 & Hagain)|(s & -> & Hagain)].
  - simpl. rewrite Hnone. simpl.
    assert (Hsecond : AcquireSegment (Partitioner t key) (set_set ss1 t)
                      = Done ((None, ra.2), set_set ss3 t)).
    { rewrite AcquireSegment_cases. simpl. rewrite Hldb, Hagain, Hnone. done. }
    destruct ra.2 as [err|] eqn:Hra; intros [= <- <-];
      change (Partitioner (set_set ss1 t)) with (Partitioner t);
      rewrite Hsecond; simpl; eauto.
  - simpl. unfold bind at 1, on_set at 1. simpl.
    destruct (Release ss1) as [[[] ss2]| |] eqn:Hrel; [|done..].
    intros [= <- <-].
    destruct (Hagain ss2 eq_refl) as (ss3 & ss4 & Hacq2 & Hrel2).
    change (Partitioner (set_set ss2 (set_set ss1 t))) with (Partitioner t).
    rewrite AcquireSegment_cases. simpl. rewrite Hldb, Hacq2. simpl.
    unfold bind at 1, on_set at 1. simpl. rewrite Hrel2. eauto.
Qed.

Lemma foldl_drop_compacted_keeps name vs (m : gmap string LDBSegment) :
  (∀ sv, sv ∈ vs → ldb_Name sv.1 ≠ name) →
  foldl drop_compacted m vs !! name = m !! name.
Proof.
  revert m. induction vs as [|sv vs IH]; intros m Hne; [done|]. simpl.
  rewrite IH by (intros sv' ?; apply Hne; by right).
  unfold drop_compacted. destruct sv.2; [done| |done].
  apply lookup_delete_ne. apply Hne. by left.
Qed.

Lemma before_failure_subseteq vs sv : sv ∈ before_failure vs → sv ∈ vs.
Proof.
  induction vs as [|[s v] vs IH]; simpl; [done|].
  destruct v; try (intros [->|?]%elem_of_cons; [by left|right; by apply IH]).
  by intros ?%elem_of_nil.
Qed.

(** The loop of [compact] leaves alone every name that is not among the
    segments it walks. *)
Lemma compact_loop_keeps env ctx l name t r t' :
  (∀ s, s ∈ l → ldb_Name s ≠ name) →
  compact_loop env ctx l t = Done (r, t') →
  ldbSegments t' !! name = ldbSegments t !! name.
Proof.
  intros Hne.
  destruct (compact_loop_spec env ctx l t) as (t'' & -> & _ & _ & Hl & _).
  intros [= _ <-]. rewrite Hl. apply foldl_drop_compacted_keeps.
  intros sv Hsv%before_failure_subseteq.
  apply list_elem_of_fmap in Hsv as (s & -> & Hs). by apply Hne.
Qed.

(** With at least one segment kept mutable, the segment with the greatest
    name is not a candidate for compaction. *)
Lemma candidates_exclude_greatest (t : Table) (name : string) :
  0 < MinMutableSegmentCount t →
  (∀ k s, ldbSegments t !! k = Some s → ldb_Name s = k ∧ str_le k name = true) →
  ∀ s, s ∈ compaction_candidates t → ldb_Name s ≠ name.
Proof.
  intros Hmin Hnames s Hs Heq.
  unfold compaction_candidates in Hs.
  set (sorted := ldbSegmentSlice t) in *.
  set (k := (length sorted - Z.to_nat (MinMutableSegmentCount t))%nat) in *.
  assert (Hsorted : StronglySorted name_le (take k sorted ++ drop k sorted)).
  { rewrite take_drop. apply ldbSegmentSlice_sorted. }
  assert (Hperm : sorted ≡ₚ (map_to_list (ldbSegments t)).*2)
    by apply ldbSegmentSlice_perm.
  assert (Hkey : ∀ z, z ∈ sorted → ldbSegments t !! ldb_Name z = Some z).
  { intros z Hz. rewrite Hperm in Hz.
    apply list_elem_of_fmap in Hz as ([kz z'] & -> & Hz). simpl.
    apply elem_of_map_to_list in Hz. by destruct (Hnames _ _ Hz) as [-> _]. }
  assert (Hnodup : NoDup (ldb_Name <$> (take k sorted ++ drop k sorted))).
  { rewrite take_drop, Hperm.
    assert (Hfst : ldb_Name <$> (map_to_list (ldbSegments t)).*2
                   = (map_to_list (ldbSegments t)).*1).
    { rewrite <- list_fmap_compose. apply list_fmap_ext.
      intros _ [kz z] Hz%list_elem_of_lookup_2%elem_of_map_to_list. simpl.
      by destruct (Hnames _ _ Hz) as [-> _]. }
    rewrite Hfst. apply NoDup_fst_map_to_list. }
  destruct (drop k sorted) as [|z rest] eqn:Hdrop.
  { assert (Hlen : length (drop k sorted) = 0%nat) by by rewrite Hdrop.
    rewrite length_drop in Hlen.
    apply elem_of_take in Hs as (i & Hi%lookup_lt_Some & _).
    subst k. lia. }
  assert (Hsz : name_le s z).
  { eapply StronglySorted_app_1_elem_of; [exact Hsorted|done|by left]. }
  assert (Hz : z ∈ sorted).
  { rewrite <- (take_drop k sorted), Hdrop. apply elem_of_app. right. by left. }
  apply Hkey in Hz. destruct (Hnames _ _ Hz) as [_ Hzle].
  unfold name_le in Hsz. rewrite Heq in Hsz.
  assert (ldb_Name z = name) by by apply str_le_antisym.
  rewrite fmap_app in Hnodup. apply NoDup_app in Hnodup as (_ & Hdisj & _).
  apply (Hdisj name).
  - apply list_elem_of_fmap. exists s. by split.
  - apply list_elem_of_fmap. exists z. split; [done|by left].
Qed.

Lemma CreateSegmentIfNotExists_installed env ctx name t s t' :
  names_in_order t →
  0 < MinMutableSegmentCount t →
  CreateSegmentIfNotExists env ctx name t = Done (Ok s, t') →
  is_Some (ldbSegments t' !! name).
Proof.
  intros Hnames Hmin. unfold CreateSegmentIfNotExists. rewrite bind_get.
  destruct (ldbSegments t !! name) as [s0|] eqn:Hldb.
  { intros [= _ <-]. by rewrite Hldb. }
  destruct (Contains name (segments t)).
  { intros (Hl & _)%uncompact_run. rewrite Hl, lookup_insert_eq. eauto. }
  destruct (str_lt name (active t)) eqn:Hlt; [done|].
  destruct (LDBSegment_Open env name (SegmentPath t name)) as [data|err]; [|done].
  rewrite !bind_modify.
  set (t1 := set_active name _).
  unfold bind. destruct (compact env ctx t1) as [[r t2]| |] eqn:Hc; [|done..].
  destruct r as [e|]; [done|]. intros [= _ <-].
  assert (Hkeep : ldbSegments t2 !! name = ldbSegments t1 !! name).
  { revert Hc. unfold compact. rewrite bind_get.
    destruct (_ <? MinMutableSegmentCount t1) eqn:Hfew; [by intros [= <-]|].
    destruct (Z.ltb_spec (MinMutableSegmentCount t1) 0) as [?|Hpos]; [done|].
    replace (Z.to_nat (Z.of_nat (length (ldbSegmentSlice t1)) - MinMutableSegmentCount t1))
      with (length (ldbSegmentSlice t1) - Z.to_nat (MinMutableSegmentCount t1))%nat by lia.
    apply compact_loop_keeps.
    apply (candidates_exclude_greatest t1 name); [done|].
    intros k s0. subst t1. simpl.
    rewrite lookup_insert. case_decide as Hk.
    - intros [= <-]. subst k. split; [done|apply str_le_refl].
    - intros Hs0. destruct (Hnames _ _ Hs0) as [-> Hle]. split; [done|].
      eapply str_le_trans; [exact Hle|]. by apply str_le_not_lt. }
  rewrite Hkeep. subst t1. simpl. rewrite lookup_insert_eq. eauto.
Qed.

Lemma MinMutable_config t t' :
  config t' = config t → MinMutableSegmentCount t' = MinMutableSegmentCount t.
Proof. unfold config. by intros [= _ _ _ -> _ _ _ _ _ _]. Qed.

Lemma Get_ldb key t s :
  ldbSegments t !! Partitioner t key = Some s →
  Get key t = Done (ldb_Get s key, t).
Proof.
  intros Hldb. unfold Get. rewrite bind_get. unfold bind at 1.
  rewrite AcquireSegment_cases, Hldb. simpl. by rewrite bind_ret.
Qed.

Lemma Put_noop env key value t r t1 :
  Get key t = Done (r, t1) →
  ¬ (r.2 ≠ None ∧ r.2 ≠ Some ErrNotFound) →
  bytes_Equal r.1 value = true →
  Put env key value t = Done (None, t1).
Proof.
  intros Hget Herr Heq. unfold Put. rewrite (bind_Done _ _ _ _ _ Hget).
  rewrite bool_decide_eq_false_2 by done. by rewrite Heq.
Qed.

(** C8, as the code has it: on a table that keeps at least one segment
    mutable and whose mutable segments carry their own names, none above
    [active], after a [Put(k, v)] that returned nil a second [Put(k, v)]
    returns nil without writing, creating, opening or uncompacting
    anything. *)
Theorem Put_twice_writes_once (env env' : Env) (t : Table) (key : string)
    (value : slice) (t1 : Table) :
  names_in_order t →
  0 < MinMutableSegmentCount t →
  Put env key value t = Done (None, t1) →
  ∃ t2, Put env' key value t1 = Done (None, t2)
        ∧ trace t2 = trace t1
        ∧ ldbSegments t2 = ldbSegments t1
        ∧ universe t2 = universe t1
        ∧ active t2 = active t1.
Proof.
  intros Hnames Hmin. unfold Put at 1. unfold bind at 1.
  destruct (Get key t) as [[r t0]| |] eqn:Hget; [|done..].
  case_bool_decide as Herr; [intros [= Hr _]; by destruct Herr|].
  destruct (bytes_Equal r.1 value) eqn:Heq.
  - (* the first Put wrote nothing *)
    intros [= <-].
    destruct (Get_again _ _ _ _ Hget) as (t2 & Hget2).
    exists t2. split; [by eapply Put_noop|].
    apply Get_read, table_read_fields in Hget2 as (?&?&?&?&?). done.
  - (* the first Put wrote the value *)
    rewrite bind_get.
    pose proof (Get_read _ _ _ _ Hget) as Hread.
    apply table_read_fields in Hread as (_ & Hl0 & _ & Ha0 & Hc0).
    set (name := Partitioner t0 key).
    unfold bind at 1.
    destruct (CreateSegmentIfNotExists env Background name t0)
      as [[[s|e] t0']| |] eqn:Hcreate; [|done..].
    destruct (LDBSegment_write env name); [done|].
    cbv [on_ldb bind modify ret]. intros [= <-].
    destruct (CreateSegmentIfNotExists_installed _ _ _ _ _ _
                ltac:(by intros k s0; rewrite Hl0, Ha0; apply Hnames)
                ltac:(by rewrite (MinMutable_config _ _ Hc0))
                Hcreate) as [s' Hs'].
    pose proof (CreateSegmentIfNotExists_step _ _ _ _ _ _ Hcreate) as (Hc1 & _ & _).
    set (t1 := log_event _ _).
    assert (Hldb1 : ldbSegments t1 !! Partitioner t1 key = Some (ldb_Put s' key value)).
    { change (Partitioner t1) with (Partitioner t0').
      rewrite (Partitioner_config _ _ Hc1). fold name.
      subst t1. simpl. rewrite Hs'. apply lookup_insert_eq. }
    exists t1. split; [|done].
    eapply Put_noop; [by apply Get_ldb| |].
    + unfold ldb_Get, ldb_Put. simpl. rewrite lookup_insert_eq. simpl. naive_solver.
    + unfold ldb_Get, ldb_Put. simpl. rewrite lookup_insert_eq. simpl.
      unfold bytes_Equal. by rewrite bool_decide_eq_true_2.
Qed.

Lemma Put_twice_writes_once_witness :
  ∃ t1 t2,
    Put quiet_env "1a" (Some "a"%string) (sample_table 1 0 4) = Done (None, t1)
    ∧ Put quiet_env "1a" (Some "a"%string) t1 = Done (None, t2)
    ∧ trace t2 = trace t1
    ∧ ldbSegments t2 = ldbSegments t1.
Proof.
  eexists.
  assert (H1 : Put quiet_env "1a" (Some "a"%string) (sample_table 1 0 4)
               = Done (None, _)) by (vm_compute; reflexivity).
  destruct (Put_twice_writes_once quiet_env quiet_env (sample_table 1 0 4) "1a"
              (Some "a"%string) _
              ltac:(intros k s Hs; simpl in Hs; by rewrite lookup_empty in Hs)
              ltac:(simpl; lia) H1) as (t2 & H2 & Htr & Hl & _).
  exists t2. split; [exact H1|]. split; [exact H2|]. split; [exact Htr|exact Hl].
Defined.

(** C8 as stated fails: on a table that keeps no segment mutable the first
    [Put] creates the segment and compaction takes it away before the
    write, so the second [Put] uncompacts it and writes; on a table with a
    mutable segment above [active] the new segment is not the newest one
    and is compacted in the same way. *)
Lemma Put_twice_writes_twice :
  ¬ (∀ (env env' : Env) (t : Table) (key : string) (value : slice) (t1 : Table),
       names_in_order t →
       Put env key value t = Done (None, t1) →
       ∃ t2, Put env' key value t1 = Done (None, t2)
             ∧ trace t2 = trace t1
             ∧ ldbSegments t2 = ldbSegments t1
             ∧ universe t2 = universe t1
             ∧ active t2 = active t1)
  ∧ ¬ (∀ (env env' : Env) (t : Table) (key : string) (value : slice) (t1 : Table),
       0 < MinMutableSegmentCount t →
       Put env key value t = Done (None, t1) →
       ∃ t2, Put env' key value t1 = Done (None, t2)
             ∧ trace t2 = trace t1
             ∧ ldbSegments t2 = ldbSegments t1
             ∧ universe t2 = universe t1
             ∧ active t2 = active t1).
Proof.
  split.
  - intros H.
    pose (put := Put quiet_env "1a" (Some "a"%string)).
    pose (t1 := run_state put (sample_table 0 0 4)).
    destruct (H quiet_env quiet_env (sample_table 0 0 4) "1a"%string (Some "a"%string) t1)
      as (t2 & Hput & Htrace & _).
    + intros k s Hs. simpl in Hs. by rewrite lookup_empty in Hs.
    + apply (run_Done put). vm_compute. reflexivity.
    + assert (Ht2 : put t1 = Done (None, run_state put t1))
        by (apply (run_Done put); vm_compute; reflexivity).
      fold put in Hput. rewrite Ht2 in Hput. injection Hput as <-.
      vm_compute in Htrace. discriminate Htrace.
  - intros H.
    pose (put := Put quiet_env "1a" (Some "a"%string)).
    pose (t1 := run_state put stray_table).
    destruct (H quiet_env quiet_env stray_table "1a"%string (Some "a"%string) t1)
      as (t2 & Hput & Htrace & _).
    + simpl. lia.
    + apply (run_Done put). vm_compute. reflexivity.
    + assert (Ht2 : put t1 = Done (None, run_state put t1))
        by (apply (run_Done put); vm_compute; reflexivity).
      fold put in Hput. rewrite Ht2 in Hput. injection Hput as <-.
      vm_compute in Htrace. discriminate Htrace.
Qed.

(** C9: when [Table.Get] yields no bytes for a key (a nil or empty value,
    with no error or the not-found sentinel), a [Table.Put] of an empty
    (nil or zero-length) value returns nil and does what that read does and
    nothing more: nothing is written, no segment is created, opened as
    mutable or uncompacted, and [ldbSegments], the universe and [active]
    are as before. *)
Theorem Put_empty_on_absent (env : Env) (t : Table) (key : string) (value v : slice)
    (err : option error) (t1 : Table) :
  Get key t = Done ((v, err), t1) →
  slice_data v = EmptyString →
  err = None ∨ err = Some ErrNotFound →
  slice_data value = EmptyString →
  Put env key value t = Done (None, t1)
  ∧ trace t1 = trace t
  ∧ ldbSegments t1 = ldbSegments t
  ∧ universe t1 = universe t
  ∧ active t1 = active t.
Proof.
  intros Hget Hv Herr Hvalue.
  split.
  - unfold Put. rewrite (bind_Done _ _ _ _ _ Hget). simpl.
    rewrite bool_decide_eq_false_2 by (destruct Herr as [-> | ->]; naive_solver).
    unfold bytes_Equal. rewrite Hv, Hvalue.
    by rewrite bool_decide_eq_true_2.
  - apply Get_read in Hget. apply table_read_fields in Hget as (?&?&?&?&?). done.
Qed.

Lemma Put_empty_on_absent_witness :
  Put quiet_env "a" (Some EmptyString) (sample_table 1 0 2)
  = Done (None, sample_table 1 0 2).
Proof.
  apply (Put_empty_on_absent quiet_env (sample_table 1 0 2) "a" (Some EmptyString)
           None None (sample_table 1 0 2));
    [vm_compute; reflexivity | reflexivity | by left | reflexivity].
Defined.

(** ** Further properties of the segment set and the table *)

Section SegmentSetMore.

Implicit Types (ss : SegmentSet) (name : string) (s : Segment).

Lemma snoc_case {A} (l : list A) : l = [] ∨ ∃ c p, l = c ++ [p].
Proof. induction l using rev_ind; eauto. Qed.

Lemma cache_find_None name (c : list (string * Segment)) :
  cache_find name c = None ↔ name ∉ c.*1.
Proof.
  induction c as [|[k v] c IH]; simpl.
  - split; [intros _; apply not_elem_of_nil|done].
  - case_bool_decide as Hk.
    + subst k. split; [done|]. intros H. destruct H. by left.
    + rewrite IH. rewrite not_elem_of_cons. naive_solver.
Qed.

Lemma cache_drop_absent name (c : list (string * Segment)) :
  cache_find name c = None → cache_drop name c = c.
Proof.
  induction c as [|[k v] c IH]; [done|]. simpl.
  case_bool_decide as Hk; [done|]. intros Hc.
  unfold cache_drop in *. rewrite filter_cons_True by done. by rewrite IH.
Qed.

Lemma cache_find_drop_eq name (c : list (string * Segment)) :
  cache_find name (cache_drop name c) = None.
Proof.
  apply cache_find_None. unfold cache_drop. intros H.
  apply list_elem_of_fmap in H as ([k v] & -> & H).
  apply list_elem_of_filter in H as [H _]. by apply H.
Qed.

Lemma cache_drop_keys name (c : list (string * Segment)) :
  (cache_drop name c).*1 = filter (λ k, k ≠ name) c.*1.
Proof.
  unfold cache_drop. induction c as [|[k v] c IH]; [done|].
  rewrite fmap_cons. simpl. destruct (decide (k ≠ name)) as [Hk|Hk].
  - rewrite !filter_cons_True by done. rewrite fmap_cons. simpl. by rewrite IH.
  - rewrite !filter_cons_False by done. done.
Qed.

Lemma cache_drop_NoDup name (c : list (string * Segment)) :
  NoDup c.*1 → NoDup (cache_drop name c).*1.
Proof. rewrite cache_drop_keys. apply NoDup_filter. Qed.

Lemma cache_drop_length name (c : list (string * Segment)) :
  (length (cache_drop name c) ≤ length c)%nat.
Proof. unfold cache_drop. apply length_filter. Qed.

Lemma cache_drop_length_lt name (c : list (string * Segment)) v :
  cache_find name c = Some v → (length (cache_drop name c) < length c)%nat.
Proof.
  induction c as [|[k w] c IH]; [done|]. simpl. unfold cache_drop in *.
  case_bool_decide as Hk.
  - intros _. subst k. rewrite filter_cons_False by (simpl; naive_solver).
    pose proof (length_filter (λ kv : string * Segment, kv.1 ≠ name) c). lia.
  - intros Hc. rewrite filter_cons_True by done. simpl. specialize (IH Hc). lia.
Qed.

(** The callback finds nothing to close for a name the universe has lost. *)
Lemma onEvicted_absent key ss :
  ss_segments ss !! key = None → onEvicted key ss = Done (tt, ss).
Proof. intros H. unfold onEvicted. by rewrite bind_get, H. Qed.

Lemma onEvicted_eq key ss :
  onEvicted key ss
  = Done (tt, mkSegmentSet (ss_segments ss) (ss_size ss) (ss_cur ss) (ss_cache ss)
                (ss_trace ss ++ eviction_calls (ss_segments ss) key)).
Proof.
  unfold onEvicted, eviction_calls. rewrite bind_get.
  destruct (ss_segments ss !! key) as [s|].
  - by destruct (seg_Purge s).
  - rewrite app_nil_r. by destruct ss.
Qed.

Lemma evict_all_empty keys ss :
  ss_segments ss = ∅ → evict_all keys ss = Done (tt, ss).
Proof.
  intros Hu. induction keys as [|k keys IH]; [done|]. simpl.
  rewrite (bind_Done _ _ _ _ _ (onEvicted_absent k ss ltac:(by rewrite Hu))).
  exact IH.
Qed.

Lemma sem_Acquire_free ctx ss :
  (ss_cur ss < ss_size ss)%nat → sem_Acquire ctx ss = Done (None, set_cur S ss).
Proof. intros H. unfold sem_Acquire. by rewrite bool_decide_eq_true_2. Qed.

Lemma sem_Acquire_full ss :
  (ss_size ss ≤ ss_cur ss)%nat →
  sem_Acquire Background ss = Blocked
  ∧ sem_Acquire Cancelled ss = Done (Some ErrCanceled, ss).
Proof. intros H. unfold sem_Acquire. by rewrite bool_decide_eq_false_2 by lia. Qed.

(** [cache.Get] finds the entry and moves it to the front. *)
Lemma cache_Get_eq name ss :
  cache_Get name ss
  = match cache_find name (ss_cache ss) with
    | Some s => Done (Some s, set_cache (λ c, (name, s) :: cache_drop name c) ss)
    | None => Done (None, ss)
    end.
Proof.
  unfold cache_Get. rewrite bind_get. by destruct (cache_find name (ss_cache ss)).
Qed.

(** [cache.Add] of a name that is not cached, with room left. *)
Lemma cache_Add_room name s ss :
  cache_find name (ss_cache ss) = None →
  (length (ss_cache ss) < ss_size ss)%nat →
  cache_Add name s ss = Done (tt, set_cache (λ c, (name, s) :: c) ss).
Proof.
  intros Hc Hlen. unfold cache_Add. rewrite bind_get, Hc, bind_modify, bind_get.
  simpl. rewrite bool_decide_eq_false_2 by lia. done.
Qed.

(** [cache.Add] of a name that is not cached, into a full cache: the
    oldest entry goes, and the callback runs on its name. *)
Lemma cache_Add_full name s ss c k v :
  cache_find name (ss_cache ss) = None →
  ss_cache ss = c ++ [(k, v)] →
  (ss_size ss ≤ length (ss_cache ss))%nat →
  cache_Add name s ss
  = Done (tt, mkSegmentSet (ss_segments ss) (ss_size ss) (ss_cur ss) ((name, s) :: c)
                (ss_trace ss ++ eviction_calls (ss_segments ss) k)).
Proof.
  intros Hc Hcache Hlen. unfold cache_Add. rewrite bind_get, Hc, bind_modify, bind_get.
  simpl. rewrite bool_decide_eq_true_2 by lia.
  rewrite Hcache. rewrite app_comm_cons, last_snoc.
  rewrite bind_modify, onEvicted_eq. simpl.
  rewrite Hcache, length_app. simpl.
  replace (length c + 1 - 0)%nat with (S (length c)) by lia.
  rewrite firstn_cons. rewrite take_app_length. done.
Qed.

(** The segment set after [Close]: nothing in the universe, nothing in the
    cache, and not one call of [Purge] or [Close] on a segment. *)
Lemma ss_Close_eq ss :
  ss_Close ss = Done (tt, mkSegmentSet ∅ (ss_size ss) (ss_cur ss) [] (ss_trace ss)).
Proof.
  unfold ss_Close. rewrite bind_modify. unfold cache_Purge. rewrite bind_get.
  set (ss0 := set_segments (λ _, ∅) ss).
  rewrite (bind_Done _ _ _ _ _ (evict_all_empty (ss_cache ss0).*1 ss0 eq_refl)). done.
Qed.

Lemma cache_Remove_eq name ss :
  ss_segments ss !! name = None →
  cache_Remove name ss = Done (tt, set_cache (cache_drop name) ss).
Proof.
  intros Hu. unfold cache_Remove. rewrite bind_get.
  destruct (cache_find name (ss_cache ss)) as [v|] eqn:Hc.
  - rewrite bind_modify. by rewrite onEvicted_absent.
  - unfold ret, set_cache. rewrite (cache_drop_absent _ _ Hc). by destruct ss.
Qed.

Lemma Remove_free ctx name ss :
  (ss_cur ss < ss_size ss)%nat →
  Remove ctx name ss
  = Done (tt, mkSegmentSet (delete name (ss_segments ss)) (ss_size ss) (ss_cur ss)
                (cache_drop name (ss_cache ss)) (ss_trace ss)).
Proof.
  intros Hfree. unfold Remove. rewrite bind_modify.
  rewrite (bind_Done _ _ _ _ _
             (sem_Acquire_free ctx (set_segments (delete name) ss) Hfree)).
  rewrite (bind_Done _ _ _ _ _
             (cache_Remove_eq name (set_cur S (set_segments (delete name) ss))
                ltac:(simpl; apply lookup_delete_eq))).
  done.
Qed.

(** Every outcome of [Acquire] with a permit free. *)
Lemma Acquire_free name ss :
  (ss_cur ss < ss_size ss)%nat →
  Acquire name ss =
  match cache_find name (ss_cache ss) with
  | Some s =>
    Done ((Some s, None),
          set_cache (λ c, (name, s) :: cache_drop name c) (set_cur S ss))
  | None =>
    match ss_segments ss !! name with
    | None => Done ((None, None), ss)
    | Some s =>
      match seg_Open s with
      | Some (Some err) => Done ((None, Some err), emit (EvOpen (seg_Name s)) ss)
      | Some None =>
        (cache_Add name s;;; ret (Some s, None)) (emit (EvOpen (seg_Name s)) (set_cur S ss))
      | None => (cache_Add name s;;; ret (Some s, None)) (set_cur S ss)
      end
    end
  end.
Proof.
  intros Hfree. unfold Acquire.
  rewrite (bind_Done _ _ _ _ _ (sem_Acquire_free Background _ Hfree)).
  unfold bind at 1. rewrite cache_Get_eq.
  change (ss_cache (set_cur S ss)) with (ss_cache ss).
  destruct (cache_find name (ss_cache ss)) as [s|]; [done|].
  rewrite bind_get. change (ss_segments (set_cur S ss)) with (ss_segments ss).
  destruct (ss_segments ss !! name) as [s|].
  - destruct (seg_Open s) as [[err|]|]; [|done..].
    rewrite bind_modify. by destruct ss.
  - by destruct ss.
Qed.

#[global] Instance keeps_set_ok_preorder : PreOrder keeps_set_ok.
Proof.
  split.
  - by intros ss.
  - intros a b c [H1 H2] [H3 H4]. split; [congruence|tauto].
Qed.

Lemma cache_front_ok name s (c : list (string * Segment)) n v :
  NoDup c.*1 → (length c ≤ n)%nat → cache_find name c = Some v →
  NoDup ((name, s) :: cache_drop name c).*1
  ∧ (length ((name, s) :: cache_drop name c) ≤ n)%nat.
Proof.
  intros Hnd Hlen Hc. split.
  - simpl. constructor; [|by apply cache_drop_NoDup].
    apply cache_find_None, cache_find_drop_eq.
  - simpl. pose proof (cache_drop_length_lt _ _ _ Hc). lia.
Qed.

Lemma sem_Acquire_ok ctx : preserves keeps_set_ok (sem_Acquire ctx).
Proof.
  intros ss a ss'. unfold sem_Acquire. case_bool_decide as Hfree.
  - intros [= _ <-]. split; [done|]. intros (?&?&?&?). unfold set_ok. simpl. repeat split; first [done|lia].
  - destruct ctx; [done|]. by intros [= _ <-].
Qed.

Lemma sem_Release_ok : preserves keeps_set_ok sem_Release.
Proof.
  intros ss a ss'. unfold sem_Release. destruct (ss_cur ss) as [|n] eqn:Hcur; [done|].
  intros [= _ <-]. split; [done|]. intros (?&?&?&?). unfold set_ok. simpl. repeat split; first [done|lia].
Qed.

Lemma onEvicted_ok key : preserves keeps_set_ok (onEvicted key).
Proof. intros ss a ss'. rewrite onEvicted_eq. by intros [= _ <-]. Qed.

Lemma cache_Get_ok name : preserves keeps_set_ok (cache_Get name).
Proof.
  intros ss a ss'. rewrite cache_Get_eq.
  destruct (cache_find name (ss_cache ss)) as [s|] eqn:Hc; intros [= _ <-]; [|done].
  split; [done|]. intros (Hnd & Hlen & ? & ?).
  destruct (cache_front_ok name s _ _ _ Hnd Hlen Hc). by repeat split.
Qed.

Lemma cache_Add_ok name s : preserves keeps_set_ok (cache_Add name s).
Proof.
  intros ss a ss'. destruct (cache_find name (ss_cache ss)) as [v|] eqn:Hc.
  - unfold cache_Add. rewrite bind_get, Hc. intros [= _ <-].
    split; [done|]. intros (Hnd & Hlen & ? & ?).
    destruct (cache_front_ok name s _ _ _ Hnd Hlen Hc). by repeat split.
  - destruct (decide (length (ss_cache ss) < ss_size ss)%nat) as [Hroom|Hfull].
    + rewrite cache_Add_room by done. intros [= _ <-]. split; [done|].
      intros (Hnd & Hlen & ? & ?). repeat split; simpl; [|lia|done..].
      constructor; [by apply cache_find_None|done].
    + destruct (snoc_case (ss_cache ss)) as [Hcache|(c & [k v] & Hcache)].
      { unfold cache_Add. rewrite bind_get, Hc, bind_modify, bind_get. simpl.
        rewrite Hcache. simpl.
        case_bool_decide.
        - rewrite bind_modify, onEvicted_eq. intros [= _ <-]. split; [done|].
          intros (?&?&?&?). lia.
        - intros [= _ <-]. split; [done|]. intros (?&?&?&?).
          rewrite Hcache in *. simpl in *. lia. }
      rewrite (cache_Add_full name s ss c k v) by first [done|lia].
      intros [= _ <-]. split; [done|]. intros (Hnd & Hlen & ? & ?).
      rewrite Hcache in Hnd, Hlen. rewrite fmap_app in Hnd.
      apply NoDup_app in Hnd as (Hnd & _ & _). rewrite length_app in Hlen. simpl in Hlen.
      unfold set_ok. simpl. repeat split; [|lia|done..].
      constructor; [|done]. apply cache_find_None in Hc.
      rewrite Hcache, fmap_app in Hc. set_solver.
Qed.

Lemma cache_Remove_ok name : preserves keeps_set_ok (cache_Remove name).
Proof.
  intros ss a ss'. unfold cache_Remove. rewrite bind_get.
  destruct (cache_find name (ss_cache ss)) as [v|]; [|by intros [= _ <-]].
  rewrite bind_modify, onEvicted_eq. intros [= _ <-]. split; [done|].
  intros (Hnd & Hlen & ? & ?). repeat split; simpl; [|  |done..].
  - by apply cache_drop_NoDup.
  - pose proof (cache_drop_length name (ss_cache ss)). lia.
Qed.

Lemma Add_ok s : preserves keeps_set_ok (Add s).
Proof. intros ss a ss'. unfold Add. by intros [= _ <-]. Qed.

Lemma Acquire_ok name : preserves keeps_set_ok (Acquire name).
Proof.
  unfold Acquire.
  apply preserves_bind; [apply _|apply sem_Acquire_ok|intros _].
  apply preserves_bind; [apply _|apply cache_Get_ok|intros [s|]].
  { apply preserves_ret; apply _. }
  apply preserves_bind; [apply _|apply preserves_get; apply _|intros ss0].
  assert (Hadd : ∀ s, preserves keeps_set_ok (cache_Add name s;;; ret (Some s, @None error))).
  { intros s. apply preserves_bind; [apply _|apply cache_Add_ok|intros _].
    apply preserves_ret; apply _. }
  assert (Hrel : ∀ r : option Segment * option error,
            preserves keeps_set_ok (sem_Release;;; ret r)).
  { intros r. apply preserves_bind; [apply _|apply sem_Release_ok|intros _].
    apply preserves_ret; apply _. }
  destruct (ss_segments ss0 !! name) as [s|]; [|apply Hrel].
  destruct (seg_Open s) as [[err|]|]; [| |apply Hadd].
  - apply preserves_bind; [apply _| |intros _; apply Hrel].
    apply preserves_modify. by intros ss.
  - apply preserves_bind; [apply _| |intros _; apply Hadd].
    apply preserves_modify. by intros ss.
Qed.

Lemma Remove_ok ctx name : preserves keeps_set_ok (Remove ctx name).
Proof.
  unfold Remove.
  apply preserves_bind; [apply _| |intros _].
  { apply preserves_modify. by intros ss. }
  apply preserves_bind; [apply _|apply sem_Acquire_ok|intros [e|]].
  { apply preserves_ret; apply _. }
  apply preserves_bind; [apply _|apply cache_Remove_ok|intros _].
  apply sem_Release_ok.
Qed.

Lemma ss_Close_ok : preserves keeps_set_ok ss_Close.
Proof.
  intros ss a ss'. rewrite ss_Close_eq. intros [= _ <-]. split; [done|].
  intros (?&?&?&?). repeat split; simpl; [constructor|lia|done..].
Qed.

Lemma set_step_ok o : preserves keeps_set_ok (set_step o).
Proof.
  destruct o; simpl.
  - apply Add_ok.
  - apply Remove_ok.
  - apply preserves_bind; [apply _|apply Acquire_ok|intros _]. apply preserves_ret; apply _.
  - apply sem_Release_ok.
  - apply ss_Close_ok.
Qed.

Lemma set_run_ok l : preserves keeps_set_ok (set_run l).
Proof.
  induction l as [|o l IH]; simpl.
  - apply preserves_ret; apply _.
  - apply preserves_bind; [apply _|apply set_step_ok|intros _; apply IH].
Qed.

Lemma NewSegmentSet_ok n : set_ok (NewSegmentSet n).
Proof.
  unfold NewSegmentSet, set_ok. simpl. repeat split; [constructor|lia|lia|].
  destruct (Z.ltb_spec n 1); lia.
Qed.

End SegmentSetMore.

(** [SegmentSet.Remove], with a permit free: the name leaves the universe
    and the opened cache, the permit taken is given back, and the segment
    is neither purged nor closed, since the callback of the cache no longer
    finds it in the universe. *)
Theorem Remove_drops_without_closing (ctx : Context) (name : string) (ss : SegmentSet) :
  (ss_cur ss < ss_size ss)%nat →
  ∃ ss', Remove ctx name ss = Done (tt, ss')
         ∧ Contains name ss' = false
         ∧ cache_find name (ss_cache ss') = None
         ∧ ss_cache ss' = cache_drop name (ss_cache ss)
         ∧ ss_segments ss' = delete name (ss_segments ss)
         ∧ ss_cur ss' = ss_cur ss
         ∧ ss_trace ss' = ss_trace ss.
Proof.
  intros Hfree. eexists. split; [by apply Remove_free|]. simpl.
  split; [|split; [apply cache_find_drop_eq|done]].
  unfold Contains. simpl. rewrite lookup_delete_eq.
  apply bool_decide_eq_false_2. by intros [? ?].
Qed.

Lemma Remove_drops_without_closing_witness :
  let ss := mkSegmentSet {[ "01"%string := plain_segment "01" ]} 2 0
              [("01"%string, plain_segment "01")] [] in
  ∃ ss', Remove Background "01" ss = Done (tt, ss')
         ∧ Contains "01" ss' = false
         ∧ cache_find "01" (ss_cache ss') = None
         ∧ ss_cache ss' = cache_drop "01" (ss_cache ss)
         ∧ ss_segments ss' = delete "01" (ss_segments ss)
         ∧ ss_cur ss' = ss_cur ss
         ∧ ss_trace ss' = ss_trace ss.
Proof.
  intros ss. apply (Remove_drops_without_closing Background "01" ss). simpl. lia.
Defined.

(** [SegmentSet.Remove] with every permit taken: under a context that is
    never cancelled it waits for a permit; under a cancelled context it
    returns with the name out of the universe but still in the opened
    cache, and once a permit is back [Acquire] still hands out the removed
    segment. *)
Theorem Remove_without_permit (name : string) (ss : SegmentSet) (s : Segment) :
  ss_cur ss = ss_size ss → (0 < ss_size ss)%nat →
  cache_find name (ss_cache ss) = Some s →
  Remove Background name ss = Blocked
  ∧ ∃ ss1 ss2 ss3,
      Remove Cancelled name ss = Done (tt, ss1)
      ∧ Contains name ss1 = false
      ∧ Release ss1 = Done (tt, ss2)
      ∧ Acquire name ss2 = Done ((Some s, None), ss3).
Proof.
  intros Hcur Hsize Hc.
  destruct (sem_Acquire_full (set_segments (delete name) ss)) as [Hb Hcancel];
    [simpl; lia|].
  split.
  { unfold Remove. rewrite bind_modify. unfold bind. by rewrite Hb. }
  exists (set_segments (delete name) ss).
  destruct (ss_cur ss) as [|n] eqn:Hn; [lia|].
  eexists. eexists. split.
  { unfold Remove. rewrite bind_modify. by rewrite (bind_Done _ _ _ _ _ Hcancel). }
  split.
  { unfold Contains. simpl. rewrite lookup_delete_eq.
    apply bool_decide_eq_false_2. by intros [? ?]. }
  split.
  { unfold Release, sem_Release. simpl. rewrite Hn. reflexivity. }
  rewrite Acquire_free by (simpl; lia). simpl. by rewrite Hc.
Qed.

Lemma Remove_without_permit_witness :
  let ss := mkSegmentSet {[ "01"%string := plain_segment "01" ]} 1 1
              [("01"%string, plain_segment "01")] [] in
  Remove Background "01" ss = Blocked
  ∧ ∃ ss1 ss2 ss3,
      Remove Cancelled "01" ss = Done (tt, ss1)
      ∧ Contains "01" ss1 = false
      ∧ Release ss1 = Done (tt, ss2)
      ∧ Acquire "01" ss2 = Done ((Some (plain_segment "01"), None), ss3).
Proof.
  intros ss.
  apply (Remove_without_permit "01" ss (plain_segment "01"));
    [reflexivity | simpl; lia | reflexivity].
Defined.

(** From [NewSegmentSet(n)], whatever [n], after any sequence of [Add],
    [Remove], [Acquire], [Release] and [Close] that completes, the opened
    cache holds at most [max(1, n)] segments, no name twice, and at most
    [max(1, n)] permits are held. *)
Theorem opened_segments_bounded (n : Z) (l : list set_op) (ss : SegmentSet) :
  set_run l (NewSegmentSet n) = Done (tt, ss) →
  (length (ss_cache ss) ≤ Z.to_nat (Z.max 1 n))%nat
  ∧ NoDup (ss_cache ss).*1
  ∧ (ss_cur ss ≤ Z.to_nat (Z.max 1 n))%nat.
Proof.
  intros Hrun. destruct (set_run_ok l _ _ _ Hrun) as [Hsize Hok].
  destruct (Hok (NewSegmentSet_ok n)) as (Hnd & Hlen & Hcur & _).
  assert (Hn : ss_size ss = Z.to_nat (Z.max 1 n)).
  { rewrite Hsize. unfold NewSegmentSet. simpl. destruct (Z.ltb_spec n 1); lia. }
  rewrite <- Hn. done.
Qed.

Lemma opened_segments_bounded_witness :
  let l := [SAdd (plain_segment "01"); SAdd (plain_segment "02");
            SAcquire "01"; SRelease; SAcquire "02"; SRelease] in
  let ss := run_state (set_run l) (NewSegmentSet 0) in
  set_run l (NewSegmentSet 0) = Done (tt, ss)
  ∧ (length (ss_cache ss) ≤ Z.to_nat (Z.max 1 0))%nat
  ∧ NoDup (ss_cache ss).*1
  ∧ (ss_cur ss ≤ Z.to_nat (Z.max 1 0))%nat.
Proof.
  intros l ss.
  assert (Hrun : set_run l (NewSegmentSet 0) = Done (tt, ss))
    by (apply (run_Done (set_run l) (NewSegmentSet 0) tt); vm_compute; reflexivity).
  split; [exact Hrun|].
  exact (opened_segments_bounded 0 l ss Hrun).
Defined.

(** [Acquire] of a segment that is not opened, into a full cache: the
    segment is opened and put in front, the least recently used entry is
    dropped, and the segment the universe files under that entry's name is
    purged when it has [Purge] and closed otherwise. *)
Theorem Acquire_evicts_oldest (name : string) (ss : SegmentSet) (s : Segment)
    (c : list (string * Segment)) (k : string) (v : Segment) :
  (ss_cur ss < ss_size ss)%nat →
  ss_cache ss = c ++ [(k, v)] →
  length (ss_cache ss) = ss_size ss →
  cache_find name (ss_cache ss) = None →
  ss_segments ss !! name = Some s →
  (∀ err, seg_Open s ≠ Some (Some err)) →
  ∃ ss', Acquire name ss = Done ((Some s, None), ss')
         ∧ ss_cache ss' = (name, s) :: c
         ∧ ss_cur ss' = S (ss_cur ss)
         ∧ ss_segments ss' = ss_segments ss
         ∧ ss_trace ss'
           = ss_trace ss
             ++ match seg_Open s with Some _ => [EvOpen (seg_Name s)] | None => [] end
             ++ eviction_calls (ss_segments ss) k.
Proof.
  intros Hfree Hcache Hfull Hc Hs Hopen.
  rewrite Acquire_free by done. rewrite Hc, Hs.
  destruct (seg_Open s) as [[err|]|]; [by destruct (Hopen err)| |].
  - rewrite (bind_Done _ _ _ _ _
               (cache_Add_full name s (emit (EvOpen (seg_Name s)) (set_cur S ss)) c k v
                  Hc Hcache ltac:(simpl; lia))).
    eexists. split; [reflexivity|]. simpl. by rewrite <- app_assoc.
  - rewrite (bind_Done _ _ _ _ _
               (cache_Add_full name s (set_cur S ss) c k v Hc Hcache ltac:(simpl; lia))).
    eexists. split; [reflexivity|]. done.
Qed.

Lemma Acquire_evicts_oldest_witness :
  let u : gmap string Segment :=
    {[ "01"%string := file_segment "01" None; "02"%string := plain_segment "02" ]} in
  let ss := mkSegmentSet u 1 0 [("02"%string, plain_segment "02")] [] in
  ∃ ss', Acquire "01" ss = Done ((Some (file_segment "01" None), None), ss')
         ∧ ss_cache ss' = [("01"%string, file_segment "01" None)]
         ∧ ss_trace ss' = [EvOpen "01"; EvClose "02"].
Proof.
  intros u ss.
  destruct (Acquire_evicts_oldest "01" ss (file_segment "01" None) [] "02"
              (plain_segment "02"))
    as (ss' & Hrun & Hcache & _ & _ & Htrace);
    [simpl; lia | reflexivity | reflexivity | reflexivity | reflexivity | by intros err |].
  exists ss'. split; [exact Hrun|]. split; [exact Hcache|]. exact Htrace.
Defined.

Section TableMore.

Implicit Types (t : Table) (ss : SegmentSet) (name key : string).

(** [cache.Add] touches the cache and the trace only. *)
Lemma cache_Add_frame name (s : Segment) ss :
  ∃ c tr, cache_Add name s ss
          = Done (tt, mkSegmentSet (ss_segments ss) (ss_size ss) (ss_cur ss) c
                        (ss_trace ss ++ tr)).
Proof.
  unfold cache_Add. rewrite bind_get.
  destruct (cache_find name (ss_cache ss)).
  { eexists _, []. rewrite app_nil_r. reflexivity. }
  rewrite bind_modify, bind_get. simpl. case_bool_decide.
  - destruct (last ((name, s) :: ss_cache ss)) as [[k v]|].
    + rewrite bind_modify, onEvicted_eq. simpl. eexists _, _. reflexivity.
    + eexists _, []. rewrite app_nil_r. reflexivity.
  - eexists _, []. rewrite app_nil_r. reflexivity.
Qed.

Lemma Acquire_full name ss :
  (ss_size ss ≤ ss_cur ss)%nat → Acquire name ss = Blocked.
Proof.
  intros H. unfold Acquire, bind. by rewrite (proj1 (sem_Acquire_full ss H)).
Qed.

(** The permits, the universe and the result of a completed [Acquire]. *)
Lemma Acquire_permit name ss r ss' :
  Acquire name ss = Done (r, ss') →
  (ss_cur ss < ss_size ss)%nat
  ∧ ss_segments ss' = ss_segments ss ∧ ss_size ss' = ss_size ss
  ∧ ss_cur ss' = match r.1 with Some _ => S (ss_cur ss) | None => ss_cur ss end
  ∧ (is_Some r.2 → r.1 = None)
  ∧ (r = (None, None) → ss_segments ss !! name = None ∧ ss' = ss).
Proof.
  destruct (decide (ss_cur ss < ss_size ss)%nat) as [Hfree|Hfull];
    [|rewrite Acquire_full by lia; done].
  rewrite Acquire_free by done. intros Hrun. split; [done|]. revert Hrun.
  assert (Hadd : ∀ s ss0,
            (cache_Add name s;;; ret (Some s, @None error)) ss0 = Done (r, ss') →
            ss_segments ss' = ss_segments ss0 ∧ ss_size ss' = ss_size ss0
            ∧ ss_cur ss' = ss_cur ss0 ∧ r = (Some s, None)).
  { intros s ss0. destruct (cache_Add_frame name s ss0) as (c & tr & Hrun).
    rewrite (bind_Done _ _ _ _ _ Hrun). by intros [= <- <-]. }
  destruct (cache_find name (ss_cache ss)) as [s|].
  { intros [= <- <-]. simpl. repeat split; first [done | by intros [? ?]]. }
  destruct (ss_segments ss !! name) as [s|] eqn:Hs.
  - destruct (seg_Open s) as [[err|]|].
    + intros [= <- <-]. by repeat split.
    + intros (?&?&?&->)%Hadd. simpl in *. repeat split; first [done | by intros [? ?]].
    + intros (?&?&?&->)%Hadd. simpl in *. repeat split; first [done | by intros [? ?]].
  - intros [= <- <-]. by repeat split.
Qed.

(** A segment that was handed out is handed out again once its permit is
    back. *)
Lemma Acquire_hit name ss (s : Segment) :
  (ss_cur ss < ss_size ss)%nat →
  cache_find name (ss_cache ss) = Some s →
  ∃ ss', Acquire name ss = Done ((Some s, None), ss') ∧ ss_cur ss' = S (ss_cur ss).
Proof.
  intros Hfree Hc. rewrite Acquire_free by done. rewrite Hc. by eexists.
Qed.

Lemma CreateSegmentIfNotExists_read_free env ctx name t s :
  ldbSegments t !! name = Some s →
  CreateSegmentIfNotExists env ctx name t = Done (Ok s, t).
Proof. intros H. unfold CreateSegmentIfNotExists. by rewrite bind_get, H. Qed.

(** The table after [Close]. *)
Lemma Close_eq t :
  Close t
  = Done (tt, set_set (mkSegmentSet ∅ (ss_size (segments t)) (ss_cur (segments t)) []
                         (ss_trace (segments t)))
                (foldl (λ t kv, log_event (EvLdbClose (ldb_Name kv.2)) t) t
                   (map_to_list (ldbSegments t)))).
Proof.
  unfold Close. rewrite bind_modify.
  set (l := map_to_list (ldbSegments t)).
  assert (Hseg : ∀ t0, segments (foldl (λ t kv, log_event (EvLdbClose (ldb_Name kv.2)) t) t0 l)
                       = segments t0).
  { induction l as [|kv l IH]; intros t0; [done|]. simpl. by rewrite IH. }
  unfold on_set. rewrite Hseg, ss_Close_eq. done.
Qed.

Lemma foldl_log_fields (l : list (string * LDBSegment)) t :
  let t' := foldl (λ t kv, log_event (EvLdbClose (ldb_Name kv.2)) t) t l in
  ldbSegments t' = ldbSegments t ∧ active t' = active t ∧ config t' = config t
  ∧ trace t' = trace t ++ ((λ kv, EvLdbClose (ldb_Name kv.2)) <$> l).
Proof.
  revert t. induction l as [|kv l IH]; intros t; simpl.
  { by rewrite app_nil_r. }
  destruct (IH (log_event (EvLdbClose (ldb_Name kv.2)) t)) as (-> & -> & -> & ->).
  simpl. by rewrite <- app_assoc.
Qed.

End TableMore.

(** After a [Put(k, v)] that returned nil, on a table that keeps at least
    one segment mutable and whose mutable segments carry their own names,
    none above [active], [Get(k)] yields bytes equal to [v], with no error
    other than the not-found sentinel. *)
Theorem Put_then_Get (env : Env) (t : Table) (key : string) (value : slice)
    (t1 : Table) :
  names_in_order t →
  0 < MinMutableSegmentCount t →
  Put env key value t = Done (None, t1) →
  ∃ v err t2, Get key t1 = Done ((v, err), t2)
              ∧ bytes_Equal v value = true
              ∧ (err = None ∨ err = Some ErrNotFound).
Proof.
  intros Hnames Hmin. unfold Put at 1. unfold bind at 1.
  destruct (Get key t) as [[r t0]| |] eqn:Hget; [|done..].
  case_bool_decide as Herr; [intros [= Hr _]; by destruct Herr|].
  destruct (bytes_Equal r.1 value) eqn:Heq.
  - intros [= <-].
    destruct (Get_again _ _ _ _ Hget) as (t2 & Hget2).
    exists r.1, r.2, t2. split; [by destruct r|]. split; [done|].
    destruct r.2 as [e|]; [|by left]. right.
    destruct (decide (e = ErrNotFound)) as [->|Hne]; [done|].
    destruct Herr. split; [done|]. by intros [= ->].
  - rewrite bind_get.
    pose proof (Get_read _ _ _ _ Hget) as Hread.
    apply table_read_fields in Hread as (_ & Hl0 & _ & Ha0 & Hc0).
    set (name := Partitioner t0 key).
    unfold bind at 1.
    destruct (CreateSegmentIfNotExists env Background name t0)
      as [[[s|e] t0']| |] eqn:Hcreate; [|done..].
    destruct (LDBSegment_write env name); [done|].
    cbv [on_ldb bind modify ret]. intros [= <-].
    destruct (CreateSegmentIfNotExists_installed _ _ _ _ _ _
                ltac:(by intros k s0; rewrite Hl0, Ha0; apply Hnames)
                ltac:(by rewrite (MinMutable_config _ _ Hc0))
                Hcreate) as [s' Hs'].
    pose proof (CreateSegmentIfNotExists_step _ _ _ _ _ _ Hcreate) as (Hc1 & _ & _).
    set (t1 := log_event _ _).
    assert (Hldb1 : ldbSegments t1 !! Partitioner t1 key = Some (ldb_Put s' key value)).
    { change (Partitioner t1) with (Partitioner t0').
      rewrite (Partitioner_config _ _ Hc1). fold name.
      subst t1. simpl. rewrite Hs'. apply lookup_insert_eq. }
    exists (Some (slice_data value)), None, t1.
    split.
    { rewrite (Get_ldb _ _ _ Hldb1). unfold ldb_Get, ldb_Put. simpl.
      by rewrite lookup_insert_eq. }
    split; [|by left]. unfold bytes_Equal. by apply bool_decide_eq_true_2.
Qed.

Lemma Put_then_Get_witness :
  let t1 := run_state (Put quiet_env "1a" (Some "a"%string)) (sample_table 1 0 4) in
  Put quiet_env "1a" (Some "a"%string) (sample_table 1 0 4) = Done (None, t1)
  ∧ ∃ v err t2, Get "1a" t1 = Done ((v, err), t2)
                ∧ bytes_Equal v (Some "a"%string) = true
                ∧ (err = None ∨ err = Some ErrNotFound).
Proof.
  intros t1.
  assert (H1 : Put quiet_env "1a" (Some "a"%string) (sample_table 1 0 4) = Done (None, t1))
    by (apply (run_Done (Put quiet_env "1a" (Some "a"%string)) (sample_table 1 0 4) None);
        vm_compute; reflexivity).
  split; [exact H1|].
  exact (Put_then_Get quiet_env (sample_table 1 0 4) "1a" (Some "a"%string) t1
           ltac:(intros k s Hs; simpl in Hs; by rewrite lookup_empty in Hs)
           ltac:(simpl; lia) H1).
Defined.

(** [Delete] of a key whose partition has a mutable segment: when LevelDB
    takes the write, the call returns nil, and afterwards [Get] of the key
    gives the not-found sentinel and [Has] gives false; the universe and
    [active] are untouched. When LevelDB refuses the write, its error is
    returned and the table is unchanged. *)
Theorem Delete_then_Get (env : Env) (t : Table) (key : string) (s : LDBSegment) :
  ldbSegments t !! Partitioner t key = Some s →
  match LDBSegment_write env (Partitioner t key) with
  | Some err => Delete env key t = Done (Some err, t)
  | None =>
    ∃ t', Delete env key t = Done (None, t')
          ∧ Get key t' = Done ((None, Some ErrNotFound), t')
          ∧ Has key t' = Done ((false, None), t')
          ∧ ldbSegments t' = <[Partitioner t key := ldb_Delete s key]> (ldbSegments t)
          ∧ universe t' = universe t
          ∧ active t' = active t
  end.
Proof.
  intros Hldb.
  assert (Hacq : AcquireSegment (Partitioner t key) t = Done ((Some (IsLDB s), None), t))
    by by rewrite AcquireSegment_cases, Hldb.
  destruct (LDBSegment_write env (Partitioner t key)) as [err|] eqn:Hw.
  { unfold Delete. rewrite bind_get, (bind_Done _ _ _ _ _ Hacq). simpl. by rewrite Hw. }
  unfold Delete. rewrite bind_get, (bind_Done _ _ _ _ _ Hacq). simpl. rewrite Hw.
  cbv [on_ldb bind modify ret].
  eexists. split; [reflexivity|].
  set (t' := log_event _ _).
  assert (Hl' : ldbSegments t' = <[Partitioner t key := ldb_Delete s key]> (ldbSegments t)).
  { subst t'. simpl. by rewrite Hldb. }
  assert (Hldb' : ldbSegments t' !! Partitioner t' key = Some (ldb_Delete s key)).
  { rewrite Hl'. apply lookup_insert_eq. }
  split; [|split; [|done]].
  - rewrite (Get_ldb _ _ _ Hldb'). unfold ldb_Get, ldb_Delete. simpl.
    by rewrite lookup_delete_eq.
  - unfold Has. rewrite bind_get. unfold bind at 1.
    rewrite AcquireSegment_cases, Hldb'. simpl. rewrite bind_ret.
    unfold ret, ldb_Has, ldb_Delete. simpl. rewrite lookup_delete_eq.
    rewrite bool_decide_eq_false_2; [done|]. by intros [? ?].
Qed.

Lemma Delete_then_Get_witness :
  let s := mkLDBSegment "1" "/db/1" {[ "1a"%string := "a"%string ]} in
  let t := set_ldbSegments (λ _, {[ "1"%string := s ]}) (sample_table 1 0 4) in
  ∃ t', Delete quiet_env "1a" t = Done (None, t')
        ∧ Get "1a" t' = Done ((None, Some ErrNotFound), t')
        ∧ Has "1a" t' = Done ((false, None), t').
Proof.
  intros s t.
  destruct (Delete_then_Get quiet_env t "1a" s ltac:(reflexivity))
    as (t' & Hdel & Hget & Hhas & _).
  exists t'. split; [exact Hdel|]. split; [exact Hget|exact Hhas].
Defined.

(** [Delete] of a key whose partition is served by a segment that is not
    mutable (it has no [Delete]): the call fails with [ErrImmutableSegment],
    gives the permit back, and leaves both tiers, [active] and the trace of
    the table as they were. *)
Theorem Delete_immutable (env : Env) (t : Table) (key : string) (s : Segment)
    (t1 : Table) :
  AcquireSegment (Partitioner t key) t = Done ((Some (IsSeg s), None), t1) →
  seg_Delete s = None →
  ∃ t', Delete env key t = Done (Some ErrImmutableSegment, t')
        ∧ ldbSegments t' = ldbSegments t
        ∧ universe t' = universe t
        ∧ active t' = active t
        ∧ ss_cur (segments t') = ss_cur (segments t)
        ∧ trace t' = trace t.
Proof.
  intros Hacq Hdel. unfold Delete. rewrite bind_get.
  rewrite (bind_Done _ _ _ _ _ Hacq). simpl. rewrite Hdel.
  revert Hacq. rewrite AcquireSegment_cases.
  destruct (ldbSegments t !! Partitioner t key); [done|].
  destruct (Acquire (Partitioner t key) (segments t)) as [[r ss]| |] eqn:Hrun; [|done..].
  intros [= Hr1 Hr2 <-].
  destruct (Acquire_permit _ _ _ _ Hrun) as (_ & Hu & _ & Hcur & _).
  destruct r.1; [|done]. unfold bind, on_set, Release, sem_Release. simpl.
  rewrite Hcur. eexists. split; [reflexivity|]. unfold universe. simpl.
  by rewrite Hu.
Qed.

Lemma Delete_immutable_witness :
  let t := run_state (on_set (Add (plain_segment "1"))) (sample_table 1 0 4) in
  let t1 := run_state (AcquireSegment "1") t in
  AcquireSegment (Partitioner t "1a") t = Done ((Some (IsSeg (plain_segment "1")), None), t1)
  ∧ ∃ t', Delete quiet_env "1a" t = Done (Some ErrImmutableSegment, t')
          ∧ ldbSegments t' = ldbSegments t
          ∧ universe t' = universe t
          ∧ active t' = active t
          ∧ ss_cur (segments t') = ss_cur (segments t)
          ∧ trace t' = trace t.
Proof.
  intros t t1.
  assert (Hacq : AcquireSegment (Partitioner t "1a") t
                 = Done ((Some (IsSeg (plain_segment "1")), None), t1))
    by (apply (run_Done (AcquireSegment "1") t); vm_compute; reflexivity).
  split; [exact Hacq|].
  exact (Delete_immutable quiet_env t "1a" (plain_segment "1") t1 Hacq eq_refl).
Defined.

(** No write reaches a partition older than the active one unless a
    segment of it exists: a [Put] of a non-empty value whose partition name
    is below [active], with no segment under that name in either tier,
    fails with [ErrImmutableSegment] and leaves the table unchanged. *)
Theorem Put_below_active_refused (env : Env) (t : Table) (key : string) (value : slice) :
  ldbSegments t !! Partitioner t key = None →
  universe t !! Partitioner t key = None →
  cache_find (Partitioner t key) (ss_cache (segments t)) = None →
  (ss_cur (segments t) < ss_size (segments t))%nat →
  str_lt (Partitioner t key) (active t) = true →
  slice_data value ≠ EmptyString →
  Put env key value t = Done (Some ErrImmutableSegment, t).
Proof.
  intros Hldb Hu Hc Hfree Hlt Hvalue.
  assert (Hget : Get key t = Done ((None, None), t)).
  { unfold Get. rewrite bind_get. unfold bind at 1.
    rewrite AcquireSegment_cases, Hldb, Acquire_free, Hc by done.
    unfold universe in Hu. rewrite Hu. simpl. by rewrite set_set_id. }
  unfold Put. rewrite (bind_Done _ _ _ _ _ Hget). simpl.
  unfold bytes_Equal. rewrite bool_decide_eq_false_2 by (simpl; congruence).
  assert (Hcreate : CreateSegmentIfNotExists env Background (Partitioner t key) t
                    = Done (Err ErrImmutableSegment, t)).
  { unfold CreateSegmentIfNotExists. rewrite bind_get, Hldb.
    unfold Contains. unfold universe in Hu. rewrite Hu.
    rewrite bool_decide_eq_false_2 by (by intros [? ?]). by rewrite Hlt. }
  rewrite bind_get. by rewrite (bind_Done _ _ _ _ _ Hcreate).
Qed.

Lemma Put_below_active_refused_witness :
  let t := set_active "5" (sample_table 1 0 4) in
  Put quiet_env "1a" (Some "a"%string) t = Done (Some ErrImmutableSegment, t).
Proof.
  intros t.
  apply (Put_below_active_refused quiet_env t "1a" (Some "a"%string));
    [reflexivity | reflexivity | reflexivity | simpl; lia | reflexivity | done].
Defined.





(** Uncompaction needs two permits: it holds the one of its own [Acquire]
    while [Remove] takes another. With exactly one permit free (as in a
    table with [MaxOpenSegmentCount] 1) and a context that is never
    cancelled, [uncompact] of a segment that can be acquired and
    uncompacted blocks in [Remove], waiting for a permit while it holds the
    last one, and so does [CreateSegmentIfNotExists] for a name that has
    been compacted. *)
Theorem uncompact_needs_two_permits (env : Env) (t : Table) (name : string)
    (s : Segment) (ss1 : SegmentSet) (ldb : LDBSegment) :
  S (ss_cur (segments t)) = ss_size (segments t) →
  Acquire name (segments t) = Done ((Some s, None), ss1) →
  UncompactSegment t Background (Name t) (Some s) = Ok ldb →
  uncompact Background name t = Blocked
  ∧ (ldbSegments t !! name = None → Contains name (segments t) = true →
     CreateSegmentIfNotExists env Background name t = Blocked).
Proof.
  intros Hone Hacq Hun.
  assert (Hblocked : uncompact Background name t = Blocked).
  { unfold uncompact.
    rewrite (bind_Done _ _ _ _ _ (on_set_Done _ _ _ _ Hacq)). simpl.
    rewrite bind_get. simpl. rewrite Hun, bind_modify.
    destruct (Acquire_permit _ _ _ _ Hacq) as (_ & _ & Hsize & Hcur & _).
    simpl in Hcur.
    unfold bind at 1. unfold on_set at 1. simpl.
    unfold Remove. rewrite bind_modify. unfold bind at 1.
    rewrite (proj1 (sem_Acquire_full (set_segments (delete name) ss1)
                      ltac:(simpl; lia))).
    done. }
  split; [done|]. intros Hldb Hcontains.
  unfold CreateSegmentIfNotExists. by rewrite bind_get, Hldb, Hcontains.
Qed.

Lemma uncompact_needs_two_permits_witness :
  let t := run_state (on_set (Add (compacted (mkLDBSegment "1" "/db/1" ∅))))
             (sample_table 1 0 1) in
  let s := compacted (mkLDBSegment "1" "/db/1" ∅) in
  uncompact Background "1" t = Blocked
  ∧ CreateSegmentIfNotExists quiet_env Background "1" t = Blocked.
Proof.
  intros t s.
  destruct (uncompact_needs_two_permits quiet_env t "1" s
              (run_state (Acquire "1") (segments t))
              (mkLDBSegment "1" "/db/1" ∅))
    as [H1 H2].
  - reflexivity.
  - apply (run_Done (Acquire "1") (segments t)). vm_compute. reflexivity.
  - vm_compute. reflexivity.
  - split; [exact H1|]. apply H2; reflexivity.
Defined.

(** A failed uncompaction of a name of the universe changes neither tier
    nor [active], and holds no permit when it returns. *)
Theorem uncompact_failure_frame (ctx : Context) (name : string) (t : Table)
    (e : error) (t' : Table) :
  Contains name (segments t) = true →
  uncompact ctx name t = Done (Err e, t') →
  ldbSegments t' = ldbSegments t
  ∧ universe t' = universe t
  ∧ active t' = active t
  ∧ ss_cur (segments t') = ss_cur (segments t).
Proof.
  intros Hcontains. unfold uncompact. unfold bind at 1. unfold on_set at 1.
  destruct (Acquire name (segments t)) as [[r ss1]| |] eqn:Hacq; [|done..].
  destruct (Acquire_permit _ _ _ _ Hacq) as (_ & Hu & _ & Hcur & Herr & Hnone).
  destruct r as [[s|] [err|]]; simpl in *.
  - by specialize (Herr ltac:(eauto)).
  - rewrite bind_get. simpl.
    destruct (UncompactSegment t ctx (Name t) (Some s)) as [ldb|err].
    { rewrite bind_modify. unfold bind at 1.
      match goal with
      | |- context [on_set (Remove ctx name) ?x] =>
        destruct (on_set (Remove ctx name) x) as [[[] t2]| |]; [|done..]
      end.
      rewrite bind_modify. unfold bind at 1.
      match goal with
      | |- context [on_set Release ?x] =>
        destruct (on_set Release x) as [[[] t3]| |]; done
      end. }
    unfold bind, on_set, Release, sem_Release. simpl. rewrite Hcur.
    intros [= _ <-]. unfold universe. simpl. by rewrite Hu.
  - intros [= _ <-]. unfold universe. simpl. by rewrite Hu.
  - destruct (Hnone eq_refl) as [Hmiss _]. unfold Contains in Hcontains.
    rewrite Hmiss in Hcontains. apply bool_decide_eq_true in Hcontains.
    by destruct Hcontains.
Qed.

Lemma uncompact_failure_frame_witness :
  let t := run_state (on_set (Add (file_segment "1" (Some (ErrOther "io")))))
             (sample_table 1 0 2) in
  let t' := run_state (uncompact Background "1") t in
  uncompact Background "1" t = Done (Err (ErrOther "io"), t')
  ∧ ldbSegments t' = ldbSegments t
  ∧ universe t' = universe t
  ∧ active t' = active t
  ∧ ss_cur (segments t') = ss_cur (segments t).
Proof.
  intros t t'.
  assert (Hrun : uncompact Background "1" t = Done (Err (ErrOther "io"), t'))
    by (apply (run_Done (uncompact Background "1") t); vm_compute; reflexivity).
  split; [exact Hrun|].
  exact (uncompact_failure_frame Background "1" t (ErrOther "io") t' eq_refl Hrun).
Defined.

(** [Table.Close] closes each mutable segment once and no immutable one,
    empties the universe and the opened cache, and keeps [ldbSegments] and
    [active]: a closed mutable segment is still what [AcquireSegment]
    returns for its name. *)
Theorem Close_keeps_mutable_segments (t : Table) :
  ∃ t', Close t = Done (tt, t')
        ∧ ldbSegments t' = ldbSegments t
        ∧ active t' = active t
        ∧ universe t' = ∅
        ∧ ss_cache (segments t') = []
        ∧ ss_trace (segments t') = ss_trace (segments t)
        ∧ trace t' = trace t ++ ((λ kv, EvLdbClose (ldb_Name kv.2))
                                  <$> map_to_list (ldbSegments t))
        ∧ ∀ name s, ldbSegments t !! name = Some s →
                    AcquireSegment name t' = Done ((Some (IsLDB s), None), t').
Proof.
  eexists. split; [apply Close_eq|].
  destruct (foldl_log_fields (map_to_list (ldbSegments t)) t) as (Hl & Ha & _ & Htr).
  simpl. split; [done|]. split; [done|]. split; [done|]. split; [done|].
  split; [done|]. split; [done|].
  intros name s Hs. rewrite AcquireSegment_cases. simpl. by rewrite Hl, Hs.
Qed.

Section BatchMore.

Implicit Types (t : Table) (b : tableBatch) (name key : string).

Lemma set_ldbSegments_id t (f : gmap string LDBSegment → gmap string LDBSegment) :
  f (ldbSegments t) = ldbSegments t → set_ldbSegments f t = t.
Proof. intros H. unfold set_ldbSegments. rewrite H. by destruct t. Qed.

(** Sub-batches without operations write nothing. *)
Lemma write_loop_empty env (l : list (string * list batch_op)) t :
  Forall (λ p, p.2 = []) l →
  ∃ r, write_loop env l t = Done (r, t).
Proof.
  induction 1 as [|[name ops] l Hops _ IH]; simpl; [by eexists|].
  simpl in Hops. subst ops.
  destruct (LDBSegment_write env name); [by eexists|].
  rewrite bind_modify. rewrite set_ldbSegments_id; [exact IH|].
  destruct (ldbSegments t !! name) as [s|] eqn:Hs; [|done]. simpl.
  by apply insert_id.
Qed.

Lemma on_table_Done {A} (m : M Table A) (st : Table * tableBatch) a t' :
  m st.1 = Done (a, t') → on_table m st = Done (a, (t', st.2)).
Proof. unfold on_table. by intros ->. Qed.

(** The segment [CreateSegmentIfNotExists] creates stays installed under
    its name, and is the active one. *)
Lemma CreateSegmentIfNotExists_new env ctx name t s t' :
  names_in_order t →
  0 < MinMutableSegmentCount t →
  ldbSegments t !! name = None →
  Contains name (segments t) = false →
  CreateSegmentIfNotExists env ctx name t = Done (Ok s, t') →
  ldbSegments t' !! name = Some s ∧ active t' = name
  ∧ ldb_Name s = name ∧ ldb_Path s = SegmentPath t name.
Proof.
  intros Hnames Hmin Hldb Hcontains. unfold CreateSegmentIfNotExists.
  rewrite bind_get, Hldb, Hcontains.
  destruct (str_lt name (active t)) eqn:Hlt; [done|].
  destruct (LDBSegment_Open env name (SegmentPath t name)) as [data|err]; [|done].
  rewrite !bind_modify.
  set (t1 := set_active name _).
  unfold bind. destruct (compact env ctx t1) as [[r t2]| |] eqn:Hc; [|done..].
  destruct r as [e|]; [done|]. intros [= <- <-].
  destruct (compact_frame _ _ _ _ _ Hc) as [_ Ha].
  assert (Hkeep : ldbSegments t2 !! name = ldbSegments t1 !! name).
  { revert Hc. unfold compact. rewrite bind_get.
    destruct (_ <? MinMutableSegmentCount t1) eqn:Hfew; [by intros [= <-]|].
    destruct (Z.ltb_spec (MinMutableSegmentCount t1) 0) as [?|Hpos]; [done|].
    replace (Z.to_nat (Z.of_nat (length (ldbSegmentSlice t1)) - MinMutableSegmentCount t1))
      with (length (ldbSegmentSlice t1) - Z.to_nat (MinMutableSegmentCount t1))%nat by lia.
    apply compact_loop_keeps.
    apply (candidates_exclude_greatest t1 name); [done|].
    intros k s0. subst t1. simpl.
    rewrite lookup_insert. case_decide as Hk.
    - intros [= <-]. subst k. split; [done|apply str_le_refl].
    - intros Hs0. destruct (Hnames _ _ Hs0) as [-> Hle]. split; [done|].
      eapply str_le_trans; [exact Hle|]. by apply str_le_not_lt. }
  rewrite Hkeep, Ha. subst t1. simpl. by rewrite lookup_insert_eq.
Qed.

End BatchMore.

(** A batch compares a [Put] with what the table holds, not with what the
    batch has queued: after [Delete(k)] is queued for a key the table
    holds with value [v], a [Put(k, v)] on the same batch is dropped as
    unchanged, and [Write] leaves the key deleted. *)
Theorem batch_Put_after_Delete_dropped (env : Env) (t : Table) (key : string)
    (s : LDBSegment) (v : string) :
  ldbSegments t !! Partitioner t key = Some s →
  ldb_data s !! key = Some v →
  LDBSegment_write env (Partitioner t key) = None →
  ∃ st1 st3,
    batch_Delete env key (t, NewBatch) = Done (None, st1)
    ∧ batch_Put env key (Some v) st1 = Done (None, st1)
    ∧ batch_Write env st1 = Done (None, st3)
    ∧ Get key st3.1 = Done ((None, Some ErrNotFound), st3.1).
Proof.
  intros Hldb Hv Hw.
  assert (Hget : Get key t = Done ((Some v, None), t)).
  { rewrite (Get_ldb _ _ _ Hldb). unfold ldb_Get. by rewrite Hv. }
  set (name := Partitioner t key) in *.
  set (b1 := queue name (BDelete key) NewBatch).
  assert (Hdel : batch_Delete env key (t, NewBatch) = Done (None, (t, b1))).
  { unfold batch_Delete.
    rewrite (bind_Done _ _ _ _ _ (on_table_Done (Get key) (t, NewBatch) _ _ Hget)).
    simpl. rewrite bind_get. simpl. fold name.
    rewrite (bind_Done _ _ _ _ _
               (on_table_Done _ (t, NewBatch) _ _
                  (CreateSegmentIfNotExists_read_free env Background name t s Hldb))).
    done. }
  set (t3 := set_ldbSegments (λ m, <[name := ldb_Delete s key]> m) t).
  exists (t, b1), (t3, b1). split; [exact Hdel|]. split.
  { unfold batch_Put.
    rewrite (bind_Done _ _ _ _ _ (on_table_Done (Get key) (t, b1) _ _ Hget)).
    simpl. unfold bytes_Equal. by rewrite bool_decide_eq_true_2. }
  assert (Hlist : map_to_list (batches b1) = [(name, [BDelete key])]).
  { subst b1. unfold queue. simpl. rewrite lookup_empty. simpl.
    rewrite insert_empty. apply map_to_list_singleton. }
  split.
  { unfold batch_Write. rewrite bind_get. cbv beta.
    change ((t, b1).2) with b1. rewrite Hlist.
    unfold on_table. cbn [write_loop fst snd]. rewrite Hw, bind_modify.
    unfold ret. do 3 f_equal. subst t3. unfold set_ldbSegments. by rewrite Hldb. }
  assert (Hldb3 : ldbSegments t3 !! Partitioner t3 key = Some (ldb_Delete s key)).
  { subst t3. simpl. fold name. apply lookup_insert_eq. }
  cbn [fst]. rewrite (Get_ldb _ _ _ Hldb3). unfold ldb_Get, ldb_Delete. simpl.
  by rewrite lookup_delete_eq.
Qed.

Lemma batch_Put_after_Delete_dropped_witness :
  let s := mkLDBSegment "1" "/db/1" {[ "1a"%string := "a"%string ]} in
  let t := set_ldbSegments (λ _, {[ "1"%string := s ]}) (sample_table 1 0 4) in
  ∃ st1 st3,
    batch_Delete quiet_env "1a" (t, NewBatch) = Done (None, st1)
    ∧ batch_Put quiet_env "1a" (Some "a"%string) st1 = Done (None, st1)
    ∧ batch_Write quiet_env st1 = Done (None, st3)
    ∧ Get "1a" st3.1 = Done ((None, Some ErrNotFound), st3.1).
Proof.
  intros s t.
  exact (batch_Put_after_Delete_dropped quiet_env t "1a" s "a" eq_refl eq_refl eq_refl).
Defined.

(** [Reset] discards what a batch has queued: the size is zero, and a
    [Write] right after it leaves the table and the batch as they are
    (the only thing it can return is an error of LevelDB on one of the
    emptied sub-batches). *)
Theorem batch_Reset_discards (env : Env) (t : Table) (b : tableBatch) :
  batch_ValueSize (batch_Reset b) = 0
  ∧ ∃ r, batch_Write env (t, batch_Reset b) = Done (r, (t, batch_Reset b)).
Proof.
  split; [done|]. unfold batch_Write. rewrite bind_get. simpl.
  destruct (write_loop_empty env (map_to_list ((λ _, []) <$> batches b)) t) as [r Hr].
  - apply Forall_forall. intros [name ops] H%elem_of_map_to_list.
    rewrite lookup_fmap in H. simpl.
    destruct (batches b !! name); simpl in H; by simplify_eq.
  - exists r. by apply (on_table_Done _ (t, batch_Reset b)).
Qed.

(** A value put through a fresh batch is what [Get] returns once the batch
    is written, on a table that keeps at least one segment mutable and
    whose mutable segments carry their own names, none above [active]. *)
Theorem batch_Put_Write_Get (env env' : Env) (t : Table) (key : string)
    (value : slice) (st1 st2 : Table * tableBatch) :
  names_in_order t →
  0 < MinMutableSegmentCount t →
  batch_Put env key value (t, NewBatch) = Done (None, st1) →
  batch_Write env' st1 = Done (None, st2) →
  ∃ v err t3, Get key st2.1 = Done ((v, err), t3)
              ∧ bytes_Equal v value = true
              ∧ (err = None ∨ err = Some ErrNotFound).
Proof.
  intros Hnames Hmin. unfold batch_Put. unfold bind at 1. unfold on_table at 1. simpl.
  destruct (Get key t) as [[r t0]| |] eqn:Hget; [|done..].
  case_bool_decide as Herr; [intros [= Hr _]; by destruct Herr|].
  destruct (bytes_Equal r.1 value) eqn:Heq.
  - intros [= <-]. unfold batch_Write. rewrite bind_get. simpl.
    rewrite map_to_list_empty. simpl. intros [= <-]. simpl.
    destruct (Get_again _ _ _ _ Hget) as (t2 & Hget2).
    exists r.1, r.2, t2. split; [by destruct r|]. split; [done|].
    destruct r.2 as [e|]; [|by left]. right.
    destruct (decide (e = ErrNotFound)) as [->|Hne]; [done|].
    destruct Herr. split; [done|]. by intros [= ->].
  - rewrite bind_get. simpl.
    pose proof (Get_read _ _ _ _ Hget) as Hread.
    apply table_read_fields in Hread as (_ & Hl0 & _ & Ha0 & Hc0).
    remember (Partitioner t0 key) as name eqn:Hname.
    unfold bind at 1. unfold on_table at 1. simpl.
    destruct (CreateSegmentIfNotExists env Background name t0)
      as [[[s|e] t0']| |] eqn:Hcreate; [|done..].
    intros [= <-].
    destruct (CreateSegmentIfNotExists_installed _ _ _ _ _ _
                ltac:(by intros k s0; rewrite Hl0, Ha0; apply Hnames)
                ltac:(by rewrite (MinMutable_config _ _ Hc0))
                Hcreate) as [s' Hs'].
    pose proof (CreateSegmentIfNotExists_step _ _ _ _ _ _ Hcreate) as (Hc1 & _ & _).
    unfold batch_Write. rewrite bind_get. simpl.
    rewrite lookup_empty. simpl. rewrite insert_empty, map_to_list_singleton.
    unfold on_table. simpl.
    destruct (LDBSegment_write env' name); [done|].
    rewrite bind_modify. intros [= <-]. simpl.
    set (t3 := set_ldbSegments _ t0').
    assert (Hldb3 : ldbSegments t3 !! Partitioner t3 key = Some (ldb_Put s' key value)).
    { change (Partitioner t3) with (Partitioner t0').
      rewrite (Partitioner_config _ _ Hc1), <- Hname.
      subst t3. simpl. rewrite Hs'. apply lookup_insert_eq. }
    exists (Some (slice_data value)), None, t3.
    split.
    { rewrite (Get_ldb _ _ _ Hldb3). unfold ldb_Get, ldb_Put. simpl.
      by rewrite lookup_insert_eq. }
    split; [|by left]. unfold bytes_Equal. by apply bool_decide_eq_true_2.
Qed.

Lemma batch_Put_Write_Get_witness :
  let st0 := (sample_table 1 0 4, NewBatch) in
  let st1 := run_state (batch_Put quiet_env "1a" (Some "a"%string)) st0 in
  let st2 := run_state (batch_Write quiet_env) st1 in
  batch_Put quiet_env "1a" (Some "a"%string) st0 = Done (None, st1)
  ∧ batch_Write quiet_env st1 = Done (None, st2)
  ∧ ∃ v err t3, Get "1a" st2.1 = Done ((v, err), t3)
                ∧ bytes_Equal v (Some "a"%string) = true
                ∧ (err = None ∨ err = Some ErrNotFound).
Proof.
  intros st0 st1 st2.
  assert (H1 : batch_Put quiet_env "1a" (Some "a"%string) st0 = Done (None, st1))
    by (apply (run_Done (batch_Put quiet_env "1a" (Some "a"%string)) st0 None);
        vm_compute; reflexivity).
  assert (H2 : batch_Write quiet_env st1 = Done (None, st2))
    by (apply (run_Done (batch_Write quiet_env) st1 None); vm_compute; reflexivity).
  split; [exact H1|]. split; [exact H2|].
  exact (batch_Put_Write_Get quiet_env quiet_env (sample_table 1 0 4) "1a"
           (Some "a"%string) st1 st2
           ltac:(intros k s Hs; simpl in Hs; by rewrite lookup_empty in Hs)
           ltac:(simpl; lia) H1 H2).
Defined.

(** When [CreateSegmentIfNotExists] creates a segment (the name is in
    neither tier), on a table that keeps at least one segment mutable and
    whose mutable segments carry their own names, none above [active], the
    new segment is the active one: [ActiveSegmentName] is its name and
    [ActiveSegment] returns it. *)
Theorem created_segment_is_active (env : Env) (ctx : Context) (name : string)
    (t : Table) (s : LDBSegment) (t' : Table) :
  names_in_order t →
  0 < MinMutableSegmentCount t →
  ldbSegments t !! name = None →
  Contains name (segments t) = false →
  CreateSegmentIfNotExists env ctx name t = Done (Ok s, t') →
  ActiveSegmentName t' = name ∧ ActiveSegment t' = Some s ∧ ldb_Name s = name.
Proof.
  intros Hnames Hmin Hldb Hcontains Hrun.
  destruct (CreateSegmentIfNotExists_new _ _ _ _ _ _ Hnames Hmin Hldb Hcontains Hrun)
    as (Hs & Ha & Hn & _).
  unfold ActiveSegmentName, ActiveSegment. by rewrite Ha.
Qed.

Lemma created_segment_is_active_witness :
  let t := sample_table 1 0 4 in
  let t' := run_state (CreateSegmentIfNotExists quiet_env Background "1") t in
  let s := NewLDBSegment "1" "/db/1" ∅ in
  CreateSegmentIfNotExists quiet_env Background "1" t = Done (Ok s, t')
  ∧ ActiveSegmentName t' = "1"%string ∧ ActiveSegment t' = Some s
  ∧ ldb_Name s = "1"%string.
Proof.
  intros t t' s.
  assert (Hrun : CreateSegmentIfNotExists quiet_env Background "1" t = Done (Ok s, t'))
    by (apply (run_Done (CreateSegmentIfNotExists quiet_env Background "1") t (Ok s));
        vm_compute; reflexivity).
  split; [exact Hrun|].
  exact (created_segment_is_active quiet_env Background "1" t s t'
           ltac:(intros k s0 Hs; simpl in Hs; by rewrite lookup_empty in Hs)
           ltac:(simpl; lia) eq_refl eq_refl Hrun).
Defined.

Section NamedFacts.

Implicit Types (t : Table) (ss : SegmentSet) (name key : string).

Lemma contracts_config t t' : config t' = config t → contracts t → contracts t'.
Proof.
  unfold contracts, opener_keeps_names, compactor_keeps_names,
    uncompactor_keeps_names, config.
  intros Hc. injection Hc as _ _ _ _ _ _ _ -> -> ->. done.
Qed.

#[global] Instance named_step_preorder : PreOrder named_step.
Proof.
  split.
  - by intros t.
  - intros a b c (Hc1 & H1) (Hc2 & H2). split; [congruence|].
    intros Hk Hw. apply H2; [by eapply contracts_config|by apply H1].
Qed.

Lemma cache_find_elem name (c : list (string * Segment)) s :
  cache_find name c = Some s → (name, s) ∈ c.
Proof.
  induction c as [|[k v] c IH]; [done|]. simpl. case_bool_decide as Hk.
  - intros [= ->]. subst k. by left.
  - intros H. right. by apply IH.
Qed.

Lemma cache_drop_subseteq name (c : list (string * Segment)) p :
  p ∈ cache_drop name c → p ∈ c.
Proof. unfold cache_drop. by intros [_ ?]%list_elem_of_filter. Qed.

(** [cache.Add] brings in no entry but the one added. *)
Lemma cache_Add_subset name (s : Segment) ss a ss' :
  cache_Add name s ss = Done (a, ss') →
  ∀ p, p ∈ ss_cache ss' → p = (name, s) ∨ p ∈ ss_cache ss.
Proof.
  unfold cache_Add. rewrite bind_get.
  destruct (cache_find name (ss_cache ss)).
  { intros [= _ <-] p. simpl. intros [->|H]%elem_of_cons; [by left|right].
    by eapply cache_drop_subseteq. }
  rewrite bind_modify, bind_get. simpl. case_bool_decide as Hsz.
  - destruct (last ((name, s) :: ss_cache ss)) as [[k v]|].
    + rewrite bind_modify, onEvicted_eq. intros [= _ <-] p. simpl.
      intros Hin%elem_of_take. destruct Hin as (i & Hin%list_elem_of_lookup_2 & _).
      by apply elem_of_cons in Hin.
    + intros [= _ <-] p. simpl. by intros ?%elem_of_cons.
  - intros [= _ <-] p. simpl. by intros ?%elem_of_cons.
Qed.

(** With the universe filed by name, so is what [Acquire] opens and
    returns. *)
Lemma Acquire_keyed name ss r ss' :
  Acquire name ss = Done (r, ss') →
  (∀ k s, ss_segments ss !! k = Some s → seg_Name s = k) →
  cache_keyed ss →
  cache_keyed ss' ∧ (∀ s, r.1 = Some s → seg_Name s = name).
Proof.
  intros Hrun Hu Hc.
  destruct (Acquire_permit _ _ _ _ Hrun) as (Hfree & _).
  rewrite Acquire_free in Hrun by done.
  assert (Hadd : ∀ s ss0,
            ss_segments ss !! name = Some s → ss_cache ss0 = ss_cache ss →
            (cache_Add name s;;; ret (Some s, @None error)) ss0 = Done (r, ss') →
            cache_keyed ss' ∧ (∀ s, r.1 = Some s → seg_Name s = name)).
  { intros s ss0 Hs Hss0. unfold bind.
    destruct (cache_Add name s ss0) as [[[] ss1]| |] eqn:Hadd; [|done..].
    intros [= <- <-]. split.
    - intros k v Hkv. destruct (cache_Add_subset _ _ _ _ _ Hadd _ Hkv) as [[= -> ->]|Hin].
      + by apply Hu.
      + rewrite Hss0 in Hin. by apply Hc.
    - simpl. intros s0 [= <-]. by apply Hu. }
  destruct (cache_find name (ss_cache ss)) as [s|] eqn:Hfind.
  { injection Hrun as <- <-. split.
    - intros k v. simpl. intros [[= -> ->]|Hin]%elem_of_cons.
      + by apply Hc, cache_find_elem.
      + by apply Hc, (cache_drop_subseteq name).
    - simpl. intros s0 [= <-]. by apply Hc, cache_find_elem. }
  destruct (ss_segments ss !! name) as [s|] eqn:Hs.
  - destruct (seg_Open s) as [[err|]|].
    + injection Hrun as <- <-. by split.
    + exact (Hadd s (emit (EvOpen (seg_Name s)) (set_cur S ss)) eq_refl eq_refl Hrun).
    + exact (Hadd s (set_cur S ss) eq_refl eq_refl Hrun).
  - injection Hrun as <- <-. by split.
Qed.

Lemma Release_frame ss a ss' :
  Release ss = Done (a, ss') →
  ss_cache ss' = ss_cache ss ∧ ss_segments ss' = ss_segments ss.
Proof.
  unfold Release, sem_Release. destruct (ss_cur ss); [done|]. by intros [= _ <-].
Qed.

Lemma Remove_cache ctx name ss a ss' :
  Remove ctx name ss = Done (a, ss') →
  ∀ p, p ∈ ss_cache ss' → p ∈ ss_cache ss.
Proof.
  unfold Remove. rewrite bind_modify. unfold bind at 1.
  destruct (sem_Acquire ctx _) as [[[e|] ss1]| |] eqn:Hsem; [| |done..].
  - intros [= _ <-]. revert Hsem. unfold sem_Acquire.
    case_bool_decide; [done|]. destruct ctx; [done|]. by intros [= _ <-].
  - assert (Hc1 : ss_cache ss1 = ss_cache ss).
    { revert Hsem. unfold sem_Acquire. case_bool_decide; [by intros [= <-]|].
      by destruct ctx. }
    unfold bind. unfold cache_Remove at 1. rewrite bind_get.
    destruct (cache_find name (ss_cache ss1)).
    + rewrite bind_modify, onEvicted_eq. unfold sem_Release. simpl.
      destruct (ss_cur ss1); [done|]. intros [= _ <-] p. simpl.
      rewrite <- Hc1. apply cache_drop_subseteq.
    + unfold ret, sem_Release. destruct (ss_cur ss1); [done|].
      intros [= _ <-] p. simpl. by rewrite Hc1.
Qed.

(** A step that leaves the names, [active] and the universe alone. *)
Lemma named_same t t' :
  config t' = config t → ldbSegments t' = ldbSegments t → active t' = active t →
  universe t' = universe t → (well_named t → cache_keyed (segments t')) →
  named_step t t'.
Proof.
  intros Hc Hl Ha Hu Hcache. split; [done|]. intros _ Hw. pose proof Hw as (Hn & Hun & _).
  split; [|split; [|by apply Hcache]].
  - intros k s. rewrite Hl, Ha. apply Hn.
  - intros k s. rewrite Hu, Ha. apply Hun.
Qed.

Lemma universe_keyed t :
  universe_named t → ∀ k s, ss_segments (segments t) !! k = Some s → seg_Name s = k.
Proof. intros Hun k s Hs. by apply (Hun k s). Qed.

Lemma on_set_Acquire_named name t r t' :
  on_set (Acquire name) t = Done (r, t') →
  named_step t t'
  ∧ ldbSegments t' = ldbSegments t ∧ active t' = active t ∧ universe t' = universe t
  ∧ (well_named t → ∀ s, r.1 = Some s → seg_Name s = name).
Proof.
  intros (ss' & Hrun & ->)%on_set_run.
  destruct (Acquire_permit _ _ _ _ Hrun) as (_ & Hu & _).
  assert (Huni : universe (set_set ss' t) = universe t) by (unfold universe; simpl; congruence).
  split; [|split; [done|split; [done|split; [done|]]]].
  - apply named_same; try done. intros (_ & Hun & Hc). simpl.
    by apply (Acquire_keyed _ _ _ _ Hrun (universe_keyed _ Hun) Hc).
  - intros (_ & Hun & Hc).
    by apply (Acquire_keyed _ _ _ _ Hrun (universe_keyed _ Hun) Hc).
Qed.

Lemma on_set_Release_named : preserves named_step (on_set Release).
Proof.
  intros t a t' (ss' & Hrun & ->)%on_set_run.
  destruct (Release_frame _ _ _ Hrun) as [Hc Hu].
  apply named_same; try done.
  intros (_ & _ & Hk). unfold cache_keyed. simpl. by rewrite Hc.
Qed.

Lemma log_event_named e : preserves named_step (modify (log_event e)).
Proof.
  apply preserves_modify. intros t. apply named_same; try done. by intros (_ & _ & ?).
Qed.

Lemma AcquireSegment_named name : preserves named_step (AcquireSegment name).
Proof.
  intros t a t'. rewrite AcquireSegment_cases.
  destruct (ldbSegments t !! name); [by intros [= _ <-]|].
  destruct (Acquire name (segments t)) as [[r ss]| |] eqn:Hrun; [|done..].
  intros [= _ <-].
  by destruct (on_set_Acquire_named name t r _ (on_set_Done _ _ _ _ Hrun)) as [? _].
Qed.

Lemma ReleaseSegment_named s : preserves named_step (ReleaseSegment s).
Proof.
  destruct s; simpl; [apply preserves_ret; apply _|apply on_set_Release_named].
Qed.

Lemma Has_named key : preserves named_step (Has key).
Proof.
  unfold Has.
  apply preserves_bind; [apply _|apply preserves_get; apply _|intros t].
  apply preserves_bind; [apply _|apply AcquireSegment_named|intros r].
  destruct r.2; [apply preserves_ret; apply _|].
  destruct r.1; [|apply preserves_ret; apply _].
  apply preserves_bind; [apply _|apply ReleaseSegment_named|intros ?].
  apply preserves_ret; apply _.
Qed.

Lemma Get_named key : preserves named_step (Get key).
Proof.
  unfold Get.
  apply preserves_bind; [apply _|apply preserves_get; apply _|intros t].
  apply preserves_bind; [apply _|apply AcquireSegment_named|intros r].
  destruct r.2; [apply preserves_ret; apply _|].
  destruct r.1; [|apply preserves_ret; apply _].
  apply preserves_bind; [apply _|apply ReleaseSegment_named|intros ?].
  apply preserves_ret; apply _.
Qed.

(** Rewriting the segment installed under a name, keeping its name. *)
Lemma rewrite_ldb_named name (f : LDBSegment → LDBSegment) :
  (∀ s, ldb_Name (f s) = ldb_Name s) →
  preserves named_step
    (modify (set_ldbSegments (λ m, match m !! name with
                                    | Some s => <[name := f s]> m
                                    | None => m
                                    end))).
Proof.
  intros Hf. apply preserves_modify. intros t. split; [done|].
  intros _ (Hn & Hun & Hc). split; [|by split].
  intros k s. simpl. destruct (ldbSegments t !! name) as [s0|] eqn:Hs0; [|apply Hn].
  rewrite lookup_insert. case_decide as Hk; [|apply Hn].
  intros [= <-]. subst k. rewrite Hf. by apply Hn.
Qed.

Lemma on_ldb_named name f e :
  (∀ s, ldb_Name (f s) = ldb_Name s) → preserves named_step (on_ldb name f e).
Proof.
  intros Hf. unfold on_ldb.
  apply preserves_bind; [apply _|by apply rewrite_ldb_named|intros _].
  apply log_event_named.
Qed.

Lemma apply_batch_ops_Name ops s : ldb_Name (foldl apply_batch_op s ops) = ldb_Name s.
Proof.
  revert s. induction ops as [|o ops IH]; intros s; [done|]. simpl.
  rewrite IH. by destruct o.
Qed.

Lemma write_loop_named env l : preserves named_step (write_loop env l).
Proof.
  induction l as [|[name ops] l IH]; simpl; [apply preserves_ret; apply _|].
  destruct (LDBSegment_write env name); [apply preserves_ret; apply _|].
  apply preserves_bind; [apply _| |intros ?; apply IH].
  apply (rewrite_ldb_named name (λ s, foldl apply_batch_op s ops)).
  intros s. apply apply_batch_ops_Name.
Qed.

Lemma Close_well_named t a t' :
  Close t = Done (a, t') →
  config t' = config t ∧ (names_in_order t → well_named t').
Proof.
  rewrite Close_eq. intros [= _ <-].
  destruct (foldl_log_fields (map_to_list (ldbSegments t)) t) as (Hl & Ha & Hc & _).
  split; [done|]. intros Hn. split; [|split].
  - intros k s. simpl. rewrite Hl, Ha. apply Hn.
  - intros k s. unfold universe. simpl. by rewrite lookup_empty.
  - intros k s. simpl. by intros ?%elem_of_nil.
Qed.

Lemma Close_named : preserves named_step Close.
Proof.
  intros t a t' (Hc & Hw)%Close_well_named. split; [done|].
  intros _ (Hn & _ & _). by apply Hw.
Qed.

(** The loop of [compact] over segments whose names are not above
    [active]. *)
Lemma compact_loop_named env ctx l : ∀ t r t',
  Forall (λ s, str_le (ldb_Name s) (active t) = true) l →
  compact_loop env ctx l t = Done (r, t') →
  named_step t t'.
Proof.
  induction l as [|ldbSegment l IH]; intros t r t' Hl; simpl.
  { intros [= _ <-]. reflexivity. }
  apply Forall_cons in Hl as [Hle Hl]. rewrite bind_get.
  destruct (os_Stat_since env (ldb_Path ldbSegment)) as [since|err];
    [|intros [= _ <-]; reflexivity].
  destruct (since <? MinCompactionAge t); [by apply IH|].
  destruct (CompactSegment t ctx (Name t) ldbSegment) as [newSegment|err] eqn:Hcomp;
    [|intros [= _ <-]; reflexivity].
  unfold bind at 1. unfold bind at 1. unfold on_set at 1, Add at 1, modify at 1.
  rewrite !bind_modify. unfold modify.
  set (t1 := log_event _ _). intros Hrest.
  etrans; [|apply (IH t1 r t' Hl Hrest)].
  split; [done|]. intros (_ & Hk & _) (Hn & Hun & Hc).
  pose proof (Hk _ _ _ _ Hcomp) as Hname.
  split; [|split; [|exact Hc]].
  - intros k s. subst t1. simpl. intros [_ Hs]%lookup_delete_Some. by apply Hn.
  - intros k s. subst t1. unfold universe. simpl.
    rewrite lookup_insert. case_decide as Hkk.
    + intros [= <-]. subst k. split; [done|]. by rewrite Hname.
    + apply Hun.
Qed.

Lemma compact_named env ctx : preserves named_step (compact env ctx).
Proof.
  intros t r t'. unfold compact. rewrite bind_get.
  destruct (_ <? MinMutableSegmentCount t); [intros [= _ <-]; reflexivity|].
  destruct (MinMutableSegmentCount t <? 0); [done|].
  intros Hrun. split; [by apply (compact_loop_frame _ _ _ _ _ _ Hrun)|].
  intros Hk Hw. pose proof Hw as (Hn & _).
  eapply (compact_loop_named env ctx _ t r t'); [|exact Hrun|done|done].
  apply Forall_forall. intros s Hs%elem_of_take.
  destruct Hs as (i & Hs%list_elem_of_lookup_2 & _).
  rewrite (ldbSegmentSlice_perm t) in Hs.
  apply list_elem_of_fmap in Hs as ([k s'] & -> & Hks%elem_of_map_to_list).
  simpl. by destruct (Hn _ _ Hks) as [-> ?].
Qed.

(** Uncompaction of a name of the universe. *)
Lemma uncompact_named ctx name t r t' :
  Contains name (segments t) = true →
  uncompact ctx name t = Done (r, t') →
  named_step t t'.
Proof.
  intros Hcontains. unfold uncompact. unfold bind at 1.
  destruct (on_set (Acquire name) t) as [[r0 t1]| |] eqn:Hacq; [|done..].
  destruct (on_set_Acquire_named _ _ _ _ Hacq) as (H1 & Hl1 & Ha1 & Hu1 & Hname).
  pose proof Hacq as (ss1 & Hrun & Ht1)%on_set_run.
  destruct (Acquire_permit _ _ _ _ Hrun) as (_ & _ & _ & _ & _ & Hnone).
  destruct r0 as [o [err|]]; simpl; [by intros [= _ <-]|].
  rewrite bind_get.
  destruct (UncompactSegment t1 ctx (Name t1) o) as [ldb|err] eqn:Hun.
  - rewrite bind_modify. unfold bind at 1.
    match goal with
    | |- context [on_set (Remove ctx name) ?x] =>
      destruct (on_set (Remove ctx name) x) as [[[] t2]| |] eqn:Hrem; [|done..]
    end.
    rewrite bind_modify. unfold bind at 1.
    match goal with
    | |- context [on_set Release ?x] =>
      destruct (on_set Release x) as [[[] t3]| |] eqn:Hrel; [|done..]
    end.
    intros [= _ <-].
    apply on_set_run in Hrem as (ss2 & Hrem & ->).
    apply on_set_run in Hrel as (ss3 & Hrel & ->).
    pose proof (Remove_universe _ _ _ _ _ Hrem) as Hu2.
    pose proof (Remove_cache _ _ _ _ _ Hrem) as Hc2.
    destruct (Release_frame _ _ _ Hrel) as [Hc3 Hu3].
    simpl in *.
    split.
    { destruct H1 as [Hcfg _]. rewrite <- Hcfg. done. }
    intros Hk Hw. destruct H1 as [Hcfg H1]. specialize (H1 Hk Hw).
    destruct H1 as (Hn1 & Hun1 & Hck1).
    destruct o as [s|]; [|destruct (Hnone eq_refl) as [Hmiss _];
                          unfold Contains in Hcontains; rewrite Hmiss in Hcontains;
                          apply bool_decide_eq_true in Hcontains; by destruct Hcontains].
    pose proof (contracts_config _ _ Hcfg Hk) as (_ & _ & Hunc).
    pose proof (Hunc _ _ _ _ Hun) as Hldb. rewrite (Hname Hw s eq_refl) in Hldb.
    assert (Hle : str_le name (active t) = true).
    { unfold Contains in Hcontains. apply bool_decide_eq_true in Hcontains as [s0 Hs0].
      destruct Hw as (_ & Hunw & _). by apply (Hunw name s0). }
    split; [|split].
    + intros k s0. simpl. rewrite lookup_insert. case_decide as Hkk.
      * intros [= <-]. subst k. by rewrite Ha1.
      * apply Hn1.
    + intros k s0. unfold universe. simpl. rewrite Hu3, Hu2.
      intros [_ Hs0]%lookup_delete_Some. by apply Hun1.
    + intros k s0. simpl. rewrite Hc3. intros Hin%Hc2. by apply Hck1.
  - unfold bind.
    destruct (on_set Release t1) as [[[] t2]| |] eqn:Hrel; [|done..].
    intros [= _ <-]. etrans; [exact H1|]. by eapply on_set_Release_named.
Qed.

Lemma CreateSegmentIfNotExists_named env ctx name :
  preserves named_step (CreateSegmentIfNotExists env ctx name).
Proof.
  unfold CreateSegmentIfNotExists. intros t a t'. rewrite bind_get.
  destruct (ldbSegments t !! name) as [s|] eqn:Hldb; [intros [= _ <-]; reflexivity|].
  destruct (Contains name (segments t)) eqn:Hcont; [by apply uncompact_named|].
  destruct (str_lt name (active t)) eqn:Hlt; [intros [= _ <-]; reflexivity|].
  destruct (LDBSegment_Open env name (SegmentPath t name)) as [data|err];
    [|intros [= _ <-]; reflexivity].
  rewrite !bind_modify. intros Hrest.
  etrans; [|eapply (preserves_bind named_step); [apply compact_named| |exact Hrest]].
  - split; [done|]. intros _ (Hn & Hun & Hc).
    assert (Hact : str_le (active t) name = true) by by apply str_le_not_lt.
    split; [|split; [|exact Hc]].
    + intros k s. simpl. rewrite lookup_insert. case_decide as Hk.
      * intros [= <-]. subst k. split; [done|apply str_le_refl].
      * intros Hs. destruct (Hn _ _ Hs) as [? Hle]. split; [done|].
        by eapply str_le_trans.
    + intros k s Hs. destruct (Hun _ _ Hs) as [? Hle]. split; [done|].
      simpl. by eapply str_le_trans.
  - intros [e|]; apply preserves_ret; apply _.
Qed.

Lemma ldb_Put_Name key value s : ldb_Name (ldb_Put s key value) = ldb_Name s.
Proof. done. Qed.

Lemma Put_named env key value : preserves named_step (Put env key value).
Proof.
  unfold Put.
  apply preserves_bind; [apply _|apply Get_named|intros r].
  case_bool_decide; [apply preserves_ret; apply _|].
  destruct (bytes_Equal r.1 value); [apply preserves_ret; apply _|].
  apply preserves_bind; [apply _|apply preserves_get; apply _|intros t].
  apply preserves_bind; [apply _|apply CreateSegmentIfNotExists_named|intros [s|e]].
  - destruct (LDBSegment_write env _); [apply preserves_ret; apply _|].
    apply preserves_bind; [apply _|by apply on_ldb_named|intros ?].
    apply preserves_ret; apply _.
  - apply preserves_ret; apply _.
Qed.

Lemma Delete_named env key : preserves named_step (Delete env key).
Proof.
  unfold Delete.
  apply preserves_bind; [apply _|apply preserves_get; apply _|intros t].
  apply preserves_bind; [apply _|apply AcquireSegment_named|intros r].
  destruct r.2; [apply preserves_ret; apply _|].
  destruct r.1 as [[s|s]|]; [| |apply preserves_ret; apply _].
  - destruct (LDBSegment_write env _); [apply preserves_ret; apply _|].
    apply preserves_bind; [apply _|by apply on_ldb_named|intros ?].
    apply preserves_ret; apply _.
  - destruct (seg_Delete s).
    + apply preserves_bind; [apply _|apply log_event_named|intros ?].
      apply preserves_bind; [apply _|apply on_set_Release_named|intros ?].
      apply preserves_ret; apply _.
    + apply preserves_bind; [apply _|apply on_set_Release_named|intros ?].
      apply preserves_ret; apply _.
Qed.

(** One name of the listing filed, and [active] raised to it. *)
Lemma raise_active_le name t :
  let t' := if str_lt (active t) name then set_active name t else t in
  str_le name (active t') = true ∧ str_le (active t) (active t') = true.
Proof.
  simpl. destruct (str_lt (active t) name) eqn:Hlt; simpl.
  - split; [apply str_le_refl|by apply str_lt_le].
  - split; [by apply str_le_not_lt|apply str_le_refl].
Qed.

Lemma open_loop_named env names : ∀ t a t',
  open_loop env names t = Done (a, t') →
  config t' = config t ∧ (opener_keeps_names t → well_named t → well_named t').
Proof.
  induction names as [|name names IH]; intros t a t'; simpl.
  { by intros [= _ <-]. }
  rewrite bind_get.
  case_bool_decide as Hinvalid; [by apply IH|].
  case_bool_decide as Herr; [by intros [= _ <-]|].
  assert (Hnext : ∀ t1,
            config t1 = config t →
            (opener_keeps_names t → well_named t →
             well_named (if str_lt (active t1) name then set_active name t1 else t1)) →
            (modify (λ t, if str_lt (active t) name then set_active name t else t);;;
             open_loop env names) t1 = Done (a, t') →
            config t' = config t ∧ (opener_keeps_names t → well_named t → well_named t')).
  { intros t1 Hc1 H1. rewrite bind_modify. intros (Hc & Hw)%IH.
    assert (Hc1' : config (if str_lt (active t1) name then set_active name t1 else t1)
                   = config t) by by destruct (str_lt (active t1) name).
    split; [congruence|]. intros Hop Hwt. apply Hw; [|by apply H1].
    by apply (opener_keeps_names_config t). }
  assert (Hraise : ∀ t1,
            active t1 = active t → cache_keyed (segments t1) →
            (∀ k s, ldbSegments t1 !! k = Some s →
                    ldb_Name s = k ∧ (k = name ∨ str_le k (active t) = true)) →
            (∀ k s, universe t1 !! k = Some s →
                    seg_Name s = k ∧ (k = name ∨ str_le k (active t) = true)) →
            well_named (if str_lt (active t1) name then set_active name t1 else t1)).
  { intros t1 Ha1 Hc1 Hl1 Hu1.
    destruct (raise_active_le name t1) as [Hname Hle].
    set (t2 := if str_lt (active t1) name then set_active name t1 else t1) in *.
    rewrite Ha1 in Hle.
    assert (Hl2 : ldbSegments t2 = ldbSegments t1)
      by (subst t2; by destruct (str_lt (active t1) name)).
    assert (Hu2 : universe t2 = universe t1)
      by (subst t2; by destruct (str_lt (active t1) name)).
    assert (Hs2 : segments t2 = segments t1)
      by (subst t2; by destruct (str_lt (active t1) name)).
    split; [|split].
    - intros k s. rewrite Hl2. intros Hs. destruct (Hl1 _ _ Hs) as [? [->|Hk]].
      + done.
      + split; [done|]. by eapply str_le_trans.
    - intros k s. rewrite Hu2. intros Hs. destruct (Hu1 _ _ Hs) as [? [->|Hk]].
      + done.
      + split; [done|]. by eapply str_le_trans.
    - by rewrite Hs2. }
  destruct ((SegmentFileType env (filepath_Join (Path t) name)).1) eqn:Htyp.
  - destruct (LDBSegment_Open env name (filepath_Join (Path t) name)) as [data|e].
    + rewrite !bind_modify. apply Hnext; [done|].
      intros _ (Hn & Hun & Hc). apply Hraise; [done|exact Hc| |].
      * intros k s. simpl. rewrite lookup_insert. case_decide as Hk.
        -- intros [= <-]. subst k. split; [done|by left].
        -- intros Hs. destruct (Hn _ _ Hs). split; [done|by right].
      * intros k s Hs. destruct (Hun _ _ Hs). split; [done|by right].
    + unfold bind at 1. destruct (Close t) as [[u t1]| |] eqn:Hclose; [|done..].
      intros [= _ <-]. destruct (Close_well_named _ _ _ Hclose) as [Hc Hw].
      split; [done|]. intros _ (Hn & _ & _). by apply Hw.
  - destruct (OpenSegment t (Name t) name (filepath_Join (Path t) name))
      as [segment|e] eqn:Hopen.
    + unfold bind at 1, on_set, Add, modify. simpl. apply Hnext; [done|].
      intros Hop (Hn & Hun & Hc). apply Hraise; [done|exact Hc| |].
      * intros k s Hs. destruct (Hn _ _ Hs). split; [done|by right].
      * intros k s. unfold universe. simpl. rewrite (Hop _ _ _ _ Hopen).
        rewrite lookup_insert. case_decide as Hk.
        -- intros [= <-]. subst k. split; [by apply (Hop _ _ _ _ Hopen)|by left].
        -- intros Hs. destruct (Hun _ _ Hs). split; [done|by right].
    + case_bool_decide; [by apply IH|]. by intros [= _ <-].
  - destruct (OpenSegment t (Name t) name (filepath_Join (Path t) name))
      as [segment|e] eqn:Hopen.
    + unfold bind at 1, on_set, Add, modify. simpl. apply Hnext; [done|].
      intros Hop (Hn & Hun & Hc). apply Hraise; [done|exact Hc| |].
      * intros k s Hs. destruct (Hn _ _ Hs). split; [done|by right].
      * intros k s. unfold universe. simpl. rewrite (Hop _ _ _ _ Hopen).
        rewrite lookup_insert. case_decide as Hk.
        -- intros [= <-]. subst k. split; [by apply (Hop _ _ _ _ Hopen)|by left].
        -- intros Hs. destruct (Hun _ _ Hs). split; [done|by right].
    + case_bool_decide; [by apply IH|]. by intros [= _ <-].
Qed.

(** [Open] files every name it opens under that name, whatever the table
    held before. *)
Lemma Open_well_named env t a t' :
  Open env t = Done (a, t') →
  config t' = config t ∧ (opener_keeps_names t → well_named t').
Proof.
  unfold Open. rewrite bind_modify, bind_get, bind_modify.
  set (t0 := set_set _ _).
  assert (Hw0 : well_named t0).
  { split; [|split].
    - intros k s. simpl. by rewrite lookup_empty.
    - intros k s. unfold universe. simpl. by rewrite lookup_empty.
    - intros k s. simpl. by intros ?%elem_of_nil. }
  change (Path (set_ldbSegments (λ _, ∅) t)) with (Path t0).
  change (ListSegmentNames (set_ldbSegments (λ _, ∅) t)) with (ListSegmentNames t0).
  change (Name (set_ldbSegments (λ _, ∅) t)) with (Name t0).
  destruct (os_MkdirAll env (Path t0)); [by intros [= _ <-]|].
  destruct (ListSegmentNames t0 (Path t0) (Name t0)) as [names|e];
    [|by intros [= _ <-]].
  intros (Hc & Hw)%open_loop_named. split; [by rewrite Hc|].
  intros Hop. by apply Hw.
Qed.

Lemma Open_named env : preserves named_step (Open env).
Proof.
  intros t a t' (Hc & Hw)%Open_well_named. split; [done|].
  intros (Hop & _) _. by apply Hw.
Qed.

#[global] Instance named_system_step_preorder : PreOrder named_system_step.
Proof.
  split.
  - intros st. unfold named_system_step. reflexivity.
  - intros a b c. unfold named_system_step. apply transitivity.
Qed.

Lemma on_table_named {A} (m : M Table A) :
  preserves named_step m → preserves named_system_step (on_table m).
Proof.
  intros Hm st a st'. unfold on_table.
  destruct (m st.1) as [[a' t']| |] eqn:Hrun; [|done..].
  intros [= _ <-]. unfold named_system_step. simpl. by eapply Hm.
Qed.

Lemma on_batch_named f : preserves named_system_step (on_batch f).
Proof.
  apply preserves_modify. intros st. unfold named_system_step. simpl. reflexivity.
Qed.

Lemma batch_Put_named env key value :
  preserves named_system_step (batch_Put env key value).
Proof.
  unfold batch_Put.
  apply preserves_bind; [apply _|apply on_table_named, Get_named|intros r].
  case_bool_decide; [apply preserves_ret; apply _|].
  destruct (bytes_Equal r.1 value); [apply preserves_ret; apply _|].
  apply preserves_bind; [apply _|apply preserves_get; apply _|intros st].
  apply preserves_bind;
    [apply _|apply on_table_named, CreateSegmentIfNotExists_named|intros [s|e]].
  - apply preserves_bind; [apply _|apply on_batch_named|intros ?].
    apply preserves_bind; [apply _|apply on_batch_named|intros ?].
    apply preserves_ret; apply _.
  - apply preserves_ret; apply _.
Qed.

Lemma batch_Delete_named env key :
  preserves named_system_step (batch_Delete env key).
Proof.
  unfold batch_Delete.
  apply preserves_bind; [apply _|apply on_table_named, Get_named|intros r].
  case_bool_decide; [apply preserves_ret; apply _|].
  case_bool_decide; [apply preserves_ret; apply _|].
  apply preserves_bind; [apply _|apply preserves_get; apply _|intros st].
  apply preserves_bind;
    [apply _|apply on_table_named, CreateSegmentIfNotExists_named|intros [s|e]].
  - apply preserves_bind; [apply _|apply on_batch_named|intros ?].
    apply preserves_ret; apply _.
  - apply preserves_ret; apply _.
Qed.

Lemma batch_Write_named env : preserves named_system_step (batch_Write env).
Proof.
  unfold batch_Write.
  apply preserves_bind; [apply _|apply preserves_get; apply _|intros st].
  apply on_table_named, write_loop_named.
Qed.

Lemma step_named env o : preserves named_system_step (step env o).
Proof.
  destruct o; simpl;
    try (apply discard_preserves; [apply _|]);
    try (apply on_table_named);
    try apply on_batch_named.
  - apply Open_named.
  - apply Close_named.
  - apply Has_named.
  - apply Get_named.
  - apply Put_named.
  - apply Delete_named.
  - apply compact_named.
  - apply CreateSegmentIfNotExists_named.
  - apply batch_Put_named.
  - apply batch_Delete_named.
  - apply batch_Write_named.
Qed.

Lemma run_named l : preserves named_system_step (run l).
Proof.
  induction l as [|[env o] l IH]; simpl; [apply preserves_ret; apply _|].
  apply preserves_bind; [apply _|apply step_named|intros ?; apply IH].
Qed.

End NamedFacts.

(** Whatever the table held before, after [Open] (whether it returns nil
    or an error), with an opener that returns segments under the name asked
    for: every mutable segment and every segment of the universe is filed
    under its own name, and no name is above [active], which thus is at
    least the highest name opened. *)
Theorem Open_files_by_name (env : Env) (t : Table) (r : option error) (t' : Table) :
  opener_keeps_names t →
  Open env t = Done (r, t') →
  names_in_order t' ∧ universe_named t'.
Proof.
  intros Hop Hrun. destruct (Open_well_named _ _ _ _ Hrun) as [_ Hw].
  destruct (Hw Hop) as (? & ? & _). done.
Qed.

Lemma Open_files_by_name_witness :
  let t := mkTable EmptyString ∅ (NewSegmentSet 4) "t" "/db" first_byte 1 0 4
             (λ _ _, Ok ["1"%string; "3"%string; "2"%string])
             (λ _ name _, Ok (plain_segment name))
             (λ _ _ s, Ok (compacted s))
             (λ _ _ s, uncompacted (default EmptyString (seg_Name <$> s)) s) [] in
  let t' := run_state (Open quiet_env) t in
  Open quiet_env t = Done (None, t')
  ∧ names_in_order t' ∧ universe_named t' ∧ active t' = "3"%string.
Proof.
  intros t t'.
  assert (Hrun : Open quiet_env t = Done (None, t'))
    by (apply (run_Done (Open quiet_env) t None); vm_compute; reflexivity).
  split; [exact Hrun|].
  destruct (Open_files_by_name quiet_env t None t' ltac:(by intros ? ? ? ? [= <-]) Hrun)
    as [Hn Hu].
  split; [exact Hn|]. split; [exact Hu|]. vm_compute. reflexivity.
Defined.

(** With an opener, a compactor and an uncompactor that return segments
    under the name of what they were given, the filing by name is kept by
    every sequence of operations that completes: each mutable segment stays under its own
    name, each segment of the universe and of the opened cache under its
    own, and no name is above [active]. *)
Theorem names_stay_in_order (l : list (Env * op)) (st st' : Table * tableBatch) :
  contracts st.1 →
  well_named st.1 →
  run l st = Done (tt, st') →
  well_named st'.1.
Proof.
  intros Hk Hw Hrun. destruct (run_named l _ _ _ Hrun) as [_ H]. by apply H.
Qed.

Lemma names_stay_in_order_witness :
  let st := (sample_table 1 0 4, NewBatch) in
  let st' := run_state (run sample_ops) st in
  run sample_ops st = Done (tt, st') ∧ well_named st'.1.
Proof.
  intros st st'.
  assert (Hrun : run sample_ops st = Done (tt, st'))
    by (apply (run_Done (run sample_ops) st tt); vm_compute; reflexivity).
  split; [exact Hrun|].
  apply (names_stay_in_order sample_ops st st'); [| |exact Hrun].
  - split; [|split].
    + by intros ? ? ? ? [= <-].
    + by intros ? ? ? ? [= <-].
    + intros ctx table s ldb. simpl. by intros [= <-].
  - split; [|split].
    + intros k s Hs. simpl in Hs. by rewrite lookup_empty in Hs.
    + intros k s Hs. unfold universe in Hs. simpl in Hs. by rewrite lookup_empty in Hs.
    + intros k s Hs. simpl in Hs. by apply elem_of_nil in Hs.
Defined.

End EthdbFacts.

(** ** The state database *)

Module StateFacts.
Import State.
Local Open Scope go_scope.

(** ** The state database *)

Section ObjectFacts.

#[global] Instance obj_equiv_equivalence d : Equivalence (obj_equiv d).
Proof.
  split.
  - by intros o.
  - intros o1 o2 (?&?&?&?&?&?). by repeat split.
  - intros o1 o2 o3 (?&?&?&?&Hs1&?) (?&?&?&?&Hs2&?).
    repeat split; try congruence; intros key; by rewrite Hs1.
Qed.

#[global] Instance db_equiv_equivalence : Equivalence db_equiv.
Proof.
  split.
  - intros s. split; [done|]. split; [|done].
    intros addr. destruct (live s addr); constructor. reflexivity.
  - intros s1 s2 (Hd&Hl&?&?&?). split; [done|]. split; [|done].
    intros addr. specialize (Hl addr). rewrite <- Hd.
    destruct Hl; constructor. by symmetry.
  - intros s1 s2 s3 (Hd1&Hl1&?&Hg1&?) (Hd2&Hl2&?&Hg2&?).
    split; [congruence|]. split; [|split; [congruence|split; [|congruence]]].
    + intros addr. specialize (Hl1 addr). specialize (Hl2 addr).
      rewrite <- Hd1 in Hl2.
      destruct Hl1; inversion Hl2; subst; constructor. by etrans.
    + intros hash. by rewrite Hg1.
Qed.

Lemma db_equiv_observations s s' : db_equiv s' s → same_db_observations s s'.
Proof.
  intros (Hd & Hl & Hr & Hg & Hp).
  unfold same_db_observations, balance_of, nonce_of, code_at, storage_at.
  split; [|split; [|split; [|split; [|done]]]];
    intros addr; try intros key;
    specialize (Hl addr); try rewrite <- Hd;
    destruct Hl as [o1 o2 (?&?&?&?&Hs&?)|]; done.
Qed.

Lemma getStateObject_eq addr s : getStateObject addr s = Done (live s addr, load addr s).
Proof.
  unfold getStateObject, live, load. rewrite bind_get.
  destruct (stateObjects s !! addr) as [obj|]; [by destruct (deleted obj)|].
  by destruct (trie_TryGet (db s) addr).
Qed.

Lemma live_insert s addr obj b :
  live (set_stateObjects (λ m, <[addr := obj]> m) s) b
  = if decide (addr = b) then (if deleted obj then None else Some obj) else live s b.
Proof.
  unfold live. simpl. rewrite lookup_insert. by destruct (decide (addr = b)).
Qed.

Lemma live_delete s addr b :
  live (set_stateObjects (delete addr) s) b
  = if decide (addr = b) then newObject (db s) b <$> trie_TryGet (db s) b else live s b.
Proof.
  unfold live. simpl. rewrite lookup_delete. by destruct (decide (addr = b)).
Qed.

Lemma live_load addr s b : live (load addr s) b = live s b.
Proof.
  unfold load. destruct (stateObjects s !! addr) eqn:Hs; [done|].
  destruct (trie_TryGet (db s) addr) eqn:Ht; [|done].
  rewrite live_insert. case_decide; [subst b|done].
  unfold live. by rewrite Hs, Ht.
Qed.

Lemma load_lookup addr s obj :
  live s addr = Some obj → stateObjects (load addr s) !! addr = Some obj.
Proof.
  unfold live, load. destruct (stateObjects s !! addr) as [o|] eqn:Hs.
  - destruct (deleted o); [done|]. by intros [= <-].
  - destruct (trie_TryGet (db s) addr); [|done]. simpl. intros [= <-].
    apply lookup_insert_eq.
Qed.

Lemma load_equiv addr s : db_equiv (load addr s) s.
Proof.
  assert (Hdb : db (load addr s) = db s).
  { unfold load. destruct (stateObjects s !! addr); [done|].
    by destruct (trie_TryGet (db s) addr). }
  assert (Hrest : refund (load addr s) = refund s ∧ logs (load addr s) = logs s
                  ∧ preimages (load addr s) = preimages s).
  { unfold load. destruct (stateObjects s !! addr); [done|].
    by destruct (trie_TryGet (db s) addr). }
  destruct Hrest as (?&Hlogs&?).
  split; [done|]. split; [|split; [done|split; [|done]]].
  - intros b. rewrite live_load. destruct (live s b); constructor. reflexivity.
  - intros hash. unfold GetLogs. by rewrite Hlogs.
Qed.

Lemma deref_eq addr s obj : stateObjects s !! addr = Some obj → deref addr s = Done (obj, s).
Proof. intros H. unfold deref. rewrite bind_get. by rewrite H. Qed.

Lemma assign_eq addr f s obj :
  stateObjects s !! addr = Some obj →
  assign addr f s = Done (tt, set_stateObjects (λ m, <[addr := f obj]> m) s).
Proof. intros H. unfold assign. by rewrite (bind_Done _ _ _ _ _ (deref_eq _ _ _ H)). Qed.

Lemma bind_assign {B} addr f (k : unit → M StateDB B) s obj :
  stateObjects s !! addr = Some obj →
  bind (assign addr f) k s = k tt (set_stateObjects (λ m, <[addr := f obj]> m) s).
Proof. intros H. by rewrite (bind_Done _ _ _ _ _ (assign_eq _ _ _ _ H)). Qed.

Lemma on_object_eq addr f s :
  on_object addr f s =
  match live s addr with
  | Some obj => Done (tt, set_stateObjects (λ m, <[addr := f obj]> m) (load addr s))
  | None => Panicked
  end.
Proof.
  unfold on_object. rewrite (bind_Done _ _ _ _ _ (getStateObject_eq addr s)).
  destruct (live s addr) as [obj|] eqn:Hl; [|done].
  by apply assign_eq, load_lookup.
Qed.

End ObjectFacts.

Section RevertFacts.

Lemma live_not_deleted s addr obj : live s addr = Some obj → deleted obj = false.
Proof.
  unfold live. destruct (stateObjects s !! addr) as [o|].
  - destruct (deleted o) eqn:Hd; [done|]. by intros [= <-].
  - destruct (trie_TryGet (db s) addr); [|done]. by intros [= <-].
Qed.

Lemma setBalance_respectful v : respectful (setBalance v).
Proof.
  split; [done|]. intros d o1 o2 (?&?&?&Hc&Hs&?).
  split; [done|]. split; [done|]. split; [done|].
  split; [exact Hc|]. split; [exact Hs|done].
Qed.

Lemma setNonce_respectful v : respectful (setNonce v).
Proof.
  split; [done|]. intros d o1 o2 (?&?&?&Hc&Hs&?).
  split; [done|]. split; [done|]. split; [done|].
  split; [exact Hc|]. split; [exact Hs|done].
Qed.

Lemma set_suicided_respectful b : respectful (set_suicided b).
Proof.
  split; [done|]. intros d o1 o2 (?&?&?&Hc&Hs&?).
  split; [done|]. split; [done|]. split; [done|].
  split; [exact Hc|]. split; [exact Hs|done].
Qed.

Lemma state_of_setState d o key value k :
  state_of d (setState key value o) k
  = if decide (key = k) then value else state_of d o k.
Proof.
  unfold state_of, setState. simpl. rewrite lookup_insert.
  by destruct (decide (key = k)).
Qed.

Lemma setState_respectful key value : respectful (setState key value).
Proof.
  split; [done|]. intros d o1 o2 (?&?&?&Hc&Hs&?).
  split; [done|]. split; [done|]. split; [done|].
  split; [exact Hc|]. split; [|done].
  intros k. rewrite !state_of_setState. by case_decide.
Qed.

Lemma setCode_respectful h c : respectful (setCode h c).
Proof.
  split; [done|]. intros d o1 o2 (Ha&?&?&Hc&Hs&?).
  split; [done|]. split; [done|]. split; [done|].
  split; [|split; [exact Hs|done]].
  unfold code_of, setCode. simpl. by rewrite Ha.
Qed.

Lemma compose_respectful f g : respectful f → respectful g → respectful (f ∘ g).
Proof.
  intros [Hf1 Hf2] [Hg1 Hg2]. split.
  - intros o. simpl. destruct (Hf1 (g o)) as [-> ->]. apply Hg1.
  - intros d o1 o2 H. simpl. by apply Hf2, Hg2.
Qed.

(** Replacing equivalent working copies in equivalent states. *)
Lemma db_equiv_insert s1 s2 addr o1 o2 :
  db_equiv s1 s2 → obj_equiv (db s1) o1 o2 → deleted o1 = deleted o2 →
  db_equiv (set_stateObjects (λ m, <[addr := o1]> m) s1)
           (set_stateObjects (λ m, <[addr := o2]> m) s2).
Proof.
  intros (Hd & Hl & Hr & Hg & Hp) Ho Hdel.
  split; [done|]. split; [|done].
  intros b. rewrite !live_insert. case_decide; [|apply Hl].
  rewrite Hdel. destruct (deleted o2); by constructor.
Qed.

Lemma db_equiv_update f s1 s2 addr o1 o2 :
  respectful f →
  db_equiv s1 s2 → live s1 addr = Some o1 → live s2 addr = Some o2 →
  db_equiv (set_stateObjects (λ m, <[addr := f o1]> m) (load addr s1))
           (set_stateObjects (λ m, <[addr := f o2]> m) (load addr s2)).
Proof.
  intros [Hf1 Hf2] Heq H1 H2.
  assert (Hload : db_equiv (load addr s1) (load addr s2)).
  { etrans; [apply load_equiv|]. etrans; [exact Heq|]. symmetry. apply load_equiv. }
  apply db_equiv_insert; [done| |].
  - destruct Hload as (_ & _). destruct Heq as (Hd & Hl & _).
    specialize (Hl addr). rewrite H1, H2 in Hl. inversion Hl; subst.
    apply Hf2. replace (db (load addr s1)) with (db s1); [done|].
    symmetry. apply load_equiv.
  - destruct (Hf1 o1) as [-> _]. destruct (Hf1 o2) as [-> _].
    by rewrite (live_not_deleted _ _ _ H1), (live_not_deleted _ _ _ H2).
Qed.

Lemma on_object_congruence f addr s1 s2 u1 :
  respectful f → db_equiv s1 s2 →
  on_object addr f s1 = Done (tt, u1) →
  ∃ u2, on_object addr f s2 = Done (tt, u2) ∧ db_equiv u1 u2.
Proof.
  intros Hf Heq. rewrite !on_object_eq.
  pose proof (proj1 (proj2 Heq) addr) as Hl.
  destruct (live s1 addr) as [o1|] eqn:H1; [|done].
  inversion Hl as [? o2 ? H2'|]; subst. symmetry in H0. rename H0 into H2.
  intros [= <-]. eexists. split; [reflexivity|].
  by apply db_equiv_update.
Qed.

(** Reverting a change record in two equivalent states ends in equivalent
    states. *)
Lemma revert_entry_congruence e s1 s2 u1 :
  db_equiv s1 s2 →
  revert_entry e s1 = Done (tt, u1) →
  ∃ u2, revert_entry e s2 = Done (tt, u2) ∧ db_equiv u1 u2.
Proof.
  intros Heq. destruct e as [a|prev|a p pb|a p|a p|a k p|a h c|p|th|h|a]; simpl.
  - (* createObject *)
    intros [= <-]. eexists. split; [reflexivity|].
    destruct Heq as (Hd & Hl & Hr & Hg & Hp).
    split; [done|]. split; [|done].
    intros b. change (live (set_stateObjectsDirty ?f ?s) b) with (live s b).
    rewrite !live_delete. case_decide; [|apply Hl].
    rewrite <- Hd. destruct (trie_TryGet (db s1) b); constructor. reflexivity.
  - (* resetObject *)
    intros [= <-]. eexists. split; [reflexivity|].
    apply db_equiv_insert; [done|reflexivity|done].
  - (* suicide *)
    rewrite !(bind_Done _ _ _ _ _ (getStateObject_eq a _)).
    pose proof (proj1 (proj2 Heq) a) as Hl.
    destruct (live s1 a) as [o1|] eqn:H1.
    + inversion Hl as [? o2 ? H2'|]; subst. symmetry in H0. rename H0 into H2.
      rewrite !(bind_Done _ _ _ _ _ (assign_eq _ _ _ _ (load_lookup _ _ _ H1))).
      rewrite (bind_Done _ _ _ _ _ (assign_eq _ _ _ _ (load_lookup _ _ _ H2))).
      rewrite (assign_eq a (setBalance pb) _ (set_suicided p o1))
        by (simpl; apply lookup_insert_eq).
      rewrite (assign_eq a (setBalance pb) _ (set_suicided p o2))
        by (simpl; apply lookup_insert_eq).
      intros [= <-]. eexists. split; [reflexivity|].
      apply db_equiv_insert.
      * by apply (db_equiv_update (set_suicided p)); [apply set_suicided_respectful|..].
      * apply setBalance_respectful, set_suicided_respectful. simpl.
        replace (db (load a s1)) with (db s1) by (symmetry; apply load_equiv).
        done.
      * simpl. by rewrite (live_not_deleted _ _ _ H1), (live_not_deleted _ _ _ H2).
    + inversion Hl; subst. intros [= <-]. eexists. split; [reflexivity|].
      etrans; [apply load_equiv|]. etrans; [exact Heq|]. symmetry. apply load_equiv.
  - apply on_object_congruence; [apply setBalance_respectful|done].
  - apply on_object_congruence; [apply setNonce_respectful|done].
  - apply on_object_congruence; [apply setState_respectful|done].
  - apply on_object_congruence; [apply setCode_respectful|done].
  - (* refund *)
    intros [= <-]. eexists. split; [reflexivity|].
    destruct Heq as (Hd & Hl & Hr & Hg & Hp). by repeat split.
  - (* addLog *)
    rewrite !bind_get.
    destruct Heq as (Hd & Hl & Hr & Hg & Hp).
    pose proof (Hg th) as Hth. unfold GetLogs in Hth. rewrite <- Hth.
    destruct (default [] (logs s1 !! th)) as [|l ls] eqn:Hlogs; [done|].
    intros [= <-]. eexists. split; [reflexivity|].
    split; [done|]. split; [exact Hl|]. split; [done|]. split; [|done].
    intros hash. unfold GetLogs. simpl. rewrite !lookup_insert.
    case_decide; [done|apply Hg].
  - (* addPreimage *)
    intros [= <-]. eexists. split; [reflexivity|].
    destruct Heq as (Hd & Hl & Hr & Hg & Hp).
    split; [done|]. split; [exact Hl|]. split; [done|]. split; [exact Hg|].
    simpl. by rewrite Hp.
  - (* touch *)
    intros [= <-]. eauto.
Qed.

Lemma revert_entries_congruence es s1 s2 u1 :
  db_equiv s1 s2 →
  revert_entries es s1 = Done (tt, u1) →
  ∃ u2, revert_entries es s2 = Done (tt, u2) ∧ db_equiv u1 u2.
Proof.
  revert s1 s2. induction es as [|e es IH]; intros s1 s2 Heq; simpl.
  { intros [= <-]. eauto. }
  unfold bind at 1. destruct (revert_entry e s1) as [[[] v1]| |] eqn:H1; [|done..].
  destruct (revert_entry_congruence _ _ _ _ Heq H1) as (v2 & H2 & Hv).
  rewrite (bind_Done _ _ _ _ _ H2). by apply IH.
Qed.

Lemma revert_entries_app es1 es2 s :
  revert_entries (es1 ++ es2) s
  = (revert_entries es1;;; revert_entries es2) s.
Proof.
  revert s. induction es1 as [|e es1 IH]; intros s; simpl; [done|].
  unfold bind. destruct (revert_entry e s) as [[[] v]| |]; [|done..].
  rewrite IH. reflexivity.
Qed.

End RevertFacts.

Section JournaledFacts.

#[global] Instance journaled_preorder : PreOrder journaled.
Proof.
  split.
  - intros s. split; [done|]. split; [done|]. split; [done|].
    exists []. split; [by rewrite app_nil_r|]. split; [constructor|].
    intros Hwf. split; [done|]. exists s. split; [done|reflexivity].
  - intros s s' s'' (Hd1 & Hv1 & Hn1 & es1 & He1 & Hg1 & H1)
                    (Hd2 & Hv2 & Hn2 & es2 & He2 & Hg2 & H2).
    split; [congruence|]. split; [congruence|]. split; [congruence|].
    exists (es1 ++ es2). split; [by rewrite He2, He1, app_assoc|].
    split; [by apply Forall_app|].
    intros Hwf. destruct (H1 Hwf) as (Hwf' & u1 & Hu1 & Heq1).
    destruct (H2 Hwf') as (Hwf'' & u2 & Hu2 & Heq2).
    split; [done|].
    rewrite reverse_app, revert_entries_app, (bind_Done _ _ _ _ _ Hu2).
    symmetry in Heq2.
    destruct (revert_entries_congruence _ _ _ _ Heq2 Hu1) as (u & Hu & Heq).
    exists u. split; [done|]. etrans; [symmetry; exact Heq|done].
Qed.

Lemma wf_objects_insert s addr obj :
  wf_objects s → address obj = addr → deleted obj = false →
  wf_objects (set_stateObjects (λ m, <[addr := obj]> m) s).
Proof.
  intros Hwf Ha Hd b o. simpl. rewrite lookup_insert. case_decide.
  - intros [= <-]. subst b. split; [done|]. by rewrite Hd.
  - apply Hwf.
Qed.

Lemma wf_objects_load s addr : wf_objects s → wf_objects (load addr s).
Proof.
  intros Hwf. unfold load. destruct (stateObjects s !! addr); [done|].
  destruct (trie_TryGet (db s) addr); [|done]. by apply wf_objects_insert.
Qed.

Lemma load_fields addr s :
  db (load addr s) = db s ∧ journal_ (load addr s) = journal_ s
  ∧ validRevisions (load addr s) = validRevisions s
  ∧ nextRevisionId (load addr s) = nextRevisionId s.
Proof.
  unfold load. destruct (stateObjects s !! addr); [done|].
  by destruct (trie_TryGet (db s) addr).
Qed.

(** A step that leaves an equivalent state and the journal as it is. *)
Lemma journaled_silent s s' :
  db s' = db s → journal_ s' = journal_ s →
  validRevisions s' = validRevisions s → nextRevisionId s' = nextRevisionId s →
  (wf_objects s → wf_objects s') → db_equiv s' s →
  journaled s s'.
Proof.
  intros Hd Hj Hv Hn Hwf Heq. split; [done|]. split; [done|]. split; [done|].
  exists []. split; [by rewrite Hj, app_nil_r|]. split; [constructor|].
  intros H. split; [by apply Hwf|]. by exists s'.
Qed.

(** A step that appends one record which takes it back. *)
Lemma journaled_one s s' e :
  db s' = db s → entries (journal_ s') = entries (journal_ s) ++ [e] →
  validRevisions s' = validRevisions s → nextRevisionId s' = nextRevisionId s →
  good_entry e →
  (wf_objects s →
   wf_objects s' ∧ ∃ u, revert_entry e s' = Done (tt, u) ∧ db_equiv u s) →
  journaled s s'.
Proof.
  intros Hd Hj Hv Hn Hg H. split; [done|]. split; [done|]. split; [done|].
  exists [e]. split; [done|]. split; [by constructor|].
  intros Hwf. destruct (H Hwf) as (Hwf' & u & Hu & Heq). split; [done|].
  exists u. split; [|done]. simpl. by rewrite (bind_Done _ _ _ _ _ Hu).
Qed.

Lemma journaled_load addr s : journaled s (load addr s).
Proof.
  destruct (load_fields addr s) as (?&?&?&?).
  apply journaled_silent; try done; [apply wf_objects_load|apply load_equiv].
Qed.

(** Replacing the working copy under [addr] by an equivalent one. *)
Lemma db_equiv_replace s addr o o' :
  stateObjects s !! addr = Some o → deleted o = false → deleted o' = false →
  obj_equiv (db s) o' o →
  db_equiv (set_stateObjects (λ m, <[addr := o']> m) s) s.
Proof.
  intros Hs Hd Hd' Ho. split; [done|]. split; [|done].
  intros b. rewrite live_insert. case_decide; [subst b|].
  - unfold live. rewrite Hs, Hd, Hd'. by constructor.
  - destruct (live s b); constructor. reflexivity.
Qed.

Lemma journaled_cache s addr o o' :
  stateObjects s !! addr = Some o → deleted o = false → deleted o' = false →
  address o' = address o → obj_equiv (db s) o' o →
  journaled s (set_stateObjects (λ m, <[addr := o']> m) s).
Proof.
  intros Hs Hd Hd' Ha Ho. apply journaled_silent; try done.
  - intros Hwf. apply wf_objects_insert; [done| |done].
    rewrite Ha. by apply (Hwf _ _ Hs).
  - by eapply db_equiv_replace.
Qed.

(** A journaling mutator of a working copy: the record [e] is appended,
    the copy becomes [f o], and reverting [e] applies [g], which takes the
    copy back to one equivalent to [o]. *)
Lemma journaled_update s addr o e f g :
  stateObjects s !! addr = Some o → deleted o = false →
  good_entry e →
  (∀ s' o', live s' addr = Some o' → revert_entry e s' = on_object addr g s') →
  respectful f → respectful g →
  obj_equiv (db s) (g (f o)) o →
  journaled s (set_stateObjects (λ m, <[addr := f o]> m) (set_journal (journal_append e) s)).
Proof.
  intros Hs Hd Hg Hrev [Hf _] [Hg' _] Ho.
  apply (journaled_one _ _ e); try done.
  intros Hwf. split.
  - apply wf_objects_insert; [done| |].
    + destruct (Hf o) as [_ ->]. by apply (Hwf _ _ Hs).
    + by destruct (Hf o) as [-> _].
  - set (s1 := set_stateObjects _ _).
    assert (Hl : live s1 addr = Some (f o)).
    { subst s1. rewrite live_insert. rewrite decide_True by done.
      destruct (Hf o) as [-> _]. by rewrite Hd. }
    rewrite (Hrev _ _ Hl), on_object_eq.
    rewrite Hl. eexists. split; [reflexivity|].
    assert (Hload : load addr s1 = s1).
    { unfold load. subst s1. simpl. by rewrite lookup_insert_eq. }
    rewrite Hload. subst s1.
    split; [done|]. split; [|done].
    intros b. rewrite !live_insert. case_decide; [subst b|].
    + destruct (Hg' (f o)) as [-> _]. destruct (Hf o) as [-> _]. rewrite Hd.
      unfold live. rewrite Hs, Hd. by constructor.
    + change (live (set_journal ?h s) b) with (live s b).
      destruct (live s b); constructor. reflexivity.
Qed.

End JournaledFacts.

Section MutatorFacts.

Lemma live_address s addr obj : wf_objects s → live s addr = Some obj → address obj = addr.
Proof.
  intros Hwf. unfold live. destruct (stateObjects s !! addr) as [o|] eqn:Hs.
  - destruct (deleted o); [done|]. intros [= <-]. by apply (Hwf _ _ Hs).
  - destruct (trie_TryGet (db s) addr); [|done]. by intros [= <-].
Qed.

Lemma live_None_trie s addr :
  wf_objects s → live s addr = None → trie_TryGet (db s) addr = None.
Proof.
  intros Hwf. unfold live. destruct (stateObjects s !! addr) as [o|] eqn:Hs.
  - destruct (deleted o) eqn:Hd; [|done]. intros _. by apply (Hwf _ _ Hs).
  - by destruct (trie_TryGet (db s) addr).
Qed.

Lemma live_lookup s addr obj :
  stateObjects s !! addr = Some obj → deleted obj = false → live s addr = Some obj.
Proof. intros Hs Hd. unfold live. by rewrite Hs, Hd. Qed.

Lemma createObject_eq addr s :
  createObject addr s
  = Done ((fresh_object (db s) addr, live s addr),
          set_stateObjects (λ m, <[addr := fresh_object (db s) addr]> m)
            (set_journal (journal_append (creation_entry addr (live s addr)))
               (load addr s))).
Proof.
  unfold createObject.
  rewrite (bind_Done _ _ _ _ _ (getStateObject_eq addr s)), bind_get.
  destruct (load_fields addr s) as (Hd & _).
  unfold fresh_object. rewrite <- Hd.
  by destruct (live s addr).
Qed.

(** A working copy put under [addr] right after the record of its
    creation. *)
Lemma journaled_created s addr obj :
  address obj = addr → deleted obj = false →
  journaled s (set_stateObjects (λ m, <[addr := obj]> m)
                 (set_journal (journal_append (creation_entry addr (live s addr)))
                    (load addr s))).
Proof.
  intros Ha Hd. etrans; [apply (journaled_load addr)|].
  rewrite <- (live_load addr s addr).
  set (s1 := load addr s).
  apply (journaled_one _ _ (creation_entry addr (live s1 addr))); try done.
  { destruct (live s1 addr) as [p|] eqn:Hl; simpl; [|done].
    by eapply live_not_deleted. }
  intros Hwf. split; [by apply wf_objects_insert|].
  destruct (live s1 addr) as [p|] eqn:Hl; simpl.
  - eexists. split; [reflexivity|].
    rewrite (live_address _ _ _ Hwf Hl).
    split; [done|]. split; [|done]. intros b.
    rewrite !live_insert. case_decide; [subst b|].
    + rewrite (live_not_deleted _ _ _ Hl), Hl. constructor. reflexivity.
    + change (live (set_journal ?h s1) b) with (live s1 b).
      destruct (live s1 b); constructor. reflexivity.
  - eexists. split; [reflexivity|].
    split; [done|]. split; [|done]. intros b.
    change (live (set_stateObjectsDirty ?f ?s) b) with (live s b).
    rewrite live_delete. simpl. case_decide; [subst b|].
    + rewrite (live_None_trie _ _ Hwf Hl), Hl. constructor.
    + rewrite live_insert, decide_False by done.
      change (live (set_journal ?h s1) b) with (live s1 b).
      destruct (live s1 b); constructor. reflexivity.
Qed.

Lemma GetOrNewStateObject_run addr s r s' :
  GetOrNewStateObject addr s = Done (r, s') →
  journaled s s'
  ∧ ∃ o, stateObjects s' !! addr = Some o ∧ deleted o = false ∧ r = Some o.
Proof.
  unfold GetOrNewStateObject.
  rewrite (bind_Done _ _ _ _ _ (getStateObject_eq addr s)).
  assert (Hcreate : ∀ s0, s0 = load addr s →
            (r0 <- createObject addr;; ret (Some r0.1)) s0 = Done (r, s') →
            journaled s s'
            ∧ ∃ o, stateObjects s' !! addr = Some o ∧ deleted o = false ∧ r = Some o).
  { intros s0 -> . rewrite (bind_Done _ _ _ _ _ (createObject_eq addr _)).
    intros [= <- <-]. split.
    - etrans; [apply (journaled_load addr)|]. by apply journaled_created.
    - eexists. split; [simpl; apply lookup_insert_eq|]. done. }
  destruct (live s addr) as [obj|] eqn:Hl; [|by apply Hcreate].
  rewrite (live_not_deleted _ _ _ Hl). intros [= <- <-].
  split; [apply journaled_load|]. exists obj.
  split; [by apply load_lookup|]. split; [by eapply live_not_deleted|done].
Qed.

Lemma CreateAccount_journaled addr : preserves journaled (CreateAccount addr).
Proof.
  intros s a s'. unfold CreateAccount.
  rewrite (bind_Done _ _ _ _ _ (createObject_eq addr s)). simpl.
  destruct (live s addr) as [prev|] eqn:Hl.
  - rewrite (assign_eq _ _ _ (fresh_object (db s) addr)) by (simpl; apply lookup_insert_eq).
    intros [= _ H0].
    assert (Hs' : s' = set_stateObjects
                         (λ m, <[addr := setBalance (Balance (data prev))
                                           (fresh_object (db s) addr)]> m)
                         (set_journal (journal_append (creation_entry addr (live s addr)))
                            (load addr s))).
    { rewrite <- H0, Hl. unfold set_stateObjects. simpl. by rewrite insert_insert_eq. }
    rewrite Hs'. by apply journaled_created.
  - intros [= _ <-].
    change (createObjectChange addr) with (creation_entry addr None).
    rewrite <- Hl. by apply journaled_created.
Qed.

(** *** The methods of a working copy *)

Lemma so_SetBalance_run addr amount s o s' :
  stateObjects s !! addr = Some o → deleted o = false →
  so_SetBalance addr amount s = Done (tt, s') → journaled s s'.
Proof.
  intros Hs Hd. unfold so_SetBalance.
  rewrite (bind_Done _ _ _ _ _ (deref_eq _ _ _ Hs)).
  unfold append. rewrite bind_modify.
  rewrite (assign_eq _ _ _ o) by done. intros [= <-].
  apply (journaled_update _ _ _ _ _ (setBalance (Balance (data o))));
    first [done | apply setBalance_respectful | by destruct o as [? ? []]].
Qed.

Lemma so_SetNonce_run addr nonce s o s' :
  stateObjects s !! addr = Some o → deleted o = false →
  so_SetNonce addr nonce s = Done (tt, s') → journaled s s'.
Proof.
  intros Hs Hd. unfold so_SetNonce.
  rewrite (bind_Done _ _ _ _ _ (deref_eq _ _ _ Hs)).
  unfold append. rewrite bind_modify.
  rewrite (assign_eq _ _ _ o) by done. intros [= <-].
  apply (journaled_update _ _ _ _ _ (setNonce (Nonce (data o))));
    first [done | apply setNonce_respectful | by destruct o as [? ? []]].
Qed.

(** [Code] returns the code of the copy and leaves an equivalent copy. *)
Lemma so_Code_run addr s o r s' :
  stateObjects s !! addr = Some o → deleted o = false →
  so_Code addr s = Done (r, s') →
  journaled s s' ∧ r = code_of (db s) o
  ∧ ∃ o', stateObjects s' !! addr = Some o' ∧ deleted o' = false
          ∧ code_of (db s) o' = code_of (db s) o
          ∧ CodeHash (data o') = CodeHash (data o)
          ∧ journal_ s' = journal_ s.
Proof.
  intros Hs Hd. unfold so_Code.
  rewrite (bind_Done _ _ _ _ _ (deref_eq _ _ _ Hs)), bind_get.
  unfold code_of. destruct (code o) as [c|] eqn:Hc.
  { intros [= <- <-]. split; [reflexivity|]. split; [done|].
    exists o. by rewrite Hc. }
  case_bool_decide as Hempty.
  { intros [= <- <-]. split; [reflexivity|]. split; [done|].
    exists o. rewrite Hc. by rewrite bool_decide_eq_true_2. }
  rewrite (bind_Done _ _ _ _ _ (assign_eq _ _ _ _ Hs)). intros [= <- <-].
  assert (Hcode : code_of (db s) (set_code (ContractCode (db s) (addrHash o)
                                              (CodeHash (data o))) o)
                  = code_of (db s) o).
  { unfold code_of. simpl. rewrite Hc, bool_decide_eq_false_2 by done.
    by destruct (ContractCode _ _ _). }
  split; [|split; [done|]].
  - apply (journaled_cache _ _ o); done.
  - eexists. split; [simpl; apply lookup_insert_eq|]. split; [done|].
    split; [|done]. simpl.
    rewrite bool_decide_eq_false_2 by done. by destruct (ContractCode _ _ _).
Qed.

Lemma so_SetCode_run addr h c s o s' :
  stateObjects s !! addr = Some o → deleted o = false →
  so_SetCode addr h c s = Done (tt, s') → journaled s s'.
Proof.
  intros Hs Hd. unfold so_SetCode. unfold bind at 1.
  destruct (so_Code addr s) as [[prevcode s1]| |] eqn:Hcode; [|done..].
  destruct (so_Code_run _ _ _ _ _ Hs Hd Hcode)
    as (Hj & -> & o' & Hs' & Hd' & Hc' & Hh' & _).
  rewrite (bind_Done _ _ _ _ _ (deref_eq _ _ _ Hs')).
  unfold append. rewrite bind_modify.
  rewrite (assign_eq _ _ _ o') by done. intros [= <-].
  etrans; [exact Hj|].
  assert (Hdb : db s1 = db s) by apply Hj.
  apply (journaled_update _ _ _ _ _ (setCode (CodeHash (data o')) (code_of (db s) o)));
    first [done | apply setCode_respectful | idtac].
  rewrite Hdb. split; [done|]. split; [done|]. split; [done|].
  split; [|done]. rewrite <- Hc'. unfold code_of. simpl.
  destruct (code o') as [c'|]; [done|].
  destruct (bool_decide _); [done|]. by destruct (ContractCode _ _ _).
Qed.

(** [GetState] returns the slot of the copy and leaves an equivalent copy. *)
Lemma so_GetState_run addr key s o r s' :
  stateObjects s !! addr = Some o → deleted o = false →
  so_GetState addr key s = Done (r, s') →
  journaled s s' ∧ r = state_of (db s) o key
  ∧ ∃ o', stateObjects s' !! addr = Some o' ∧ deleted o' = false
          ∧ (∀ k, state_of (db s) o' k = state_of (db s) o k).
Proof.
  intros Hs Hd. unfold so_GetState.
  rewrite (bind_Done _ _ _ _ _ (deref_eq _ _ _ Hs)).
  unfold state_of at 1. destruct (dirtyStorage o !! key) as [v|] eqn:Hdirty.
  { intros [= <- <-]. split; [reflexivity|]. split; [done|]. by exists o. }
  unfold so_GetCommittedState.
  rewrite (bind_Done _ _ _ _ _ (deref_eq _ _ _ Hs)), bind_get.
  unfold committed_of. destruct (originStorage o !! key) as [v|] eqn:Horigin.
  { intros [= <- <-]. split; [reflexivity|]. split; [done|]. by exists o. }
  rewrite (bind_Done _ _ _ _ _ (assign_eq _ _ _ _ Hs)). intros [= <- <-].
  set (v := storage_TryGet _ _ _ _).
  assert (Hsame : ∀ k, state_of (db s) (set_originStorage key v o) k = state_of (db s) o k).
  { intros k. unfold state_of, committed_of. simpl.
    destruct (dirtyStorage o !! k); [done|].
    rewrite lookup_insert. case_decide; [subst k|done]. by rewrite Horigin. }
  split; [|split; [done|]].
  - apply (journaled_cache _ _ o); done.
  - eexists. split; [simpl; apply lookup_insert_eq|]. done.
Qed.

Lemma so_SetState_run addr key value s o s' :
  stateObjects s !! addr = Some o → deleted o = false →
  so_SetState addr key value s = Done (tt, s') → journaled s s'.
Proof.
  intros Hs Hd. unfold so_SetState. unfold bind at 1.
  destruct (so_GetState addr key s) as [[prev s1]| |] eqn:Hget; [|done..].
  destruct (so_GetState_run _ _ _ _ _ _ Hs Hd Hget)
    as (Hj & -> & o' & Hs' & Hd' & Hst).
  unfold append. rewrite bind_modify.
  rewrite (assign_eq _ _ _ o') by done. intros [= <-].
  etrans; [exact Hj|].
  assert (Hdb : db s1 = db s) by apply Hj.
  apply (journaled_update _ _ _ _ _ (setState key (state_of (db s) o key)));
    first [done | apply setState_respectful | idtac].
  rewrite Hdb. split; [done|]. split; [done|]. split; [done|].
  split; [done|]. split; [|done].
  intros k. rewrite !state_of_setState. case_decide; [subst k|done].
  by rewrite Hst.
Qed.

End MutatorFacts.

Section StateDBFacts.

(** A setter: [GetOrNewStateObject], then a method of the working copy. *)
Lemma setter_journaled {A} addr (k : M StateDB A) :
  (∀ s o a s', stateObjects s !! addr = Some o → deleted o = false →
               k s = Done (a, s') → journaled s s') →
  ∀ s a s',
    (stateObject <- GetOrNewStateObject addr;;
     match stateObject with Some _ => k | None => λ s, Panicked end) s = Done (a, s') →
    journaled s s'.
Proof.
  intros Hk s a s'. unfold bind at 1.
  destruct (GetOrNewStateObject addr s) as [[r s1]| |] eqn:Hget; [|done..].
  destruct (GetOrNewStateObject_run _ _ _ _ Hget) as (Hj & o & Hs & Hd & ->).
  intros Hrun. etrans; [exact Hj|]. by eapply Hk.
Qed.

Lemma GetOrNew_then {A} addr (k : M StateDB A) (z : M StateDB A) s :
  (stateObject <- GetOrNewStateObject addr;;
   match stateObject with Some _ => k | None => z end) s
  = (stateObject <- GetOrNewStateObject addr;;
     match stateObject with Some _ => k | None => λ s, Panicked end) s.
Proof.
  unfold bind. destruct (GetOrNewStateObject addr s) as [[r s1]| |] eqn:Hget; [|done..].
  by destruct (GetOrNewStateObject_run _ _ _ _ Hget) as (_ & o & _ & _ & ->).
Qed.

Lemma SetBalance_journaled addr amount : preserves journaled (SetBalance addr amount).
Proof.
  intros s a s'. unfold SetBalance. rewrite GetOrNew_then.
  apply setter_journaled. intros s0 o [] s0' Hs Hd.
  by apply (so_SetBalance_run _ _ _ o).
Qed.

Lemma AddBalance_journaled addr amount : preserves journaled (AddBalance addr amount).
Proof.
  intros s a s'. unfold AddBalance. rewrite GetOrNew_then.
  apply setter_journaled. intros s0 o [] s0' Hs Hd. unfold so_AddBalance.
  rewrite (bind_Done _ _ _ _ _ (deref_eq _ _ _ Hs)).
  by apply (so_SetBalance_run _ _ _ o).
Qed.

Lemma SubBalance_journaled addr amount : preserves journaled (SubBalance addr amount).
Proof.
  intros s a s'. unfold SubBalance. rewrite GetOrNew_then.
  apply setter_journaled. intros s0 o [] s0' Hs Hd. unfold so_SubBalance.
  rewrite (bind_Done _ _ _ _ _ (deref_eq _ _ _ Hs)).
  by apply (so_SetBalance_run _ _ _ o).
Qed.

Lemma SetNonce_journaled addr nonce : preserves journaled (SetNonce addr nonce).
Proof.
  intros s a s'. unfold SetNonce. rewrite GetOrNew_then.
  apply setter_journaled. intros s0 o [] s0' Hs Hd.
  by apply (so_SetNonce_run _ _ _ o).
Qed.

Lemma SetState_journaled addr key value : preserves journaled (SetState addr key value).
Proof.
  intros s a s'. unfold SetState. rewrite GetOrNew_then.
  apply setter_journaled. intros s0 o [] s0' Hs Hd.
  by apply (so_SetState_run _ _ _ _ o).
Qed.

Lemma SetCode_journaled addr c : preserves journaled (SetCode addr c).
Proof.
  intros s a s'. unfold SetCode. unfold bind at 1.
  destruct (GetOrNewStateObject addr s) as [[r s1]| |] eqn:Hget; [|done..].
  destruct (GetOrNewStateObject_run _ _ _ _ Hget) as (Hj & o & Hs & Hd & ->).
  rewrite bind_get. destruct a. intros Hrun.
  etrans; [exact Hj|]. by eapply so_SetCode_run.
Qed.

Lemma Suicide_journaled addr : preserves journaled (Suicide addr).
Proof.
  intros s a s'. unfold Suicide.
  rewrite (bind_Done _ _ _ _ _ (getStateObject_eq addr s)).
  destruct (live s addr) as [obj|] eqn:Hl.
  - unfold append. rewrite bind_modify.
    pose proof (load_lookup _ _ _ Hl) as Hs.
    rewrite (bind_assign addr markSuicided _ _ obj) by exact Hs.
    rewrite (bind_assign addr (setBalance 0) _ _ (markSuicided obj))
      by (simpl; apply lookup_insert_eq).
    intros [= _ H0].
    assert (Hs' : s' = set_stateObjects
                         (λ m, <[addr := (setBalance 0 ∘ markSuicided) obj]> m)
                         (set_journal
                            (journal_append
                               (suicideChange addr (suicided obj) (Balance (data obj))))
                            (load addr s))).
    { rewrite <- H0. unfold set_stateObjects. simpl. by rewrite insert_insert_eq. }
    rewrite Hs'. etrans; [apply (journaled_load addr)|].
    pose proof (live_not_deleted _ _ _ Hl) as Hd.
    apply (journaled_update _ _ _ _ _
             (setBalance (Balance (data obj)) ∘ set_suicided (suicided obj)));
      [by apply load_lookup | done | done | | | | ].
    + intros s0 o0 Hl0. simpl.
      rewrite (bind_Done _ _ _ _ _ (getStateObject_eq addr s0)), on_object_eq, Hl0.
      pose proof (load_lookup _ _ _ Hl0) as Hs0.
      rewrite (bind_assign addr (set_suicided (suicided obj)) _ _ o0) by exact Hs0.
      rewrite (assign_eq addr (setBalance (Balance (data obj))) _
                 (set_suicided (suicided obj) o0))
        by (simpl; apply lookup_insert_eq).
      unfold set_stateObjects. simpl. by rewrite insert_insert_eq.
    + apply compose_respectful; [apply setBalance_respectful|apply set_suicided_respectful].
    + apply compose_respectful; [apply setBalance_respectful|apply set_suicided_respectful].
    + by destruct obj as [? ? []].
  - intros [= _ <-]. apply journaled_load.
Qed.

End StateDBFacts.

Section LogFacts.

Lemma revert_addLog_eq th s l x :
  default [] (logs s !! th) = l ++ [x] →
  revert_entry (addLogChange th) s
  = Done (tt, set_logs (λ m, <[th := l]> m) (uint64 (logSize s - 1)) s).
Proof.
  intros H. unfold revert_entry. rewrite bind_get, H.
  destruct (l ++ [x]) as [|y ys] eqn:E; [by destruct l|].
  cbv beta iota. rewrite <- E, removelast_last. reflexivity.
Qed.

Lemma record_log_journaled log : preserves journaled (record_log log).
Proof.
  intros s a s'. unfold record_log, append. rewrite bind_get, bind_modify.
  intros [= _ <-].
  apply (journaled_one _ _ (addLogChange (thash s))); try done.
  intros Hwf. split; [done|].
  erewrite revert_addLog_eq; [|simpl; rewrite lookup_insert_eq; reflexivity].
  eexists. split; [reflexivity|].
  split; [done|]. split; [|split; [done|split; [|done]]].
  - intros b. destruct (live s b) eqn:Hl; unfold live in *; simpl; rewrite Hl;
      constructor. reflexivity.
  - intros hash. unfold GetLogs. simpl. rewrite insert_insert_eq, lookup_insert.
    by case_decide; subst.
Qed.

Lemma AddPreimage_journaled hash preimage : preserves journaled (AddPreimage hash preimage).
Proof.
  intros s a s'. unfold AddPreimage, append. rewrite bind_get.
  destruct (preimages s !! hash) eqn:Hp; [intros [= _ <-]; reflexivity|].
  rewrite bind_modify. intros [= _ <-].
  apply (journaled_one _ _ (addPreimageChange hash)); try done.
  intros Hwf. split; [done|]. simpl. eexists. split; [reflexivity|].
  split; [done|]. split; [|split; [done|split; [done|]]].
  - intros b. destruct (live s b) eqn:Hl; unfold live in *; simpl; rewrite Hl;
      constructor. reflexivity.
  - simpl. by rewrite delete_insert_id.
Qed.

Lemma set_refund_undone s r :
  db_equiv (set_refund (refund s) (set_refund r (set_journal (journal_append (refundChange (refund s))) s))) s.
Proof.
  split; [done|]. split; [|done].
  intros b. destruct (live s b) eqn:Hl; unfold live in *; simpl; rewrite Hl;
    constructor. reflexivity.
Qed.

Lemma AddRefund_journaled gas : preserves journaled (AddRefund gas).
Proof.
  intros s a s'. unfold AddRefund, append. rewrite bind_get, bind_modify.
  intros [= _ <-].
  apply (journaled_one _ _ (refundChange (refund s))); try done.
  intros Hwf. split; [done|]. eexists. split; [reflexivity|]. apply set_refund_undone.
Qed.

Lemma SubRefund_journaled gas : preserves journaled (SubRefund gas).
Proof.
  intros s a s'. unfold SubRefund, append. rewrite bind_get, bind_modify.
  destruct (refund s <? gas); [done|]. intros [= _ <-].
  apply (journaled_one _ _ (refundChange (refund s))); try done.
  intros Hwf. split; [done|]. eexists. split; [reflexivity|]. apply set_refund_undone.
Qed.

Lemma Prepare_journaled th bh ti : preserves journaled (Prepare th bh ti).
Proof.
  intros s a s'. unfold Prepare. intros [= _ <-].
  by apply journaled_silent.
Qed.

Lemma getStateObject_journaled addr : preserves journaled (getStateObject addr).
Proof.
  intros s a s'. rewrite getStateObject_eq. intros [= _ <-]. apply journaled_load.
Qed.

Lemma GetBalance_journaled addr : preserves journaled (GetBalance addr).
Proof.
  unfold GetBalance.
  apply preserves_bind; [apply _|apply getStateObject_journaled|intros [o|]];
    apply preserves_ret; apply _.
Qed.

Lemma GetNonce_journaled addr : preserves journaled (GetNonce addr).
Proof.
  unfold GetNonce.
  apply preserves_bind; [apply _|apply getStateObject_journaled|intros [o|]];
    apply preserves_ret; apply _.
Qed.

Lemma GetCode_journaled addr : preserves journaled (GetCode addr).
Proof.
  intros s a s'. unfold GetCode.
  rewrite (bind_Done _ _ _ _ _ (getStateObject_eq addr s)).
  destruct (live s addr) as [o|] eqn:Hl.
  - intros Hrun. etrans; [apply (journaled_load addr)|].
    eapply so_Code_run; [by apply load_lookup|by eapply live_not_deleted|exact Hrun].
  - intros [= _ <-]. apply journaled_load.
Qed.

Lemma GetState_journaled addr key : preserves journaled (GetState addr key).
Proof.
  intros s a s'. unfold GetState.
  rewrite (bind_Done _ _ _ _ _ (getStateObject_eq addr s)).
  destruct (live s addr) as [o|] eqn:Hl.
  - intros Hrun. etrans; [apply (journaled_load addr)|].
    eapply so_GetState_run; [by apply load_lookup|by eapply live_not_deleted|exact Hrun].
  - intros [= _ <-]. apply journaled_load.
Qed.

(** Every change other than taking or reverting to a snapshot is a
    journaled step. *)
Lemma apply_journaled m :
  m ≠ MSnapshot → (∀ revid, m ≠ MRevertToSnapshot revid) →
  preserves journaled (apply_db m).
Proof.
  intros Hs Hr. destruct m; simpl; try done.
  - apply AddBalance_journaled.
  - apply SubBalance_journaled.
  - apply SetBalance_journaled.
  - apply SetNonce_journaled.
  - apply SetCode_journaled.
  - apply SetState_journaled.
  - apply preserves_bind; [apply _|apply Suicide_journaled|intros ?].
    apply preserves_ret; apply _.
  - apply CreateAccount_journaled.
  - apply record_log_journaled.
  - apply AddPreimage_journaled.
  - apply AddRefund_journaled.
  - apply SubRefund_journaled.
  - apply Prepare_journaled.
  - apply preserves_bind; [apply _|apply GetBalance_journaled|intros ?].
    apply preserves_ret; apply _.
  - apply preserves_bind; [apply _|apply GetNonce_journaled|intros ?].
    apply preserves_ret; apply _.
  - apply preserves_bind; [apply _|apply GetCode_journaled|intros ?].
    apply preserves_ret; apply _.
  - apply preserves_bind; [apply _|apply GetState_journaled|intros ?].
    apply preserves_ret; apply _.
  - by destruct (Hr revid).
Qed.

End LogFacts.

Section SearchFacts.

Lemma StronglySorted_lookup_lt {A} (R : relation A) (l : list A) i j x y :
  StronglySorted R l → l !! i = Some x → l !! j = Some y → (i < j)%nat → R x y.
Proof.
  intros Hs Hi Hj Hlt.
  rewrite <- (take_drop_middle l j y Hj) in Hs.
  eapply StronglySorted_app_1_elem_of; [exact Hs| |by left].
  apply list_elem_of_lookup. exists i. rewrite lookup_take_lt by done. done.
Qed.

(** The loop of [sort.Search] on a predicate that, once true, stays true
    up to [n]: it ends at the least index where the predicate holds. *)
Lemma search_loop_spec (n : nat) (f : nat → bool) :
  (∀ i j, (i ≤ j)%nat → (j < n)%nat → f i = true → f j = true) →
  ∀ fuel i j,
    (i ≤ j)%nat → (j ≤ n)%nat → (j - i ≤ fuel)%nat →
    (∀ k, (k < i)%nat → f k = false) →
    ((j < n)%nat → f j = true) →
    (search_loop fuel f i j ≤ n)%nat
    ∧ (∀ k, (k < search_loop fuel f i j)%nat → f k = false)
    ∧ ((search_loop fuel f i j < n)%nat → f (search_loop fuel f i j) = true).
Proof.
  intros Hmono. induction fuel as [|fuel IH]; intros i j Hij Hjn Hfuel Hlow Hhigh;
    cbn [search_loop].
  { assert (i = j) as -> by lia. done. }
  case_bool_decide as Hlt; [|by assert (i = j) as -> by lia].
  assert (Hh : (i ≤ (i + j) / 2 ∧ (i + j) / 2 < j)%nat).
  { split; [apply Nat.div_le_lower_bound; lia|apply Nat.Div0.div_lt_upper_bound; lia]. }
  destruct (f ((i + j) / 2)%nat) eqn:Hf; cbn [negb].
  - apply IH; [lia|lia|lia|done|by intros _].
  - apply IH; [lia|lia|lia| |done].
    intros k Hk. destruct (f k) eqn:Hfk; [|done].
    rewrite <- Hf. symmetry. apply (Hmono k); [lia|lia|done].
Qed.

Lemma sort_Search_spec (n : nat) (f : nat → bool) :
  (∀ i j, (i ≤ j)%nat → (j < n)%nat → f i = true → f j = true) →
  (sort_Search n f ≤ n)%nat
  ∧ (∀ k, (k < sort_Search n f)%nat → f k = false)
  ∧ ((sort_Search n f < n)%nat → f (sort_Search n f) = true).
Proof.
  intros Hmono. unfold sort_Search.
  apply (search_loop_spec n f Hmono); [lia..| |lia]. intros k ?. lia.
Qed.

Lemma at_least_mono revs revid :
  StronglySorted Z.lt (id <$> revs) →
  ∀ i j, (i ≤ j)%nat → (j < length revs)%nat →
         at_least revs revid i = true → at_least revs revid j = true.
Proof.
  intros Hs i j Hij Hj. unfold at_least.
  destruct (revs !! i) as [ri|] eqn:Hi; [|done].
  destruct (lookup_lt_is_Some_2 revs j Hj) as [rj Hrj]. rewrite Hrj.
  intros Hri%bool_decide_eq_true. apply bool_decide_eq_true.
  destruct (decide (i = j)) as [->|Hne]; [congruence|].
  assert (id ri < id rj); [|lia].
  eapply (StronglySorted_lookup_lt Z.lt (id <$> revs) i j); [done| | |lia].
  - by rewrite list_lookup_fmap, Hi.
  - by rewrite list_lookup_fmap, Hrj.
Qed.

(** In a list of revisions with increasing ids, the search for the id of
    an entry ends at that entry. *)
Lemma search_finds revs i r :
  StronglySorted Z.lt (id <$> revs) → revs !! i = Some r →
  sort_Search (length revs) (at_least revs (id r)) = i.
Proof.
  intros Hs Hi.
  destruct (sort_Search_spec (length revs) (at_least revs (id r))
              (at_least_mono revs (id r) Hs)) as (Hle & Hlow & Hhigh).
  set (k := sort_Search _ _) in *.
  pose proof (lookup_lt_Some _ _ _ Hi) as Hlen.
  destruct (Nat.lt_trichotomy k i) as [Hlt|[->|Hgt]]; [|done|].
  - (* the search stopped early: an earlier id is at least [id r] *)
    assert (Hk : at_least revs (id r) k = true) by (apply Hhigh; lia).
    unfold at_least in Hk.
    destruct (revs !! k) as [rk|] eqn:Hrk; [|done].
    apply bool_decide_eq_true in Hk.
    assert (id rk < id r); [|lia].
    eapply (StronglySorted_lookup_lt Z.lt (id <$> revs) k i); [done| | |lia].
    + by rewrite list_lookup_fmap, Hrk.
    + by rewrite list_lookup_fmap, Hi.
  - (* the search went past [i] *)
    specialize (Hlow i Hgt). unfold at_least in Hlow. rewrite Hi in Hlow.
    apply bool_decide_eq_false in Hlow. lia.
Qed.

(** What the search returns, when the entry there carries the id. *)
Lemma search_found revs revid r :
  StronglySorted Z.lt (id <$> revs) →
  revs !! sort_Search (length revs) (at_least revs revid) = Some r →
  id r = revid →
  ∀ j rj, revs !! j = Some rj → (j < sort_Search (length revs) (at_least revs revid))%nat →
          id rj < revid.
Proof.
  intros Hs Hr Hid j rj Hj Hlt.
  destruct (sort_Search_spec (length revs) (at_least revs revid)
              (at_least_mono revs revid Hs)) as (_ & Hlow & _).
  specialize (Hlow j Hlt). unfold at_least in Hlow. rewrite Hj in Hlow.
  apply bool_decide_eq_false in Hlow. lia.
Qed.

End SearchFacts.

Section SnapshotFacts.

Lemma same_frame_load addr s : same_frame s (load addr s).
Proof. destruct (load_fields addr s) as (?&?&?&?). by unfold same_frame. Qed.

Lemma on_object_wf addr f s u :
  respectful f → wf_objects s →
  on_object addr f s = Done (tt, u) → wf_objects u ∧ same_frame s u.
Proof.
  intros [Hf _] Hwf. rewrite on_object_eq.
  destruct (live s addr) as [o|] eqn:Hl; [|done]. intros [= <-]. split.
  - apply wf_objects_insert; [by apply wf_objects_load| |].
    + destruct (Hf o) as [_ ->]. by eapply live_address.
    + destruct (Hf o) as [-> _]. by eapply live_not_deleted.
  - apply (same_frame_load addr s).
Qed.

Lemma revert_entry_wf e s u :
  good_entry e → wf_objects s →
  revert_entry e s = Done (tt, u) → wf_objects u ∧ same_frame s u.
Proof.
  intros Hg Hwf. destruct e as [a|prev|a p pb|a p|a p|a k p|a h c|p|th|h|a]; simpl.
  - intros [= <-]. split; [|done]. intros b o. simpl. rewrite lookup_delete.
    case_decide; [done|apply Hwf].
  - intros [= <-]. split; [|done]. by apply wf_objects_insert.
  - rewrite (bind_Done _ _ _ _ _ (getStateObject_eq a s)).
    destruct (live s a) as [o|] eqn:Hl.
    + rewrite (bind_assign a (set_suicided p) _ _ o) by by apply load_lookup.
      rewrite (assign_eq a (setBalance pb) _ (set_suicided p o))
        by (simpl; apply lookup_insert_eq).
      intros [= <-]. split; [|apply (same_frame_load a s)].
      apply wf_objects_insert;
        [|simpl; by eapply live_address|simpl; by eapply live_not_deleted].
      apply wf_objects_insert;
        [by apply wf_objects_load|simpl; by eapply live_address|].
      simpl. by eapply live_not_deleted.
    + intros [= <-]. split; [by apply wf_objects_load|apply same_frame_load].
  - apply on_object_wf; [apply setBalance_respectful|done].
  - apply on_object_wf; [apply setNonce_respectful|done].
  - apply on_object_wf; [apply setState_respectful|done].
  - apply on_object_wf; [apply setCode_respectful|done].
  - by intros [= <-].
  - rewrite bind_get. destruct (default [] (logs s !! th)); [done|]. by intros [= <-].
  - by intros [= <-].
  - by intros [= <-].
Qed.

Lemma revert_entries_wf es s u :
  Forall good_entry es → wf_objects s →
  revert_entries es s = Done (tt, u) → wf_objects u ∧ same_frame s u.
Proof.
  revert s. induction es as [|e es IH]; intros s Hg Hwf; simpl.
  { intros [= <-]. split; [done|]. by unfold same_frame. }
  apply Forall_cons in Hg as [He Hes]. unfold bind.
  destruct (revert_entry e s) as [[[] v]| |] eqn:Hv; [|done..].
  destruct (revert_entry_wf _ _ _ He Hwf Hv) as (Hwfv & Hd1 & Hj1 & Hv1 & Hn1).
  intros Hu. destruct (IH _ Hes Hwfv Hu) as (Hwfu & Hd2 & Hj2 & Hv2 & Hn2).
  split; [done|]. unfold same_frame. repeat split; congruence.
Qed.

(** States that differ in the journal and the revisions only. *)
Lemma db_equiv_frame s j revs next :
  db_equiv (set_revisions revs next (set_journal j s)) s.
Proof.
  split; [done|]. split; [|done]. intros b.
  change (live (set_revisions revs next (set_journal j s)) b) with (live s b).
  destruct (live s b); constructor. reflexivity.
Qed.

Lemma Snapshot_eq s :
  Snapshot s
  = Done (nextRevisionId s,
          set_revisions
            (validRevisions s
             ++ [mkRevision (nextRevisionId s) (length (entries (journal_ s)))])
            (int64 (nextRevisionId s + 1)) s).
Proof. reflexivity. Qed.

Lemma int64_small x : 0 ≤ x < 2 ^ 63 → int64 x = x.
Proof. intros H. unfold int64. rewrite Z.mod_small; lia. Qed.

Lemma journal_revert_eq snapshot s u :
  (snapshot ≤ length (entries (journal_ s)))%nat →
  revert_entries (reverse (drop snapshot (entries (journal_ s)))) s = Done (tt, u) →
  journal_revert snapshot s
  = Done (tt, set_journal (λ _, mkJournal (take snapshot (entries (journal_ s)))
                                  (dirties_of (take snapshot (entries (journal_ s))))) u).
Proof.
  intros Hlen Hu. unfold journal_revert. rewrite bind_get.
  rewrite bool_decide_eq_false_2 by lia.
  by rewrite (bind_Done _ _ _ _ _ Hu).
Qed.

(** The revert to the revision at index [idx], when the search ends
    there. *)
Lemma RevertToSnapshot_at revid s idx r u :
  sort_Search (length (validRevisions s)) (at_least (validRevisions s) revid) = idx →
  validRevisions s !! idx = Some r → id r = revid →
  (journalIndex r ≤ length (entries (journal_ s)))%nat →
  Forall good_entry (drop (journalIndex r) (entries (journal_ s))) → wf_objects s →
  revert_entries (reverse (drop (journalIndex r) (entries (journal_ s)))) s = Done (tt, u) →
  RevertToSnapshot revid s
  = Done (tt, set_revisions (take idx (validRevisions s)) (nextRevisionId s)
                (set_journal (λ _, mkJournal (take (journalIndex r) (entries (journal_ s)))
                                     (dirties_of (take (journalIndex r)
                                                    (entries (journal_ s))))) u)).
Proof.
  intros Hidx Hr Hid Hlen Hg Hwf Hu.
  unfold RevertToSnapshot. rewrite bind_get, Hidx, Hr.
  rewrite bool_decide_eq_false_2 by (by intros ?).
  rewrite (bind_Done _ _ _ _ _ (journal_revert_eq _ _ _ Hlen Hu)).
  destruct (revert_entries_wf _ _ _ ltac:(by apply Forall_reverse) Hwf Hu)
    as (_ & _ & _ & Hv & Hn).
  unfold modify. simpl. by rewrite Hv, Hn.
Qed.

End SnapshotFacts.

Section SinceFacts.

(** States with the same database, live set, refund, logs and preimages. *)
Lemma db_equiv_fields s s' :
  db s' = db s → stateObjects s' = stateObjects s → refund s' = refund s →
  logs s' = logs s → preimages s' = preimages s → db_equiv s' s.
Proof.
  intros Hd Ho Hr Hl Hp. split; [done|]. split; [|split; [done|split; [|done]]].
  - intros b. unfold live. rewrite Ho, Hd.
    destruct (stateObjects s !! b) as [o|].
    + destruct (deleted o); constructor. reflexivity.
    + destruct (trie_TryGet (db s) b); constructor. reflexivity.
  - intros h. unfold GetLogs. by rewrite Hl.
Qed.

Lemma StronglySorted_snoc {A} (R : relation A) (l : list A) x :
  StronglySorted R l → Forall (λ y, R y x) l → StronglySorted R (l ++ [x]).
Proof.
  induction 1 as [|y l Hl IH Hy]; intros Hx; simpl.
  - repeat constructor.
  - apply Forall_cons in Hx as [Hyx Hlx]. constructor; [by apply IH|].
    apply Forall_app. split; [done|]. by constructor.
Qed.

Lemma StronglySorted_take {A} (R : relation A) (l : list A) n :
  StronglySorted R l → StronglySorted R (take n l).
Proof.
  intros Hs. rewrite <- (take_drop n l) in Hs.
  by apply StronglySorted_app_1_l in Hs.
Qed.

(** A snapshot opens the span of states it can be reverted from. *)
Lemma Snapshot_since s0 id0 s1 :
  wf s0 → nextRevisionId s0 + 1 < 2 ^ 63 →
  Snapshot s0 = Done (id0, s1) →
  id0 = nextRevisionId s0 ∧ since_snapshot s0 s1
  ∧ nextRevisionId s1 = nextRevisionId s0 + 1.
Proof.
  intros [Hwf (Hsorted & Hbelow & Hnext)] Hsmall. rewrite Snapshot_eq.
  intros [= <- <-]. split; [done|]. split; [|simpl; apply int64_small; lia].
  split; simpl.
  - done.
  - exact Hwf.
  - rewrite int64_small by lia. lia.
  - exists []. repeat split; [constructor|constructor].
  - rewrite fmap_app. simpl. apply StronglySorted_snoc; [done|].
    by apply Forall_fmap.
  - rewrite int64_small by lia. apply Forall_app. split.
    + eapply Forall_impl; [exact Hbelow|]. simpl. intros; lia.
    + repeat constructor. simpl. lia.
  - exists []. split; [by rewrite app_nil_r|]. split; [constructor|].
    eexists. split; [reflexivity|]. by apply db_equiv_fields.
Qed.

(** Journaled steps stay within the span. *)
Lemma since_journaled s0 s s' :
  since_snapshot s0 s → journaled s s' →
  since_snapshot s0 s' ∧ nextRevisionId s' = nextRevisionId s.
Proof.
  intros [Hd Hwf Hnext (later & Hrevs & Hlater & Hidx) Hsorted Hbelow
            (es & Hes & Hgood & u & Hu & Hequiv)]
         (Hd' & Hrevs' & Hnext' & es' & Hes' & Hgood' & Hundo).
  destruct (Hundo Hwf) as (Hwf' & u' & Hu' & Hequiv').
  split; [|done]. split.
  - congruence.
  - done.
  - lia.
  - exists later. rewrite Hrevs'. split; [done|]. split; [|done].
    eapply Forall_impl; [exact Hlater|]. simpl. intros r [? ?].
    rewrite Hes', length_app. lia.
  - by rewrite Hrevs'.
  - rewrite Hrevs', Hnext'. done.
  - exists (es ++ es'). split; [by rewrite Hes', Hes, app_assoc|].
    split; [by apply Forall_app|].
    rewrite reverse_app, revert_entries_app, (bind_Done _ _ _ _ _ Hu').
    destruct (revert_entries_congruence (reverse es) s u' u) as (u2 & Hu2 & Hequiv2);
      [by symmetry|done|].
    exists u2. split; [done|]. etrans; [symmetry; exact Hequiv2|done].
Qed.

(** A later snapshot stays within the span. *)
Lemma since_Snapshot s0 s i s' :
  since_snapshot s0 s → 0 ≤ nextRevisionId s0 → nextRevisionId s + 1 < 2 ^ 63 →
  Snapshot s = Done (i, s') →
  since_snapshot s0 s' ∧ nextRevisionId s' = nextRevisionId s + 1.
Proof.
  intros [Hd Hwf Hnext (later & Hrevs & Hlater & Hidx) Hsorted Hbelow
            (es & Hes & Hgood & u & Hu & Hequiv)] H0 Hsmall.
  rewrite Snapshot_eq. intros [= <- <-].
  split; [|simpl; apply int64_small; lia]. split; simpl.
  - done.
  - exact Hwf.
  - rewrite int64_small by lia. lia.
  - exists (later ++ [mkRevision (nextRevisionId s) (length (entries (journal_ s)))]).
    split; [|split].
    + rewrite Hrevs. by rewrite <- app_assoc.
    + apply Forall_app. split; [done|]. constructor; [|constructor]. simpl.
      rewrite Hes, length_app. lia.
    + rewrite fmap_app. simpl. apply StronglySorted_snoc; [done|].
      apply Forall_fmap. eapply Forall_impl; [exact Hlater|]. simpl. intros; lia.
  - rewrite fmap_app. simpl. apply StronglySorted_snoc; [done|].
    by apply Forall_fmap.
  - rewrite int64_small by lia. apply Forall_app. split.
    + eapply Forall_impl; [exact Hbelow|]. simpl. intros; lia.
    + repeat constructor. simpl. lia.
  - exists es. split; [done|]. split; [done|].
    destruct (revert_entries_congruence (reverse es) s
                (set_revisions
                   (validRevisions s
                    ++ [mkRevision (nextRevisionId s) (length (entries (journal_ s)))])
                   (int64 (nextRevisionId s + 1)) s) u) as (u2 & Hu2 & Hequiv2);
      [symmetry; by apply db_equiv_fields|done|].
    exists u2. split; [done|]. etrans; [symmetry; exact Hequiv2|done].
Qed.

(** Undoing the records of a span in two parts. *)
Lemma revert_entries_split es k s u :
  revert_entries (reverse es) s = Done (tt, u) →
  ∃ v, revert_entries (reverse (drop k es)) s = Done (tt, v)
       ∧ revert_entries (reverse (take k es)) v = Done (tt, u).
Proof.
  rewrite <- (take_drop k es) at 1. rewrite reverse_app, revert_entries_app.
  unfold bind. destruct (revert_entries (reverse (drop k es)) s) as [[[] v]| |];
    [|done..].
  intros Hu. by exists v.
Qed.

(** A revert to a snapshot taken later stays within the span. *)
Lemma since_RevertToSnapshot s0 s revid s' :
  since_snapshot s0 s → nextRevisionId s0 < revid →
  RevertToSnapshot revid s = Done (tt, s') →
  since_snapshot s0 s' ∧ nextRevisionId s' = nextRevisionId s.
Proof.
  intros [Hd Hwf Hnext (later & Hrevs & Hlater & Hidx) Hsorted Hbelow
            (es & Hes & Hgood & u & Hu & Hequiv)] Hlt Hrun.
  set (idx := sort_Search (length (validRevisions s)) (at_least (validRevisions s) revid)).
  assert (Hfound : ∃ r, validRevisions s !! idx = Some r ∧ id r = revid).
  { revert Hrun. unfold RevertToSnapshot. rewrite bind_get. fold idx.
    destruct (validRevisions s !! idx) as [r|]; [|done].
    case_bool_decide as Hne; [done|]. intros _. exists r. split; [done|].
    by destruct (decide (id r = revid)). }
  destruct Hfound as (r & Hr & Hid).
  set (revs0 := validRevisions s0) in *.
  set (n0 := length (entries (journal_ s0))) in *.
  (* the revision lies behind the snapshot of [s0] *)
  assert (Hpos : (length revs0 < idx)%nat).
  { destruct (Nat.lt_ge_cases (length revs0) idx) as [|Hle]; [done|]. exfalso.
    assert (Hrev0 : validRevisions s !! length revs0
                    = Some (mkRevision (nextRevisionId s0) n0)).
    { rewrite Hrevs. by rewrite list_lookup_middle. }
    destruct (decide (idx = length revs0)) as [Heq|Hne].
    - rewrite Heq, Hrev0 in Hr. injection Hr as <-. simpl in Hid. lia.
    - assert (id r < nextRevisionId s0); [|lia].
      eapply (StronglySorted_lookup_lt Z.lt (id <$> validRevisions s) idx (length revs0));
        [done| | |lia].
      + by rewrite list_lookup_fmap, Hr.
      + by rewrite list_lookup_fmap, Hrev0. }
  set (k := (idx - length revs0 - 1)%nat).
  assert (Hk : later !! k = Some r).
  { rewrite Hrevs in Hr. rewrite lookup_app_r in Hr by lia.
    replace (idx - length revs0)%nat with (S k) in Hr by lia. done. }
  assert (Hji : (n0 ≤ journalIndex r ≤ length (entries (journal_ s)))%nat).
  { eapply (Forall_lookup_1 _ _ _ _ Hlater Hk). }
  set (j := (journalIndex r - n0)%nat).
  destruct (revert_entries_split es j s u Hu) as (v & Hv & Hvu).
  assert (Hdrop : drop (journalIndex r) (entries (journal_ s)) = drop j es).
  { rewrite Hes. rewrite drop_app_ge by (fold n0; lia). done. }
  assert (Htake : take (journalIndex r) (entries (journal_ s))
                  = entries (journal_ s0) ++ take j es).
  { rewrite Hes. rewrite take_app_ge by (fold n0; lia). done. }
  assert (Hgood_drop : Forall good_entry (drop j es)) by by apply Forall_drop.
  destruct (revert_entries_wf _ _ _ ltac:(by apply Forall_reverse) Hwf Hv)
    as (Hwfv & Hdv & Hjv & Hrv & Hnv).
  rewrite (RevertToSnapshot_at revid s idx r v) in Hrun;
    [|done|done|done|lia|by rewrite Hdrop|done|by rewrite Hdrop].
  injection Hrun as <-. split; [|done]. split; simpl.
  - congruence.
  - exact Hwfv.
  - done.
  - exists (take k later). split; [|split].
    + rewrite Hrevs. rewrite take_app_ge by (fold revs0; lia).
      replace (idx - length revs0)%nat with (S k) by lia. done.
    + apply Forall_forall. intros r' Hr'.
      apply list_elem_of_lookup in Hr' as [i Hi].
      apply lookup_take_Some in Hi as [Hi Hik].
      pose proof (Forall_lookup_1 _ _ _ _ Hlater Hi) as [? ?]. split; [done|].
      rewrite length_take. apply Nat.min_glb; [|lia].
      eapply (StronglySorted_lookup_lt le (journalIndex <$> later) i k);
        [done| | |done].
      * by rewrite list_lookup_fmap, Hi.
      * by rewrite list_lookup_fmap, Hk.
    + rewrite fmap_take. by apply StronglySorted_take.
  - rewrite fmap_take. by apply StronglySorted_take.
  - by apply Forall_take.
  - exists (take j es). split; [done|]. split; [by apply Forall_take|].
    match goal with
    | |- ∃ u, revert_entries _ ?s' = _ ∧ _ =>
      destruct (revert_entries_congruence (reverse (take j es)) v s' u)
        as (u2 & Hu2 & Hequiv2); [symmetry; by apply db_equiv_fields|done|]
    end.
    exists u2. split; [done|]. etrans; [symmetry; exact Hequiv2|done].
Qed.

(** One change stays within the span, and uses up at most one id. *)
Lemma since_apply s0 s m s' :
  since_snapshot s0 s → 0 ≤ nextRevisionId s0 → nextRevisionId s + 1 < 2 ^ 63 →
  (∀ revid, m = MRevertToSnapshot revid → nextRevisionId s0 < revid) →
  apply_db m s = Done (tt, s') →
  since_snapshot s0 s' ∧ nextRevisionId s' ≤ nextRevisionId s + 1.
Proof.
  intros Hsince H0 Hsmall Hlater Hrun.
  destruct m;
    try (destruct (since_journaled s0 s s' Hsince) as [? ->];
         [refine (apply_journaled _ _ _ s tt s' Hrun); done
         |split; [done|lia]]).
  - simpl in Hrun. unfold bind in Hrun.
    destruct (Snapshot s) as [[i v]| |] eqn:Hsnap; [|done..].
    unfold ret in Hrun. injection Hrun as <-.
    destruct (since_Snapshot s0 s i v Hsince H0 Hsmall Hsnap) as [? ->].
    split; [done|lia].
  - destruct (since_RevertToSnapshot s0 s revid s' Hsince (Hlater _ eq_refl) Hrun)
      as [? ->].
    split; [done|lia].
Qed.

(** So does a sequence of changes. *)
Lemma since_apply_all s0 ms : ∀ s s',
  since_snapshot s0 s → 0 ≤ nextRevisionId s0 →
  nextRevisionId s + Z.of_nat (length ms) < 2 ^ 63 →
  Forall (λ revid, nextRevisionId s0 < revid) (reverted_ids ms) →
  apply_db_all ms s = Done (tt, s') →
  since_snapshot s0 s'.
Proof.
  induction ms as [|m ms IH]; intros s s' Hsince H0 Hsmall Hids; simpl.
  { by intros [= <-]. }
  unfold bind. destruct (apply_db m s) as [[[] v]| |] eqn:Hv; [|done..].
  intros Hrun. simpl in Hsmall.
  destruct (since_apply s0 s m v Hsince H0 ltac:(lia)) as [Hsince' Hnext]; [|done|].
  { intros revid ->. simpl in Hids. by apply Forall_cons in Hids as [? _]. }
  apply (IH v s' Hsince' H0); [lia| |done].
  unfold reverted_ids in *. simpl in Hids. destruct m; try done.
  by apply Forall_cons in Hids as [_ ?].
Qed.

(** From within the span, the revert to the snapshot goes through and ends
    in a state no getter tells from the one snapshotted. *)
Lemma since_revert s0 s :
  since_snapshot s0 s →
  ∃ s3, RevertToSnapshot (nextRevisionId s0) s = Done (tt, s3) ∧ db_equiv s3 s0.
Proof.
  intros [Hd Hwf Hnext (later & Hrevs & Hlater & Hidx) Hsorted Hbelow
            (es & Hes & Hgood & u & Hu & Hequiv)].
  set (r0 := mkRevision (nextRevisionId s0) (length (entries (journal_ s0)))) in *.
  assert (Hr0 : validRevisions s !! length (validRevisions s0) = Some r0).
  { rewrite Hrevs. by rewrite list_lookup_middle. }
  assert (Hdrop : drop (journalIndex r0) (entries (journal_ s)) = es).
  { rewrite Hes. simpl. by rewrite drop_app_length. }
  eexists. split.
  - apply (RevertToSnapshot_at _ s (length (validRevisions s0)) r0 u).
    + by apply (search_finds (validRevisions s) _ r0).
    + done.
    + done.
    + simpl. rewrite Hes, length_app. lia.
    + by rewrite Hdrop.
    + done.
    + by rewrite Hdrop.
  - etrans; [|exact Hequiv]. apply db_equiv_fields; done.
Qed.

End SinceFacts.

(** The snapshot and the revert on the [StateDB] alone: what the getters
    return, and the pointers [GetLogs] returns, are as at the snapshot. *)
Lemma snapshot_revert_db (s0 : StateDB) (ms : list mutation)
    (id0 : Z) (s1 s2 : StateDB) :
  wf s0 →
  nextRevisionId s0 + Z.of_nat (length ms) + 1 < 2 ^ 63 →
  Snapshot s0 = Done (id0, s1) →
  Forall (λ revid, id0 < revid) (reverted_ids ms) →
  apply_db_all ms s1 = Done (tt, s2) →
  ∃ s3, RevertToSnapshot id0 s2 = Done (tt, s3) ∧ same_db_observations s0 s3.
Proof.
  intros Hwf Hsmall Hsnap Hids Hrun.
  pose proof Hwf as [_ (_ & _ & H0)].
  destruct (Snapshot_since s0 id0 s1 Hwf ltac:(lia) Hsnap) as (-> & Hsince & Hnext).
  assert (Hsince2 : since_snapshot s0 s2).
  { apply (since_apply_all s0 ms s1 s2 Hsince H0); [lia|done|done]. }
  destruct (since_revert s0 s2 Hsince2) as (s3 & Hs3 & Hequiv).
  exists s3. split; [done|]. by apply db_equiv_observations.
Qed.

Section WorldFacts.

Lemma on_db_run {A} (m : M StateDB A) w a w' :
  on_db m w = Done (a, w') →
  m (statedb w) = Done (a, statedb w') ∧ memory w' = memory w.
Proof.
  unfold on_db. destruct (m (statedb w)) as [[a' s']| |]; [|done..].
  by intros [= <- <-].
Qed.

Lemma on_db_Done {A} (m : M StateDB A) w a s' :
  m (statedb w) = Done (a, s') → on_db m w = Done (a, mkWorld s' (memory w)).
Proof. unfold on_db. by intros ->. Qed.

Lemma record_log_eq log s :
  record_log log s
  = Done (tt, set_logs (λ m, <[thash s := default [] (m !! thash s) ++ [log]]> m)
                (uint64 (logSize s + 1))
                (set_journal (journal_append (addLogChange (thash s))) s)).
Proof. unfold record_log, append. by rewrite bind_get, bind_modify. Qed.

(** [AddLog] through a pointer to an object: the object is overwritten
    with its stamped version, the [StateDB] keeps the pointer. *)
Lemma AddLog_eq log w l :
  memory w !! log = Some l →
  AddLog log w
  = Done (tt, mkWorld
                (set_logs (λ m, <[thash (statedb w)
                                  := default [] (m !! thash (statedb w)) ++ [log]]> m)
                   (uint64 (logSize (statedb w) + 1))
                   (set_journal (journal_append (addLogChange (thash (statedb w))))
                      (statedb w)))
                (<[log := stamp (statedb w) l]> (memory w))).
Proof.
  intros Hl. unfold AddLog. rewrite bind_get. cbv zeta.
  unfold bind, on_db, append, modify, set_memory. simpl. by rewrite Hl.
Qed.

Lemma AddLog_nil log w : memory w !! log = None → AddLog log w = Panicked.
Proof.
  intros Hl. unfold AddLog. rewrite bind_get. cbv zeta.
  unfold bind, on_db, append, modify. simpl. by rewrite Hl.
Qed.

Lemma added_logs_cons m ms :
  added_logs (m :: ms) = added_logs [m] ++ added_logs ms.
Proof. unfold added_logs. simpl. by destruct m. Qed.

(** A change does to the [StateDB] what [apply_db] says, and writes to no
    log object but the one it is given. *)
Lemma apply_run m w w' :
  apply m w = Done (tt, w') →
  apply_db m (statedb w) = Done (tt, statedb w') ∧ memory_kept (added_logs [m]) w w'.
Proof.
  destruct m; simpl;
    try (intros [? Hm]%on_db_run; split; [done|]; intros p _; by rewrite Hm).
  destruct (memory w !! log) as [l|] eqn:Hl; [|by rewrite AddLog_nil].
  rewrite (AddLog_eq _ _ _ Hl). intros [= <-]. simpl.
  split; [apply record_log_eq|].
  intros p Hp. simpl. apply lookup_insert_ne. intros ->. apply Hp. by left.
Qed.

Lemma apply_all_run ms : ∀ w w',
  apply_all ms w = Done (tt, w') →
  apply_db_all ms (statedb w) = Done (tt, statedb w')
  ∧ memory_kept (added_logs ms) w w'.
Proof.
  induction ms as [|m ms IH]; intros w w'; cbn [apply_all apply_db_all].
  { intros [= <-]. by split. }
  unfold bind at 1. destruct (apply m w) as [[[] v]| |] eqn:Hv; [|done..].
  intros Hrun. destruct (apply_run _ _ _ Hv) as [Hdb Hkept].
  destruct (IH _ _ Hrun) as [Hdb' Hkept'].
  split; [by rewrite (bind_Done _ _ _ _ _ Hdb)|].
  intros p Hp. rewrite added_logs_cons in Hp.
  apply not_elem_of_app in Hp as [Hp1 Hp2].
  by rewrite (Hkept' p Hp2), (Hkept p Hp1).
Qed.

End WorldFacts.

(** C1, as the code has it: take a snapshot of a well-formed state, then
    run any sequence of journaled changes that completes (balance, nonce,
    code and storage updates, account creation and self-destruction, logs,
    preimages, refund changes, reads, and further snapshots with reverts to
    them), then call [RevertToSnapshot] with the id the snapshot returned.
    When no log object passed to [AddLog] in between is one that the logs
    already pointed to at the snapshot, the revert completes, and every
    balance, nonce, code, storage slot, the refund counter, the logs (the
    pointers kept and the objects read through them) and the preimages are
    as they were when the snapshot was taken. The revision counter is an
    [int64] and is assumed not to wrap. *)
Theorem snapshot_revert_restores (w0 : World) (ms : list mutation)
    (id0 : Z) (w1 w2 : World) :
  wf (statedb w0) →
  nextRevisionId (statedb w0) + Z.of_nat (length ms) + 1 < 2 ^ 63 →
  on_db Snapshot w0 = Done (id0, w1) →
  Forall (λ revid, id0 < revid) (reverted_ids ms) →
  Forall (λ p, ¬ recorded (statedb w0) p) (added_logs ms) →
  apply_all ms w1 = Done (tt, w2) →
  ∃ w3, on_db (RevertToSnapshot id0) w2 = Done (tt, w3) ∧ same_observations w0 w3.
Proof.
  intros Hwf Hsmall Hsnap Hids Hfresh Hrun.
  apply on_db_run in Hsnap as [Hsnap Hm1].
  apply apply_all_run in Hrun as [Hrun Hkept].
  destruct (snapshot_revert_db _ ms id0 _ _ Hwf Hsmall Hsnap Hids Hrun)
    as (s3 & Hrev & Hobs).
  exists (mkWorld s3 (memory w2)). split; [by apply on_db_Done|].
  split; [done|].
  intros hash. unfold read_logs. simpl.
  destruct Hobs as (_ & _ & _ & _ & _ & Hlogs & _). rewrite Hlogs.
  apply list_fmap_ext. intros i p Hp%list_elem_of_lookup_2.
  rewrite <- Hm1. apply Hkept. intros Hadded.
  rewrite Forall_forall in Hfresh. apply (Hfresh p Hadded). by exists hash.
Qed.

Lemma snapshot_revert_restores_witness :
  let w1 := run_state (on_db Snapshot) sample_world in
  let w2 := run_state (apply_all sample_mutations) w1 in
  on_db Snapshot sample_world = Done (0, w1)
  ∧ apply_all sample_mutations w1 = Done (tt, w2)
  ∧ ∃ w3, on_db (RevertToSnapshot 0) w2 = Done (tt, w3)
          ∧ same_observations sample_world w3.
Proof.
  intros w1 w2.
  assert (Hsnap : on_db Snapshot sample_world = Done (0, w1))
    by (apply (run_Done (on_db Snapshot) sample_world 0); vm_compute; reflexivity).
  assert (Hrun : apply_all sample_mutations w1 = Done (tt, w2))
    by (apply (run_Done (apply_all sample_mutations) w1 tt); vm_compute; reflexivity).
  assert (Hwf : wf (statedb sample_world)).
  { split.
    - intros addr obj H. unfold sample_world, sample_state in H.
      cbn [statedb stateObjects] in H. by rewrite lookup_empty in H.
    - split; [constructor|]. split; [constructor|]. cbn. lia. }
  assert (Hsmall : nextRevisionId (statedb sample_world)
                   + Z.of_nat (length sample_mutations) + 1 < 2 ^ 63)
    by (cbn; lia).
  assert (Hids : Forall (λ revid, 0 < revid) (reverted_ids sample_mutations))
    by (cbn; repeat constructor).
  assert (Hfresh : Forall (λ p, ¬ recorded (statedb sample_world) p)
                     (added_logs sample_mutations)).
  { apply Forall_forall. intros p _ [hash Hp]. unfold GetLogs in Hp. simpl in Hp.
    rewrite lookup_empty in Hp. by apply elem_of_nil in Hp. }
  split; [exact Hsnap|]. split; [exact Hrun|].
  exact (snapshot_revert_restores sample_world sample_mutations 0 w1 w2
           Hwf Hsmall Hsnap Hids Hfresh Hrun).
Defined.

(** C1 as stated fails: [AddLog] stamps the caller's log object in place
    and keeps the pointer, and the revert only drops pointers. A log object
    that the logs already point to at the snapshot, and that is added again
    under another transaction after it, reads with the later stamp once the
    revert is done. *)
Lemma relogged_log_stays_stamped :
  ¬ (∀ (w0 : World) (ms : list mutation) (id0 : Z) (w1 w2 : World),
       wf (statedb w0) →
       nextRevisionId (statedb w0) + Z.of_nat (length ms) + 1 < 2 ^ 63 →
       on_db Snapshot w0 = Done (id0, w1) →
       Forall (λ revid, id0 < revid) (reverted_ids ms) →
       apply_all ms w1 = Done (tt, w2) →
       ∃ w3, on_db (RevertToSnapshot id0) w2 = Done (tt, w3)
             ∧ same_observations w0 w3).
Proof.
  intros H.
  set (w1 := run_state (on_db Snapshot) logged_world).
  set (w2 := run_state (apply_all relogging) w1).
  assert (Hsnap : on_db Snapshot logged_world = Done (0, w1))
    by (apply (run_Done (on_db Snapshot) logged_world 0); vm_compute; reflexivity).
  assert (Hrun : apply_all relogging w1 = Done (tt, w2))
    by (apply (run_Done (apply_all relogging) w1 tt); vm_compute; reflexivity).
  assert (Hobjects : stateObjects (statedb logged_world) = ∅)
    by (vm_compute; reflexivity).
  assert (Hrevs : validRevisions (statedb logged_world) = []
                  ∧ nextRevisionId (statedb logged_world) = 0)
    by (vm_compute; done).
  destruct Hrevs as [Hrevs Hnext].
  destruct (H logged_world relogging 0 w1 w2) as (w3 & Hrev & _ & Hlogs).
  - split.
    + intros addr obj Hobj. by rewrite Hobjects, lookup_empty in Hobj.
    + unfold wf_revisions. rewrite Hrevs, Hnext.
      split; [constructor|]. split; [constructor|done].
  - rewrite Hnext. cbn. lia.
  - exact Hsnap.
  - cbn. constructor.
  - exact Hrun.
  - assert (Hw3 : run_state (on_db (RevertToSnapshot 0)) w2 = w3)
      by (unfold run_state; by rewrite Hrev).
    specialize (Hlogs "tx1"%string). rewrite <- Hw3 in Hlogs.
    vm_compute in Hlogs. discriminate Hlogs.
Qed.

(** C10: [AddPreimage] on a hash that already has a preimage leaves the
    whole [StateDB] as it was: no journal entry is appended and the stored
    preimage is not overwritten, whatever bytes are passed. *)
Theorem AddPreimage_idempotent (hash : Hash) (preimage : string) (s : StateDB) :
  is_Some (preimages s !! hash) →
  AddPreimage hash preimage s = Done (tt, s).
Proof.
  intros [p Hp]. unfold AddPreimage. by rewrite bind_get, Hp.
Qed.

Lemma AddPreimage_idempotent_witness :
  let s := run_state (AddPreimage "h" "first") sample_state in
  AddPreimage "h" "first" sample_state = Done (tt, s)
  ∧ AddPreimage "h" "second" s = Done (tt, s).
Proof.
  intros s. split.
  - apply run_Done. vm_compute. reflexivity.
  - apply AddPreimage_idempotent. exists "first"%string. vm_compute. reflexivity.
Defined.

(** ** Further properties of the state database *)

Section GetterFacts.

Lemma load_absent addr s : live s addr = None → load addr s = s.
Proof.
  unfold live, load. destruct (stateObjects s !! addr) as [o|]; [done|].
  by destruct (trie_TryGet (db s) addr).
Qed.

Lemma load_present addr s o : stateObjects s !! addr = Some o → load addr s = s.
Proof. intros H. unfold load. by rewrite H. Qed.

Lemma getStateObject_present addr s o :
  stateObjects s !! addr = Some o → deleted o = false →
  getStateObject addr s = Done (Some o, s).
Proof.
  intros Hs Hd. rewrite getStateObject_eq, (load_present _ _ _ Hs).
  by rewrite (live_lookup _ _ _ Hs Hd).
Qed.

Lemma Exist_eq addr s :
  Exist addr s = Done (bool_decide (is_Some (live s addr)), load addr s).
Proof.
  unfold Exist. rewrite (bind_Done _ _ _ _ _ (getStateObject_eq addr s)).
  by destruct (live s addr).
Qed.

Lemma Exist_false addr s s' : Exist addr s = Done (false, s') → live s addr = None.
Proof.
  rewrite Exist_eq. destruct (live s addr); [|done].
  rewrite bool_decide_eq_true_2 by done. by intros [= ].
Qed.

Lemma Exist_true addr s s' :
  Exist addr s = Done (true, s') → ∃ o, live s addr = Some o.
Proof.
  rewrite Exist_eq. destruct (live s addr) as [o|]; [by exists o|].
  rewrite bool_decide_eq_false_2 by (by intros [? ?]). by intros [= ].
Qed.

Lemma GetBalance_eq addr s :
  GetBalance addr s = Done (balance_of s addr, load addr s).
Proof.
  unfold GetBalance, balance_of.
  rewrite (bind_Done _ _ _ _ _ (getStateObject_eq addr s)). by destruct (live s addr).
Qed.

Lemma GetNonce_eq addr s :
  GetNonce addr s = Done (nonce_of s addr, load addr s).
Proof.
  unfold GetNonce, nonce_of.
  rewrite (bind_Done _ _ _ _ _ (getStateObject_eq addr s)). by destruct (live s addr).
Qed.

Lemma HasSuicided_eq addr s :
  HasSuicided addr s
  = Done (match live s addr with Some o => suicided o | None => false end, load addr s).
Proof.
  unfold HasSuicided.
  rewrite (bind_Done _ _ _ _ _ (getStateObject_eq addr s)). by destruct (live s addr).
Qed.

Lemma GetCodeHash_eq addr s :
  GetCodeHash addr s
  = Done (match live s addr with Some o => CodeHash (data o) | None => EmptyString end,
          load addr s).
Proof.
  unfold GetCodeHash.
  rewrite (bind_Done _ _ _ _ _ (getStateObject_eq addr s)). by destruct (live s addr).
Qed.

(** The readers on an object that sits in the live set. *)
Lemma so_Code_cached addr s o c :
  stateObjects s !! addr = Some o → code o = Some c → so_Code addr s = Done (Some c, s).
Proof.
  intros Hs Hc. unfold so_Code.
  rewrite (bind_Done _ _ _ _ _ (deref_eq _ _ _ Hs)), bind_get. by rewrite Hc.
Qed.

Lemma so_Code_empty addr s o :
  stateObjects s !! addr = Some o → code o = None → CodeHash (data o) = emptyCode (db s) →
  so_Code addr s = Done (None, s).
Proof.
  intros Hs Hc Hh. unfold so_Code.
  rewrite (bind_Done _ _ _ _ _ (deref_eq _ _ _ Hs)), bind_get. rewrite Hc.
  by rewrite bool_decide_eq_true_2.
Qed.

Lemma so_GetCommittedState_cached addr key s o v :
  stateObjects s !! addr = Some o → originStorage o !! key = Some v →
  so_GetCommittedState addr key s = Done (v, s).
Proof.
  intros Hs Ho. unfold so_GetCommittedState.
  rewrite (bind_Done _ _ _ _ _ (deref_eq _ _ _ Hs)), bind_get. by rewrite Ho.
Qed.

Lemma so_GetState_dirty addr key s o v :
  stateObjects s !! addr = Some o → dirtyStorage o !! key = Some v →
  so_GetState addr key s = Done (v, s).
Proof.
  intros Hs Ho. unfold so_GetState.
  rewrite (bind_Done _ _ _ _ _ (deref_eq _ _ _ Hs)). by rewrite Ho.
Qed.

(** [so_GetCommittedState] returns the committed value, and caches it in
    the origin storage of the object. *)
Lemma so_GetCommittedState_eq addr key s o :
  stateObjects s !! addr = Some o →
  ∃ o', so_GetCommittedState addr key s
        = Done (committed_of (db s) o key, set_stateObjects (λ m, <[addr := o']> m) s)
        ∧ originStorage o' !! key = Some (committed_of (db s) o key)
        ∧ dirtyStorage o' = dirtyStorage o ∧ deleted o' = deleted o
        ∧ data o' = data o ∧ code o' = code o ∧ suicided o' = suicided o
        ∧ addrHash o' = addrHash o ∧ address o' = address o.
Proof.
  intros Hs. unfold so_GetCommittedState, committed_of.
  rewrite (bind_Done _ _ _ _ _ (deref_eq _ _ _ Hs)), bind_get.
  destruct (originStorage o !! key) as [v|] eqn:Ho.
  - exists o. split; [|done]. unfold ret. do 2 f_equal.
    destruct s. unfold set_stateObjects. simpl in *. f_equal.
    by rewrite insert_id.
  - exists (set_originStorage key (storage_TryGet (db s) (addrHash o) (Root (data o)) key) o).
    split; [by rewrite (bind_assign _ _ _ _ o)|].
    split; [apply lookup_insert_eq|done].
Qed.

(** What [GetOrNewStateObject] leaves: the object of the address, the one
    there was or a fresh one, in the live set; the other addresses as they
    were. *)
Lemma GetOrNewStateObject_eq addr s :
  ∃ s1,
    let o := default (fresh_object (db s) addr) (live s addr) in
    GetOrNewStateObject addr s = Done (Some o, s1)
    ∧ stateObjects s1 !! addr = Some o ∧ deleted o = false
    ∧ db s1 = db s ∧ refund s1 = refund s
    ∧ (∀ b, b ≠ addr → live s1 b = live s b).
Proof.
  unfold GetOrNewStateObject.
  rewrite (bind_Done _ _ _ _ _ (getStateObject_eq addr s)).
  destruct (load_fields addr s) as (Hdb & _).
  assert (Hr : refund (load addr s) = refund s).
  { unfold load. destruct (stateObjects s !! addr); [done|].
    by destruct (trie_TryGet (db s) addr). }
  destruct (live s addr) as [obj|] eqn:Hl.
  - rewrite (live_not_deleted _ _ _ Hl). exists (load addr s). simpl.
    split; [done|]. split; [by apply load_lookup|].
    split; [by eapply live_not_deleted|]. split; [done|]. split; [done|].
    intros b _. apply live_load.
  - rewrite (load_absent _ _ Hl), (bind_Done _ _ _ _ _ (createObject_eq addr s)).
    rewrite (load_absent _ _ Hl). simpl.
    eexists. split; [done|]. simpl.
    split; [apply lookup_insert_eq|]. split; [done|]. split; [done|]. split; [done|].
    intros b Hb. by rewrite live_insert, decide_False.
Qed.

Lemma live_update s addr o b :
  deleted o = false →
  live (set_stateObjects (λ m, <[addr := o]> m) s) b
  = if decide (addr = b) then Some o else live s b.
Proof. intros Hd. by rewrite live_insert, Hd. Qed.

End GetterFacts.

Section SetterFacts.

(** The getters on an object that sits, not deleted, in the live set. *)
Lemma reads_present addr s o :
  stateObjects s !! addr = Some o → deleted o = false →
  Exist addr s = Done (true, s)
  ∧ GetBalance addr s = Done (Balance (data o), s)
  ∧ GetNonce addr s = Done (Nonce (data o), s)
  ∧ GetCodeHash addr s = Done (CodeHash (data o), s)
  ∧ HasSuicided addr s = Done (suicided o, s)
  ∧ Empty addr s = Done (empty (db s) o, s).
Proof.
  intros Hs Hd. pose proof (getStateObject_present _ _ _ Hs Hd) as Hget.
  unfold Exist, GetBalance, GetNonce, GetCodeHash, HasSuicided, Empty.
  by rewrite !(bind_Done _ _ _ _ _ Hget).
Qed.

Lemma so_SetBalance_eq addr amount s o :
  stateObjects s !! addr = Some o →
  so_SetBalance addr amount s
  = Done (tt, set_stateObjects (λ m, <[addr := setBalance amount o]> m)
                (set_journal (journal_append (balanceChange addr (Balance (data o)))) s)).
Proof.
  intros Hs. unfold so_SetBalance.
  rewrite (bind_Done _ _ _ _ _ (deref_eq _ _ _ Hs)).
  unfold append. rewrite bind_modify. by rewrite (assign_eq _ _ _ o).
Qed.

Lemma balance_default s addr :
  Balance (data (default (fresh_object (db s) addr) (live s addr))) = balance_of s addr.
Proof. unfold balance_of. by destruct (live s addr). Qed.

Lemma nonce_default s addr :
  Nonce (data (default (fresh_object (db s) addr) (live s addr))) = nonce_of s addr.
Proof. unfold nonce_of. by destruct (live s addr). Qed.

End SetterFacts.

(** An address for which [Exist] answers false reads as the zero account:
    balance 0, nonce 0, no code, the zero code hash and storage values, not
    suicided, empty; [Suicide] answers false; and none of these calls
    changes the state. *)
Theorem absent_account_reads (addr : Address) (key : Hash) (s s' : StateDB) :
  Exist addr s = Done (false, s') →
  s' = s
  ∧ GetBalance addr s = Done (0, s) ∧ GetNonce addr s = Done (0, s)
  ∧ GetCode addr s = Done (None, s) ∧ GetCodeHash addr s = Done (EmptyString, s)
  ∧ GetState addr key s = Done (EmptyString, s)
  ∧ GetCommittedState addr key s = Done (EmptyString, s)
  ∧ HasSuicided addr s = Done (false, s) ∧ Empty addr s = Done (true, s)
  ∧ Suicide addr s = Done (false, s).
Proof.
  intros Hex. pose proof (Exist_false _ _ _ Hex) as Hl.
  assert (Hget : getStateObject addr s = Done (None, s))
    by (by rewrite getStateObject_eq, Hl, load_absent).
  split.
  { revert Hex. rewrite Exist_eq, load_absent by done. by intros [= _ <-]. }
  unfold GetBalance, GetNonce, GetCode, GetCodeHash, GetState, GetCommittedState,
    HasSuicided, Empty, Suicide.
  by rewrite !(bind_Done _ _ _ _ _ Hget).
Qed.

Lemma absent_account_reads_witness :
  Exist "bob" sample_state = Done (false, sample_state)
  ∧ GetBalance "bob" sample_state = Done (0, sample_state)
  ∧ GetState "bob" "k" sample_state = Done (EmptyString, sample_state)
  ∧ Suicide "bob" sample_state = Done (false, sample_state).
Proof.
  assert (Hex : Exist "bob" sample_state = Done (false, sample_state)) by reflexivity.
  destruct (absent_account_reads "bob" "k" sample_state sample_state Hex)
    as (_ & Hb & _ & _ & _ & Hs & _ & _ & _ & Hsu).
  split; [exact Hex|]. split; [exact Hb|]. split; [exact Hs|exact Hsu].
Defined.

(** [SetBalance] always completes; afterwards the account exists,
    [GetBalance] returns the amount set, the nonce reads as before, and
    every other address resolves to the object it resolved to before. *)
Theorem SetBalance_then_GetBalance (addr : Address) (amount : Z) (s : StateDB) :
  ∃ s', SetBalance addr amount s = Done (tt, s')
    ∧ GetBalance addr s' = Done (amount, s')
    ∧ Exist addr s' = Done (true, s')
    ∧ run_value (GetNonce addr) s' = run_value (GetNonce addr) s
    ∧ ∀ b, b ≠ addr → live s' b = live s b.
Proof.
  destruct (GetOrNewStateObject_eq addr s) as (s1 & Hg & Hs1 & Hd & _ & _ & Hframe).
  simpl in *. set (o := default _ _) in *.
  eexists. split.
  { unfold SetBalance. rewrite (bind_Done _ _ _ _ _ Hg).
    apply (so_SetBalance_eq _ _ _ o Hs1). }
  destruct (reads_present addr
              (set_stateObjects (λ m, <[addr := setBalance amount o]> m)
                 (set_journal (journal_append (balanceChange addr (Balance (data o)))) s1))
              (setBalance amount o))
    as (He & Hb & Hn & _); [simpl; apply lookup_insert_eq|done|].
  split; [exact Hb|]. split; [exact He|]. split.
  - unfold run_value. rewrite Hn, GetNonce_eq. simpl. subst o. by rewrite nonce_default.
  - intros b Hb'. rewrite live_insert, decide_False by done. by apply Hframe.
Qed.

Section StorageFacts.

(** [so_Code] returns the code of the object and caches what it loaded;
    the object stays the same for every getter. *)
Lemma so_Code_eq addr s o :
  stateObjects s !! addr = Some o →
  ∃ o', so_Code addr s
        = Done (code_of (db s) o, set_stateObjects (λ m, <[addr := o']> m) s)
        ∧ data o' = data o ∧ deleted o' = deleted o ∧ suicided o' = suicided o
        ∧ dirtyStorage o' = dirtyStorage o ∧ originStorage o' = originStorage o
        ∧ addrHash o' = addrHash o
        ∧ code_of (db s) o' = code_of (db s) o
        ∧ code o' = code_of (db s) o.
Proof.
  intros Hs. unfold so_Code, code_of.
  rewrite (bind_Done _ _ _ _ _ (deref_eq _ _ _ Hs)), bind_get.
  assert (Hid : set_stateObjects (λ m, <[addr := o]> m) s = s).
  { destruct s. unfold set_stateObjects. simpl in *. f_equal. by rewrite insert_id. }
  destruct (code o) as [c|] eqn:Hc.
  { exists o. rewrite Hid, Hc. done. }
  case_bool_decide as Hh.
  { exists o. rewrite Hid, Hc. by rewrite bool_decide_eq_true_2. }
  exists (set_code (ContractCode (db s) (addrHash o) (CodeHash (data o))) o).
  split; [by rewrite (bind_assign _ _ _ _ o)|]. simpl.
  repeat split; try done.
  destruct (ContractCode (db s) (addrHash o) (CodeHash (data o))); [done|].
  by rewrite bool_decide_eq_false_2.
Qed.

Lemma committed_of_cached d o key k :
  originStorage o !! key = None →
  committed_of d
    (set_originStorage key (storage_TryGet d (addrHash o) (Root (data o)) key) o) k
  = committed_of d o k.
Proof.
  intros Ho. unfold committed_of. simpl. rewrite lookup_insert.
  case_decide as Hk; [|done]. subst k. by rewrite Ho.
Qed.

(** [so_GetState] returns the value of the slot and caches what it loaded;
    the object stays the same for every getter. *)
Lemma so_GetState_eq addr key s o :
  stateObjects s !! addr = Some o →
  ∃ o', so_GetState addr key s
        = Done (state_of (db s) o key, set_stateObjects (λ m, <[addr := o']> m) s)
        ∧ data o' = data o ∧ deleted o' = deleted o ∧ suicided o' = suicided o
        ∧ dirtyStorage o' = dirtyStorage o ∧ code o' = code o
        ∧ addrHash o' = addrHash o
        ∧ (∀ k, committed_of (db s) o' k = committed_of (db s) o k)
        ∧ (dirtyStorage o !! key = None → is_Some (originStorage o' !! key)).
Proof.
  intros Hs. unfold so_GetState, state_of.
  rewrite (bind_Done _ _ _ _ _ (deref_eq _ _ _ Hs)).
  assert (Hid : set_stateObjects (λ m, <[addr := o]> m) s = s).
  { destruct s. unfold set_stateObjects. simpl in *. f_equal. by rewrite insert_id. }
  destruct (dirtyStorage o !! key) as [v|] eqn:Hdirty.
  { exists o. rewrite Hid. done. }
  unfold so_GetCommittedState, committed_of.
  rewrite (bind_Done _ _ _ _ _ (deref_eq _ _ _ Hs)), bind_get.
  destruct (originStorage o !! key) as [v|] eqn:Ho.
  { exists o. rewrite Hid. repeat split; try done. }
  exists (set_originStorage key (storage_TryGet (db s) (addrHash o) (Root (data o)) key) o).
  split; [by rewrite (bind_assign _ _ _ _ o)|]. simpl.
  repeat split; try done.
  - intros k. by apply committed_of_cached.
  - intros _. rewrite lookup_insert_eq. by eexists.
Qed.

Lemma GetState_present addr key s o :
  stateObjects s !! addr = Some o → deleted o = false →
  ∃ o', GetState addr key s
        = Done (state_of (db s) o key, set_stateObjects (λ m, <[addr := o']> m) s)
        ∧ deleted o' = false
        ∧ state_of (db s) o' key = state_of (db s) o key
        ∧ (dirtyStorage o' !! key = None → is_Some (originStorage o' !! key)).
Proof.
  intros Hs Hd. unfold GetState.
  rewrite (bind_Done _ _ _ _ _ (getStateObject_present _ _ _ Hs Hd)).
  destruct (so_GetState_eq addr key s o Hs)
    as (o' & Hrun & _ & Hd' & _ & Hdirty & _ & _ & Hcomm & Horigin).
  exists o'. split; [done|]. split; [congruence|]. split.
  - unfold state_of. by rewrite Hdirty, Hcomm.
  - rewrite Hdirty. apply Horigin.
Qed.

Lemma GetCommittedState_present addr key s o :
  stateObjects s !! addr = Some o → deleted o = false →
  run_value (GetCommittedState addr key) s = Some (committed_of (db s) o key).
Proof.
  intros Hs Hd. unfold run_value, GetCommittedState.
  rewrite (bind_Done _ _ _ _ _ (getStateObject_present _ _ _ Hs Hd)).
  by destruct (so_GetCommittedState_eq addr key s o Hs) as (o' & -> & _).
Qed.

Lemma GetCommittedState_live addr key s p :
  live s addr = Some p →
  run_value (GetCommittedState addr key) s = Some (committed_of (db s) p key).
Proof.
  intros Hl. unfold run_value, GetCommittedState.
  rewrite (bind_Done _ _ _ _ _ (getStateObject_eq addr s)), Hl.
  destruct (so_GetCommittedState_eq addr key (load addr s) p (load_lookup _ _ _ Hl))
    as (p' & -> & _).
  by destruct (load_fields addr s) as (-> & _).
Qed.

Lemma GetCode_present addr s o :
  stateObjects s !! addr = Some o → deleted o = false →
  ∃ o', GetCode addr s
        = Done (code_of (db s) o, set_stateObjects (λ m, <[addr := o']> m) s)
        ∧ deleted o' = false ∧ code_of (db s) o' = code_of (db s) o.
Proof.
  intros Hs Hd. unfold GetCode.
  rewrite (bind_Done _ _ _ _ _ (getStateObject_present _ _ _ Hs Hd)).
  destruct (so_Code_eq addr s o Hs) as (o' & Hrun & _ & Hd' & _ & _ & _ & _ & Hc & _).
  exists o'. split; [done|]. split; [congruence|done].
Qed.

End StorageFacts.

(** [SetState] always completes; afterwards [GetState] returns the value
    set for that slot, every other address resolves to the object it
    resolved to before, and, for an account that existed,
    [GetCommittedState] of the slot returns what it returned before. *)
Theorem SetState_then_GetState (addr : Address) (key value : Hash) (s : StateDB) :
  ∃ s', SetState addr key value s = Done (tt, s')
    ∧ GetState addr key s' = Done (value, s')
    ∧ (∀ b, b ≠ addr → live s' b = live s b)
    ∧ (run_value (Exist addr) s = Some true →
       run_value (GetCommittedState addr key) s'
       = run_value (GetCommittedState addr key) s).
Proof.
  destruct (GetOrNewStateObject_eq addr s) as (s1 & Hg & Hs1 & Hd & Hdb & _ & Hframe).
  simpl in *. set (o := default _ _) in *.
  destruct (so_GetState_eq addr key s1 o Hs1)
    as (o' & Hget & Hdata & Hd' & _ & Hdirty & _ & Hah & Hcomm & _).
  set (s2 := set_stateObjects (λ m, <[addr := o']> m) s1) in *.
  set (s3 := set_stateObjects (λ m, <[addr := setState key value o']> m)
               (set_journal (journal_append
                               (storageChange addr key (state_of (db s1) o key))) s2)).
  assert (Hrun : SetState addr key value s = Done (tt, s3)).
  { unfold SetState. rewrite (bind_Done _ _ _ _ _ Hg). unfold so_SetState.
    rewrite (bind_Done _ _ _ _ _ Hget). unfold append. rewrite bind_modify.
    by rewrite (assign_eq _ _ _ o') by (simpl; apply lookup_insert_eq). }
  assert (Hs3 : stateObjects s3 !! addr = Some (setState key value o'))
    by (simpl; apply lookup_insert_eq).
  assert (Hd3 : deleted (setState key value o') = false) by (simpl; congruence).
  exists s3. split; [exact Hrun|]. split; [|split].
  - unfold GetState.
    rewrite (bind_Done _ _ _ _ _ (getStateObject_present _ _ _ Hs3 Hd3)).
    apply (so_GetState_dirty _ _ _ _ _ Hs3). simpl. apply lookup_insert_eq.
  - intros b Hb. unfold s3. rewrite live_insert, decide_False by done.
    change (live (set_journal ?h s2) b) with (live s2 b).
    unfold s2. rewrite live_insert, decide_False by done. by apply Hframe.
  - rewrite (GetCommittedState_present _ _ _ _ Hs3 Hd3).
    unfold run_value at 1. rewrite Exist_eq.
    destruct (live s addr) as [p|] eqn:Hl; [intros _|by intros [= ]].
    rewrite (GetCommittedState_live _ _ _ _ Hl). f_equal.
    change (committed_of (db s3) (setState key value o') key)
      with (committed_of (db s1) o' key).
    rewrite Hcomm. by rewrite Hdb.
Qed.

(** [SetCode] always completes; afterwards [GetCode] returns the code set
    and [GetCodeHash] its hash, and every other address resolves to the
    object it resolved to before. *)
Theorem SetCode_then_GetCode (addr : Address) (c : option string) (s : StateDB) :
  ∃ s', SetCode addr c s = Done (tt, s')
    ∧ GetCode addr s' = Done (c, s')
    ∧ GetCodeHash addr s' = Done (Keccak256Hash (db s) (default EmptyString c), s')
    ∧ ∀ b, b ≠ addr → live s' b = live s b.
Proof.
  destruct (GetOrNewStateObject_eq addr s) as (s1 & Hg & Hs1 & Hd & Hdb & _ & Hframe).
  simpl in *. set (o := default _ _) in *.
  destruct (so_Code_eq addr s1 o Hs1) as (o' & Hcode & Hdata & Hd' & _).
  set (h := Keccak256Hash (db s) (default EmptyString c)).
  set (s2 := set_stateObjects (λ m, <[addr := o']> m) s1) in *.
  set (s3 := set_stateObjects (λ m, <[addr := setCode h c o']> m)
               (set_journal (journal_append
                               (codeChange addr (CodeHash (data o')) (code_of (db s1) o)))
                  s2)).
  assert (Hrun : SetCode addr c s = Done (tt, s3)).
  { unfold SetCode. rewrite (bind_Done _ _ _ _ _ Hg), bind_get. unfold so_SetCode.
    rewrite (bind_Done _ _ _ _ _ Hcode).
    rewrite (bind_Done _ _ _ _ _ (deref_eq addr s2 o' ltac:(simpl; apply lookup_insert_eq))).
    unfold append. rewrite bind_modify.
    rewrite (assign_eq _ _ _ o') by (simpl; apply lookup_insert_eq).
    unfold s3, h. by rewrite Hdb. }
  assert (Hs3 : stateObjects s3 !! addr = Some (setCode h c o'))
    by (simpl; apply lookup_insert_eq).
  assert (Hd3 : deleted (setCode h c o') = false) by (simpl; congruence).
  exists s3. split; [exact Hrun|]. split; [|split].
  - unfold GetCode.
    rewrite (bind_Done _ _ _ _ _ (getStateObject_present _ _ _ Hs3 Hd3)).
    destruct c as [c|].
    + by apply (so_Code_cached _ _ _ _ Hs3).
    + apply (so_Code_empty _ _ _ Hs3); [done|]. simpl. unfold h, emptyCode. simpl.
      change (db s3) with (db s1). by rewrite Hdb.
  - by destruct (reads_present addr s3 _ Hs3 Hd3) as (_ & _ & _ & -> & _).
  - intros b Hb. unfold s3. rewrite live_insert, decide_False by done.
    change (live (set_journal ?h s2) b) with (live s2 b).
    unfold s2. rewrite live_insert, decide_False by done. by apply Hframe.
Qed.

Section AccountFacts.

Lemma so_AddBalance_eq addr amount s o :
  stateObjects s !! addr = Some o →
  so_AddBalance addr amount s
  = Done (tt, set_stateObjects (λ m, <[addr := setBalance (Balance (data o) + amount) o]> m)
                (set_journal (journal_append (balanceChange addr (Balance (data o)))) s)).
Proof.
  intros Hs. unfold so_AddBalance.
  rewrite (bind_Done _ _ _ _ _ (deref_eq _ _ _ Hs)).
  by apply so_SetBalance_eq.
Qed.

Lemma so_SubBalance_eq addr amount s o :
  stateObjects s !! addr = Some o →
  so_SubBalance addr amount s
  = Done (tt, set_stateObjects (λ m, <[addr := setBalance (Balance (data o) - amount) o]> m)
                (set_journal (journal_append (balanceChange addr (Balance (data o)))) s)).
Proof.
  intros Hs. unfold so_SubBalance.
  rewrite (bind_Done _ _ _ _ _ (deref_eq _ _ _ Hs)).
  by apply so_SetBalance_eq.
Qed.

Lemma GetOrNewStateObject_present addr s o :
  stateObjects s !! addr = Some o → deleted o = false →
  GetOrNewStateObject addr s = Done (Some o, s).
Proof.
  intros Hs Hd. unfold GetOrNewStateObject.
  rewrite (bind_Done _ _ _ _ _ (getStateObject_present _ _ _ Hs Hd)). by rewrite Hd.
Qed.

Lemma GetBalance_present addr s o :
  stateObjects s !! addr = Some o → deleted o = false →
  GetBalance addr s = Done (Balance (data o), s).
Proof. intros Hs Hd. by destruct (reads_present addr s o Hs Hd) as (_ & ? & _). Qed.

Lemma GetBalance_run addr s b s1 :
  GetBalance addr s = Done (b, s1) → b = balance_of s addr.
Proof. rewrite GetBalance_eq. by intros [= <- _]. Qed.

Lemma revert_entry_revisions e s u :
  revert_entry e s = Done (tt, u) →
  validRevisions u = validRevisions s ∧ nextRevisionId u = nextRevisionId s.
Proof.
  destruct e as [a|prev|a p pb|a p|a p|a k p|a h c|p|th|h|a]; simpl;
    try (by intros [= <-]);
    try (rewrite on_object_eq; destruct (live s a); [|done]; intros [= <-]; simpl;
         by destruct (load_fields a s) as (_ & _ & -> & ->)).
  - rewrite (bind_Done _ _ _ _ _ (getStateObject_eq a s)).
    destruct (live s a) as [o|] eqn:Hl.
    + rewrite (bind_assign a (set_suicided p) _ _ o) by by apply load_lookup.
      rewrite (assign_eq a (setBalance pb) _ (set_suicided p o))
        by (simpl; apply lookup_insert_eq).
      intros [= <-]. simpl. by destruct (load_fields a s) as (_ & _ & -> & ->).
    + intros [= <-]. by destruct (load_fields a s) as (_ & _ & -> & ->).
  - rewrite bind_get. destruct (default [] (logs s !! th)); [done|]. by intros [= <-].
Qed.

Lemma revert_entries_revisions es : ∀ s u,
  revert_entries es s = Done (tt, u) →
  validRevisions u = validRevisions s ∧ nextRevisionId u = nextRevisionId s.
Proof.
  induction es as [|e es IH]; intros s u; simpl.
  { by intros [= <-]. }
  unfold bind. destruct (revert_entry e s) as [[[] v]| |] eqn:Hv; [|done..].
  intros Hu. destruct (revert_entry_revisions _ _ _ Hv) as [<- <-]. by apply IH.
Qed.

(** The revisions a completed revert leaves. *)
Lemma RevertToSnapshot_revisions revid s s' :
  RevertToSnapshot revid s = Done (tt, s') →
  ∃ r,
    validRevisions s
      !! sort_Search (length (validRevisions s)) (at_least (validRevisions s) revid)
    = Some r
    ∧ id r = revid
    ∧ validRevisions s'
      = take (sort_Search (length (validRevisions s)) (at_least (validRevisions s) revid))
          (validRevisions s).
Proof.
  unfold RevertToSnapshot. rewrite bind_get.
  set (idx := sort_Search _ _).
  destruct (validRevisions s !! idx) as [r|] eqn:Hr; [|done].
  case_bool_decide as Hid; [done|].
  unfold bind at 1. destruct (journal_revert (journalIndex r) s) as [[[] u]| |] eqn:Hu;
    [|done..].
  intros [= <-]. exists r. split; [done|]. split; [by destruct (decide (id r = revid))|].
  simpl. f_equal. revert Hu. unfold journal_revert. rewrite bind_get.
  case_bool_decide; [done|]. unfold bind.
  destruct (revert_entries _ s) as [[[] v]| |] eqn:Hv; [|done..].
  intros [= <-]. simpl. by destruct (revert_entries_revisions _ _ _ Hv) as [-> _].
Qed.

Lemma RevertToSnapshot_unknown revid s :
  revid ∉ id <$> validRevisions s → RevertToSnapshot revid s = Panicked.
Proof.
  intros Hnot. unfold RevertToSnapshot. rewrite bind_get.
  destruct (validRevisions s !! _) as [r|] eqn:Hr; [|done].
  rewrite bool_decide_eq_true_2; [done|].
  intros Hid. apply Hnot. apply list_elem_of_fmap. exists r.
  split; [done|]. by eapply list_elem_of_lookup_2.
Qed.

End AccountFacts.

(** [AddBalance] adds the amount to what [GetBalance] returned, creating
    the account if there was none, and [SubBalance] of the same amount
    takes the balance back; [SubBalance] checks no funds: the balance may
    go below zero. *)
Theorem AddBalance_then_SubBalance (addr : Address) (amount b : Z) (s s1 : StateDB) :
  GetBalance addr s = Done (b, s1) →
  ∃ s2 s3,
    AddBalance addr amount s = Done (tt, s2)
    ∧ GetBalance addr s2 = Done (b + amount, s2)
    ∧ SubBalance addr amount s2 = Done (tt, s3)
    ∧ GetBalance addr s3 = Done (b, s3)
    ∧ ∃ s4, SubBalance addr amount s3 = Done (tt, s4)
            ∧ GetBalance addr s4 = Done (b - amount, s4).
Proof.
  intros ->%GetBalance_run.
  destruct (GetOrNewStateObject_eq addr s) as (s' & Hg & Hs' & Hd & _).
  simpl in *. rewrite <- balance_default. set (o := default _ _) in *.
  assert (Hstep : ∀ t p x,
            stateObjects t !! addr = Some p → deleted p = false →
            ∃ t', SubBalance addr x t = Done (tt, t')
                  ∧ stateObjects t' !! addr = Some (setBalance (Balance (data p) - x) p)
                  ∧ GetBalance addr t' = Done (Balance (data p) - x, t')).
  { intros t p x Ht Hp. eexists. split.
    - unfold SubBalance. rewrite (bind_Done _ _ _ _ _ (GetOrNewStateObject_present _ _ _ Ht Hp)).
      by apply so_SubBalance_eq.
    - split; [simpl; apply lookup_insert_eq|].
      by apply (GetBalance_present _ _ (setBalance (Balance (data p) - x) p));
        [simpl; apply lookup_insert_eq|]. }
  set (s2 := set_stateObjects (λ m, <[addr := setBalance (Balance (data o) + amount) o]> m)
               (set_journal (journal_append (balanceChange addr (Balance (data o)))) s')).
  assert (Hs2 : stateObjects s2 !! addr = Some (setBalance (Balance (data o) + amount) o))
    by (simpl; apply lookup_insert_eq).
  destruct (Hstep s2 _ amount Hs2 Hd) as (s3 & Hsub & Hs3 & Hget3).
  destruct (Hstep s3 _ amount Hs3 Hd) as (s4 & Hsub4 & _ & Hget4).
  simpl in Hget3, Hget4.
  exists s2, s3. split.
  { unfold AddBalance. rewrite (bind_Done _ _ _ _ _ Hg). by apply so_AddBalance_eq. }
  split; [by apply (GetBalance_present _ _ _ Hs2)|]. split; [exact Hsub|].
  replace (Balance (data o) + amount - amount) with (Balance (data o)) in * by lia.
  split; [exact Hget3|]. by exists s4.
Qed.

Lemma AddBalance_then_SubBalance_witness :
  let s1 := run_state (GetBalance "alice") sample_state in
  GetBalance "alice" sample_state = Done (100, s1)
  ∧ ∃ s2 s3,
      AddBalance "alice" 150 sample_state = Done (tt, s2)
      ∧ GetBalance "alice" s2 = Done (100 + 150, s2)
      ∧ SubBalance "alice" 150 s2 = Done (tt, s3)
      ∧ GetBalance "alice" s3 = Done (100, s3)
      ∧ ∃ s4, SubBalance "alice" 150 s3 = Done (tt, s4)
              ∧ GetBalance "alice" s4 = Done (100 - 150, s4).
Proof.
  intros s1.
  assert (Hget : GetBalance "alice" sample_state = Done (100, s1))
    by (apply (run_Done (GetBalance "alice") sample_state 100); vm_compute; reflexivity).
  split; [exact Hget|].
  exact (AddBalance_then_SubBalance "alice" 150 100 sample_state s1 Hget).
Defined.

(** [CreateAccount] always completes and leaves a new account under the
    address that carries the balance [GetBalance] returned before, with
    nonce 0, no code, not suicided; every other address resolves to the
    object it resolved to before. *)
Theorem CreateAccount_carries_balance (addr : Address) (s : StateDB) :
  ∃ s', CreateAccount addr s = Done (tt, s')
    ∧ run_value (GetBalance addr) s' = run_value (GetBalance addr) s
    ∧ GetNonce addr s' = Done (0, s')
    ∧ GetCode addr s' = Done (None, s')
    ∧ HasSuicided addr s' = Done (false, s')
    ∧ Exist addr s' = Done (true, s')
    ∧ ∀ b, b ≠ addr → live s' b = live s b.
Proof.
  set (s1 := set_stateObjects (λ m, <[addr := fresh_object (db s) addr]> m)
               (set_journal (journal_append (creation_entry addr (live s addr)))
                  (load addr s))).
  set (o := setBalance (balance_of s addr) (fresh_object (db s) addr)).
  assert (Hrun : ∃ s', CreateAccount addr s = Done (tt, s')
                       ∧ stateObjects s' !! addr = Some o ∧ db s' = db s
                       ∧ ∀ b, b ≠ addr → live s' b = live s b).
  { unfold CreateAccount. rewrite (bind_Done _ _ _ _ _ (createObject_eq addr s)).
    fold s1. simpl. destruct (load_fields addr s) as (Hdb & _).
    unfold o, balance_of. destruct (live s addr) as [prev|] eqn:Hl.
    - rewrite (assign_eq _ _ _ (fresh_object (db s) addr))
        by (simpl; apply lookup_insert_eq).
      eexists. split; [done|]. split; [simpl; apply lookup_insert_eq|].
      split; [done|]. intros b Hb. unfold s1.
      rewrite !live_insert, !decide_False by done.
      change (live (set_journal ?h ?t) b) with (live t b). apply live_load.
    - exists s1. split; [done|]. split; [simpl; apply lookup_insert_eq|].
      split; [done|]. intros b Hb. unfold s1. rewrite live_insert, decide_False by done.
      change (live (set_journal ?h ?t) b) with (live t b). apply live_load. }
  destruct Hrun as (s' & Hrun & Hs' & Hdb & Hframe).
  assert (Hd : deleted o = false) by done.
  destruct (reads_present addr s' o Hs' Hd) as (He & Hb & Hn & _ & Hsu & _).
  exists s'. split; [exact Hrun|]. split.
  { unfold run_value. by rewrite Hb, GetBalance_eq. }
  split; [exact Hn|]. split.
  { unfold GetCode. rewrite (bind_Done _ _ _ _ _ (getStateObject_present _ _ _ Hs' Hd)).
    apply (so_Code_empty _ _ _ Hs'); [done|]. simpl. by rewrite Hdb. }
  split; [exact Hsu|]. split; [exact He|exact Hframe].
Qed.

(** [Suicide] of an account that exists answers true; afterwards the
    account still exists, is marked suicided and has balance 0, while its
    nonce reads as before. *)
Theorem Suicide_clears_balance (addr : Address) (s s1 : StateDB) :
  Exist addr s = Done (true, s1) →
  ∃ s', Suicide addr s = Done (true, s')
    ∧ Exist addr s' = Done (true, s')
    ∧ HasSuicided addr s' = Done (true, s')
    ∧ GetBalance addr s' = Done (0, s')
    ∧ run_value (GetNonce addr) s' = run_value (GetNonce addr) s
    ∧ ∀ b, b ≠ addr → live s' b = live s b.
Proof.
  intros [o Hl]%Exist_true.
  pose proof (load_lookup _ _ _ Hl) as Hs1.
  pose proof (live_not_deleted _ _ _ Hl) as Hd.
  set (o' := setBalance 0 (markSuicided o)).
  eexists. split.
  { unfold Suicide. rewrite (bind_Done _ _ _ _ _ (getStateObject_eq addr s)), Hl.
    unfold append. rewrite bind_modify.
    rewrite (bind_assign addr markSuicided _ _ o) by done.
    rewrite (bind_assign addr (setBalance 0) _ _ (markSuicided o))
      by (simpl; apply lookup_insert_eq).
    reflexivity. }
  match goal with |- context [Exist addr ?t] => set (s' := t) end.
  assert (Hs' : stateObjects s' !! addr = Some o').
  { unfold s'. simpl. rewrite insert_insert_eq. apply lookup_insert_eq. }
  destruct (reads_present addr s' o' Hs' Hd) as (He & Hb & Hn & _ & Hsu & _).
  split; [exact He|]. split; [exact Hsu|]. split; [exact Hb|]. split.
  - unfold run_value. rewrite Hn, GetNonce_eq. unfold nonce_of. by rewrite Hl.
  - intros b Hb'. unfold s'. rewrite !live_insert, !decide_False by done.
    change (live (set_journal ?h ?t) b) with (live t b). apply live_load.
Qed.

Lemma Suicide_clears_balance_witness :
  let s1 := run_state (Exist "alice") sample_state in
  Exist "alice" sample_state = Done (true, s1)
  ∧ ∃ s', Suicide "alice" sample_state = Done (true, s')
      ∧ Exist "alice" s' = Done (true, s')
      ∧ HasSuicided "alice" s' = Done (true, s')
      ∧ GetBalance "alice" s' = Done (0, s')
      ∧ run_value (GetNonce "alice") s' = run_value (GetNonce "alice") sample_state
      ∧ ∀ b, b ≠ "alice"%string → live s' b = live sample_state b.
Proof.
  intros s1.
  assert (Hex : Exist "alice" sample_state = Done (true, s1))
    by (apply (run_Done (Exist "alice") sample_state true); vm_compute; reflexivity).
  split; [exact Hex|].
  exact (Suicide_clears_balance "alice" sample_state s1 Hex).
Defined.

(** The refund counter is a [uint64]: [AddRefund] followed by [SubRefund]
    of the same gas takes the counter back when the sum fits in 64 bits;
    when it does not, the sum has wrapped around and [SubRefund] panics. *)
Theorem AddRefund_then_SubRefund (gas : Z) (s : StateDB) :
  0 ≤ gas < 2 ^ 64 →
  0 ≤ refund s < 2 ^ 64 →
  (refund s + gas < 2 ^ 64 →
   ∃ s', (AddRefund gas;;; SubRefund gas) s = Done (tt, s')
         ∧ GetRefund s' = GetRefund s)
  ∧ (2 ^ 64 ≤ refund s + gas → (AddRefund gas;;; SubRefund gas) s = Panicked).
Proof.
  intros Hgas Hrefund.
  assert (Hrun : (AddRefund gas;;; SubRefund gas) s
                 = SubRefund gas
                     (set_refund (uint64 (refund s + gas))
                        (set_journal (journal_append (refundChange (refund s))) s))).
  { unfold AddRefund, append. unfold bind at 1. rewrite bind_get, bind_modify. done. }
  rewrite Hrun. unfold SubRefund, append. rewrite bind_get, bind_modify. simpl.
  unfold uint64. split; intros Hsum.
  - rewrite Z.mod_small by lia.
    destruct (refund s + gas <? gas) eqn:Hlt; [lia|].
    eexists. split; [reflexivity|]. unfold GetRefund. simpl. lia.
  - replace ((refund s + gas) mod 2 ^ 64) with (refund s + gas - 2 ^ 64).
    + destruct (refund s + gas - 2 ^ 64 <? gas) eqn:Hlt; [done|lia].
    + apply (Z.mod_unique_pos _ _ 1); lia.
Qed.

Lemma AddRefund_then_SubRefund_witness :
  let s := set_refund (2 ^ 64 - 1) sample_state in
  (∃ s', (AddRefund 5;;; SubRefund 5) sample_state = Done (tt, s')
         ∧ GetRefund s' = GetRefund sample_state)
  ∧ (AddRefund 5;;; SubRefund 5) s = Panicked.
Proof.
  intros s. split.
  - apply (AddRefund_then_SubRefund 5 sample_state); cbn; lia.
  - apply (AddRefund_then_SubRefund 5 s); cbn; lia.
Defined.

(** [RevertToSnapshot] with an id that no valid revision carries panics,
    whatever order the revisions are in. *)
Theorem RevertToSnapshot_unknown_id_panics (revid : Z) (s : StateDB) :
  revid ∉ id <$> validRevisions s →
  RevertToSnapshot revid s = Panicked.
Proof. apply RevertToSnapshot_unknown. Qed.

Lemma RevertToSnapshot_unknown_id_panics_witness :
  let s := run_state (Snapshot;;; Snapshot) sample_state in
  (Snapshot;;; Snapshot) sample_state = Done (1, s)
  ∧ RevertToSnapshot 2 s = Panicked.
Proof.
  intros s. split.
  - apply (run_Done (Snapshot;;; Snapshot) sample_state 1). vm_compute. reflexivity.
  - apply (RevertToSnapshot_unknown_id_panics 2 s). vm_compute.
    intros H. repeat (apply elem_of_cons in H as [H|H]; [discriminate H|]).
    by apply elem_of_nil in H.
Defined.

(** A snapshot id is used up by a revert: once [RevertToSnapshot] has
    completed for an id, reverting again to that id, or to the id of any
    snapshot taken after it, panics. *)
Theorem reverted_ids_are_invalid (revid later : Z) (s s' : StateDB) :
  StronglySorted Z.lt (id <$> validRevisions s) →
  RevertToSnapshot revid s = Done (tt, s') →
  revid ≤ later →
  RevertToSnapshot later s' = Panicked.
Proof.
  intros Hsorted Hrun Hlater.
  destruct (RevertToSnapshot_revisions _ _ _ Hrun) as (r & Hr & Hid & Hrevs).
  apply RevertToSnapshot_unknown. rewrite Hrevs.
  intros (rj & Hrj & Hin)%list_elem_of_fmap.
  apply list_elem_of_lookup in Hin as [j Hj].
  apply lookup_take_Some in Hj as [Hj Hlt].
  pose proof (search_found _ _ _ Hsorted Hr Hid j rj Hj Hlt). lia.
Qed.

Lemma reverted_ids_are_invalid_witness :
  let s := run_state (Snapshot;;; AddRefund 7;;; Snapshot) sample_state in
  let s' := run_state (RevertToSnapshot 0) s in
  RevertToSnapshot 0 s = Done (tt, s')
  ∧ RevertToSnapshot 0 s' = Panicked ∧ RevertToSnapshot 1 s' = Panicked.
Proof.
  intros s s'.
  assert (Hrun : RevertToSnapshot 0 s = Done (tt, s'))
    by (apply (run_Done (RevertToSnapshot 0) s tt); vm_compute; reflexivity).
  assert (Hsorted : StronglySorted Z.lt (id <$> validRevisions s)).
  { vm_compute. constructor; [constructor; [constructor|constructor]|].
    constructor; [reflexivity|constructor]. }
  split; [exact Hrun|]. split.
  - exact (reverted_ids_are_invalid 0 0 s s' Hsorted Hrun ltac:(lia)).
  - exact (reverted_ids_are_invalid 0 1 s s' Hsorted Hrun ltac:(lia)).
Defined.

(** [clearJournalAndRefund] always completes; it zeroes the refund counter
    and leaves no snapshot to revert to: every [RevertToSnapshot] panics
    afterwards, while the accounts, logs and preimages stay as they are. *)
Theorem clearJournalAndRefund_forgets_snapshots (s : StateDB) :
  ∃ s', clearJournalAndRefund s = Done (tt, s')
    ∧ GetRefund s' = 0
    ∧ (∀ revid, RevertToSnapshot revid s' = Panicked)
    ∧ stateObjects s' = stateObjects s ∧ logs s' = logs s
    ∧ Preimages s' = Preimages s ∧ nextRevisionId s' = nextRevisionId s.
Proof.
  eexists. split; [reflexivity|]. split; [done|]. split; [|done].
  intros revid. apply RevertToSnapshot_unknown. simpl. apply not_elem_of_nil.
Qed.

(** After [Prepare], [AddLog] of a pointer to a log object stamps that
    object in place with the transaction hash, the block hash and the
    transaction index given to [Prepare] and with the running log index,
    and appends the pointer to the pointers [GetLogs] returns for that
    transaction hash. No other log object is written, and the pointers of
    every other hash stay as they are; an entry that already holds the
    same pointer reads with the new stamp from then on. With a nil pointer
    [AddLog] panics. *)
Theorem AddLog_then_GetLogs (th bh : Hash) (ti : Z) (log : LogPtr) (w : World) :
  (memory w !! log = None →
   (on_db (Prepare th bh ti);;; AddLog log) w = Panicked)
  ∧ (∀ l, memory w !! log = Some l →
     ∃ w', (on_db (Prepare th bh ti);;; AddLog log) w = Done (tt, w')
       ∧ GetLogs th (statedb w') = GetLogs th (statedb w) ++ [log]
       ∧ memory w'
         = <[log := mkLog (log_Address l) (log_Topics l) (log_Data l)
                      (log_BlockNumber l) th (uint64 ti) bh (logSize (statedb w))
                      (log_Removed l)]> (memory w)
       ∧ logSize (statedb w') = uint64 (logSize (statedb w) + 1)
       ∧ (∀ h, h ≠ th → GetLogs h (statedb w') = GetLogs h (statedb w))
       ∧ (∀ h, read_logs h w'
               = (λ p, if decide (p = log) then memory w' !! log else memory w !! p)
                   <$> GetLogs h (statedb w'))).
Proof.
  set (w1 := mkWorld (set_tx th bh ti (statedb w)) (memory w)).
  assert (Hprep : on_db (Prepare th bh ti) w = Done (tt, w1)) by reflexivity.
  rewrite (bind_Done _ _ _ _ _ Hprep).
  split; [intros Hl; exact (AddLog_nil log w1 Hl)|]. intros l Hl.
  rewrite (AddLog_eq log w1 l Hl). eexists. split; [reflexivity|].
  unfold GetLogs. simpl.
  split; [by rewrite lookup_insert_eq|]. split; [done|]. split; [done|].
  split; [intros h Hh; by rewrite lookup_insert_ne|].
  intros h. unfold read_logs. simpl. apply list_fmap_ext. intros i p _.
  case_decide as Hp; [by subst p|]. by rewrite lookup_insert_ne.
Qed.

Lemma AddLog_then_GetLogs_witness :
  let w1 := run_state (on_db (Prepare "tx2" "b2" 1);;; AddLog 1%positive) logged_world in
  (on_db (Prepare "tx2" "b2" 1);;; AddLog 1%positive) logged_world = Done (tt, w1)
  ∧ GetLogs "tx1" (statedb w1) = [1%positive]
  ∧ GetLogs "tx2" (statedb w1) = [1%positive]
  ∧ read_logs "tx1" w1 = [Some (mkLog "alice" [] "data" 7 "tx2" 1 "b2" 1 false)]
  ∧ read_logs "tx2" w1 = [Some (mkLog "alice" [] "data" 7 "tx2" 1 "b2" 1 false)].
Proof.
  intros w1.
  assert (Hl : memory logged_world !! 1%positive
               = Some (mkLog "alice" [] "data" 7 "tx1" 0 "b1" 0 false))
    by (vm_compute; reflexivity).
  destruct (proj2 (AddLog_then_GetLogs "tx2" "b2" 1 1%positive logged_world) _ Hl)
    as (w' & Hrun & _).
  assert (Hw1 : w1 = w') by (unfold w1, run_state; by rewrite Hrun).
  rewrite Hw1. split; [exact Hrun|]. rewrite <- Hw1.
  vm_compute. done.
Defined.

Section ReadFacts.

Lemma GetState_total addr key s : ∃ v s1, GetState addr key s = Done (v, s1).
Proof.
  unfold GetState. rewrite (bind_Done _ _ _ _ _ (getStateObject_eq addr s)).
  destruct (live s addr) as [o|] eqn:Hl; [|by eexists _, _].
  destruct (so_GetState_eq addr key (load addr s) o (load_lookup _ _ _ Hl))
    as (o' & -> & _).
  by eexists _, _.
Qed.

Lemma GetCode_total addr s : ∃ c s1, GetCode addr s = Done (c, s1).
Proof.
  unfold GetCode. rewrite (bind_Done _ _ _ _ _ (getStateObject_eq addr s)).
  destruct (live s addr) as [o|] eqn:Hl; [|by eexists _, _].
  destruct (so_Code_eq addr (load addr s) o (load_lookup _ _ _ Hl)) as (o' & -> & _).
  by eexists _, _.
Qed.

(** A read that has completed returns the same on the state it left, and
    leaves that state as it is. *)
Lemma reads_repeat (addr : Address) (key : Hash) (s : StateDB) :
  (∀ v s1, GetState addr key s = Done (v, s1) → GetState addr key s1 = Done (v, s1))
  ∧ (∀ c s1, GetCode addr s = Done (c, s1) → GetCode addr s1 = Done (c, s1)).
Proof.
  assert (Hid : ∀ t o, stateObjects t !! addr = Some o →
                       set_stateObjects (λ m, <[addr := o]> m) t = t).
  { intros t o Ht. destruct t. unfold set_stateObjects. simpl in *. f_equal.
    by rewrite insert_id. }
  split.
  - intros v s1. unfold GetState at 1.
    rewrite (bind_Done _ _ _ _ _ (getStateObject_eq addr s)).
    destruct (live s addr) as [o|] eqn:Hl.
    + pose proof (load_lookup _ _ _ Hl) as Hs.
      pose proof (live_not_deleted _ _ _ Hl) as Hd.
      destruct (so_GetState_eq addr key (load addr s) o Hs)
        as (o' & -> & _ & Hd' & _ & Hdirty & _ & _ & Hcomm & Horigin).
      intros [= <- <-].
      set (s1 := set_stateObjects _ _).
      assert (Hs1 : stateObjects s1 !! addr = Some o') by (simpl; apply lookup_insert_eq).
      unfold GetState.
      rewrite (bind_Done _ _ _ _ _ (getStateObject_present _ _ _ Hs1 ltac:(congruence))).
      unfold state_of. rewrite <- Hdirty.
      destruct (dirtyStorage o' !! key) as [v|] eqn:Hv.
      * by apply (so_GetState_dirty _ _ _ _ _ Hs1).
      * unfold so_GetState. rewrite (bind_Done _ _ _ _ _ (deref_eq _ _ _ Hs1)), Hv.
        rewrite <- Hdirty in Horigin. destruct (Horigin Hv) as [w Hw].
        rewrite (so_GetCommittedState_cached _ _ _ _ _ Hs1 Hw).
        do 2 f_equal. rewrite <- Hcomm. unfold committed_of. by rewrite Hw.
    + rewrite (load_absent _ _ Hl). intros [= <- <-]. unfold GetState.
      by rewrite (bind_Done _ _ _ _ _ (getStateObject_eq addr s)), Hl, (load_absent _ _ Hl).
  - intros c s1. unfold GetCode at 1.
    rewrite (bind_Done _ _ _ _ _ (getStateObject_eq addr s)).
    destruct (live s addr) as [o|] eqn:Hl.
    + pose proof (load_lookup _ _ _ Hl) as Hs.
      pose proof (live_not_deleted _ _ _ Hl) as Hd.
      destruct (so_Code_eq addr (load addr s) o Hs)
        as (o' & -> & _ & Hd' & _ & _ & _ & _ & Hc & Hcached).
      intros [= <- <-].
      set (s1 := set_stateObjects _ _).
      assert (Hs1 : stateObjects s1 !! addr = Some o') by (simpl; apply lookup_insert_eq).
      unfold GetCode.
      rewrite (bind_Done _ _ _ _ _ (getStateObject_present _ _ _ Hs1 ltac:(congruence))).
      rewrite <- Hcached.
      destruct (code o') as [c|] eqn:Hcode; [by apply (so_Code_cached _ _ _ _ Hs1)|].
      revert Hc. rewrite <- Hcached. unfold code_of. rewrite Hcode. intros Hc.
      unfold so_Code. rewrite (bind_Done _ _ _ _ _ (deref_eq _ _ _ Hs1)), bind_get, Hcode.
      change (db s1) with (db (load addr s)).
      destruct (bool_decide (CodeHash (data o') = emptyCode (db (load addr s)))); [done|].
      rewrite Hc, (bind_assign _ _ _ _ o') by done. unfold ret. do 2 f_equal.
      rewrite <- (Hid s1 o' Hs1) at 2. do 3 f_equal.
      destruct o'. unfold set_code. simpl in *. by rewrite Hcode.
    + rewrite (load_absent _ _ Hl). intros [= <- <-]. unfold GetCode.
      by rewrite (bind_Done _ _ _ _ _ (getStateObject_eq addr s)), Hl, (load_absent _ _ Hl).
Qed.

End ReadFacts.

(** Reads complete and are repeatable: [GetState] and [GetCode] return a
    value, and return the same value when called again on the state they
    left; this second call changes nothing (what the first call loaded is
    cached). *)
Theorem reads_are_repeatable (addr : Address) (key : Hash) (s : StateDB) :
  (∃ v s1, GetState addr key s = Done (v, s1) ∧ GetState addr key s1 = Done (v, s1))
  ∧ (∃ c s1, GetCode addr s = Done (c, s1) ∧ GetCode addr s1 = Done (c, s1)).
Proof.
  destruct (reads_repeat addr key s) as [Hstate Hcode]. split.
  - destruct (GetState_total addr key s) as (v & s1 & Hrun).
    exists v, s1. split; [done|]. by apply Hstate.
  - destruct (GetCode_total addr s) as (c & s1 & Hrun).
    exists c, s1. split; [done|]. by apply Hcode.
Qed.

End StateFacts.
